(** * The local scheduler's scheduling algorithm

    A shallow embedding of [src/local_scheduler/local_scheduler_algorithm.cc]
    and the properties of its state machine.

    Conventions of the embedding.
    - Every function takes the collaborator state ([LocalSchedulerState], the
      fields of it that this file reads or that its callees write) and the
      [SchedulingAlgorithmState] and returns the new ones: explicit state
      passing in the order of the source's statements.
    - A failed [CHECK] ends the process ([Fatal]); a use of an invalidated
      list iterator or of a null handle is [Undefined].
    - Calls into collaborators (worker assignment, task table, object store,
      worker spawn, [LOG_INFO] and [LOG_WARN], [TaskSpec_free]) are appended
      to the [effects] log of the collaborator state, in call order.
      [LOG_DEBUG] and the debug printers are left out, as are the destructor
      [SchedulingAlgorithmState_free] and [print_worker_info].
    - [int64_t] and [double] quantities are integers ([Z]).  The increment
      of an actor's [task_counter] at [INT64_MAX] overflows a signed integer
      and is [Undefined]; the lengths of the queues stay far below that
      bound.  Rounding of [double] is outside the development. *)

From stdpp Require Import gmap list strings.
From Stdlib Require Import ZArith.

Local Open Scope Z_scope.

(** ** Identifiers *)

(** The 20-byte unique identifiers, read as numbers. *)
Definition UniqueID : Type := N.
Abbreviation ObjectID := UniqueID (only parsing).
Abbreviation ActorID := UniqueID (only parsing).
Abbreviation WorkerID := UniqueID (only parsing).
Abbreviation TaskID := UniqueID (only parsing).
Abbreviation DBClientID := UniqueID (only parsing).

(** All twenty bytes set to 0xff. *)
Definition NIL_ID : UniqueID := N.ones 160.
Definition NIL_ACTOR_ID : ActorID := NIL_ID.

Definition UniqueID_equal (a b : UniqueID) : bool := bool_decide (a = b).
Definition ObjectID_equal := UniqueID_equal.
Definition ActorID_equal := UniqueID_equal.
Definition WorkerID_equal := UniqueID_equal.
Definition DBClientID_equal := UniqueID_equal.

(** ** Task specifications *)

Inductive TaskArg :=
| ArgByRef (id : ObjectID)
| ArgByVal (data : list Byte.byte).

(** Modelled from the spec: the task specification and its accessors
    ([common/task.h] is not part of the sources).  A specification is an
    immutable payload with a driver id, a task id, an actor id, an actor
    counter, arguments that are by-reference object ids or inline values, and
    one required quantity per resource kind. *)
Record TaskSpec := {
  spec_driver_id : WorkerID;
  spec_task_id : TaskID;
  spec_actor_id : ActorID;
  spec_actor_counter : Z;
  spec_args : list TaskArg;
  spec_required_resources : list Z
}.

Definition TaskSpec_driver_id (spec : TaskSpec) : WorkerID := spec_driver_id spec.
Definition TaskSpec_actor_id (spec : TaskSpec) : ActorID := spec_actor_id spec.
Definition TaskSpec_actor_counter (spec : TaskSpec) : Z := spec_actor_counter spec.
Definition TaskSpec_num_args (spec : TaskSpec) : nat := length (spec_args spec).

Definition TaskSpec_arg_by_ref (spec : TaskSpec) (i : nat) : bool :=
  match spec_args spec !! i with
  | Some (ArgByRef _) => true
  | _ => false
  end.

Definition TaskSpec_arg_id (spec : TaskSpec) (i : nat) : ObjectID :=
  match spec_args spec !! i with
  | Some (ArgByRef id) => id
  | _ => NIL_ID
  end.

Definition TaskSpec_get_required_resource (spec : TaskSpec) (i : nat) : Z :=
  nth i (spec_required_resources spec) 0.

(** Modelled from the spec: "every task that references obj_id by ref". *)
Definition TaskSpec_is_dependent_on (spec : TaskSpec) (object_id : ObjectID) : bool :=
  existsb (fun i => TaskSpec_arg_by_ref spec i
                    && ObjectID_equal (TaskSpec_arg_id spec i) object_id)
          (seq 0 (TaskSpec_num_args spec)).

(** ** The algorithm's data *)

Record TaskQueueEntry := {
  spec : TaskSpec;
  task_spec_size : Z
}.

(** A [std::list<TaskQueueEntry>::iterator]: the identity of a list node. *)
Definition Cursor : Type := nat.

Record ObjectEntry := {
  object_id : ObjectID;
  dependent_tasks : list Cursor
}.

(** A [LocalSchedulerClient *] is the address of the client; [None] is NULL. *)
Definition ClientPtr : Type := N.

(** The fields of a client that this file reads through the pointer it is
    given, together with the pointer. *)
Record LocalSchedulerClient := {
  client_ptr : ClientPtr;
  task_in_progress : option TaskSpec;
  client_actor_id : ActorID
}.

Record LocalActorInfo := {
  actor_id : ActorID;
  task_counter : Z;
  task_queue : list TaskQueueEntry;
  worker : option ClientPtr;
  worker_available : bool
}.

(** The waiting and dispatch queues keep the identity of each node next to its
    entry: [queue_task] returns an iterator and the object tables hold
    iterators into the waiting queue.  [next_node] is the identity that the
    next [push_back] on either queue allocates.  No iterator into an actor's
    queue outlives the loop that uses it, so these are plain sequences. *)
Record SchedulingAlgorithmState := {
  waiting_task_queue : list (Cursor * TaskQueueEntry);
  next_node : Cursor;
  dispatch_task_queue : list (Cursor * TaskQueueEntry);
  local_actor_infos : gmap UniqueID LocalActorInfo;
  cached_submitted_actor_tasks : list TaskSpec;
  cached_submitted_actor_task_sizes : list Z;
  available_workers : list ClientPtr;
  executing_workers : list ClientPtr;
  blocked_workers : list ClientPtr;
  local_objects : gmap UniqueID ObjectEntry;
  remote_objects : gmap UniqueID ObjectEntry
}.

(** ** Collaborators *)

Inductive TaskStatus := TASK_STATUS_WAITING | TASK_STATUS_SCHEDULED | TASK_STATUS_QUEUED.

(** The result of [Task_alloc]. *)
Record Task := {
  task_spec : TaskSpec;
  task_size : Z;
  task_status : TaskStatus;
  task_local_scheduler : DBClientID
}.

Inductive Effect :=
| AssignTask (s : TaskSpec) (size : Z) (w : option ClientPtr)
| FreeSpec (s : TaskSpec)
| StartWorker (a : ActorID)
| PlasmaFetch (ids : list ObjectID)
| ReconstructObject (id : ObjectID)
| TaskTableAdd (t : Task)
| TaskTableUpdate (t : Task)
| LogInfo (msg : string)
| LogWarn (msg : string).

Record LocalSchedulerState := {
  db : option DBClientID;
  global_scheduler_exists : bool;
  actor_mapping : gmap UniqueID DBClientID;
  plasma_connected : bool;
  child_pids : list Z;
  workers : list ClientPtr;
  static_resources : list Z;
  dynamic_resources : list Z;
  effects : list Effect
}.

(** ** Outcomes *)

Inductive result (A : Type) :=
| Ok (a : A)
| Fatal
| Undefined.
Arguments Ok {A} a.
Arguments Fatal {A}.
Arguments Undefined {A}.

#[global] Instance result_ret : MRet result := @Ok.
#[global] Instance result_bind : MBind result := fun A B f m =>
  match m with
  | Ok a => f a
  | Fatal => Fatal
  | Undefined => Undefined
  end.

Definition CHECK (cond : bool) : result unit :=
  if cond then Ok tt else Fatal.

(** ** Field updates *)

Definition set_effects (state : LocalSchedulerState) (e : list Effect) : LocalSchedulerState :=
  {| db := db state; global_scheduler_exists := global_scheduler_exists state;
     actor_mapping := actor_mapping state; plasma_connected := plasma_connected state;
     child_pids := child_pids state; workers := workers state;
     static_resources := static_resources state;
     dynamic_resources := dynamic_resources state; effects := e |}.

Definition emit (state : LocalSchedulerState) (e : Effect) : LocalSchedulerState :=
  set_effects state (effects state ++ [e]).

Definition set_dynamic_resources (state : LocalSchedulerState) (d : list Z) : LocalSchedulerState :=
  {| db := db state; global_scheduler_exists := global_scheduler_exists state;
     actor_mapping := actor_mapping state; plasma_connected := plasma_connected state;
     child_pids := child_pids state; workers := workers state;
     static_resources := static_resources state;
     dynamic_resources := d; effects := effects state |}.

Definition set_waiting (a : SchedulingAlgorithmState) (q : list (Cursor * TaskQueueEntry))
  : SchedulingAlgorithmState :=
  {| waiting_task_queue := q; next_node := next_node a;
     dispatch_task_queue := dispatch_task_queue a;
     local_actor_infos := local_actor_infos a;
     cached_submitted_actor_tasks := cached_submitted_actor_tasks a;
     cached_submitted_actor_task_sizes := cached_submitted_actor_task_sizes a;
     available_workers := available_workers a;
     executing_workers := executing_workers a;
     blocked_workers := blocked_workers a;
     local_objects := local_objects a; remote_objects := remote_objects a |}.

Definition set_next_node (a : SchedulingAlgorithmState) (n : Cursor)
  : SchedulingAlgorithmState :=
  {| waiting_task_queue := waiting_task_queue a; next_node := n;
     dispatch_task_queue := dispatch_task_queue a;
     local_actor_infos := local_actor_infos a;
     cached_submitted_actor_tasks := cached_submitted_actor_tasks a;
     cached_submitted_actor_task_sizes := cached_submitted_actor_task_sizes a;
     available_workers := available_workers a;
     executing_workers := executing_workers a;
     blocked_workers := blocked_workers a;
     local_objects := local_objects a; remote_objects := remote_objects a |}.

Definition set_dispatch (a : SchedulingAlgorithmState) (q : list (Cursor * TaskQueueEntry))
  : SchedulingAlgorithmState :=
  {| waiting_task_queue := waiting_task_queue a; next_node := next_node a;
     dispatch_task_queue := q;
     local_actor_infos := local_actor_infos a;
     cached_submitted_actor_tasks := cached_submitted_actor_tasks a;
     cached_submitted_actor_task_sizes := cached_submitted_actor_task_sizes a;
     available_workers := available_workers a;
     executing_workers := executing_workers a;
     blocked_workers := blocked_workers a;
     local_objects := local_objects a; remote_objects := remote_objects a |}.

Definition set_local_actor_infos (a : SchedulingAlgorithmState)
    (m : gmap UniqueID LocalActorInfo) : SchedulingAlgorithmState :=
  {| waiting_task_queue := waiting_task_queue a; next_node := next_node a;
     dispatch_task_queue := dispatch_task_queue a;
     local_actor_infos := m;
     cached_submitted_actor_tasks := cached_submitted_actor_tasks a;
     cached_submitted_actor_task_sizes := cached_submitted_actor_task_sizes a;
     available_workers := available_workers a;
     executing_workers := executing_workers a;
     blocked_workers := blocked_workers a;
     local_objects := local_objects a; remote_objects := remote_objects a |}.

Definition set_cached (a : SchedulingAlgorithmState)
    (tasks : list TaskSpec) (sizes : list Z) : SchedulingAlgorithmState :=
  {| waiting_task_queue := waiting_task_queue a; next_node := next_node a;
     dispatch_task_queue := dispatch_task_queue a;
     local_actor_infos := local_actor_infos a;
     cached_submitted_actor_tasks := tasks;
     cached_submitted_actor_task_sizes := sizes;
     available_workers := available_workers a;
     executing_workers := executing_workers a;
     blocked_workers := blocked_workers a;
     local_objects := local_objects a; remote_objects := remote_objects a |}.

Definition set_available_workers (a : SchedulingAlgorithmState) (v : list ClientPtr)
  : SchedulingAlgorithmState :=
  {| waiting_task_queue := waiting_task_queue a; next_node := next_node a;
     dispatch_task_queue := dispatch_task_queue a;
     local_actor_infos := local_actor_infos a;
     cached_submitted_actor_tasks := cached_submitted_actor_tasks a;
     cached_submitted_actor_task_sizes := cached_submitted_actor_task_sizes a;
     available_workers := v;
     executing_workers := executing_workers a;
     blocked_workers := blocked_workers a;
     local_objects := local_objects a; remote_objects := remote_objects a |}.

Definition set_executing_workers (a : SchedulingAlgorithmState) (v : list ClientPtr)
  : SchedulingAlgorithmState :=
  {| waiting_task_queue := waiting_task_queue a; next_node := next_node a;
     dispatch_task_queue := dispatch_task_queue a;
     local_actor_infos := local_actor_infos a;
     cached_submitted_actor_tasks := cached_submitted_actor_tasks a;
     cached_submitted_actor_task_sizes := cached_submitted_actor_task_sizes a;
     available_workers := available_workers a;
     executing_workers := v;
     blocked_workers := blocked_workers a;
     local_objects := local_objects a; remote_objects := remote_objects a |}.

Definition set_blocked_workers (a : SchedulingAlgorithmState) (v : list ClientPtr)
  : SchedulingAlgorithmState :=
  {| waiting_task_queue := waiting_task_queue a; next_node := next_node a;
     dispatch_task_queue := dispatch_task_queue a;
     local_actor_infos := local_actor_infos a;
     cached_submitted_actor_tasks := cached_submitted_actor_tasks a;
     cached_submitted_actor_task_sizes := cached_submitted_actor_task_sizes a;
     available_workers := available_workers a;
     executing_workers := executing_workers a;
     blocked_workers := v;
     local_objects := local_objects a; remote_objects := remote_objects a |}.

Definition set_local_objects (a : SchedulingAlgorithmState)
    (m : gmap UniqueID ObjectEntry) : SchedulingAlgorithmState :=
  {| waiting_task_queue := waiting_task_queue a; next_node := next_node a;
     dispatch_task_queue := dispatch_task_queue a;
     local_actor_infos := local_actor_infos a;
     cached_submitted_actor_tasks := cached_submitted_actor_tasks a;
     cached_submitted_actor_task_sizes := cached_submitted_actor_task_sizes a;
     available_workers := available_workers a;
     executing_workers := executing_workers a;
     blocked_workers := blocked_workers a;
     local_objects := m; remote_objects := remote_objects a |}.

Definition set_remote_objects (a : SchedulingAlgorithmState)
    (m : gmap UniqueID ObjectEntry) : SchedulingAlgorithmState :=
  {| waiting_task_queue := waiting_task_queue a; next_node := next_node a;
     dispatch_task_queue := dispatch_task_queue a;
     local_actor_infos := local_actor_infos a;
     cached_submitted_actor_tasks := cached_submitted_actor_tasks a;
     cached_submitted_actor_task_sizes := cached_submitted_actor_task_sizes a;
     available_workers := available_workers a;
     executing_workers := executing_workers a;
     blocked_workers := blocked_workers a;
     local_objects := local_objects a; remote_objects := m |}.

(** ** The algorithm *)

Section Algorithm.

(** The number of resource kinds (the enum of [common/task.h]) and whether
    [RAY_DCHECK] is defined ([common/common.h]): neither header is part of the
    sources, so both are parameters. *)
Variable ResourceIndex_MAX : nat.
Variable RAY_DCHECK : bool.

Definition DCHECK (cond : bool) : result unit :=
  if RAY_DCHECK then CHECK cond else Ok tt.

(** Modelled from the spec: [get_db_client_id] ([state/db.h]) gives the id
    under which this local scheduler is known to the task table; a null
    handle has none. *)
Definition get_db_client_id (handle : option DBClientID) : result DBClientID :=
  match handle with
  | Some id => Ok id
  | None => Undefined
  end.

(** Modelled from the spec: [assign_task_to_worker] ([local_scheduler.cc]) is
    the worker-assignment collaborator, "hands the task to a worker and debits
    dynamic_resources by the task's required_resources". *)
Definition assign_task_to_worker (state : LocalSchedulerState) (s : TaskSpec)
    (size : Z) (w : option ClientPtr) : LocalSchedulerState :=
  let debited :=
    foldl (fun d i => <[i := nth i d 0 - TaskSpec_get_required_resource s i]> d)
          (dynamic_resources state) (seq 0 ResourceIndex_MAX) in
  emit (set_dynamic_resources state debited) (AssignTask s size w).

Definition TaskQueueEntry_init (s : TaskSpec) (size : Z) : TaskQueueEntry :=
  {| spec := s; task_spec_size := size |}.

Definition TaskQueueEntry_free (state : LocalSchedulerState) (entry : TaskQueueEntry)
  : LocalSchedulerState :=
  emit state (FreeSpec (spec entry)).

Definition SchedulingAlgorithmState_init : SchedulingAlgorithmState :=
  {| waiting_task_queue := []; next_node := 0%nat; dispatch_task_queue := [];
     local_actor_infos := ∅;
     cached_submitted_actor_tasks := []; cached_submitted_actor_task_sizes := [];
     available_workers := []; executing_workers := []; blocked_workers := [];
     local_objects := ∅; remote_objects := ∅ |}.

Definition worker_in_vector (worker_vector : list ClientPtr) (w : ClientPtr) : bool :=
  bool_decide (w ∈ worker_vector).

(** [std::find], then the found slot and the back are swapped and the back is
    popped. *)
Definition remove_worker_from_vector (worker_vector : list ClientPtr) (w : ClientPtr)
  : bool * list ClientPtr :=
  match list_find (fun x => x = w) worker_vector with
  | Some (i, found) =>
      let back := default w (last worker_vector) in
      let swapped :=
        <[(length worker_vector - 1)%nat := found]> (<[i := back]> worker_vector) in
      (true, removelast swapped)
  | None => (false, worker_vector)
  end.

Record LocalSchedulerInfo := {
  total_num_workers : Z;
  task_queue_length : Z;
  info_available_workers : Z;
  info_dynamic_resources : list Z;
  info_static_resources : list Z
}.

Definition provide_scheduler_info (state : LocalSchedulerState)
    (algorithm_state : SchedulingAlgorithmState) : LocalSchedulerInfo :=
  let waiting_task_queue_length := Z.of_nat (length (waiting_task_queue algorithm_state)) in
  let dispatch_task_queue_length := Z.of_nat (length (dispatch_task_queue algorithm_state)) in
  {| total_num_workers := Z.of_nat (length (workers state));
     task_queue_length := waiting_task_queue_length + dispatch_task_queue_length;
     info_available_workers := Z.of_nat (length (available_workers algorithm_state));
     info_dynamic_resources :=
       map (fun i => nth i (dynamic_resources state) 0) (seq 0 ResourceIndex_MAX);
     info_static_resources :=
       map (fun i => nth i (static_resources state) 0) (seq 0 ResourceIndex_MAX) |}.

Definition create_actor (algorithm_state : SchedulingAlgorithmState)
    (id : ActorID) (w : option ClientPtr) : result SchedulingAlgorithmState :=
  let entry := {| actor_id := id; task_counter := 0; task_queue := [];
                  worker := w; worker_available := false |} in
  CHECK (bool_decide (local_actor_infos algorithm_state !! id = None));;
  Ok (set_local_actor_infos algorithm_state
        (<[id := entry]> (local_actor_infos algorithm_state))).

Definition remove_actor (state : LocalSchedulerState)
    (algorithm_state : SchedulingAlgorithmState) (id : ActorID)
  : result (LocalSchedulerState * SchedulingAlgorithmState) :=
  match local_actor_infos algorithm_state !! id with
  | None => Fatal
  | Some entry =>
      let count := length (task_queue entry) in
      let state :=
        if bool_decide (0 < count)%nat
        then emit state (LogWarn "Removing actor with remaining tasks.")
        else state in
      let state := foldl TaskQueueEntry_free state (task_queue entry) in
      Ok (state, set_local_actor_infos algorithm_state
                   (delete id (local_actor_infos algorithm_state)))
  end.

(** The largest [int64_t]. *)
Definition INT64_MAX : Z := 2 ^ 63 - 1.

(** [counter += 1] on an [int64_t]; signed overflow is undefined. *)
Definition int64_increment (counter : Z) : result Z :=
  if counter <? INT64_MAX then Ok (counter + 1) else Undefined.

Definition dispatch_actor_task (state : LocalSchedulerState)
    (algorithm_state : SchedulingAlgorithmState) (id : ActorID)
  : result (bool * LocalSchedulerState * SchedulingAlgorithmState) :=
  CHECK (negb (ActorID_equal id NIL_ACTOR_ID));;
  match actor_mapping state !! id with
  | None => Fatal
  | Some local_scheduler_id =>
  self ← get_db_client_id (db state);
  CHECK (DBClientID_equal local_scheduler_id self);;
  match local_actor_infos algorithm_state !! id with
  | None => Fatal
  | Some entry =>
  match task_queue entry with
  | [] => Ok (false, state, algorithm_state)
  | first_task :: remaining =>
      let next_task_counter := TaskSpec_actor_counter (spec first_task) in
      if negb (next_task_counter =? task_counter entry) then
        CHECK (next_task_counter >? task_counter entry);;
        Ok (false, state, algorithm_state)
      else if negb (worker_available entry) then
        Ok (false, state, algorithm_state)
      else
        counter ← int64_increment (task_counter entry);
        let state := assign_task_to_worker state (spec first_task)
                       (task_spec_size first_task) (worker entry) in
        let state := TaskQueueEntry_free state first_task in
        let entry := {| actor_id := actor_id entry; task_counter := counter;
                        task_queue := remaining; worker := worker entry;
                        worker_available := false |} in
        Ok (true, state,
            set_local_actor_infos algorithm_state
              (<[id := entry]> (local_actor_infos algorithm_state)))
  end end end.

Definition handle_actor_worker_connect (state : LocalSchedulerState)
    (algorithm_state : SchedulingAlgorithmState) (id : ActorID) (w : ClientPtr)
  : result (LocalSchedulerState * SchedulingAlgorithmState) :=
  algorithm_state ←
    match local_actor_infos algorithm_state !! id with
    | None => create_actor algorithm_state id (Some w)
    | Some entry =>
        let entry := {| actor_id := actor_id entry; task_counter := task_counter entry;
                        task_queue := task_queue entry; worker := Some w;
                        worker_available := worker_available entry |} in
        Ok (set_local_actor_infos algorithm_state
              (<[id := entry]> (local_actor_infos algorithm_state)))
    end;
  '(_, state, algorithm_state) ← dispatch_actor_task state algorithm_state id;
  Ok (state, algorithm_state).

Definition handle_actor_worker_disconnect (state : LocalSchedulerState)
    (algorithm_state : SchedulingAlgorithmState) (id : ActorID)
  : result (LocalSchedulerState * SchedulingAlgorithmState) :=
  remove_actor state algorithm_state id.


(** The first position whose counter is not below the incoming one. *)
Fixpoint insert_by_actor_counter (counter : Z) (elt : TaskQueueEntry)
    (queue : list TaskQueueEntry) : list TaskQueueEntry :=
  match queue with
  | [] => [elt]
  | x :: queue' =>
      if counter >? TaskSpec_actor_counter (spec x)
      then x :: insert_by_actor_counter counter elt queue'
      else elt :: queue
  end.

(** The task-table write that follows queueing: an update when the global
    scheduler has already written the row, an add otherwise. *)
Definition task_table_write_queued (state : LocalSchedulerState) (s : TaskSpec)
    (size : Z) (from_global_scheduler : bool) : LocalSchedulerState :=
  match db state with
  | None => state
  | Some self =>
      let task := {| task_spec := s; task_size := size;
                     task_status := TASK_STATUS_QUEUED;
                     task_local_scheduler := self |} in
      if from_global_scheduler
      then emit state (TaskTableUpdate task)
      else emit state (TaskTableAdd task)
  end.

Definition add_task_to_actor_queue (state : LocalSchedulerState)
    (algorithm_state : SchedulingAlgorithmState) (s : TaskSpec) (size : Z)
    (from_global_scheduler : bool)
  : result (LocalSchedulerState * SchedulingAlgorithmState) :=
  let id := TaskSpec_actor_id s in
  DCHECK (negb (ActorID_equal id NIL_ACTOR_ID));;
  algorithm_state ←
    match local_actor_infos algorithm_state !! id with
    | None =>
        algorithm_state ← create_actor algorithm_state id None;
        CHECK (bool_decide (is_Some (local_actor_infos algorithm_state !! id)));;
        Ok algorithm_state
    | Some _ => Ok algorithm_state
    end;
  match local_actor_infos algorithm_state !! id with
  | None => Undefined
  | Some entry =>
      let counter := TaskSpec_actor_counter s in
      CHECK (counter >=? task_counter entry);;
      let elt := TaskQueueEntry_init s size in
      let entry := {| actor_id := actor_id entry; task_counter := task_counter entry;
                      task_queue := insert_by_actor_counter counter elt (task_queue entry);
                      worker := worker entry;
                      worker_available := worker_available entry |} in
      let algorithm_state :=
        set_local_actor_infos algorithm_state
          (<[id := entry]> (local_actor_infos algorithm_state)) in
      Ok (task_table_write_queued state s size from_global_scheduler, algorithm_state)
  end.

(** Dereferencing an iterator of the waiting queue: an iterator that is not
    the identity of a node of the queue is invalid. *)
Definition deref (queue : list (Cursor * TaskQueueEntry)) (it : Cursor)
  : result TaskQueueEntry :=
  match list_find (fun node => node.1 = it) queue with
  | Some (_, node) => Ok node.2
  | None => Undefined
  end.

(** [std::list::erase] of the node an iterator designates. *)
Definition erase (queue : list (Cursor * TaskQueueEntry)) (it : Cursor)
  : list (Cursor * TaskQueueEntry) :=
  match list_find (fun node => node.1 = it) queue with
  | Some (i, _) => delete i queue
  | None => queue
  end.

Definition push_dependent (it : Cursor) (entry : ObjectEntry) : ObjectEntry :=
  {| object_id := object_id entry; dependent_tasks := dependent_tasks entry ++ [it] |}.

Definition fetch_missing_dependency (state : LocalSchedulerState)
    (algorithm_state : SchedulingAlgorithmState) (task_entry_it : Cursor)
    (obj_id : ObjectID) : LocalSchedulerState * SchedulingAlgorithmState :=
  let '(state, algorithm_state) :=
    match remote_objects algorithm_state !! obj_id with
    | None =>
        let state :=
          if plasma_connected state then emit state (PlasmaFetch [obj_id]) else state in
        let entry := {| object_id := obj_id; dependent_tasks := [] |} in
        (state, set_remote_objects algorithm_state
                  (<[obj_id := entry]> (remote_objects algorithm_state)))
    | Some _ => (state, algorithm_state)
    end in
  (state, set_remote_objects algorithm_state
            (alter (push_dependent task_entry_it) obj_id (remote_objects algorithm_state))).

Definition fetch_missing_dependencies (state : LocalSchedulerState)
    (algorithm_state : SchedulingAlgorithmState) (task_entry_it : Cursor)
  : result (LocalSchedulerState * SchedulingAlgorithmState) :=
  entry ← deref (waiting_task_queue algorithm_state) task_entry_it;
  let task := spec entry in
  let num_args := TaskSpec_num_args task in
  let '(state, algorithm_state, num_missing_dependencies) :=
    foldl (fun '(state, algorithm_state, num_missing_dependencies) i =>
             if TaskSpec_arg_by_ref task i then
               let obj_id := TaskSpec_arg_id task i in
               if bool_decide (local_objects algorithm_state !! obj_id = None) then
                 let '(state, algorithm_state) :=
                   fetch_missing_dependency state algorithm_state task_entry_it obj_id in
                 (state, algorithm_state, num_missing_dependencies + 1)
               else (state, algorithm_state, num_missing_dependencies)
             else (state, algorithm_state, num_missing_dependencies))
          (state, algorithm_state, 0) (seq 0 num_args) in
  CHECK (num_missing_dependencies >? 0);;
  Ok (state, algorithm_state).

Definition can_run (algorithm_state : SchedulingAlgorithmState) (task : TaskSpec) : bool :=
  forallb (fun i =>
             if TaskSpec_arg_by_ref task i
             then bool_decide (is_Some (local_objects algorithm_state
                                          !! TaskSpec_arg_id task i))
             else true)
          (seq 0 (TaskSpec_num_args task)).

(** Modelled from the spec: [reconstruct_object] ([local_scheduler.cc]) is the
    reconstruction collaborator, an "idempotent request to recompute a lost
    object". *)
Definition reconstruct_object (state : LocalSchedulerState) (id : ObjectID)
  : LocalSchedulerState :=
  emit state (ReconstructObject id).

Definition fetch_object_timeout_handler (state : LocalSchedulerState)
    (algorithm_state : SchedulingAlgorithmState) : LocalSchedulerState :=
  if negb (plasma_connected state) then
    emit state (LogInfo "Local scheduler is not connected to a object store manager")
  else
    let object_ids :=
      map (fun kv => object_id kv.2) (map_to_list (remote_objects algorithm_state)) in
    let state := emit state (PlasmaFetch object_ids) in
    foldl reconstruct_object state object_ids.


(** Modelled from the spec: [start_worker] ([local_scheduler.cc]) is the
    worker-spawn collaborator, it "requests a new worker process; completion
    arrives later as a connection event". *)
Definition start_worker (state : LocalSchedulerState) (id : ActorID)
  : LocalSchedulerState :=
  emit state (StartWorker id).

Definition resources_available (state : LocalSchedulerState) : bool :=
  existsb (fun i => nth i (dynamic_resources state) 0 >? 0) (seq 0 ResourceIndex_MAX).

Definition task_satisfied (state : LocalSchedulerState) (s : TaskSpec) : bool :=
  forallb (fun i => negb (TaskSpec_get_required_resource s i
                          >? nth i (dynamic_resources state) 0))
          (seq 0 ResourceIndex_MAX).

(** The loop of [dispatch_tasks]: [kept] are the nodes before the iterator,
    [rest] the nodes from the iterator on. *)
Fixpoint dispatch_tasks_loop (state : LocalSchedulerState)
    (algorithm_state : SchedulingAlgorithmState)
    (kept rest : list (Cursor * TaskQueueEntry))
  : LocalSchedulerState * SchedulingAlgorithmState :=
  match rest with
  | [] => (state, set_dispatch algorithm_state kept)
  | node :: rest' =>
      let task := node.2 in
      match last (available_workers algorithm_state) with
      | None =>
          let state :=
            if bool_decide (length (child_pids state) = 0%nat)
            then start_worker state NIL_ACTOR_ID else state in
          (state, set_dispatch algorithm_state (kept ++ rest))
      | Some w =>
          if negb (resources_available state) then
            (state, set_dispatch algorithm_state (kept ++ rest))
          else if negb (task_satisfied state (spec task)) then
            dispatch_tasks_loop state algorithm_state (kept ++ [node]) rest'
          else
            let state := assign_task_to_worker state (spec task)
                           (task_spec_size task) (Some w) in
            let algorithm_state :=
              set_available_workers algorithm_state
                (removelast (available_workers algorithm_state)) in
            let algorithm_state :=
              set_executing_workers algorithm_state
                (executing_workers algorithm_state ++ [w]) in
            let state := TaskQueueEntry_free state task in
            dispatch_tasks_loop state algorithm_state kept rest'
      end
  end.

Definition dispatch_tasks (state : LocalSchedulerState)
    (algorithm_state : SchedulingAlgorithmState)
  : LocalSchedulerState * SchedulingAlgorithmState :=
  dispatch_tasks_loop state algorithm_state [] (dispatch_task_queue algorithm_state).

(** The two queues a [std::list<TaskQueueEntry> *] of this file points to. *)
Inductive QueueRef := WaitingQueue | DispatchQueue.

(** [push_back] on a queue of the algorithm state; the iterator to the new
    last node is returned with the state. *)
Definition push_back (algorithm_state : SchedulingAlgorithmState) (queue : QueueRef)
    (entry : TaskQueueEntry) : SchedulingAlgorithmState * Cursor :=
  let it := next_node algorithm_state in
  let algorithm_state := set_next_node algorithm_state (S it) in
  match queue with
  | WaitingQueue =>
      (set_waiting algorithm_state (waiting_task_queue algorithm_state ++ [(it, entry)]), it)
  | DispatchQueue =>
      (set_dispatch algorithm_state (dispatch_task_queue algorithm_state ++ [(it, entry)]), it)
  end.

Definition queue_task (state : LocalSchedulerState)
    (algorithm_state : SchedulingAlgorithmState) (queue : QueueRef)
    (task_entry : TaskQueueEntry) (from_global_scheduler : bool)
  : LocalSchedulerState * SchedulingAlgorithmState * Cursor :=
  let '(algorithm_state, it) := push_back algorithm_state queue task_entry in
  (task_table_write_queued state (spec task_entry) (task_spec_size task_entry)
     from_global_scheduler,
   algorithm_state, it).

Definition queue_waiting_task (state : LocalSchedulerState)
    (algorithm_state : SchedulingAlgorithmState) (s : TaskSpec) (size : Z)
    (from_global_scheduler : bool)
  : result (LocalSchedulerState * SchedulingAlgorithmState) :=
  let task_entry := TaskQueueEntry_init s size in
  let '(state, algorithm_state, it) :=
    queue_task state algorithm_state WaitingQueue task_entry from_global_scheduler in
  fetch_missing_dependencies state algorithm_state it.

Definition queue_dispatch_task (state : LocalSchedulerState)
    (algorithm_state : SchedulingAlgorithmState) (s : TaskSpec) (size : Z)
    (from_global_scheduler : bool)
  : LocalSchedulerState * SchedulingAlgorithmState :=
  let task_entry := TaskQueueEntry_init s size in
  let '(state, algorithm_state, _) :=
    queue_task state algorithm_state DispatchQueue task_entry from_global_scheduler in
  (state, algorithm_state).

Definition queue_task_locally (state : LocalSchedulerState)
    (algorithm_state : SchedulingAlgorithmState) (s : TaskSpec) (size : Z)
    (from_global_scheduler : bool)
  : result (LocalSchedulerState * SchedulingAlgorithmState) :=
  if can_run algorithm_state s
  then Ok (queue_dispatch_task state algorithm_state s size from_global_scheduler)
  else queue_waiting_task state algorithm_state s size from_global_scheduler.

Definition give_task_to_local_scheduler (state : LocalSchedulerState)
    (algorithm_state : SchedulingAlgorithmState) (s : TaskSpec) (size : Z)
    (local_scheduler_id : DBClientID)
  : result (LocalSchedulerState * SchedulingAlgorithmState) :=
  self ← get_db_client_id (db state);
  let state :=
    if DBClientID_equal local_scheduler_id self
    then emit state (LogWarn "Local scheduler is trying to assign a task to itself.")
    else state in
  CHECK (bool_decide (is_Some (db state)));;
  DCHECK (global_scheduler_exists state);;
  let task := {| task_spec := s; task_size := size;
                 task_status := TASK_STATUS_SCHEDULED;
                 task_local_scheduler := local_scheduler_id |} in
  Ok (emit state (TaskTableAdd task), algorithm_state).

Definition give_task_to_global_scheduler (state : LocalSchedulerState)
    (algorithm_state : SchedulingAlgorithmState) (s : TaskSpec) (size : Z)
  : result (LocalSchedulerState * SchedulingAlgorithmState) :=
  if bool_decide (db state = None) || negb (global_scheduler_exists state) then
    queue_task_locally state algorithm_state s size false
  else
    DCHECK (global_scheduler_exists state);;
    let task := {| task_spec := s; task_size := size;
                   task_status := TASK_STATUS_WAITING;
                   task_local_scheduler := NIL_ID |} in
    DCHECK (bool_decide (is_Some (db state)));;
    Ok (emit state (TaskTableAdd task), algorithm_state).

Definition resource_constraints_satisfied (state : LocalSchedulerState) (s : TaskSpec)
  : bool :=
  forallb (fun i =>
             negb ((TaskSpec_get_required_resource s i >? nth i (static_resources state) 0)
                   || (TaskSpec_get_required_resource s i
                       >? nth i (dynamic_resources state) 0)))
          (seq 0 ResourceIndex_MAX).


(** A loop whose body can fail: the first failure ends it. *)
Fixpoint for_each {A S : Type} (body : S -> A -> result S) (s : S) (l : list A)
  : result S :=
  match l with
  | [] => Ok s
  | x :: l' => s' ← body s x; for_each body s' l'
  end.

Definition handle_task_submitted (state : LocalSchedulerState)
    (algorithm_state : SchedulingAlgorithmState) (s : TaskSpec) (size : Z)
  : result (LocalSchedulerState * SchedulingAlgorithmState) :=
  '(state, algorithm_state) ←
    (if resource_constraints_satisfied state s
        && bool_decide (0 < length (available_workers algorithm_state))%nat
        && can_run algorithm_state s
     then Ok (queue_dispatch_task state algorithm_state s size false)
     else give_task_to_global_scheduler state algorithm_state s size);
  Ok (dispatch_tasks state algorithm_state).

Definition handle_actor_task_submitted (state : LocalSchedulerState)
    (algorithm_state : SchedulingAlgorithmState) (s : TaskSpec) (size : Z)
  : result (LocalSchedulerState * SchedulingAlgorithmState) :=
  let id := TaskSpec_actor_id s in
  CHECK (negb (ActorID_equal id NIL_ACTOR_ID));;
  match actor_mapping state !! id with
  | None =>
      Ok (state,
          set_cached algorithm_state
            (cached_submitted_actor_tasks algorithm_state ++ [s])
            (cached_submitted_actor_task_sizes algorithm_state ++ [size]))
  | Some local_scheduler_id =>
      self ← get_db_client_id (db state);
      if DBClientID_equal local_scheduler_id self then
        '(state, algorithm_state) ←
          add_task_to_actor_queue state algorithm_state s size false;
        '(_, state, algorithm_state) ← dispatch_actor_task state algorithm_state id;
        Ok (state, algorithm_state)
      else
        give_task_to_local_scheduler state algorithm_state s size local_scheduler_id
  end.

(** The notified actor's id is not used by the handler. *)
Definition handle_actor_creation_notification (state : LocalSchedulerState)
    (algorithm_state : SchedulingAlgorithmState) (id : ActorID)
  : result (LocalSchedulerState * SchedulingAlgorithmState) :=
  let num_cached_actor_tasks := length (cached_submitted_actor_tasks algorithm_state) in
  CHECK (bool_decide (num_cached_actor_tasks
                      = length (cached_submitted_actor_task_sizes algorithm_state)));;
  '(state, algorithm_state) ←
    for_each (fun '(state, algorithm_state) i =>
                match cached_submitted_actor_tasks algorithm_state !! i,
                      cached_submitted_actor_task_sizes algorithm_state !! i with
                | Some s, Some size =>
                    handle_actor_task_submitted state algorithm_state s size
                | _, _ => Undefined
                end)
             (state, algorithm_state) (seq 0 num_cached_actor_tasks);
  Ok (state,
      set_cached algorithm_state
        (drop num_cached_actor_tasks (cached_submitted_actor_tasks algorithm_state))
        (drop num_cached_actor_tasks (cached_submitted_actor_task_sizes algorithm_state))).

Definition handle_task_scheduled (state : LocalSchedulerState)
    (algorithm_state : SchedulingAlgorithmState) (s : TaskSpec) (size : Z)
  : result (LocalSchedulerState * SchedulingAlgorithmState) :=
  DCHECK (bool_decide (is_Some (db state)));;
  DCHECK (global_scheduler_exists state);;
  '(state, algorithm_state) ← queue_task_locally state algorithm_state s size true;
  Ok (dispatch_tasks state algorithm_state).

Definition handle_actor_task_scheduled (state : LocalSchedulerState)
    (algorithm_state : SchedulingAlgorithmState) (s : TaskSpec) (size : Z)
  : result (LocalSchedulerState * SchedulingAlgorithmState) :=
  DCHECK (bool_decide (is_Some (db state)));;
  DCHECK (global_scheduler_exists state);;
  let id := TaskSpec_actor_id s in
  DCHECK (negb (ActorID_equal id NIL_ACTOR_ID));;
  state ←
    match actor_mapping state !! id with
    | Some local_scheduler_id =>
        (if RAY_DCHECK
         then self ← get_db_client_id (db state);
              CHECK (DBClientID_equal local_scheduler_id self)
         else Ok tt);;
        Ok state
    | None =>
        Ok (emit state
              (LogInfo "handle_actor_task_scheduled called on local scheduler but the corresponding actor_map_entry is not present. This should be rare."))
    end;
  '(state, algorithm_state) ← add_task_to_actor_queue state algorithm_state s size true;
  '(_, state, algorithm_state) ← dispatch_actor_task state algorithm_state id;
  Ok (state, algorithm_state).

Definition handle_worker_available (state : LocalSchedulerState)
    (algorithm_state : SchedulingAlgorithmState) (w : LocalSchedulerClient)
  : result (LocalSchedulerState * SchedulingAlgorithmState) :=
  CHECK (bool_decide (task_in_progress w = None));;
  DCHECK (negb (worker_in_vector (available_workers algorithm_state) (client_ptr w)));;
  DCHECK (negb (worker_in_vector (blocked_workers algorithm_state) (client_ptr w)));;
  let algorithm_state :=
    set_executing_workers algorithm_state
      (remove_worker_from_vector (executing_workers algorithm_state) (client_ptr w)).2 in
  DCHECK (negb (worker_in_vector (executing_workers algorithm_state) (client_ptr w)));;
  let algorithm_state :=
    set_available_workers algorithm_state
      (available_workers algorithm_state ++ [client_ptr w]) in
  Ok (dispatch_tasks state algorithm_state).

Definition handle_worker_removed (state : LocalSchedulerState)
    (algorithm_state : SchedulingAlgorithmState) (w : LocalSchedulerClient)
  : result (LocalSchedulerState * SchedulingAlgorithmState) :=
  CHECK (ActorID_equal (client_actor_id w) NIL_ACTOR_ID);;
  let num_times_removed := 0 in
  let '(removed_from_available, v) :=
    remove_worker_from_vector (available_workers algorithm_state) (client_ptr w) in
  let algorithm_state := set_available_workers algorithm_state v in
  let num_times_removed := num_times_removed + Z.b2z removed_from_available in
  DCHECK (negb (worker_in_vector (available_workers algorithm_state) (client_ptr w)));;
  let '(removed_from_executing, v) :=
    remove_worker_from_vector (executing_workers algorithm_state) (client_ptr w) in
  let algorithm_state := set_executing_workers algorithm_state v in
  let num_times_removed := num_times_removed + Z.b2z removed_from_executing in
  DCHECK (negb (worker_in_vector (executing_workers algorithm_state) (client_ptr w)));;
  let '(removed_from_blocked, v) :=
    remove_worker_from_vector (blocked_workers algorithm_state) (client_ptr w) in
  let algorithm_state := set_blocked_workers algorithm_state v in
  let num_times_removed := num_times_removed + Z.b2z removed_from_blocked in
  DCHECK (negb (worker_in_vector (blocked_workers algorithm_state) (client_ptr w)));;
  CHECK (num_times_removed <=? 1);;
  Ok (state, algorithm_state).

Definition handle_actor_worker_available (state : LocalSchedulerState)
    (algorithm_state : SchedulingAlgorithmState) (w : LocalSchedulerClient)
  : result (LocalSchedulerState * SchedulingAlgorithmState) :=
  let id := client_actor_id w in
  CHECK (negb (ActorID_equal id NIL_ACTOR_ID));;
  match local_actor_infos algorithm_state !! id with
  | None => Fatal
  | Some entry =>
      CHECK (bool_decide (Some (client_ptr w) = worker entry));;
      CHECK (negb (worker_available entry));;
      let entry := {| actor_id := actor_id entry; task_counter := task_counter entry;
                      task_queue := task_queue entry; worker := worker entry;
                      worker_available := true |} in
      let algorithm_state :=
        set_local_actor_infos algorithm_state
          (<[id := entry]> (local_actor_infos algorithm_state)) in
      '(_, state, algorithm_state) ← dispatch_actor_task state algorithm_state id;
      Ok (state, algorithm_state)
  end.

Definition handle_worker_blocked (state : LocalSchedulerState)
    (algorithm_state : SchedulingAlgorithmState) (w : LocalSchedulerClient)
  : result (LocalSchedulerState * SchedulingAlgorithmState) :=
  let '(removed, v) :=
    remove_worker_from_vector (executing_workers algorithm_state) (client_ptr w) in
  let algorithm_state := set_executing_workers algorithm_state v in
  CHECK removed;;
  DCHECK (negb (worker_in_vector (blocked_workers algorithm_state) (client_ptr w)));;
  let algorithm_state :=
    set_blocked_workers algorithm_state
      (blocked_workers algorithm_state ++ [client_ptr w]) in
  Ok (dispatch_tasks state algorithm_state).

Definition handle_worker_unblocked (state : LocalSchedulerState)
    (algorithm_state : SchedulingAlgorithmState) (w : LocalSchedulerClient)
  : result (LocalSchedulerState * SchedulingAlgorithmState) :=
  let '(removed, v) :=
    remove_worker_from_vector (blocked_workers algorithm_state) (client_ptr w) in
  let algorithm_state := set_blocked_workers algorithm_state v in
  CHECK removed;;
  DCHECK (negb (worker_in_vector (executing_workers algorithm_state) (client_ptr w)));;
  let algorithm_state :=
    set_executing_workers algorithm_state
      (executing_workers algorithm_state ++ [client_ptr w]) in
  Ok (state, algorithm_state).


(** The body of the loop of [handle_object_available] over the dependent
    tasks: a task that can now run is copied to the tail of the dispatch
    queue and its node erased from the waiting queue. *)
Definition promote_dependent (algorithm_state : SchedulingAlgorithmState)
    (it : Cursor) : result SchedulingAlgorithmState :=
  node ← deref (waiting_task_queue algorithm_state) it;
  if can_run algorithm_state (spec node) then
    let '(algorithm_state, _) := push_back algorithm_state DispatchQueue node in
    Ok (set_waiting algorithm_state (erase (waiting_task_queue algorithm_state) it))
  else Ok algorithm_state.

Definition handle_object_available (state : LocalSchedulerState)
    (algorithm_state : SchedulingAlgorithmState) (id : ObjectID)
  : result (LocalSchedulerState * SchedulingAlgorithmState) :=
  let '(entry, algorithm_state) :=
    match remote_objects algorithm_state !! id with
    | Some found =>
        (found, set_remote_objects algorithm_state
                  (delete id (remote_objects algorithm_state)))
    | None => ({| object_id := id; dependent_tasks := [] |}, algorithm_state)
    end in
  CHECK (bool_decide (local_objects algorithm_state !! id = None));;
  let algorithm_state :=
    set_local_objects algorithm_state (<[id := entry]> (local_objects algorithm_state)) in
  if negb (bool_decide (dependent_tasks entry = [])) then
    algorithm_state ←
      for_each promote_dependent algorithm_state (dependent_tasks entry);
    let '(state, algorithm_state) := dispatch_tasks state algorithm_state in
    (* the handler's own copy of the entry is cleared last *)
    let entry := {| object_id := object_id entry; dependent_tasks := [] |} in
    Ok (state, algorithm_state)
  else Ok (state, algorithm_state).

(** The first loop of [handle_object_removed]: [kept] are the dispatch nodes
    before the iterator, [rest] the nodes from the iterator on. *)
Fixpoint requeue_dependent_tasks (algorithm_state : SchedulingAlgorithmState)
    (removed_object_id : ObjectID) (kept rest : list (Cursor * TaskQueueEntry))
  : SchedulingAlgorithmState :=
  match rest with
  | [] => set_dispatch algorithm_state kept
  | node :: rest' =>
      let task := node.2 in
      if TaskSpec_is_dependent_on (spec task) removed_object_id then
        let '(algorithm_state, _) := push_back algorithm_state WaitingQueue task in
        requeue_dependent_tasks algorithm_state removed_object_id kept rest'
      else
        requeue_dependent_tasks algorithm_state removed_object_id (kept ++ [node]) rest'
  end.

Definition handle_object_removed (state : LocalSchedulerState)
    (algorithm_state : SchedulingAlgorithmState) (removed_object_id : ObjectID)
  : result (LocalSchedulerState * SchedulingAlgorithmState) :=
  CHECK (bool_decide (is_Some (local_objects algorithm_state !! removed_object_id)));;
  let algorithm_state :=
    set_local_objects algorithm_state
      (delete removed_object_id (local_objects algorithm_state)) in
  let algorithm_state :=
    requeue_dependent_tasks algorithm_state removed_object_id []
      (dispatch_task_queue algorithm_state) in
  Ok (foldl (fun '(state, algorithm_state) node =>
               let it := node.1 in
               foldl (fun '(state, algorithm_state) i =>
                        if TaskSpec_arg_by_ref (spec node.2) i then
                          let arg_id := TaskSpec_arg_id (spec node.2) i in
                          if ObjectID_equal arg_id removed_object_id
                          then fetch_missing_dependency state algorithm_state it
                                 removed_object_id
                          else (state, algorithm_state)
                        else (state, algorithm_state))
                     (state, algorithm_state) (seq 0 (TaskSpec_num_args (spec node.2))))
            (state, algorithm_state) (waiting_task_queue algorithm_state)).

(** The inner loop of [handle_driver_removed] on one object entry: every
    iterator is dereferenced, those of the removed driver's tasks are erased. *)
Fixpoint remove_driver_dependents (waiting : list (Cursor * TaskQueueEntry))
    (driver_id : WorkerID) (deps : list Cursor) : result (list Cursor) :=
  match deps with
  | [] => Ok []
  | it :: deps' =>
      node ← deref waiting it;
      deps'' ← remove_driver_dependents waiting driver_id deps';
      if WorkerID_equal (TaskSpec_driver_id (spec node)) driver_id
      then Ok deps''
      else Ok (it :: deps'')
  end.

Definition remove_driver_tasks (driver_id : WorkerID)
    (queue : list (Cursor * TaskQueueEntry)) : list (Cursor * TaskQueueEntry) :=
  filter (fun node => WorkerID_equal (TaskSpec_driver_id (spec node.2)) driver_id = false)
         queue.

(** The visit of one entry of the table in [handle_driver_removed]. *)
Definition visit_remote_object (waiting : list (Cursor * TaskQueueEntry))
    (driver_id : WorkerID) (remote : gmap UniqueID ObjectEntry)
    (visited : UniqueID * ObjectEntry) : result (gmap UniqueID ObjectEntry) :=
  let '(id, entry) := visited in
  deps ← remove_driver_dependents waiting driver_id (dependent_tasks entry);
  if bool_decide (length deps = 0%nat)
  then Ok (delete id remote)
  else Ok (<[id := {| object_id := object_id entry; dependent_tasks := deps |}]> remote).

(** The table is visited entry by entry in the order of [map_to_list]; a visit
    changes the visited entry only. *)
Definition handle_driver_removed (state : LocalSchedulerState)
    (algorithm_state : SchedulingAlgorithmState) (driver_id : WorkerID)
  : result (LocalSchedulerState * SchedulingAlgorithmState) :=
  remote ←
    for_each (visit_remote_object (waiting_task_queue algorithm_state) driver_id)
             (remote_objects algorithm_state)
             (map_to_list (remote_objects algorithm_state));
  let algorithm_state := set_remote_objects algorithm_state remote in
  let algorithm_state :=
    set_waiting algorithm_state
      (remove_driver_tasks driver_id (waiting_task_queue algorithm_state)) in
  let algorithm_state :=
    set_dispatch algorithm_state
      (remove_driver_tasks driver_id (dispatch_task_queue algorithm_state)) in
  Ok (state, algorithm_state).

Definition num_waiting_tasks (algorithm_state : SchedulingAlgorithmState) : Z :=
  Z.of_nat (length (waiting_task_queue algorithm_state)).

Definition num_dispatch_tasks (algorithm_state : SchedulingAlgorithmState) : Z :=
  Z.of_nat (length (dispatch_task_queue algorithm_state)).

(** ** The public surface *)

Inductive Event :=
| task_submitted (s : TaskSpec) (size : Z)
| actor_task_submitted (s : TaskSpec) (size : Z)
| actor_creation_notification (id : ActorID)
| task_scheduled (s : TaskSpec) (size : Z)
| actor_task_scheduled (s : TaskSpec) (size : Z)
| worker_available_event (w : LocalSchedulerClient)
| worker_removed (w : LocalSchedulerClient)
| actor_worker_available (w : LocalSchedulerClient)
| actor_worker_connect (id : ActorID) (w : ClientPtr)
| actor_worker_disconnect (id : ActorID)
| worker_blocked (w : LocalSchedulerClient)
| worker_unblocked (w : LocalSchedulerClient)
| object_available (id : ObjectID)
| object_removed (id : ObjectID)
| driver_removed (id : WorkerID)
| fetch_timer_tick.

Definition handle (e : Event) (state : LocalSchedulerState)
    (algorithm_state : SchedulingAlgorithmState)
  : result (LocalSchedulerState * SchedulingAlgorithmState) :=
  match e with
  | task_submitted s size => handle_task_submitted state algorithm_state s size
  | actor_task_submitted s size => handle_actor_task_submitted state algorithm_state s size
  | actor_creation_notification id =>
      handle_actor_creation_notification state algorithm_state id
  | task_scheduled s size => handle_task_scheduled state algorithm_state s size
  | actor_task_scheduled s size => handle_actor_task_scheduled state algorithm_state s size
  | worker_available_event w => handle_worker_available state algorithm_state w
  | worker_removed w => handle_worker_removed state algorithm_state w
  | actor_worker_available w => handle_actor_worker_available state algorithm_state w
  | actor_worker_connect id w => handle_actor_worker_connect state algorithm_state id w
  | actor_worker_disconnect id => handle_actor_worker_disconnect state algorithm_state id
  | worker_blocked w => handle_worker_blocked state algorithm_state w
  | worker_unblocked w => handle_worker_unblocked state algorithm_state w
  | object_available id => handle_object_available state algorithm_state id
  | object_removed id => handle_object_removed state algorithm_state id
  | driver_removed id => handle_driver_removed state algorithm_state id
  | fetch_timer_tick => Ok (fetch_object_timeout_handler state algorithm_state, algorithm_state)
  end.

(** A sequence of events, handled one after the other. *)
Definition run (events : list Event) (state : LocalSchedulerState)
    (algorithm_state : SchedulingAlgorithmState)
  : result (LocalSchedulerState * SchedulingAlgorithmState) :=
  for_each (fun '(state, algorithm_state) e => handle e state algorithm_state)
           (state, algorithm_state) events.

(** The algorithm states the handlers can produce from the initial one; the
    collaborator state is its owner's and is arbitrary at each event. *)
Inductive reachable : SchedulingAlgorithmState -> Prop :=
| reachable_init : reachable SchedulingAlgorithmState_init
| reachable_step e state algorithm_state state' algorithm_state' :
    reachable algorithm_state ->
    handle e state algorithm_state = Ok (state', algorithm_state') ->
    reachable algorithm_state'.


(** ** Statements about [dispatch_actor_task] *)

(** What a successful dispatch of [first_task], the head of [entry]'s queue,
    leaves behind. *)
Definition actor_task_dispatched (state : LocalSchedulerState)
    (algorithm_state : SchedulingAlgorithmState) (id : ActorID)
    (entry : LocalActorInfo) (first_task : TaskQueueEntry)
    (remaining : list TaskQueueEntry)
  : LocalSchedulerState * SchedulingAlgorithmState :=
  (emit (assign_task_to_worker state (spec first_task) (task_spec_size first_task)
           (worker entry))
        (FreeSpec (spec first_task)),
   set_local_actor_infos algorithm_state
     (<[id := {| actor_id := actor_id entry;
                 task_counter := task_counter entry + 1;
                 task_queue := remaining;
                 worker := worker entry;
                 worker_available := false |}]>
        (local_actor_infos algorithm_state))).

(** The behaviour of [dispatch_actor_task] on an actor that has a
    [LocalActorInfo]: the three refusals, the assertion on a counter that is
    behind, the dispatch while [task_counter] is below [INT64_MAX], and the
    overflow of the increment at [INT64_MAX]. *)
Definition dispatch_actor_task_behaviour (state : LocalSchedulerState)
    (algorithm_state : SchedulingAlgorithmState) (id : ActorID) : Prop :=
  forall entry, local_actor_infos algorithm_state !! id = Some entry ->
    (task_queue entry = [] ->
       dispatch_actor_task state algorithm_state id = Ok (false, state, algorithm_state))
    /\ (forall first_task remaining, task_queue entry = first_task :: remaining ->
         let head_counter := TaskSpec_actor_counter (spec first_task) in
         (head_counter > task_counter entry ->
            dispatch_actor_task state algorithm_state id
            = Ok (false, state, algorithm_state))
         /\ (head_counter < task_counter entry ->
              dispatch_actor_task state algorithm_state id = Fatal)
         /\ (head_counter = task_counter entry -> worker_available entry = false ->
              dispatch_actor_task state algorithm_state id
              = Ok (false, state, algorithm_state))
         /\ (head_counter = task_counter entry -> worker_available entry = true ->
              task_counter entry < INT64_MAX ->
              dispatch_actor_task state algorithm_state id
              = let '(state', algorithm_state') :=
                  actor_task_dispatched state algorithm_state id entry
                    first_task remaining in
                Ok (true, state', algorithm_state'))
         /\ (head_counter = task_counter entry -> worker_available entry = true ->
              INT64_MAX <= task_counter entry ->
              dispatch_actor_task state algorithm_state id = Undefined)).

(** ** Statements about [dispatch_tasks] *)

Definition some_resource_left (state : LocalSchedulerState) : Prop :=
  exists k, (k < ResourceIndex_MAX)%nat /\ nth k (dynamic_resources state) 0 > 0.

(** The task's requirement exceeds what is currently available in some
    component. *)
Definition unfit (state : LocalSchedulerState) (s : TaskSpec) : Prop :=
  exists k, (k < ResourceIndex_MAX)%nat
            /\ TaskSpec_get_required_resource s k > nth k (dynamic_resources state) 0.

Definition fits (state : LocalSchedulerState) (s : TaskSpec) : Prop :=
  forall k, (k < ResourceIndex_MAX)%nat ->
            TaskSpec_get_required_resource s k <= nth k (dynamic_resources state) 0.

(** ** Statements about the worker pool *)

(** No worker is recorded twice, within or across the three sequences. *)
Definition workers_disjoint (algorithm_state : SchedulingAlgorithmState) : Prop :=
  NoDup (available_workers algorithm_state ++ executing_workers algorithm_state
         ++ blocked_workers algorithm_state).

Definition in_at_most_one_sequence (algorithm_state : SchedulingAlgorithmState)
    (w : ClientPtr) : Prop :=
  ~ (w ∈ available_workers algorithm_state /\ w ∈ executing_workers algorithm_state)
  /\ ~ (w ∈ available_workers algorithm_state /\ w ∈ blocked_workers algorithm_state)
  /\ ~ (w ∈ executing_workers algorithm_state /\ w ∈ blocked_workers algorithm_state).

Definition same_workers (a a' : SchedulingAlgorithmState) : Prop :=
  available_workers a' = available_workers a
  /\ executing_workers a' = executing_workers a
  /\ blocked_workers a' = blocked_workers a.

(** What the handlers of actor events leave alone. *)
Definition queues_preserved (a a' : SchedulingAlgorithmState) : Prop :=
  same_workers a a'
  /\ dispatch_task_queue a' = dispatch_task_queue a
  /\ waiting_task_queue a' = waiting_task_queue a.

Definition resources_same (s s' : LocalSchedulerState) : Prop :=
  static_resources s' = static_resources s
  /\ dynamic_resources s' = dynamic_resources s.

(** Queueing the task [s]: the queues keep their nodes and gain at most nodes
    that carry [s]. *)
Definition queues_gain (s : TaskSpec) (a a' : SchedulingAlgorithmState) : Prop :=
  same_workers a a'
  /\ (forall node, node ∈ dispatch_task_queue a -> node ∈ dispatch_task_queue a')
  /\ (forall node, node ∈ dispatch_task_queue a' ->
                   node ∈ dispatch_task_queue a \/ spec node.2 = s)
  /\ (forall node, node ∈ waiting_task_queue a' ->
                   node ∈ waiting_task_queue a \/ spec node.2 = s).

(** Promotion of waiting tasks: the dispatch queue keeps its nodes and gains
    at most nodes that carry an entry of the waiting queue, which only loses
    nodes. *)
Definition queues_promoted (a a' : SchedulingAlgorithmState) : Prop :=
  same_workers a a'
  /\ (forall node, node ∈ dispatch_task_queue a -> node ∈ dispatch_task_queue a')
  /\ (forall node, node ∈ dispatch_task_queue a' ->
                   node ∈ dispatch_task_queue a
                   \/ exists n, n ∈ waiting_task_queue a /\ node.2 = n.2)
  /\ (forall node, node ∈ waiting_task_queue a' -> node ∈ waiting_task_queue a).

(** The task of a node depends on the object, as [handle_object_removed]
    tests it. *)
Definition depends_on (id : ObjectID) (node : Cursor * TaskQueueEntry) : Prop :=
  TaskSpec_is_dependent_on (spec node.2) id = true.

#[global] Instance depends_on_dec (id : ObjectID) (node : Cursor * TaskQueueEntry)
  : Decision (depends_on id node).
Proof. unfold depends_on. apply _. Defined.

(** Fresh nodes for the entries of [nodes], numbered from [n]. *)
Definition renumber (n : Cursor) (nodes : list (Cursor * TaskQueueEntry))
  : list (Cursor * TaskQueueEntry) :=
  imap (fun i node => ((n + i)%nat, node.2)) nodes.

(** ** Statements about cached actor tasks *)

(** Re-submitting specifications one after the other. *)
Definition resubmit (state : LocalSchedulerState)
    (algorithm_state : SchedulingAlgorithmState) (tasks : list (TaskSpec * Z))
  : result (LocalSchedulerState * SchedulingAlgorithmState) :=
  for_each (fun '(state, algorithm_state) '(s, size) =>
              handle_actor_task_submitted state algorithm_state s size)
           (state, algorithm_state) tasks.

(** The actor of the task has no entry in the actor mapping. *)
Definition actor_unknown (state : LocalSchedulerState) (task : TaskSpec * Z) : Prop :=
  actor_mapping state !! TaskSpec_actor_id task.1 = None.

#[global] Instance actor_unknown_dec (state : LocalSchedulerState) (task : TaskSpec * Z)
  : Decision (actor_unknown state task).
Proof. unfold actor_unknown. apply _. Defined.

(** ** Statements about driver removal *)

(** Every iterator held by the table of remote objects designates a node of
    the waiting queue. *)
Definition cursors_valid (a : SchedulingAlgorithmState) : Prop :=
  forall id entry it,
    remote_objects a !! id = Some entry -> it ∈ dependent_tasks entry ->
    exists node, deref (waiting_task_queue a) it = Ok node.

(** The iterator designates a task of another driver than [driver_id]. *)
Definition of_other_driver (waiting : list (Cursor * TaskQueueEntry))
    (driver_id : WorkerID) (it : Cursor) : Prop :=
  exists node, deref waiting it = Ok node
               /\ WorkerID_equal (TaskSpec_driver_id (spec node)) driver_id = false.

(** ** Statements about tasks larger than the node *)

(** The task requires more than the node's static capacity in some
    component. *)
Definition exceeds_static (state : LocalSchedulerState) (s : TaskSpec) : Prop :=
  exists k, (k < ResourceIndex_MAX)%nat
            /\ TaskSpec_get_required_resource s k > nth k (static_resources state) 0.

(** What is available never exceeds the capacity. *)
Definition capacity_respected (state : LocalSchedulerState) : Prop :=
  forall k, (k < ResourceIndex_MAX)%nat ->
            nth k (dynamic_resources state) 0 <= nth k (static_resources state) 0.

(** Required quantities are not negative. *)
Definition requires_nonnegative (s : TaskSpec) : Prop :=
  forall k, (k < ResourceIndex_MAX)%nat -> 0 <= TaskSpec_get_required_resource s k.

Definition queue_requires_nonnegative (queue : list (Cursor * TaskQueueEntry)) : Prop :=
  forall node, node ∈ queue -> requires_nonnegative (spec node.2).

(** The task an event brings, if any, requires non-negative quantities. *)
Definition event_requires_nonnegative (e : Event) : Prop :=
  match e with
  | task_submitted s _ | task_scheduled s _ => requires_nonnegative s
  | _ => True
  end.

(** Two events take a node out of the dispatch queue without running it: the
    removal of the task's driver and the removal of an object the task
    depends on; [outlives e node] excludes them. *)
Definition outlives (e : Event) (node : Cursor * TaskQueueEntry) : Prop :=
  match e with
  | driver_removed id =>
      WorkerID_equal (TaskSpec_driver_id (spec node.2)) id = false
  | object_removed id => ~ depends_on id node
  | _ => True
  end.

(** The effects that [state'] logged after [state]. *)
Definition new_effects (state state' : LocalSchedulerState) : list Effect :=
  drop (length (effects state)) (effects state').

(** ** Statements about the removal and return of an object *)

Definition round_trip (state : LocalSchedulerState) (a : SchedulingAlgorithmState)
    (id : ObjectID) : result (LocalSchedulerState * SchedulingAlgorithmState) :=
  '(state1, a1) ← handle_object_removed state a id;
  handle_object_available state1 a1 id.

(** How many by-reference arguments of the task are the object. *)
Definition occurrences (id : ObjectID) (s : TaskSpec) : nat :=
  length (filter (fun i => TaskSpec_arg_by_ref s i
                           && ObjectID_equal (TaskSpec_arg_id s i) id = true)
                 (seq 0 (TaskSpec_num_args s))).

(** The iterators that [handle_object_removed] registers for the object: one
    per by-reference occurrence, node after node. *)
Definition mentions (id : ObjectID) (queue : list (Cursor * TaskQueueEntry))
  : list Cursor :=
  flat_map (fun node => replicate (occurrences id (spec node.2)) node.1) queue.

(** What the round trip needs of the state: the object is not also listed as
    remote, the tasks in the dispatch queue can run and those in the waiting
    queue cannot, the nodes of the waiting queue were allocated before
    [next_node], and no task in the dispatch queue takes the object twice. *)
Record round_trip_ready (a : SchedulingAlgorithmState) (id : ObjectID) : Prop := {
  ready_not_remote : remote_objects a !! id = None;
  ready_dispatch : forall node, node ∈ dispatch_task_queue a ->
                                can_run a (spec node.2) = true;
  ready_waiting : forall node, node ∈ waiting_task_queue a ->
                               can_run a (spec node.2) = false;
  ready_nodes : forall node, node ∈ waiting_task_queue a ->
                             (node.1 < next_node a)%nat;
  ready_once : forall node, node ∈ dispatch_task_queue a ->
                            (occurrences id (spec node.2) <= 1)%nat
}.

(** The state on which the round trip ends with [dispatch_tasks]: the nodes
    of the dispatch queue that depend on the object are behind the others, as
    fresh nodes, and [entry] is what [local_objects] holds for the object. *)
Definition round_trip_requeued (a : SchedulingAlgorithmState) (id : ObjectID)
    (entry : ObjectEntry) : SchedulingAlgorithmState :=
  let moved := filter (depends_on id) (dispatch_task_queue a) in
  let stay := filter (fun node => ~ depends_on id node) (dispatch_task_queue a) in
  set_local_objects
    (set_next_node
       (set_dispatch a (stay ++ renumber (next_node a + length moved)%nat moved))
       (next_node a + length moved + length moved)%nat)
    (<[id := entry]> (local_objects a)).

(** ** Statements about the queues and the object tables *)

(** The object is one of the by-reference arguments of the task. *)
Definition takes (s : TaskSpec) (id : ObjectID) : Prop :=
  ArgByRef id ∈ spec_args s.

(** The positions of the by-reference arguments of the task that are not
    local, as the loop of [fetch_missing_dependencies] meets them, and the
    objects at these positions. *)
Definition missing_positions (a : SchedulingAlgorithmState) (s : TaskSpec) : list nat :=
  filter (fun i => TaskSpec_arg_by_ref s i = true
                   /\ local_objects a !! TaskSpec_arg_id s i = None)
         (seq 0 (TaskSpec_num_args s)).

Definition missing_dependencies (a : SchedulingAlgorithmState) (s : TaskSpec)
  : list ObjectID :=
  map (TaskSpec_arg_id s) (missing_positions a s).

(** No object is listed both as local and as remote. *)
Definition tables_disjoint (a : SchedulingAlgorithmState) : Prop :=
  forall id, local_objects a !! id = None \/ remote_objects a !! id = None.

(** Every entry of the table of remote objects is filed under its own id and
    has a dependent task, and every iterator it holds designates a node of the
    waiting queue whose task takes the object. *)
Definition dependents_waiting (a : SchedulingAlgorithmState) : Prop :=
  forall id entry, remote_objects a !! id = Some entry ->
    object_id entry = id
    /\ dependent_tasks entry <> []
    /\ forall it, it ∈ dependent_tasks entry ->
         exists node, (it, node) ∈ waiting_task_queue a /\ takes (spec node) id.

(** Every waiting task is registered with each object it takes that is not
    local. *)
Definition waiting_registered (a : SchedulingAlgorithmState) : Prop :=
  forall it node id,
    (it, node) ∈ waiting_task_queue a -> takes (spec node) id ->
    local_objects a !! id = None ->
    exists entry, remote_objects a !! id = Some entry /\ it ∈ dependent_tasks entry.

(** The tasks of the waiting queue miss an object. *)
Definition waiting_blocked (a : SchedulingAlgorithmState) : Prop :=
  forall node, node ∈ waiting_task_queue a -> can_run a (spec node.2) = false.

(** The tasks of the dispatch queue have all their objects. *)
Definition dispatch_ready (a : SchedulingAlgorithmState) : Prop :=
  forall node, node ∈ dispatch_task_queue a -> can_run a (spec node.2) = true.

(** The nodes of the waiting queue are distinct and were allocated before
    [next_node]. *)
Definition nodes_allocated (a : SchedulingAlgorithmState) : Prop :=
  NoDup (waiting_task_queue a).*1
  /\ forall node, node ∈ waiting_task_queue a -> (node.1 < next_node a)%nat.

Record queues_consistent (a : SchedulingAlgorithmState) : Prop := {
  consistent_nodes : nodes_allocated a;
  consistent_tables : tables_disjoint a;
  consistent_dependents : dependents_waiting a;
  consistent_registered : waiting_registered a;
  consistent_waiting : waiting_blocked a;
  consistent_dispatch : dispatch_ready a
}.

(** What the steps that do not queue tasks leave alone. *)
Definition objects_preserved (a a' : SchedulingAlgorithmState) : Prop :=
  waiting_task_queue a' = waiting_task_queue a
  /\ next_node a' = next_node a
  /\ local_objects a' = local_objects a
  /\ remote_objects a' = remote_objects a.

(** ** Statements about one run of [dispatch_tasks] *)

(** What the assignment of a node to a worker logs. *)
Definition assignment_effects (assignment : (Cursor * TaskQueueEntry) * ClientPtr)
  : list Effect :=
  [AssignTask (spec assignment.1.2) (task_spec_size assignment.1.2) (Some assignment.2);
   FreeSpec (spec assignment.1.2)].

(** The quantity of resource [k] that the assigned tasks require together. *)
Definition required_total (k : nat)
    (assigned : list ((Cursor * TaskQueueEntry) * ClientPtr)) : Z :=
  foldr Z.add 0
        (map (fun assignment => TaskSpec_get_required_resource (spec assignment.1.2) k)
             assigned).

(** No resource kind is overdrawn. *)
Definition resources_nonnegative (state : LocalSchedulerState) : Prop :=
  forall k, (k < ResourceIndex_MAX)%nat -> 0 <= nth k (dynamic_resources state) 0.

(** ** Statements about what the handlers log *)

(** The effect is not the assignment of a task. *)
Definition no_assignment (e : Effect) : Prop :=
  match e with
  | AssignTask _ _ _ => False
  | _ => True
  end.

(** The effect is not the assignment of a task that misses an object. *)
Definition assigns_runnable (a : SchedulingAlgorithmState) (e : Effect) : Prop :=
  match e with
  | AssignTask s _ _ => can_run a s = true
  | _ => True
  end.

(** [state'] logged, after [state], only effects that satisfy [P]. *)
Definition logs (P : Effect -> Prop) (state state' : LocalSchedulerState) : Prop :=
  exists new, effects state' = effects state ++ new /\ Forall P new.

(** The events about tasks without an actor, workers without an actor,
    objects, drivers and the fetch timer. *)
Definition plain_event (e : Event) : Prop :=
  match e with
  | actor_task_submitted _ _ | actor_creation_notification _
  | actor_task_scheduled _ _ | actor_worker_available _
  | actor_worker_connect _ _ | actor_worker_disconnect _ => False
  | _ => True
  end.

(** ** Statements about the actors *)

(** The actor counters of the queued tasks never decrease along the queue. *)
Fixpoint counters_ascending (queue : list TaskQueueEntry) : Prop :=
  match queue with
  | [] => True
  | x :: queue' =>
      Forall (fun y => TaskSpec_actor_counter (spec x) <= TaskSpec_actor_counter (spec y))
             queue'
      /\ counters_ascending queue'
  end.

(** Every actor is filed under its own id and its queue is in the order of
    the actor counters. *)
Definition actor_table_consistent (a : SchedulingAlgorithmState) : Prop :=
  forall id entry, local_actor_infos a !! id = Some entry ->
    actor_id entry = id /\ counters_ascending (task_queue entry).

(** The two arrays of the cache have the same length and every cached task
    is an actor task. *)
Definition cache_aligned (a : SchedulingAlgorithmState) : Prop :=
  length (cached_submitted_actor_tasks a) = length (cached_submitted_actor_task_sizes a)
  /\ Forall (fun s => TaskSpec_actor_id s <> NIL_ACTOR_ID)
            (cached_submitted_actor_tasks a).

(** What the handlers of plain events leave alone. *)
Definition actors_preserved (a a' : SchedulingAlgorithmState) : Prop :=
  local_actor_infos a' = local_actor_infos a
  /\ cached_submitted_actor_tasks a' = cached_submitted_actor_tasks a
  /\ cached_submitted_actor_task_sizes a' = cached_submitted_actor_task_sizes a.

(** ** Example data *)

Definition example_spec (driver task actor : UniqueID) (counter : Z)
    (args : list TaskArg) (required : list Z) : TaskSpec :=
  {| spec_driver_id := driver; spec_task_id := task; spec_actor_id := actor;
     spec_actor_counter := counter; spec_args := args;
     spec_required_resources := required |}.

(** A node with one CPU and no GPU left, connected to the object store and to
    the task table as client 9. *)
Definition example_state : LocalSchedulerState :=
  {| db := Some 9%N; global_scheduler_exists := true; actor_mapping := ∅;
     plasma_connected := true; child_pids := [1]; workers := [];
     static_resources := [4; 1]; dynamic_resources := [1; 0]; effects := [] |}.

Definition with_actor_mapping (state : LocalSchedulerState)
    (m : gmap UniqueID DBClientID) : LocalSchedulerState :=
  {| db := db state; global_scheduler_exists := global_scheduler_exists state;
     actor_mapping := m; plasma_connected := plasma_connected state;
     child_pids := child_pids state; workers := workers state;
     static_resources := static_resources state;
     dynamic_resources := dynamic_resources state; effects := effects state |}.

Definition example_actor_info (queue : list TaskQueueEntry) (available : bool)
  : LocalActorInfo :=
  {| actor_id := 5%N; task_counter := 0; task_queue := queue;
     worker := Some 70%N; worker_available := available |}.

Definition example_actor_state (queue : list TaskQueueEntry) (available : bool)
  : SchedulingAlgorithmState :=
  {| waiting_task_queue := []; next_node := 0%nat; dispatch_task_queue := [];
     local_actor_infos := {[ 5%N := example_actor_info queue available ]};
     cached_submitted_actor_tasks := []; cached_submitted_actor_task_sizes := [];
     available_workers := []; executing_workers := []; blocked_workers := [];
     local_objects := ∅; remote_objects := ∅ |}.

Definition example_actor_task (counter : Z) : TaskQueueEntry :=
  {| spec := example_spec 1%N (Z.to_N counter + 10)%N 5%N counter [] [0; 0];
     task_spec_size := 64 |}.

(** A dispatch queue whose head needs two CPUs and whose second task needs
    one, with worker 7 available. *)
Definition example_big_node : Cursor * TaskQueueEntry :=
  (0%nat, {| spec := example_spec 1%N 21%N NIL_ACTOR_ID 0 [] [2; 0];
             task_spec_size := 64 |}).

Definition example_small_node : Cursor * TaskQueueEntry :=
  (1%nat, {| spec := example_spec 1%N 22%N NIL_ACTOR_ID 0 [] [1; 0];
             task_spec_size := 64 |}).

Definition example_dispatch_state : SchedulingAlgorithmState :=
  {| waiting_task_queue := []; next_node := 2%nat;
     dispatch_task_queue := [example_big_node; example_small_node];
     local_actor_infos := ∅;
     cached_submitted_actor_tasks := []; cached_submitted_actor_task_sizes := [];
     available_workers := [7%N]; executing_workers := []; blocked_workers := [];
     local_objects := ∅; remote_objects := ∅ |}.

Definition example_worker : LocalSchedulerClient :=
  {| client_ptr := 7%N; task_in_progress := None; client_actor_id := NIL_ACTOR_ID |}.

(** The initial state after worker 7 reported available. *)
Definition example_pool_state : SchedulingAlgorithmState :=
  {| waiting_task_queue := []; next_node := 0%nat; dispatch_task_queue := [];
     local_actor_infos := ∅;
     cached_submitted_actor_tasks := []; cached_submitted_actor_task_sizes := [];
     available_workers := [7%N]; executing_workers := []; blocked_workers := [];
     local_objects := ∅; remote_objects := ∅ |}.

(** Executing workers 3, 7 and 4, none available or blocked. *)
Definition example_busy_state : SchedulingAlgorithmState :=
  {| waiting_task_queue := []; next_node := 0%nat; dispatch_task_queue := [];
     local_actor_infos := ∅;
     cached_submitted_actor_tasks := []; cached_submitted_actor_task_sizes := [];
     available_workers := []; executing_workers := [3%N; 7%N; 4%N];
     blocked_workers := [];
     local_objects := ∅; remote_objects := ∅ |}.

(** A task of driver 1 that reads object 100 by reference, waiting for it as
    node 0; the object is being fetched. *)
Definition example_reader : TaskQueueEntry :=
  {| spec := example_spec 1%N 31%N NIL_ACTOR_ID 0 [ArgByRef 100%N] [1; 0];
     task_spec_size := 64 |}.

Definition example_fetching_state : SchedulingAlgorithmState :=
  {| waiting_task_queue := [(0%nat, example_reader)]; next_node := 1%nat;
     dispatch_task_queue := [];
     local_actor_infos := ∅;
     cached_submitted_actor_tasks := []; cached_submitted_actor_task_sizes := [];
     available_workers := []; executing_workers := []; blocked_workers := [];
     local_objects := ∅;
     remote_objects := {[ 100%N := {| object_id := 100%N;
                                      dependent_tasks := [0%nat] |} ]} |}.

(** Object 100 is local; task 31, which reads it, is at the head of the
    dispatch queue, before task 22, which reads nothing; no worker is
    available. *)
Definition example_local_state : SchedulingAlgorithmState :=
  {| waiting_task_queue := []; next_node := 2%nat;
     dispatch_task_queue := [(0%nat, example_reader); example_small_node];
     local_actor_infos := ∅;
     cached_submitted_actor_tasks := []; cached_submitted_actor_task_sizes := [];
     available_workers := []; executing_workers := []; blocked_workers := [];
     local_objects := {[ 100%N := {| object_id := 100%N; dependent_tasks := [] |} ]};
     remote_objects := ∅ |}.

(** A task that needs eight CPUs on a node that has four, queued before the
    small task; worker 7 is available. *)
Definition example_oversized_node : Cursor * TaskQueueEntry :=
  (0%nat, {| spec := example_spec 1%N 23%N NIL_ACTOR_ID 0 [] [8; 0];
             task_spec_size := 64 |}).

Definition example_oversized_state : SchedulingAlgorithmState :=
  {| waiting_task_queue := []; next_node := 2%nat;
     dispatch_task_queue := [example_oversized_node; example_small_node];
     local_actor_infos := ∅;
     cached_submitted_actor_tasks := []; cached_submitted_actor_task_sizes := [];
     available_workers := [7%N]; executing_workers := []; blocked_workers := [];
     local_objects := ∅; remote_objects := ∅ |}.

(** Object 100 is local and object 200 is being fetched; task 31, which
    reads object 100, is in the dispatch queue as node 0; task 32, which reads
    both objects, waits as node 1; no worker is available. *)
Definition example_pair_reader : TaskQueueEntry :=
  {| spec := example_spec 1%N 32%N NIL_ACTOR_ID 0 [ArgByRef 100%N; ArgByRef 200%N] [1; 0];
     task_spec_size := 64 |}.

Definition example_mixed_state : SchedulingAlgorithmState :=
  {| waiting_task_queue := [(1%nat, example_pair_reader)]; next_node := 2%nat;
     dispatch_task_queue := [(0%nat, example_reader)];
     local_actor_infos := ∅;
     cached_submitted_actor_tasks := []; cached_submitted_actor_task_sizes := [];
     available_workers := []; executing_workers := []; blocked_workers := [];
     local_objects := {[ 100%N := {| object_id := 100%N; dependent_tasks := [] |} ]};
     remote_objects := {[ 200%N := {| object_id := 200%N;
                                      dependent_tasks := [1%nat] |} ]} |}.

(** The events that lead from the initial state to [example_mixed_state]. *)
Definition example_mixed_events : list Event :=
  [object_available 100%N; task_scheduled (spec example_reader) 64;
   task_scheduled (spec example_pair_reader) 64].

(** Actor 5 lives here and has no worker yet; its tasks with the counters 1
    and 2 are queued; a task of actor 6, which no scheduler is known to have,
    is cached. *)
Definition example_unknown_actor_task : TaskSpec :=
  example_spec 1%N 40%N 6%N 0 [] [0; 0].

Definition example_queued_actor_info : LocalActorInfo :=
  {| actor_id := 5%N; task_counter := 0;
     task_queue := [example_actor_task 1; example_actor_task 2];
     worker := None; worker_available := false |}.

Definition example_queued_actor_state : SchedulingAlgorithmState :=
  {| waiting_task_queue := []; next_node := 0%nat; dispatch_task_queue := [];
     local_actor_infos := {[ 5%N := example_queued_actor_info ]};
     cached_submitted_actor_tasks := [example_unknown_actor_task];
     cached_submitted_actor_task_sizes := [64];
     available_workers := []; executing_workers := []; blocked_workers := [];
     local_objects := ∅; remote_objects := ∅ |}.

Definition example_queued_actor_events : list Event :=
  [actor_task_submitted (spec (example_actor_task 2)) 64;
   actor_task_submitted example_unknown_actor_task 64;
   actor_task_submitted (spec (example_actor_task 1)) 64].

(** Task 33 takes object 100 twice; it waits as node 0, and object 100 is
    being fetched with the iterator of node 0 registered once per argument. *)
Definition example_twice_reader : TaskQueueEntry :=
  {| spec := example_spec 1%N 33%N NIL_ACTOR_ID 0 [ArgByRef 100%N; ArgByRef 100%N] [1; 0];
     task_spec_size := 64 |}.

Definition example_twice_state : SchedulingAlgorithmState :=
  {| waiting_task_queue := [(0%nat, example_twice_reader)]; next_node := 1%nat;
     dispatch_task_queue := [];
     local_actor_infos := ∅;
     cached_submitted_actor_tasks := []; cached_submitted_actor_task_sizes := [];
     available_workers := []; executing_workers := []; blocked_workers := [];
     local_objects := ∅;
     remote_objects := {[ 100%N := {| object_id := 100%N;
                                      dependent_tasks := [0%nat; 0%nat] |} ]} |}.

Definition example_twice_events : list Event :=
  [task_scheduled (spec example_twice_reader) 64].

(** The node of [example_state] with eight CPUs available, more than its
    capacity of four. *)
Definition example_surplus_state : LocalSchedulerState :=
  set_dynamic_resources example_state [8; 0].

(** A task that requires minus seven CPUs, queued before the task that needs
    eight; workers 7 and 8 are available. *)
Definition example_refund_node : Cursor * TaskQueueEntry :=
  (1%nat, {| spec := example_spec 1%N 24%N NIL_ACTOR_ID 0 [] [-7; 0];
             task_spec_size := 64 |}).

Definition example_refund_state : SchedulingAlgorithmState :=
  {| waiting_task_queue := []; next_node := 2%nat;
     dispatch_task_queue := [example_refund_node; example_oversized_node];
     local_actor_infos := ∅;
     cached_submitted_actor_tasks := []; cached_submitted_actor_task_sizes := [];
     available_workers := [7%N; 8%N]; executing_workers := []; blocked_workers := [];
     local_objects := ∅; remote_objects := ∅ |}.

(** Actor 5 with its counter at [INT64_MAX], the task with that counter at
    the head of its queue and its worker available. *)
Definition example_last_counter_state : SchedulingAlgorithmState :=
  {| waiting_task_queue := []; next_node := 0%nat; dispatch_task_queue := [];
     local_actor_infos :=
       {[ 5%N := {| actor_id := 5%N; task_counter := INT64_MAX;
                    task_queue := [example_actor_task INT64_MAX];
                    worker := Some 70%N; worker_available := true |} ]};
     cached_submitted_actor_tasks := []; cached_submitted_actor_task_sizes := [];
     available_workers := []; executing_workers := []; blocked_workers := [];
     local_objects := ∅; remote_objects := ∅ |}.

(** * Properties *)

(** ** Actor dispatch *)

Lemma CHECK_true : CHECK true = Ok tt.
Proof. reflexivity. Qed.

Lemma nil_actor_check (id : ActorID) :
  id <> NIL_ACTOR_ID -> CHECK (negb (ActorID_equal id NIL_ACTOR_ID)) = Ok tt.
Proof.
  intros Hid. unfold ActorID_equal, UniqueID_equal.
  by rewrite bool_decide_eq_false_2.
Qed.

Lemma DBClientID_equal_refl (a : DBClientID) : DBClientID_equal a a = true.
Proof. unfold DBClientID_equal, UniqueID_equal. by apply bool_decide_eq_true_2. Qed.

(** C1 (as amended).  For a non-nil actor that the actor mapping assigns to
    this local scheduler and that has a [LocalActorInfo], [dispatch_actor_task]
    returns false, changing nothing, when the actor's queue is empty, when the
    head's actor counter is above [task_counter], or when the counters agree
    and [worker_available] is false; it fails its assertion when the head's
    counter is below [task_counter]; otherwise, while [task_counter] is
    below [INT64_MAX], it returns true after incrementing [task_counter],
    assigning the head task to the actor's worker, clearing
    [worker_available], freeing the head entry and popping it, the rest of the
    queue being unchanged; at [INT64_MAX] the increment overflows and the
    outcome is undefined. *)
Theorem dispatch_actor_task_correct (state : LocalSchedulerState)
    (algorithm_state : SchedulingAlgorithmState) (id : ActorID) (self : DBClientID) :
  id <> NIL_ACTOR_ID ->
  actor_mapping state !! id = Some self ->
  db state = Some self ->
  dispatch_actor_task_behaviour state algorithm_state id.
Proof.
  intros Hid Hmap Hdb entry Hentry.
  unfold dispatch_actor_task.
  rewrite nil_actor_check by done.
  rewrite Hmap, Hdb. cbn [get_db_client_id mbind result_bind].
  rewrite DBClientID_equal_refl, Hentry. cbn [CHECK mbind result_bind].
  split.
  - by intros ->.
  - intros first_task remaining ->.
    repeat split.
    + intros Hgt.
      replace (TaskSpec_actor_counter (spec first_task) =? task_counter entry)
        with false by (symmetry; apply Z.eqb_neq; lia).
      cbn [negb].
      replace (TaskSpec_actor_counter (spec first_task) >? task_counter entry)
        with true by (symmetry; apply Z.gtb_lt; lia).
      reflexivity.
    + intros Hlt.
      replace (TaskSpec_actor_counter (spec first_task) =? task_counter entry)
        with false by (symmetry; apply Z.eqb_neq; lia).
      cbn [negb].
      replace (TaskSpec_actor_counter (spec first_task) >? task_counter entry)
        with false by (symmetry; rewrite Z.gtb_ltb; apply Z.ltb_ge; lia).
      reflexivity.
    + intros Heq Hwa. rewrite Heq, Z.eqb_refl, Hwa. reflexivity.
    + intros Heq Hwa Hbound. rewrite Heq, Z.eqb_refl, Hwa.
      cbn [negb]. unfold int64_increment.
      by rewrite (proj2 (Z.ltb_lt _ _) Hbound).
    + intros Heq Hwa Hbound. rewrite Heq, Z.eqb_refl, Hwa.
      cbn [negb]. unfold int64_increment.
      by rewrite (proj2 (Z.ltb_ge _ _) Hbound).
Qed.

(** ** The dispatch loop *)

Lemma resources_available_iff (state : LocalSchedulerState) :
  resources_available state = true <-> some_resource_left state.
Proof.
  unfold resources_available, some_resource_left.
  rewrite existsb_exists. split.
  - intros (k & Hk & Hgt). apply in_seq in Hk. exists k. split; [lia|].
    apply Z.gtb_lt in Hgt. lia.
  - intros (k & Hk & Hgt). exists k. split; [apply in_seq; lia|].
    apply Z.gtb_lt. lia.
Qed.

Lemma task_satisfied_iff (state : LocalSchedulerState) (s : TaskSpec) :
  task_satisfied state s = true <-> fits state s.
Proof.
  unfold task_satisfied, fits. rewrite forallb_forall. split.
  - intros H k Hk. specialize (H k). rewrite in_seq in H.
    specialize (H ltac:(lia)). apply negb_true_iff in H.
    rewrite Z.gtb_ltb in H. apply Z.ltb_ge in H. exact H.
  - intros H k Hk. apply in_seq in Hk. apply negb_true_iff.
    rewrite Z.gtb_ltb. apply Z.ltb_ge. apply H. lia.
Qed.

Lemma task_unsatisfied_iff (state : LocalSchedulerState) (s : TaskSpec) :
  task_satisfied state s = false <-> unfit state s.
Proof.
  unfold task_satisfied, unfit. split.
  - intros H. apply not_true_iff_false in H. rewrite forallb_forall in H.
    destruct (existsb (fun i => TaskSpec_get_required_resource s i
                                >? nth i (dynamic_resources state) 0)
                      (seq 0 ResourceIndex_MAX)) eqn:He.
    + apply existsb_exists in He as (k & Hk & Hgt). apply in_seq in Hk.
      exists k. split; [lia|]. apply Z.gtb_lt in Hgt. lia.
    + exfalso. apply H. intros k Hk. apply negb_true_iff.
      destruct (TaskSpec_get_required_resource s k
                >? nth k (dynamic_resources state) 0) eqn:Hgt; [|done].
      assert (Hex : existsb (fun i => TaskSpec_get_required_resource s i
                                      >? nth i (dynamic_resources state) 0)
                            (seq 0 ResourceIndex_MAX) = true)
        by (apply existsb_exists; eauto).
      congruence.
  - intros (k & Hk & Hgt). apply not_true_iff_false. rewrite forallb_forall.
    intros H. specialize (H k). rewrite in_seq in H. specialize (H ltac:(lia)).
    apply negb_true_iff in H. rewrite Z.gtb_ltb in H. apply Z.ltb_ge in H. lia.
Qed.

(** The loop never reads the dispatch queue of the state it is given: the
    queue is what [kept] and [rest] say. *)
Lemma dispatch_tasks_loop_set_dispatch (rest : list (Cursor * TaskQueueEntry)) :
  forall state algorithm_state kept q,
    dispatch_tasks_loop state (set_dispatch algorithm_state q) kept rest
    = dispatch_tasks_loop state algorithm_state kept rest.
Proof.
  induction rest as [|node rest IH]; intros state algorithm_state kept q; [done|].
  cbn [dispatch_tasks_loop].
  change (available_workers (set_dispatch algorithm_state q))
    with (available_workers algorithm_state).
  destruct (last (available_workers algorithm_state)) as [w|]; [|done].
  destruct (resources_available state); [|done].
  destruct (task_satisfied state (spec node.2)); cbn [negb].
  - exact (IH _ (set_executing_workers
                   (set_available_workers algorithm_state
                      (removelast (available_workers algorithm_state)))
                   (executing_workers algorithm_state ++ [w])) kept q).
  - apply IH.
Qed.

(** Whatever was kept before the iterator stays in front, in order. *)
Lemma dispatch_tasks_loop_kept (rest : list (Cursor * TaskQueueEntry)) :
  forall state algorithm_state kept,
    dispatch_tasks_loop state algorithm_state kept rest
    = let '(state', algorithm_state') :=
        dispatch_tasks_loop state algorithm_state [] rest in
      (state', set_dispatch algorithm_state'
                 (kept ++ dispatch_task_queue algorithm_state')).
Proof.
  induction rest as [|node rest IH]; intros state algorithm_state kept.
  - cbn. by rewrite app_nil_r.
  - cbn [dispatch_tasks_loop].
    destruct (last (available_workers algorithm_state)) as [w|]; [|done].
    destruct (resources_available state); [|done].
    destruct (task_satisfied state (spec node.2)); cbn [negb].
    + apply IH.
    + rewrite (IH state algorithm_state (kept ++ [node])).
      rewrite (IH state algorithm_state ([] ++ [node])).
      destruct (dispatch_tasks_loop state algorithm_state [] rest) as [state' a'].
      cbn. by rewrite <- app_assoc.
Qed.

Lemma dispatch_tasks_loop_skip (pre : list (Cursor * TaskQueueEntry)) :
  forall state algorithm_state kept rest w,
    last (available_workers algorithm_state) = Some w ->
    resources_available state = true ->
    Forall (fun node => task_satisfied state (spec node.2) = false) pre ->
    dispatch_tasks_loop state algorithm_state kept (pre ++ rest)
    = dispatch_tasks_loop state algorithm_state (kept ++ pre) rest.
Proof.
  induction pre as [|node pre IH]; intros state algorithm_state kept rest w Hw Hres Hpre.
  - by rewrite app_nil_r.
  - inversion Hpre as [|? ? Hnode Hpre']; subst.
    cbn [app dispatch_tasks_loop]. rewrite Hw, Hres, Hnode. cbn [negb].
    rewrite (IH _ _ _ _ w) by done. by rewrite <- app_assoc.
Qed.

Lemma set_dispatch_id (algorithm_state : SchedulingAlgorithmState) :
  set_dispatch algorithm_state (dispatch_task_queue algorithm_state) = algorithm_state.
Proof. by destruct algorithm_state. Qed.

(** C2.  With a worker available and some resource left, [dispatch_tasks]
    walks the dispatch queue in order: the tasks [pre] that do not fit the
    available resources stay where they are, in order; if nothing else is
    queued nothing changes; the first task that fits, [node], is handed to the
    last available worker [w], which is popped from [available_workers] and
    appended to [executing_workers], its specification is freed and its node
    erased, and the walk goes on with the nodes after it. *)
Theorem dispatch_tasks_skips_unfit (state : LocalSchedulerState)
    (algorithm_state : SchedulingAlgorithmState)
    (pre rest : list (Cursor * TaskQueueEntry)) (node : Cursor * TaskQueueEntry)
    (ws : list ClientPtr) (w : ClientPtr) :
  available_workers algorithm_state = ws ++ [w] ->
  some_resource_left state ->
  Forall (fun skipped => unfit state (spec skipped.2)) pre ->
  (dispatch_task_queue algorithm_state = pre ->
     dispatch_tasks state algorithm_state = (state, algorithm_state))
  /\ (fits state (spec node.2) ->
      dispatch_task_queue algorithm_state = pre ++ node :: rest ->
      dispatch_tasks state algorithm_state
      = let state1 :=
          emit (assign_task_to_worker state (spec node.2) (task_spec_size node.2)
                  (Some w))
               (FreeSpec (spec node.2)) in
        let algorithm_state1 :=
          set_executing_workers
            (set_available_workers (set_dispatch algorithm_state rest) ws)
            (executing_workers algorithm_state ++ [w]) in
        let '(state2, algorithm_state2) := dispatch_tasks state1 algorithm_state1 in
        (state2, set_dispatch algorithm_state2
                   (pre ++ dispatch_task_queue algorithm_state2))).
Proof.
  intros Hws Hres Hpre.
  apply resources_available_iff in Hres.
  assert (Hw : last (available_workers algorithm_state) = Some w)
    by (rewrite Hws; apply last_snoc).
  assert (Hpre' : Forall (fun skipped => task_satisfied state (spec skipped.2) = false) pre).
  { eapply Forall_impl; [exact Hpre|]. intros skipped. apply task_unsatisfied_iff. }
  split.
  - intros Hq. unfold dispatch_tasks. rewrite Hq.
    rewrite <- (app_nil_r pre) at 1.
    rewrite (dispatch_tasks_loop_skip pre _ _ [] [] w) by done.
    cbn [dispatch_tasks_loop app]. rewrite <- Hq. by rewrite set_dispatch_id.
  - intros Hfit Hq. apply task_satisfied_iff in Hfit.
    unfold dispatch_tasks at 1. rewrite Hq.
    rewrite (dispatch_tasks_loop_skip pre _ _ [] (node :: rest) w) by done.
    cbn [dispatch_tasks_loop app]. rewrite Hw, Hres, Hfit. cbn [negb].
    rewrite Hws, removelast_last.
    rewrite dispatch_tasks_loop_kept.
    cbv zeta. unfold dispatch_tasks.
    change (dispatch_task_queue
              (set_executing_workers
                 (set_available_workers (set_dispatch algorithm_state rest) ws)
                 (executing_workers algorithm_state ++ [w]))) with rest.
    change (set_executing_workers
              (set_available_workers (set_dispatch algorithm_state rest) ws)
              (executing_workers algorithm_state ++ [w]))
      with (set_dispatch
              (set_executing_workers (set_available_workers algorithm_state ws)
                 (executing_workers algorithm_state ++ [w])) rest).
    rewrite dispatch_tasks_loop_set_dispatch.
    reflexivity.
Qed.

(** ** Outcomes of sequenced steps *)

Lemma bind_Ok {A B : Type} (m : result A) (f : A -> result B) (b : B) :
  m ≫= f = Ok b <-> exists a, m = Ok a /\ f a = Ok b.
Proof.
  destruct m; cbn; split; try (intros (? & ? & ?)); try discriminate; eauto.
  by simplify_eq.
Qed.

Lemma CHECK_Ok (cond : bool) (u : unit) : CHECK cond = Ok u <-> cond = true.
Proof. destruct cond, u; cbn; split; auto; discriminate. Qed.

Lemma DCHECK_Ok (cond : bool) (u : unit) :
  DCHECK cond = Ok u <-> (RAY_DCHECK = true -> cond = true).
Proof.
  unfold DCHECK. destruct RAY_DCHECK; [rewrite CHECK_Ok|destruct u]; split; auto.
  discriminate.
Qed.

Lemma for_each_invariant {A S : Type} (P : S -> Prop) (body : S -> A -> result S)
    (l : list A) :
  (forall s x s', x ∈ l -> P s -> body s x = Ok s' -> P s') ->
  forall s s', P s -> for_each body s l = Ok s' -> P s'.
Proof.
  induction l as [|x l IH]; intros Hbody s s' Hs Hrun; cbn in Hrun.
  - by simplify_eq.
  - apply bind_Ok in Hrun as (s1 & Hx & Hrun).
    eapply IH; [|eapply Hbody; [|exact Hs|exact Hx]|exact Hrun].
    + intros ? ? ? ?. apply Hbody. by right.
    + by left.
Qed.

Lemma foldl_invariant {A S : Type} (P : S -> Prop) (body : S -> A -> S) (l : list A) :
  (forall s x, x ∈ l -> P s -> P (body s x)) ->
  forall s, P s -> P (foldl body s l).
Proof.
  induction l as [|x l IH]; intros Hbody s Hs; cbn; [done|].
  apply IH; [|apply Hbody; [by left|done]].
  intros ? ? ?. apply Hbody. by right.
Qed.

(** ** The worker pool *)

Lemma submseteq_NoDup_helper {A : Type} (l k : list A) :
  l ⊆+ k -> NoDup k -> NoDup l.
Proof.
  intros [k' ->]%submseteq_Permutation Hk. by apply NoDup_app in Hk as [? _].
Qed.

Lemma same_workers_refl (a : SchedulingAlgorithmState) : same_workers a a.
Proof. by repeat split. Qed.

Lemma same_workers_trans (a b c : SchedulingAlgorithmState) :
  same_workers a b -> same_workers b c -> same_workers a c.
Proof. intros (? & ? & ?) (? & ? & ?). repeat split; congruence. Qed.

Lemma workers_disjoint_same (a a' : SchedulingAlgorithmState) :
  same_workers a a' -> workers_disjoint a -> workers_disjoint a'.
Proof. intros (Ha & He & Hb). unfold workers_disjoint. by rewrite Ha, He, Hb. Qed.

Lemma workers_disjoint_at_most_one (a : SchedulingAlgorithmState) (w : ClientPtr) :
  workers_disjoint a -> in_at_most_one_sequence a w.
Proof.
  unfold workers_disjoint, in_at_most_one_sequence.
  rewrite !NoDup_app. intros (_ & Hae & _ & Heb & _).
  repeat split.
  - intros [Ha He]. apply (Hae w Ha). apply elem_of_app. by left.
  - intros [Ha Hb]. apply (Hae w Ha). apply elem_of_app. by right.
  - intros [He Hb]. by apply (Heb w He).
Qed.

Lemma remove_worker_absent (v : list ClientPtr) (w : ClientPtr) :
  w ∉ v -> remove_worker_from_vector v w = (false, v).
Proof.
  intros Hw. unfold remove_worker_from_vector.
  destruct (list_find (fun x => x = w) v) as [[i found]|] eqn:Hfind; [|done].
  apply list_find_Some in Hfind as (Hi & -> & _).
  apply list_elem_of_lookup_2 in Hi. done.
Qed.

(** Removing a worker that is present leaves the other slots, in some
    order. *)
Lemma remove_worker_present (v : list ClientPtr) (w : ClientPtr) :
  w ∈ v ->
  exists r, remove_worker_from_vector v w = (true, r) /\ v ≡ₚ w :: r.
Proof.
  intros Hw. unfold remove_worker_from_vector.
  destruct (list_find (fun x => x = w) v) as [[i found]|] eqn:Hfind.
  2:{ apply list_find_None in Hfind. rewrite Forall_forall in Hfind.
      by destruct (Hfind w Hw). }
  apply list_find_Some in Hfind as (Hi & -> & _).
  eexists. split; [reflexivity|].
  pose proof (take_drop_middle v i w Hi) as Hsplit.
  assert (Hlen : length (take i v) = i).
  { apply length_take_le. apply lookup_lt_Some in Hi. lia. }
  set (l1 := take i v) in *. clearbody l1.
  destruct (drop (S i) v) as [|x l2'] using rev_ind; subst v.
  - rewrite last_snoc. cbn [default from_option id].
    rewrite length_app. cbn [length].
    replace (length l1 + 1 - 1)%nat with i by lia.
    rewrite (list_insert_id (l1 ++ [w]) i w) by (by rewrite lookup_app_r, Hlen, Nat.sub_diag by lia).
    rewrite (list_insert_id (l1 ++ [w]) i w) by (by rewrite lookup_app_r, Hlen, Nat.sub_diag by lia).
    rewrite removelast_last. by rewrite Permutation_app_comm.
  - clear IHl2'.
    replace (l1 ++ w :: l2' ++ [x]) with ((l1 ++ w :: l2') ++ [x])
      by (by rewrite <- app_assoc).
    rewrite last_snoc. cbn [default from_option id].
    rewrite <- app_assoc. cbn [app].
    rewrite (insert_app_r_alt l1 _ i x) by lia.
    rewrite Hlen, Nat.sub_diag. cbn [insert list_insert].
    replace (length (l1 ++ w :: l2' ++ [x]) - 1)%nat with (length (l1 ++ x :: l2'))
      by (rewrite !length_app; cbn; rewrite length_app; cbn; lia).
    replace (l1 ++ x :: l2' ++ [x]) with ((l1 ++ x :: l2') ++ [x])
      by (by rewrite <- app_assoc).
    rewrite (insert_app_r_alt (l1 ++ x :: l2') [x]) by lia.
    rewrite Nat.sub_diag. cbn [insert list_insert].
    rewrite removelast_last.
    rewrite <- !Permutation_middle. apply perm_skip.
    by rewrite app_nil_r.
Qed.

Lemma dispatch_tasks_loop_workers (rest : list (Cursor * TaskQueueEntry)) :
  forall state algorithm_state kept,
    let a' := (dispatch_tasks_loop state algorithm_state kept rest).2 in
    available_workers a' ++ executing_workers a'
    ≡ₚ available_workers algorithm_state ++ executing_workers algorithm_state
    /\ blocked_workers a' = blocked_workers algorithm_state.
Proof.
  induction rest as [|node rest IH]; intros state algorithm_state kept; [done|].
  cbn [dispatch_tasks_loop].
  destruct (last (available_workers algorithm_state)) as [w|] eqn:Hlast; [|done].
  destruct (resources_available state); [|done].
  destruct (task_satisfied state (spec node.2)); cbn [negb]; [|apply IH].
  cbv zeta.
  match goal with
  | |- context [dispatch_tasks_loop ?s ?a kept rest] =>
      destruct (IH s a kept) as [Hperm Hblocked]
  end.
  cbv zeta in Hperm, Hblocked. split; [|exact Hblocked].
  rewrite Hperm. cbn.
  apply last_Some in Hlast as [ws Hws]. rewrite Hws, removelast_last.
  rewrite <- !app_assoc. apply Permutation_app_head.
  rewrite Permutation_app_comm. reflexivity.
Qed.

Lemma dispatch_tasks_workers_disjoint (state : LocalSchedulerState)
    (algorithm_state : SchedulingAlgorithmState) :
  workers_disjoint algorithm_state ->
  workers_disjoint (dispatch_tasks state algorithm_state).2.
Proof.
  unfold workers_disjoint, dispatch_tasks. intros Hdisjoint.
  destruct (dispatch_tasks_loop_workers (dispatch_task_queue algorithm_state)
              state algorithm_state []) as [Hperm Hblocked].
  cbv zeta in Hperm, Hblocked.
  rewrite app_assoc, Hblocked, Hperm, <- app_assoc. exact Hdisjoint.
Qed.

(** ** What each step leaves alone *)

Ltac result_inv :=
  repeat match goal with
  | H : mbind _ _ = Ok _ |- _ => apply bind_Ok in H as (? & ? & H)
  | H : CHECK _ = Ok _ |- _ => apply CHECK_Ok in H
  | H : Ok _ = Ok _ |- _ => injection H as H
  | H : Fatal = Ok _ |- _ => discriminate H
  | H : Undefined = Ok _ |- _ => discriminate H
  | H : match ?x with _ => _ end = Ok _ |- _ => destruct x eqn:?
  | H : (_, _) = (_, _) |- _ => injection H as ? ?
  end; subst.

Lemma queues_preserved_refl (a : SchedulingAlgorithmState) : queues_preserved a a.
Proof. by repeat split. Qed.

Lemma queues_preserved_trans (a b c : SchedulingAlgorithmState) :
  queues_preserved a b -> queues_preserved b c -> queues_preserved a c.
Proof.
  intros (Hw & Hd & Hq) (Hw' & Hd' & Hq').
  split; [by eapply same_workers_trans|]. split; congruence.
Qed.

Lemma resources_same_refl (s : LocalSchedulerState) : resources_same s s.
Proof. by split. Qed.

Lemma resources_same_trans (s1 s2 s3 : LocalSchedulerState) :
  resources_same s1 s2 -> resources_same s2 s3 -> resources_same s1 s3.
Proof. intros [? ?] [? ?]. split; congruence. Qed.

Lemma task_table_write_queued_resources (state : LocalSchedulerState) (s : TaskSpec)
    (size : Z) (from_global_scheduler : bool) :
  resources_same state (task_table_write_queued state s size from_global_scheduler).
Proof.
  unfold task_table_write_queued.
  destruct (db state); [destruct from_global_scheduler|]; by split.
Qed.

Lemma create_actor_preserved (a a' : SchedulingAlgorithmState) (id : ActorID)
    (w : option ClientPtr) :
  create_actor a id w = Ok a' -> queues_preserved a a'.
Proof. unfold create_actor. intros H. result_inv. by repeat split. Qed.

Lemma remove_actor_preserved (state state' : LocalSchedulerState)
    (a a' : SchedulingAlgorithmState) (id : ActorID) :
  remove_actor state a id = Ok (state', a') -> queues_preserved a a'.
Proof. unfold remove_actor. intros H. result_inv. by repeat split. Qed.

Lemma dispatch_actor_task_preserved (state state' : LocalSchedulerState)
    (a a' : SchedulingAlgorithmState) (id : ActorID) (b : bool) :
  dispatch_actor_task state a id = Ok (b, state', a') -> queues_preserved a a'.
Proof.
  unfold dispatch_actor_task. intros H. result_inv; by repeat split.
Qed.

Lemma add_task_to_actor_queue_preserved (state state' : LocalSchedulerState)
    (a a' : SchedulingAlgorithmState) (s : TaskSpec) (size : Z) (g : bool) :
  add_task_to_actor_queue state a s size g = Ok (state', a') -> queues_preserved a a'.
Proof.
  unfold add_task_to_actor_queue. intros H. result_inv.
  all: try match goal with Hc : create_actor _ _ _ = Ok _ |- _ =>
         apply create_actor_preserved in Hc as ((? & ? & ?) & ? & ?) end.
  all: by repeat split.
Qed.

Lemma give_task_to_local_scheduler_preserved (state state' : LocalSchedulerState)
    (a a' : SchedulingAlgorithmState) (s : TaskSpec) (size : Z) (target : DBClientID) :
  give_task_to_local_scheduler state a s size target = Ok (state', a') ->
  queues_preserved a a'.
Proof.
  unfold give_task_to_local_scheduler. intros H. result_inv. by repeat split.
Qed.

Lemma handle_actor_task_submitted_preserved (state state' : LocalSchedulerState)
    (a a' : SchedulingAlgorithmState) (s : TaskSpec) (size : Z) :
  handle_actor_task_submitted state a s size = Ok (state', a') -> queues_preserved a a'.
Proof.
  unfold handle_actor_task_submitted. intros H. result_inv.
  - eapply queues_preserved_trans.
    + eapply add_task_to_actor_queue_preserved; eassumption.
    + eapply dispatch_actor_task_preserved; eassumption.
  - eapply give_task_to_local_scheduler_preserved; eassumption.
  - by repeat split.
Qed.

Lemma handle_actor_creation_notification_preserved (state state' : LocalSchedulerState)
    (a a' : SchedulingAlgorithmState) (id : ActorID) :
  handle_actor_creation_notification state a id = Ok (state', a') ->
  queues_preserved a a'.
Proof.
  unfold handle_actor_creation_notification. intros H. result_inv.
  lazymatch goal with Hrun : for_each _ ?init _ = Ok _ |- _ =>
    pose proof (fun Hbody =>
      for_each_invariant (fun sa => queues_preserved a sa.2) _ _ Hbody init _
        (queues_preserved_refl a) Hrun) as Hinv
  end.
  cbn in Hinv. destruct Hinv as ((? & ? & ?) & ? & ?); [|by repeat split].
  intros [s0 a0] i [s1 a1] _ Hpre Hbody. cbn in *.
  result_inv. eapply queues_preserved_trans; [exact Hpre|].
  eapply handle_actor_task_submitted_preserved; eassumption.
Qed.

Lemma fetch_missing_dependency_frame (state : LocalSchedulerState)
    (a : SchedulingAlgorithmState) (it : Cursor) (id : ObjectID) :
  queues_preserved a (fetch_missing_dependency state a it id).2
  /\ resources_same state (fetch_missing_dependency state a it id).1.
Proof.
  unfold fetch_missing_dependency.
  destruct (remote_objects a !! id); [by repeat split|].
  destruct (plasma_connected state); by repeat split.
Qed.

Lemma fetch_missing_dependencies_frame (state state' : LocalSchedulerState)
    (a a' : SchedulingAlgorithmState) (it : Cursor) :
  fetch_missing_dependencies state a it = Ok (state', a') ->
  queues_preserved a a' /\ resources_same state state'.
Proof.
  unfold fetch_missing_dependencies. intros H.
  apply bind_Ok in H as (entry & _ & H).
  match type of H with
  | context [foldl ?body ?init ?l] =>
      assert (Hinv : (fun acc : LocalSchedulerState * SchedulingAlgorithmState * Z =>
                        queues_preserved a acc.1.2 /\ resources_same state acc.1.1)
                     (foldl body init l))
  end.
  { apply foldl_invariant;
      [|by split; [apply queues_preserved_refl|apply resources_same_refl]].
    intros [[s0 a0] n0] i _ [Hq Hr]. cbn in *.
    destruct (TaskSpec_arg_by_ref (spec entry) i); [|by split].
    destruct (bool_decide _); [|by split].
    pose proof (fetch_missing_dependency_frame s0 a0 it
                  (TaskSpec_arg_id (spec entry) i)) as [Hq' Hr'].
    destruct (fetch_missing_dependency s0 a0 it _) as [s2 a2]. cbn in *.
    split; [by eapply queues_preserved_trans|by eapply resources_same_trans]. }
  match type of H with
  | context [foldl ?body ?init ?l] => destruct (foldl body init l) as [[s1 a1] n]
  end.
  result_inv. exact Hinv.
Qed.

Lemma queues_gain_of_preserved (s : TaskSpec) (a a' : SchedulingAlgorithmState) :
  queues_preserved a a' -> queues_gain s a a'.
Proof.
  intros (Hw & Hd & Hq). split; [done|]. rewrite Hd, Hq. by repeat split; auto.
Qed.

Lemma queue_dispatch_task_frame (state : LocalSchedulerState)
    (a : SchedulingAlgorithmState) (s : TaskSpec) (size : Z) (g : bool) :
  queues_gain s a (queue_dispatch_task state a s size g).2
  /\ resources_same state (queue_dispatch_task state a s size g).1.
Proof.
  unfold queue_dispatch_task, queue_task, push_back. cbn.
  split; [|apply task_table_write_queued_resources].
  split; [by repeat split|].
  split; [intros node Hnode; apply elem_of_app; by left|].
  split; [|by left].
  intros node [Hnode|Hnode%list_elem_of_singleton]%elem_of_app; [by left|].
  right. by subst.
Qed.

Lemma queue_waiting_task_frame (state state' : LocalSchedulerState)
    (a a' : SchedulingAlgorithmState) (s : TaskSpec) (size : Z) (g : bool) :
  queue_waiting_task state a s size g = Ok (state', a') ->
  queues_gain s a a' /\ resources_same state state'.
Proof.
  unfold queue_waiting_task, queue_task, push_back. cbn. intros H.
  apply fetch_missing_dependencies_frame in H as [((Hwa & Hwe & Hwb) & Hd & Hq) Hr].
  cbn in *. split.
  - split; [by repeat split|]. rewrite Hd, Hq.
    split; [done|]. split; [by left|].
    intros node [Hnode|Hnode%list_elem_of_singleton]%elem_of_app; [by left|].
    right. by subst.
  - eapply resources_same_trans; [apply task_table_write_queued_resources|exact Hr].
Qed.

Lemma queue_task_locally_frame (state state' : LocalSchedulerState)
    (a a' : SchedulingAlgorithmState) (s : TaskSpec) (size : Z) (g : bool) :
  queue_task_locally state a s size g = Ok (state', a') ->
  queues_gain s a a' /\ resources_same state state'.
Proof.
  unfold queue_task_locally. destruct (can_run a s).
  - intros H. pose proof (queue_dispatch_task_frame state a s size g) as Hf.
    destruct (queue_dispatch_task state a s size g). by simplify_eq.
  - apply queue_waiting_task_frame.
Qed.

Lemma give_task_to_global_scheduler_frame (state state' : LocalSchedulerState)
    (a a' : SchedulingAlgorithmState) (s : TaskSpec) (size : Z) :
  give_task_to_global_scheduler state a s size = Ok (state', a') ->
  queues_gain s a a' /\ resources_same state state'.
Proof.
  unfold give_task_to_global_scheduler.
  destruct (bool_decide (db state = None) || negb (global_scheduler_exists state)).
  - apply queue_task_locally_frame.
  - intros H. result_inv. split; [|by split].
    apply queues_gain_of_preserved, queues_preserved_refl.
Qed.

Lemma queues_promoted_refl (a : SchedulingAlgorithmState) : queues_promoted a a.
Proof. split; [apply same_workers_refl|]. repeat split; auto. Qed.

Lemma queues_promoted_trans (a b c : SchedulingAlgorithmState) :
  queues_promoted a b -> queues_promoted b c -> queues_promoted a c.
Proof.
  intros (Hw & Hd & Hn & Hq) (Hw' & Hd' & Hn' & Hq').
  split; [by eapply same_workers_trans|]. split; [auto|]. split; [|auto].
  intros node Hnode. destruct (Hn' node Hnode) as [Hb|(n & Hb & Heq)].
  - auto.
  - right. exists n. auto.
Qed.

Lemma deref_Ok (queue : list (Cursor * TaskQueueEntry)) (it : Cursor)
    (entry : TaskQueueEntry) :
  deref queue it = Ok entry -> (it, entry) ∈ queue.
Proof.
  unfold deref.
  destruct (list_find (fun node => node.1 = it) queue) as [[i [c e]]|] eqn:Hfind;
    [|discriminate].
  intros H. apply list_find_Some in Hfind as (Hi & Hc & _). cbn in *.
  simplify_eq. by eapply list_elem_of_lookup_2.
Qed.

Lemma erase_subseteq (queue : list (Cursor * TaskQueueEntry)) (it : Cursor)
    (node : Cursor * TaskQueueEntry) :
  node ∈ erase queue it -> node ∈ queue.
Proof.
  unfold erase.
  destruct (list_find (fun node => node.1 = it) queue) as [[i found]|]; [|done].
  apply list_elem_of_delete_inv.
Qed.

(** The loop of [handle_object_available] over the dependent tasks. *)
Lemma promote_dependents_frame (deps : list Cursor)
    (a a' : SchedulingAlgorithmState) :
  for_each promote_dependent a deps = Ok a' ->
  queues_promoted a a'.
Proof.
  intros Hrun.
  lazymatch goal with Hrun : for_each _ ?init _ = Ok _ |- _ =>
    pose proof (fun Hbody =>
      for_each_invariant (fun b => queues_promoted a b) _ _ Hbody init _
        (queues_promoted_refl a) Hrun) as Hinv
  end.
  apply Hinv. clear.
  intros b it b' _ Hb Hbody.
  eapply queues_promoted_trans; [exact Hb|]. clear Hb.
  unfold promote_dependent in Hbody.
  apply bind_Ok in Hbody as (node & Hnode%deref_Ok & Hbody).
  destruct (can_run b (spec node)); cbn in Hbody; simplify_eq;
    [|apply queues_promoted_refl].
  split; [by repeat split|]. cbn.
  split; [intros n Hn; apply elem_of_app; by left|].
  split.
  - intros n [Hn|Hn%list_elem_of_singleton]%elem_of_app; [by left|].
    right. exists (it, node). by subst.
  - intros n. apply erase_subseteq.
Qed.

(** The first loop of [handle_object_removed] is a stable partition of the
    dispatch queue: the nodes that depend on the object go, in order and as
    fresh nodes, to the tail of the waiting queue. *)
Lemma requeue_dependent_tasks_spec (id : ObjectID)
    (rest : list (Cursor * TaskQueueEntry)) :
  forall a kept,
    requeue_dependent_tasks a id kept rest
    = set_dispatch
        (set_waiting
           (set_next_node a (next_node a + length (filter (depends_on id) rest))%nat)
           (waiting_task_queue a
            ++ renumber (next_node a) (filter (depends_on id) rest)))
        (kept ++ filter (fun node => ~ depends_on id node) rest).
Proof.
  induction rest as [|node rest IH]; intros a kept.
  - cbn. rewrite !app_nil_r, Nat.add_0_r. by destruct a.
  - cbn [requeue_dependent_tasks].
    destruct (TaskSpec_is_dependent_on (spec node.2) id) eqn:Hdep.
    + rewrite (filter_cons_True (depends_on id)) by done.
      rewrite (filter_cons_False (fun node => ~ depends_on id node)) by (by intros []).
      cbn [push_back]. rewrite IH. cbn.
      unfold set_dispatch, set_waiting, set_next_node, renumber. cbn.
      f_equal; [|lia].
      rewrite <- app_assoc. f_equal. cbn. rewrite Nat.add_0_r. f_equal.
      apply imap_ext. intros i x _. cbn. f_equal. lia.
    + rewrite (filter_cons_False (depends_on id))
        by (unfold depends_on; congruence).
      rewrite (filter_cons_True (fun node => ~ depends_on id node))
        by (unfold depends_on; congruence).
      rewrite IH. by rewrite <- app_assoc.
Qed.

Lemma register_removed_object_frame (id : ObjectID)
    (queue : list (Cursor * TaskQueueEntry)) (state : LocalSchedulerState)
    (a : SchedulingAlgorithmState) :
  let r :=
    foldl (fun '(state, algorithm_state) node =>
             let it := node.1 in
             foldl (fun '(state, algorithm_state) i =>
                      if TaskSpec_arg_by_ref (spec node.2) i then
                        let arg_id := TaskSpec_arg_id (spec node.2) i in
                        if ObjectID_equal arg_id id
                        then fetch_missing_dependency state algorithm_state it id
                        else (state, algorithm_state)
                      else (state, algorithm_state))
                   (state, algorithm_state) (seq 0 (TaskSpec_num_args (spec node.2))))
          (state, a) queue in
  queues_preserved a r.2 /\ resources_same state r.1.
Proof.
  cbv zeta.
  apply (foldl_invariant
           (fun r : LocalSchedulerState * SchedulingAlgorithmState =>
              queues_preserved a r.2 /\ resources_same state r.1));
    [|by split; [apply queues_preserved_refl|apply resources_same_refl]].
  intros [s0 a0] node _ H0.
  apply (foldl_invariant
           (fun r : LocalSchedulerState * SchedulingAlgorithmState =>
              queues_preserved a r.2 /\ resources_same state r.1)); [|exact H0].
  intros [s1 a1] i _ [Hq Hr].
  destruct (TaskSpec_arg_by_ref (spec node.2) i); [|by split].
  destruct (ObjectID_equal _ id); [|by split].
  pose proof (fetch_missing_dependency_frame s1 a1 node.1 id) as [Hq' Hr'].
  split; [by eapply queues_preserved_trans|by eapply resources_same_trans].
Qed.

Lemma handle_object_removed_workers (state state' : LocalSchedulerState)
    (a a' : SchedulingAlgorithmState) (id : ObjectID) :
  handle_object_removed state a id = Ok (state', a') -> same_workers a a'.
Proof.
  unfold handle_object_removed. intros H.
  apply bind_Ok in H as (_ & _ & H). injection H as H.
  match type of H with
  | foldl _ (state, ?a0) ?q = _ =>
      pose proof (register_removed_object_frame id q state a0) as [(Hw & _) _]
  end.
  cbv zeta in Hw. rewrite H in Hw. cbn in Hw.
  eapply same_workers_trans; [|exact Hw].
  rewrite requeue_dependent_tasks_spec. by repeat split.
Qed.

Lemma handle_driver_removed_workers (state state' : LocalSchedulerState)
    (a a' : SchedulingAlgorithmState) (id : WorkerID) :
  handle_driver_removed state a id = Ok (state', a') -> same_workers a a'.
Proof.
  unfold handle_driver_removed. intros H.
  apply bind_Ok in H as (remote & _ & H). injection H as <- <-. by repeat split.
Qed.

(** [handle_object_available] ends, when tasks depended on the object, with
    [dispatch_tasks] on a state in which some waiting tasks were promoted. *)
Lemma handle_object_available_promotes (state state' : LocalSchedulerState)
    (a a' : SchedulingAlgorithmState) (id : ObjectID) :
  handle_object_available state a id = Ok (state', a') ->
  exists a1, queues_promoted a a1
             /\ ((state', a') = (state, a1) \/ (state', a') = dispatch_tasks state a1).
Proof.
  unfold handle_object_available. intros H.
  destruct (remote_objects a !! id) as [found|] eqn:Hremote.
  - apply bind_Ok in H as (_ & _ & H).
    destruct (negb (bool_decide (dependent_tasks found = []))).
    + apply bind_Ok in H as (a1 & Hloop & H).
      apply promote_dependents_frame in Hloop.
      exists a1. split.
      * eapply queues_promoted_trans; [|exact Hloop].
        split; [by repeat split|]. cbn. repeat split; auto.
      * right. destruct (dispatch_tasks state a1). by simplify_eq.
    + injection H as <- <-. eexists. split; [|by left].
      split; [by repeat split|]. cbn. repeat split; auto.
  - apply bind_Ok in H as (_ & _ & H). cbn in H. injection H as <- <-.
    eexists. split; [|by left].
    split; [by repeat split|]. cbn. repeat split; auto.
Qed.

Lemma remove_worker_cases (v : list ClientPtr) (w : ClientPtr) :
  ((w ∉ v) /\ remove_worker_from_vector v w = (false, v))
  \/ ((w ∈ v) /\ exists r, remove_worker_from_vector v w = (true, r) /\ v ≡ₚ w :: r).
Proof.
  destruct (decide (w ∈ v)) as [Hin|Hout].
  - right. split; [done|]. by apply remove_worker_present.
  - left. split; [done|]. by apply remove_worker_absent.
Qed.

Lemma worker_in_vector_false (v : list ClientPtr) (w : ClientPtr) :
  negb (worker_in_vector v w) = true <-> w ∉ v.
Proof.
  unfold worker_in_vector. rewrite negb_true_iff, bool_decide_eq_false. done.
Qed.

Lemma handle_worker_available_disjoint (state state' : LocalSchedulerState)
    (a a' : SchedulingAlgorithmState) (w : LocalSchedulerClient) :
  RAY_DCHECK = true ->
  workers_disjoint a ->
  handle_worker_available state a w = Ok (state', a') ->
  workers_disjoint a'.
Proof.
  intros Hdcheck Hdisjoint. unfold handle_worker_available. intros H.
  apply bind_Ok in H as (_ & _ & H).
  apply bind_Ok in H as (u1 & Havail & H).
  apply bind_Ok in H as (u2 & Hblocked & H).
  apply bind_Ok in H as (u3 & _ & H).
  pose proof (proj1 (DCHECK_Ok _ _) Havail Hdcheck) as Havail'.
  pose proof (proj1 (DCHECK_Ok _ _) Hblocked Hdcheck) as Hblocked'.
  apply worker_in_vector_false in Havail', Hblocked'.
  injection H as H.
  replace a' with (dispatch_tasks state
     (set_available_workers
        (set_executing_workers a
           (remove_worker_from_vector (executing_workers a) (client_ptr w)).2)
        (available_workers a ++ [client_ptr w]))).2 by (by rewrite H).
  apply dispatch_tasks_workers_disjoint.
  unfold workers_disjoint in *. cbn.
  destruct (remove_worker_cases (executing_workers a) (client_ptr w))
    as [[Hout ->]|[Hin (r & -> & Hperm)]]; cbn.
  - rewrite <- app_assoc. cbn.
    apply (NoDup_Permutation_proper _ (client_ptr w :: available_workers a
             ++ executing_workers a ++ blocked_workers a)).
    + by rewrite <- Permutation_middle.
    + constructor; [|done]. rewrite !elem_of_app. tauto.
  - rewrite <- app_assoc. cbn.
    revert Hdisjoint. rewrite Hperm. cbn.
    by rewrite <- Permutation_middle.
Qed.

Lemma handle_worker_removed_disjoint (state state' : LocalSchedulerState)
    (a a' : SchedulingAlgorithmState) (w : LocalSchedulerClient) :
  workers_disjoint a ->
  handle_worker_removed state a w = Ok (state', a') ->
  workers_disjoint a'.
Proof.
  intros Hdisjoint. unfold handle_worker_removed. intros H.
  apply bind_Ok in H as (_ & _ & H).
  assert (Hsub : forall v, (remove_worker_from_vector v (client_ptr w)).2 ⊆+ v).
  { intros v. destruct (remove_worker_cases v (client_ptr w))
      as [[_ ->]|[_ (r & -> & Hperm)]]; cbn; [done|].
    rewrite Hperm. by apply submseteq_cons. }
  pose proof (Hsub (available_workers a)) as Ha.
  pose proof (Hsub (executing_workers a)) as He.
  pose proof (Hsub (blocked_workers a)) as Hb.
  destruct (remove_worker_from_vector (available_workers a) (client_ptr w)) as [ba va].
  cbn in H. apply bind_Ok in H as (_ & _ & H).
  destruct (remove_worker_from_vector (executing_workers a) (client_ptr w)) as [be ve].
  cbn in H. apply bind_Ok in H as (_ & _ & H).
  destruct (remove_worker_from_vector (blocked_workers a) (client_ptr w)) as [bb vb].
  cbn in H. apply bind_Ok in H as (_ & _ & H). apply bind_Ok in H as (_ & _ & H).
  injection H as <- <-. unfold workers_disjoint in *. cbn in *.
  eapply submseteq_NoDup_helper; [|exact Hdisjoint].
  by repeat apply submseteq_app.
Qed.

Lemma handle_worker_blocked_disjoint (state state' : LocalSchedulerState)
    (a a' : SchedulingAlgorithmState) (w : LocalSchedulerClient) :
  workers_disjoint a ->
  handle_worker_blocked state a w = Ok (state', a') ->
  workers_disjoint a'.
Proof.
  intros Hdisjoint. unfold handle_worker_blocked. intros H.
  destruct (remove_worker_cases (executing_workers a) (client_ptr w))
    as [[_ Hrm]|[_ (r & Hrm & Hperm)]]; rewrite Hrm in H; cbn in H; [done|].
  apply bind_Ok in H as (_ & _ & H). injection H as H.
  replace a' with (dispatch_tasks state
     (set_blocked_workers (set_executing_workers a r)
        (blocked_workers a ++ [client_ptr w]))).2 by exact (f_equal snd H).
  apply dispatch_tasks_workers_disjoint.
  unfold workers_disjoint in *. cbn.
  revert Hdisjoint. rewrite Hperm.
  rewrite (Permutation_app_comm (blocked_workers a) [client_ptr w]). cbn.
  by rewrite <- !Permutation_middle.
Qed.

Lemma handle_worker_unblocked_disjoint (state state' : LocalSchedulerState)
    (a a' : SchedulingAlgorithmState) (w : LocalSchedulerClient) :
  workers_disjoint a ->
  handle_worker_unblocked state a w = Ok (state', a') ->
  workers_disjoint a'.
Proof.
  intros Hdisjoint. unfold handle_worker_unblocked. intros H.
  destruct (remove_worker_cases (blocked_workers a) (client_ptr w))
    as [[_ Hrm]|[_ (r & Hrm & Hperm)]]; rewrite Hrm in H; cbn in H; [done|].
  apply bind_Ok in H as (_ & _ & H). injection H as <- <-.
  unfold workers_disjoint in *. cbn.
  revert Hdisjoint. rewrite Hperm.
  rewrite (Permutation_app_comm (executing_workers a) [client_ptr w]). cbn.
  by rewrite <- !Permutation_middle.
Qed.

Lemma workers_disjoint_preserved (a a' : SchedulingAlgorithmState) :
  queues_preserved a a' -> workers_disjoint a -> workers_disjoint a'.
Proof. intros [Hw _]. by apply workers_disjoint_same. Qed.

(** Every handler keeps the worker pool free of duplicates. *)
Lemma handle_workers_disjoint (e : Event) (state state' : LocalSchedulerState)
    (a a' : SchedulingAlgorithmState) :
  RAY_DCHECK = true ->
  workers_disjoint a ->
  handle e state a = Ok (state', a') ->
  workers_disjoint a'.
Proof.
  intros Hdcheck Hdisjoint.
  destruct e; cbn [handle]; intros H.
  - unfold handle_task_submitted in H.
    apply bind_Ok in H as ([s1 a1] & Hq & H). injection H as H.
    replace a' with (dispatch_tasks s1 a1).2 by (by rewrite H).
    apply dispatch_tasks_workers_disjoint.
    destruct (_ && _) in Hq.
    + pose proof (queue_dispatch_task_frame state a s size false) as [[Hw _] _].
      assert (Ha1 : queue_dispatch_task state a s size false = (s1, a1)) by congruence.
      rewrite Ha1 in Hw. by eapply workers_disjoint_same.
    + apply give_task_to_global_scheduler_frame in Hq as [[Hw _] _].
      by eapply workers_disjoint_same.
  - eapply workers_disjoint_preserved;
      [eapply handle_actor_task_submitted_preserved; eassumption|done].
  - eapply workers_disjoint_preserved;
      [eapply handle_actor_creation_notification_preserved; eassumption|done].
  - unfold handle_task_scheduled in H.
    apply bind_Ok in H as (_ & _ & H). apply bind_Ok in H as (_ & _ & H).
    apply bind_Ok in H as ([s1 a1] & Hq & H). injection H as H.
    replace a' with (dispatch_tasks s1 a1).2 by (by rewrite H).
    apply dispatch_tasks_workers_disjoint.
    apply queue_task_locally_frame in Hq as [[Hw _] _].
    by eapply workers_disjoint_same.
  - unfold handle_actor_task_scheduled in H.
    apply bind_Ok in H as (_ & _ & H). apply bind_Ok in H as (_ & _ & H).
    apply bind_Ok in H as (_ & _ & H). apply bind_Ok in H as (s1 & _ & H).
    apply bind_Ok in H as ([s2 a2] & Hadd & H).
    apply bind_Ok in H as ([[b s3] a3] & Hdispatch & H). injection H as <- <-.
    eapply workers_disjoint_preserved;
      [eapply dispatch_actor_task_preserved; eassumption|].
    eapply workers_disjoint_preserved;
      [eapply add_task_to_actor_queue_preserved; eassumption|done].
  - by eapply handle_worker_available_disjoint.
  - by eapply handle_worker_removed_disjoint.
  - unfold handle_actor_worker_available in H.
    apply bind_Ok in H as (_ & _ & H).
    destruct (local_actor_infos a !! client_actor_id w); [|done].
    apply bind_Ok in H as (_ & _ & H). apply bind_Ok in H as (_ & _ & H).
    apply bind_Ok in H as ([[b s3] a3] & Hdispatch & H). injection H as <- <-.
    eapply workers_disjoint_preserved;
      [eapply dispatch_actor_task_preserved; eassumption|done].
  - unfold handle_actor_worker_connect in H.
    apply bind_Ok in H as (a1 & Ha1 & H).
    apply bind_Ok in H as ([[b s3] a3] & Hdispatch & H). injection H as <- <-.
    eapply workers_disjoint_preserved;
      [eapply dispatch_actor_task_preserved; eassumption|].
    destruct (local_actor_infos a !! id).
    + by injection Ha1 as <-.
    + eapply workers_disjoint_preserved;
        [eapply create_actor_preserved; eassumption|done].
  - eapply workers_disjoint_preserved;
      [eapply remove_actor_preserved; eassumption|done].
  - by eapply handle_worker_blocked_disjoint.
  - by eapply handle_worker_unblocked_disjoint.
  - apply handle_object_available_promotes in H as (a1 & (Hw & _) & [H|H]).
    + injection H as _ ->. by eapply workers_disjoint_same.
    + replace a' with (dispatch_tasks state a1).2 by (by rewrite <- H).
      apply dispatch_tasks_workers_disjoint. by eapply workers_disjoint_same.
  - eapply workers_disjoint_same; [eapply handle_object_removed_workers|]; eassumption.
  - eapply workers_disjoint_same; [eapply handle_driver_removed_workers|]; eassumption.
  - by injection H as _ <-.
Qed.

(** C6.  With [DCHECK] compiled in, every reachable state records each
    worker at most once (so in at most one of the available, executing and
    blocked sequences), every handler that returns and every run of
    [dispatch_tasks] leads from such a state to such a state. *)
Theorem workers_in_at_most_one_sequence (a : SchedulingAlgorithmState) :
  RAY_DCHECK = true ->
  reachable a ->
  (forall w, in_at_most_one_sequence a w)
  /\ (forall e state state' a',
        handle e state a = Ok (state', a') ->
        forall w, in_at_most_one_sequence a' w)
  /\ (forall state w, in_at_most_one_sequence (dispatch_tasks state a).2 w).
Proof.
  intros Hdcheck Hreach.
  assert (Hdisjoint : workers_disjoint a).
  { induction Hreach as [|e state a0 state' a1 _ IH Hstep].
    - unfold workers_disjoint. cbn. constructor.
    - by eapply handle_workers_disjoint. }
  split; [|split].
  - intros w. by apply workers_disjoint_at_most_one.
  - intros e state state' a' Hstep w.
    apply workers_disjoint_at_most_one. by eapply handle_workers_disjoint.
  - intros state w.
    by apply workers_disjoint_at_most_one, dispatch_tasks_workers_disjoint.
Qed.

(** ** Worker availability *)

(** C10 (as amended).  [handle_worker_available] fails its check when the
    worker still has a task in progress.  When it has none, and the worker is
    neither available nor blocked (the two debug assertions of the handler)
    and the executing workers are distinct, the handler cannot fail: it takes
    the worker out of [executing_workers] if it is there, appends it to
    [available_workers], and runs [dispatch_tasks] on that state. *)
Theorem handle_worker_available_precondition (state : LocalSchedulerState)
    (a : SchedulingAlgorithmState) (w : LocalSchedulerClient) :
  (task_in_progress w <> None -> handle_worker_available state a w = Fatal)
  /\ (task_in_progress w = None ->
      client_ptr w ∉ available_workers a ->
      client_ptr w ∉ blocked_workers a ->
      NoDup (executing_workers a) ->
      exists executing',
        handle_worker_available state a w
        = Ok (dispatch_tasks state
                (set_available_workers (set_executing_workers a executing')
                   (available_workers a ++ [client_ptr w])))
        /\ (client_ptr w ∉ executing')
        /\ (forall x, x <> client_ptr w ->
                      (x ∈ executing') <-> (x ∈ executing_workers a))
        /\ (client_ptr w ∉ executing_workers a -> executing' = executing_workers a)).
Proof.
  split.
  - intros Hbusy. unfold handle_worker_available.
    by rewrite bool_decide_eq_false_2.
  - intros Hidle Havail Hblocked Hnodup.
    exists (remove_worker_from_vector (executing_workers a) (client_ptr w)).2.
    assert (Hout : (client_ptr w
                    ∉ (remove_worker_from_vector (executing_workers a) (client_ptr w)).2)
            /\ (forall x, x <> client_ptr w ->
                   (x ∈ (remove_worker_from_vector (executing_workers a)
                           (client_ptr w)).2)
                   <-> (x ∈ executing_workers a))
            /\ (client_ptr w ∉ executing_workers a ->
                (remove_worker_from_vector (executing_workers a) (client_ptr w)).2
                = executing_workers a)).
    { destruct (remove_worker_cases (executing_workers a) (client_ptr w))
        as [[Hout ->]|[Hin (r & -> & Hperm)]]; cbn; [done|].
      rewrite Hperm in Hnodup. apply NoDup_cons in Hnodup as [Hw _].
      split; [done|]. split; [|done].
      intros x Hx. rewrite Hperm, elem_of_cons. tauto. }
    split; [|exact Hout]. destruct Hout as [Hout _].
    unfold handle_worker_available, DCHECK.
    rewrite bool_decide_eq_true_2 by done. cbn [CHECK mbind result_bind].
    apply worker_in_vector_false in Havail, Hblocked, Hout.
    cbn [executing_workers set_executing_workers available_workers blocked_workers].
    rewrite Havail, Hblocked, Hout. by destruct RAY_DCHECK.
Qed.

(** ** Object availability *)

Lemma dispatch_tasks_loop_tables (rest : list (Cursor * TaskQueueEntry)) :
  forall state a kept,
    let a' := (dispatch_tasks_loop state a kept rest).2 in
    waiting_task_queue a' = waiting_task_queue a
    /\ next_node a' = next_node a
    /\ local_objects a' = local_objects a
    /\ remote_objects a' = remote_objects a.
Proof.
  induction rest as [|node rest IH]; intros state a kept; [done|].
  cbn [dispatch_tasks_loop].
  destruct (last (available_workers a)) as [w|]; [|done].
  destruct (resources_available state); [|done].
  destruct (task_satisfied state (spec node.2)); cbn [negb]; [|apply IH].
  cbv zeta.
  match goal with
  | |- context [dispatch_tasks_loop ?s ?b kept rest] => apply (IH s b kept)
  end.
Qed.

(** The entry that [handle_object_available] stores in [local_objects] is the
    one it found in [remote_objects], dependent tasks included. *)
Lemma handle_object_available_stores_found (state state' : LocalSchedulerState)
    (a a' : SchedulingAlgorithmState) (id : ObjectID) (found : ObjectEntry) :
  remote_objects a !! id = Some found ->
  handle_object_available state a id = Ok (state', a') ->
  local_objects a' !! id = Some found.
Proof.
  intros Hfound. unfold handle_object_available. rewrite Hfound. intros H.
  apply bind_Ok in H as (_ & _ & H).
  destruct (negb (bool_decide (dependent_tasks found = []))).
  - apply bind_Ok in H as (a1 & Hloop & H).
    assert (Hlocal : local_objects a1 !! id = Some found).
    { lazymatch type of Hloop with for_each _ ?init _ = Ok _ =>
        pose proof (fun Hbody =>
          for_each_invariant (fun b => local_objects b !! id = Some found) _ _
            Hbody init _ (lookup_insert_eq _ _ _) Hloop) as Hinv
      end.
      apply Hinv. clear. intros b it b' _ Hb Hbody.
      unfold promote_dependent in Hbody.
      apply bind_Ok in Hbody as (node & _ & Hbody).
      destruct (can_run b (spec node)); cbn in Hbody; by simplify_eq. }
    pose proof (dispatch_tasks_loop_tables (dispatch_task_queue a1) state a1 [])
      as (_ & _ & Hsame & _).
    cbv zeta in Hsame. fold (dispatch_tasks state a1) in Hsame.
    destruct (dispatch_tasks state a1). simplify_eq. cbn in Hsame. congruence.
  - injection H as <- <-. cbn. apply lookup_insert_eq.
Qed.

(** ** Cached actor tasks *)

Lemma task_table_write_queued_mapping (state : LocalSchedulerState) (s : TaskSpec)
    (size : Z) (g : bool) :
  actor_mapping (task_table_write_queued state s size g) = actor_mapping state.
Proof. unfold task_table_write_queued. by destruct (db state), g. Qed.

Lemma add_task_to_actor_queue_cache (state state' : LocalSchedulerState)
    (a a' : SchedulingAlgorithmState) (s : TaskSpec) (size : Z) (g : bool) :
  add_task_to_actor_queue state a s size g = Ok (state', a') ->
  actor_mapping state' = actor_mapping state
  /\ cached_submitted_actor_tasks a' = cached_submitted_actor_tasks a
  /\ cached_submitted_actor_task_sizes a' = cached_submitted_actor_task_sizes a.
Proof.
  unfold add_task_to_actor_queue. intros H.
  apply bind_Ok in H as (_ & _ & H). apply bind_Ok in H as (a1 & Ha1 & H).
  assert (Hcache : cached_submitted_actor_tasks a1 = cached_submitted_actor_tasks a
                   /\ cached_submitted_actor_task_sizes a1
                      = cached_submitted_actor_task_sizes a).
  { destruct (local_actor_infos a !! TaskSpec_actor_id s); [by simplify_eq|].
    apply bind_Ok in Ha1 as (a2 & Hcreate & Ha1).
    apply bind_Ok in Ha1 as (_ & _ & Ha1). injection Ha1 as <-.
    unfold create_actor in Hcreate.
    apply bind_Ok in Hcreate as (_ & _ & Hcreate). by injection Hcreate as <-. }
  destruct Hcache as [Hc Hz].
  destruct (local_actor_infos a1 !! TaskSpec_actor_id s); [|done].
  apply bind_Ok in H as (_ & _ & H). injection H as <- <-.
  rewrite task_table_write_queued_mapping. by repeat split.
Qed.

Lemma dispatch_actor_task_cache (state state' : LocalSchedulerState)
    (a a' : SchedulingAlgorithmState) (id : ActorID) (b : bool) :
  dispatch_actor_task state a id = Ok (b, state', a') ->
  actor_mapping state' = actor_mapping state
  /\ cached_submitted_actor_tasks a' = cached_submitted_actor_tasks a
  /\ cached_submitted_actor_task_sizes a' = cached_submitted_actor_task_sizes a.
Proof.
  unfold dispatch_actor_task. intros H. result_inv; by repeat split.
Qed.

Lemma give_task_to_local_scheduler_cache (state state' : LocalSchedulerState)
    (a a' : SchedulingAlgorithmState) (s : TaskSpec) (size : Z) (target : DBClientID) :
  give_task_to_local_scheduler state a s size target = Ok (state', a') ->
  actor_mapping state' = actor_mapping state
  /\ cached_submitted_actor_tasks a' = cached_submitted_actor_tasks a
  /\ cached_submitted_actor_task_sizes a' = cached_submitted_actor_task_sizes a.
Proof.
  unfold give_task_to_local_scheduler. intros H.
  apply bind_Ok in H as (self & _ & H).
  apply bind_Ok in H as (_ & _ & H). apply bind_Ok in H as (_ & _ & H).
  injection H as <- <-. by destruct (DBClientID_equal target self).
Qed.

(** A submission either leaves the cache alone, when the actor is known, or
    appends the task to it and does nothing else. *)
Lemma handle_actor_task_submitted_cache (state state' : LocalSchedulerState)
    (a a' : SchedulingAlgorithmState) (s : TaskSpec) (size : Z) :
  handle_actor_task_submitted state a s size = Ok (state', a') ->
  actor_mapping state' = actor_mapping state
  /\ ((actor_mapping state !! TaskSpec_actor_id s <> None
       /\ cached_submitted_actor_tasks a' = cached_submitted_actor_tasks a
       /\ cached_submitted_actor_task_sizes a' = cached_submitted_actor_task_sizes a)
      \/ (actor_mapping state !! TaskSpec_actor_id s = None
          /\ cached_submitted_actor_tasks a' = cached_submitted_actor_tasks a ++ [s]
          /\ cached_submitted_actor_task_sizes a'
             = cached_submitted_actor_task_sizes a ++ [size])).
Proof.
  unfold handle_actor_task_submitted. intros H.
  apply bind_Ok in H as (_ & _ & H).
  destruct (actor_mapping state !! TaskSpec_actor_id s) as [target|] eqn:Hmap.
  - apply bind_Ok in H as (self & _ & H).
    destruct (DBClientID_equal target self).
    + apply bind_Ok in H as ([s1 a1] & Hadd & H).
      apply bind_Ok in H as ([[b s2] a2] & Hdispatch & H). injection H as <- <-.
      apply add_task_to_actor_queue_cache in Hadd as (Hm1 & Hc1 & Hz1).
      apply dispatch_actor_task_cache in Hdispatch as (Hm2 & Hc2 & Hz2).
      split; [congruence|]. left. repeat split; congruence.
    + apply give_task_to_local_scheduler_cache in H as (Hm & Hc & Hz).
      split; [done|]. left. by repeat split.
  - injection H as <- <-. split; [done|]. right. by repeat split.
Qed.

(** While the first entries of the cache are those of [tasks], the loop over
    the indices re-submits [tasks] in order. *)
Lemma replay_by_index (tasks : list (TaskSpec * Z)) :
  forall i state a,
    (forall j task, tasks !! j = Some task ->
       cached_submitted_actor_tasks a !! (i + j)%nat = Some task.1
       /\ cached_submitted_actor_task_sizes a !! (i + j)%nat = Some task.2) ->
    for_each (fun '(state, algorithm_state) i =>
                match cached_submitted_actor_tasks algorithm_state !! i,
                      cached_submitted_actor_task_sizes algorithm_state !! i with
                | Some s, Some size =>
                    handle_actor_task_submitted state algorithm_state s size
                | _, _ => Undefined
                end)
             (state, a) (seq i (length tasks))
    = resubmit state a tasks.
Proof.
  induction tasks as [|[s size] tasks IH]; intros i state a Hprefix; [done|].
  cbn [length seq for_each resubmit].
  destruct (Hprefix 0%nat (s, size) eq_refl) as [Hs Hsize].
  rewrite Nat.add_0_r in Hs, Hsize. rewrite Hs, Hsize. cbn [fst snd].
  destruct (handle_actor_task_submitted state a s size) as [[state' a']| |] eqn:Hstep;
    [|done..].
  cbn [mbind result_bind]. apply IH.
  intros j task Hj. destruct (Hprefix (S j) task Hj) as [Hs' Hsize'].
  replace (S i + j)%nat with (i + S j)%nat by lia.
  apply handle_actor_task_submitted_cache in Hstep
    as [_ [(_ & -> & ->)|(_ & -> & ->)]]; [done|].
  split; by apply lookup_app_l_Some.
Qed.

(** What a re-submission leaves in the cache: the tasks whose actor is
    unknown, appended in order. *)
Lemma resubmit_cache (tasks : list (TaskSpec * Z)) :
  forall state a state' a',
    resubmit state a tasks = Ok (state', a') ->
    actor_mapping state' = actor_mapping state
    /\ cached_submitted_actor_tasks a'
       = cached_submitted_actor_tasks a ++ (filter (actor_unknown state) tasks).*1
    /\ cached_submitted_actor_task_sizes a'
       = cached_submitted_actor_task_sizes a ++ (filter (actor_unknown state) tasks).*2.
Proof.
  induction tasks as [|[s size] tasks IH]; intros state a state' a' Hrun.
  - injection Hrun as <- <-. cbn. by rewrite !app_nil_r.
  - cbn [resubmit for_each] in Hrun.
    apply bind_Ok in Hrun as ([s1 a1] & Hstep & Hrun).
    apply IH in Hrun as (Hmap & Hcached & Hsizes).
    apply handle_actor_task_submitted_cache in Hstep as [Hmap1 Hstep].
    assert (Hfilter : filter (actor_unknown s1) tasks
                      = filter (actor_unknown state) tasks).
    { apply list_filter_iff. intros task. unfold actor_unknown. by rewrite Hmap1. }
    rewrite Hfilter in Hcached, Hsizes.
    split; [congruence|].
    destruct Hstep as [(Hknown & Hc & Hz)|(Hunknown & Hc & Hz)].
    + rewrite filter_cons_False by done. by rewrite Hcached, Hsizes, Hc, Hz.
    + rewrite filter_cons_True by done. cbn.
      rewrite Hcached, Hsizes, Hc, Hz. by rewrite <- !app_assoc.
Qed.

(** C7.  When the two cached arrays have the same length N, the handler of
    an actor creation notification re-submits the N cached specifications in
    order and then erases the first N entries of the cache; what it leaves
    in the cache are the tasks that the re-submissions appended, those whose
    actor is still unknown, in order: they are neither re-submitted again nor
    erased. *)
Theorem handle_actor_creation_notification_replays (state : LocalSchedulerState)
    (a : SchedulingAlgorithmState) (id : ActorID) :
  length (cached_submitted_actor_tasks a)
  = length (cached_submitted_actor_task_sizes a) ->
  let cached := zip (cached_submitted_actor_tasks a)
                    (cached_submitted_actor_task_sizes a) in
  let num_cached_actor_tasks := length (cached_submitted_actor_tasks a) in
  handle_actor_creation_notification state a id
  = ('(state', a') ← resubmit state a cached;
     Ok (state',
         set_cached a'
           (drop num_cached_actor_tasks (cached_submitted_actor_tasks a'))
           (drop num_cached_actor_tasks (cached_submitted_actor_task_sizes a'))))
  /\ (forall state' a',
        handle_actor_creation_notification state a id = Ok (state', a') ->
        cached_submitted_actor_tasks a' = (filter (actor_unknown state) cached).*1
        /\ cached_submitted_actor_task_sizes a'
           = (filter (actor_unknown state) cached).*2).
Proof.
  intros Hlen cached num_cached_actor_tasks.
  assert (Heq : handle_actor_creation_notification state a id
    = ('(state', a') ← resubmit state a cached;
       Ok (state',
           set_cached a'
             (drop num_cached_actor_tasks (cached_submitted_actor_tasks a'))
             (drop num_cached_actor_tasks (cached_submitted_actor_task_sizes a'))))).
  { unfold handle_actor_creation_notification.
    rewrite bool_decide_eq_true_2 by done. cbn [CHECK mbind result_bind].
    fold num_cached_actor_tasks.
    replace num_cached_actor_tasks with (length cached) at 1
      by (by apply length_zip_with_l_eq).
    rewrite (replay_by_index cached 0 state a); [done|].
    intros j [s size] Hj. apply lookup_zip_with_Some in Hj as (x & y & Hxy & Hx & Hy).
    by simplify_eq. }
  split; [exact Heq|].
  intros state' a' Hrun. rewrite Heq in Hrun.
  apply bind_Ok in Hrun as ([s1 a1] & Hresubmit & Hrun). injection Hrun as <- <-.
  apply resubmit_cache in Hresubmit as (_ & Hcached & Hsizes). cbn.
  rewrite Hcached, Hsizes. subst num_cached_actor_tasks.
  split; [by rewrite drop_app_length|].
  by rewrite Hlen, drop_app_length.
Qed.

(** A task scheduled for an actor that the actor mapping does not know never
    gets past [dispatch_actor_task]. *)
Lemma handle_actor_task_scheduled_needs_mapping (state : LocalSchedulerState)
    (a : SchedulingAlgorithmState) (s : TaskSpec) (size : Z) :
  actor_mapping state !! TaskSpec_actor_id s = None ->
  forall r, handle_actor_task_scheduled state a s size <> Ok r.
Proof.
  intros Hunknown r H. unfold handle_actor_task_scheduled in H.
  apply bind_Ok in H as (_ & _ & H). apply bind_Ok in H as (_ & _ & H).
  apply bind_Ok in H as (_ & _ & H). rewrite Hunknown in H.
  cbn [mbind result_bind] in H.
  apply bind_Ok in H as ([s1 a1] & Hadd & H).
  apply bind_Ok in H as ([[b s2] a2] & Hdispatch & _).
  apply add_task_to_actor_queue_cache in Hadd as (Hmap & _).
  cbn in Hmap. unfold dispatch_actor_task in Hdispatch.
  apply bind_Ok in Hdispatch as (_ & _ & Hdispatch).
  by rewrite Hmap, Hunknown in Hdispatch.
Qed.

(** ** Driver removal *)

Lemma list_find_filter {A : Type} (P Q : A -> Prop)
    `{!forall x, Decision (P x)} `{!forall x, Decision (Q x)} (l : list A) :
  forall i x,
    list_find Q l = Some (i, x) -> P x ->
    exists j, list_find Q (filter P l) = Some (j, x).
Proof.
  induction l as [|y l IH]; intros i x Hfind HP; [done|].
  rewrite filter_cons. cbn in Hfind.
  destruct (decide (Q y)) as [HQ|HQ].
  - simplify_eq. rewrite decide_True by done. exists 0%nat. cbn.
    by rewrite decide_True.
  - destruct (list_find Q l) as [[i' x']|] eqn:Hl; simplify_eq/=.
    destruct (IH _ _ eq_refl HP) as [j Hj].
    destruct (decide (P y)); [|eauto]. cbn. rewrite decide_False by done.
    rewrite Hj. eauto.
Qed.

Lemma deref_remove_driver_tasks (waiting : list (Cursor * TaskQueueEntry))
    (driver_id : WorkerID) (it : Cursor) (node : TaskQueueEntry) :
  deref waiting it = Ok node ->
  WorkerID_equal (TaskSpec_driver_id (spec node)) driver_id = false ->
  deref (remove_driver_tasks driver_id waiting) it = Ok node.
Proof.
  unfold deref, remove_driver_tasks. intros Hfind Hother.
  destruct (list_find (fun n : Cursor * TaskQueueEntry => n.1 = it) waiting)
    as [[i [c e]]|] eqn:Hl; [|done].
  cbn in Hfind. injection Hfind as ->.
  destruct (list_find_filter
              (fun n : Cursor * TaskQueueEntry =>
                 WorkerID_equal (TaskSpec_driver_id (spec n.2)) driver_id = false)
              _ _ _ _ Hl Hother) as [j ->].
  done.
Qed.

Lemma remove_driver_dependents_Ok (waiting : list (Cursor * TaskQueueEntry))
    (driver_id : WorkerID) (deps : list Cursor) :
  forall deps',
    remove_driver_dependents waiting driver_id deps = Ok deps' ->
    Forall (of_other_driver waiting driver_id) deps'.
Proof.
  induction deps as [|it deps IH]; intros deps' H; cbn in H.
  - injection H as <-. constructor.
  - apply bind_Ok in H as (node & Hnode & H).
    apply bind_Ok in H as (deps'' & Hrest & H).
    specialize (IH deps'' Hrest).
    destruct (WorkerID_equal _ driver_id) eqn:Hd; injection H as <-; [done|].
    constructor; [|done]. by exists node.
Qed.

Lemma remove_driver_dependents_total (waiting : list (Cursor * TaskQueueEntry))
    (driver_id : WorkerID) (deps : list Cursor) :
  (forall it, it ∈ deps -> exists node, deref waiting it = Ok node) ->
  exists deps', remove_driver_dependents waiting driver_id deps = Ok deps'.
Proof.
  induction deps as [|it deps IH]; intros Hvalid; cbn; [by eexists|].
  destruct (Hvalid it) as [node ->]; [by left|].
  destruct IH as [deps' ->]; [intros ? ?; apply Hvalid; by right|].
  cbn. destruct (WorkerID_equal _ driver_id); by eexists.
Qed.

(** Iterators of other drivers' tasks survive a second pass, over the purged
    waiting queue. *)
Lemma remove_driver_dependents_again (waiting : list (Cursor * TaskQueueEntry))
    (driver_id : WorkerID) (deps : list Cursor) :
  Forall (of_other_driver waiting driver_id) deps ->
  remove_driver_dependents (remove_driver_tasks driver_id waiting) driver_id deps
  = Ok deps.
Proof.
  induction 1 as [|it deps (node & Hnode & Hother) _ IH]; [done|].
  cbn. rewrite (deref_remove_driver_tasks _ _ _ _ Hnode Hother), IH. cbn.
  by rewrite Hother.
Qed.

Lemma remove_driver_tasks_idempotent (driver_id : WorkerID)
    (queue : list (Cursor * TaskQueueEntry)) :
  remove_driver_tasks driver_id (remove_driver_tasks driver_id queue)
  = remove_driver_tasks driver_id queue.
Proof.
  unfold remove_driver_tasks. rewrite list_filter_filter.
  apply list_filter_iff. tauto.
Qed.

(** After the visits of [visited], whose keys are distinct, the visited
    entries that remain hold only iterators of other drivers' tasks, and at
    least one; the other entries are untouched. *)
Lemma visit_remote_objects_Ok (waiting : list (Cursor * TaskQueueEntry))
    (driver_id : WorkerID) (visited : list (UniqueID * ObjectEntry)) :
  forall remote remote',
    NoDup visited.*1 ->
    for_each (visit_remote_object waiting driver_id) remote visited = Ok remote' ->
    (forall id entry, id ∈ visited.*1 -> remote' !! id = Some entry ->
       dependent_tasks entry <> []
       /\ Forall (of_other_driver waiting driver_id) (dependent_tasks entry))
    /\ (forall id, id ∉ visited.*1 -> remote' !! id = remote !! id).
Proof.
  induction visited as [|[id0 entry0] visited IH]; intros remote remote' Hnodup Hrun.
  - injection Hrun as <-. split; [|done]. intros id entry Hin. by apply elem_of_nil in Hin.
  - cbn in Hnodup. apply NoDup_cons in Hnodup as [Hfresh Hnodup].
    cbn [for_each] in Hrun. apply bind_Ok in Hrun as (remote1 & Hvisit & Hrun).
    destruct (IH remote1 remote' Hnodup Hrun) as [Hin Hout].
    cbn in Hvisit. apply bind_Ok in Hvisit as (deps & Hdeps & Hvisit).
    pose proof (remove_driver_dependents_Ok _ _ _ _ Hdeps) as Hother.
    split.
    + intros id entry Hid Hentry. cbn in Hid.
      apply elem_of_cons in Hid as [Heq|Hid]; [subst id|by eapply Hin].
      rewrite (Hout id0 Hfresh) in Hentry.
      destruct (bool_decide (length deps = 0%nat)) eqn:Hempty;
        injection Hvisit as <-.
      * by rewrite lookup_delete_eq in Hentry.
      * rewrite lookup_insert_eq in Hentry. injection Hentry as <-. cbn.
        split; [|done]. apply bool_decide_eq_false in Hempty.
        intros ->. by apply Hempty.
    + intros id Hid. cbn in Hid. apply not_elem_of_cons in Hid as [Hne Hid].
      rewrite (Hout id Hid).
      destruct (bool_decide (length deps = 0%nat)); injection Hvisit as <-.
      * by rewrite lookup_delete_ne.
      * by rewrite lookup_insert_ne.
Qed.

Lemma visit_remote_objects_total (waiting : list (Cursor * TaskQueueEntry))
    (driver_id : WorkerID) (visited : list (UniqueID * ObjectEntry)) :
  forall remote,
    (forall id entry it, (id, entry) ∈ visited -> it ∈ dependent_tasks entry ->
       exists node, deref waiting it = Ok node) ->
    exists remote',
      for_each (visit_remote_object waiting driver_id) remote visited = Ok remote'.
Proof.
  induction visited as [|[id0 entry0] visited IH]; intros remote Hvalid;
    [by eexists|].
  cbn [for_each visit_remote_object].
  destruct (remove_driver_dependents_total waiting driver_id (dependent_tasks entry0))
    as [deps ->]; [intros it; apply (Hvalid id0 entry0); by left|].
  cbn. destruct (bool_decide (length deps = 0%nat)); cbn; apply IH;
    intros id entry it Hin; apply (Hvalid id entry it); by right.
Qed.

(** A second pass over a purged table changes nothing. *)
Lemma visit_remote_objects_again (waiting : list (Cursor * TaskQueueEntry))
    (driver_id : WorkerID) (remote : gmap UniqueID ObjectEntry)
    (visited : list (UniqueID * ObjectEntry)) :
  (forall id entry, (id, entry) ∈ visited ->
     remote !! id = Some entry
     /\ dependent_tasks entry <> []
     /\ Forall (of_other_driver waiting driver_id) (dependent_tasks entry)) ->
  for_each (visit_remote_object (remove_driver_tasks driver_id waiting) driver_id)
           remote visited
  = Ok remote.
Proof.
  induction visited as [|[id0 entry0] visited IH]; intros Hgood; [done|].
  destruct (Hgood id0 entry0) as (Hentry & Hnonempty & Hother); [by left|].
  cbn [for_each visit_remote_object].
  rewrite remove_driver_dependents_again by done. cbn.
  rewrite bool_decide_eq_false_2
    by (destruct (dependent_tasks entry0); [done|cbn; lia]).
  cbn. rewrite insert_id by (by destruct entry0).
  apply IH. intros id entry Hin. apply Hgood. by right.
Qed.

Lemma elem_of_map_to_list_keys (remote : gmap UniqueID ObjectEntry) (id : UniqueID) :
  id ∈ (map_to_list remote).*1 <-> is_Some (remote !! id).
Proof.
  rewrite list_elem_of_fmap. split.
  - intros ([id' entry] & -> & Hin). apply elem_of_map_to_list in Hin. by eexists.
  - intros [entry Hentry]. exists (id, entry). split; [done|].
    by apply elem_of_map_to_list.
Qed.

(** C8.  Once [handle_driver_removed] has returned for a driver, handling the
    removal of the same driver again returns the very same algorithm state;
    and the first call does return when every iterator held by the table of
    remote objects designates a node of the waiting queue. *)
Theorem handle_driver_removed_idempotent (state : LocalSchedulerState)
    (a : SchedulingAlgorithmState) (driver_id : WorkerID) :
  (forall state1 a1,
     handle_driver_removed state a driver_id = Ok (state1, a1) ->
     forall state2, handle_driver_removed state2 a1 driver_id = Ok (state2, a1))
  /\ (cursors_valid a ->
      exists a1, handle_driver_removed state a driver_id = Ok (state, a1)).
Proof.
  split.
  - intros state1 a1 Hfirst state2. unfold handle_driver_removed in *.
    apply bind_Ok in Hfirst as (remote1 & Hvisit & Hfirst).
    injection Hfirst as <- <-. cbn -[remove_driver_tasks].
    apply visit_remote_objects_Ok in Hvisit as [Hin Hout];
      [|apply NoDup_fst_map_to_list].
    rewrite visit_remote_objects_again.
    + cbn -[remove_driver_tasks]. unfold set_dispatch, set_waiting.
      cbn -[remove_driver_tasks].
      rewrite !remove_driver_tasks_idempotent. reflexivity.
    + intros id entry Hentry%elem_of_map_to_list. split; [done|].
      apply (Hin id); [|done].
      destruct (decide (id ∈ (map_to_list (remote_objects a)).*1)) as [|Hfresh];
        [done|].
      pose proof Hfresh as Hnone. rewrite elem_of_map_to_list_keys in Hnone.
      rewrite (Hout id Hfresh) in Hentry. destruct Hnone. by eexists.
  - intros Hvalid. unfold handle_driver_removed.
    destruct (visit_remote_objects_total (waiting_task_queue a) driver_id
                (map_to_list (remote_objects a)) (remote_objects a))
      as [remote1 ->]; [|by eexists].
    intros id entry it Hentry%elem_of_map_to_list Hit. by eapply Hvalid.
Qed.

(** ** Tasks larger than the node *)

Lemma debit_le (s : TaskSpec) (indices : list nat) :
  (forall i, i ∈ indices -> 0 <= TaskSpec_get_required_resource s i) ->
  forall d k,
    nth k (foldl (fun d i => <[i := nth i d 0 - TaskSpec_get_required_resource s i]> d)
                 d indices) 0
    <= nth k d 0.
Proof.
  induction indices as [|i indices IH]; intros Hnonneg d k; cbn [foldl]; [lia|].
  etrans; [apply IH; intros j Hj; apply Hnonneg; by right|].
  rewrite !nth_lookup.
  destruct (decide (i = k)) as [->|Hne].
  - destruct (d !! k) as [x|] eqn:Hk.
    + rewrite list_lookup_insert_eq by (by eapply lookup_lt_Some). cbn.
      specialize (Hnonneg k ltac:(by left)). lia.
    + rewrite list_insert_ge by (by apply lookup_ge_None). by rewrite Hk.
  - by rewrite list_lookup_insert_ne.
Qed.

Lemma assign_task_to_worker_capacity (state : LocalSchedulerState) (s : TaskSpec)
    (size : Z) (w : option ClientPtr) :
  requires_nonnegative s ->
  capacity_respected state ->
  capacity_respected (assign_task_to_worker state s size w).
Proof.
  intros Hnonneg Hcap k Hk. unfold assign_task_to_worker. cbn.
  etrans; [apply debit_le|by apply Hcap].
  intros i Hi%elem_of_seq. apply Hnonneg. lia.
Qed.

Lemma fits_within_capacity (state : LocalSchedulerState) (s : TaskSpec) :
  capacity_respected state -> task_satisfied state s = true -> ~ exceeds_static state s.
Proof.
  intros Hcap Hfit%task_satisfied_iff (k & Hk & Hgt).
  specialize (Hcap k Hk). specialize (Hfit k Hk). lia.
Qed.

Lemma exceeds_static_same (state state' : LocalSchedulerState) (s : TaskSpec) :
  static_resources state' = static_resources state ->
  exceeds_static state' s <-> exceeds_static state s.
Proof. unfold exceeds_static. by intros ->. Qed.

Lemma capacity_respected_same (state state' : LocalSchedulerState) :
  resources_same state state' -> capacity_respected state -> capacity_respected state'.
Proof. unfold capacity_respected. by intros [-> ->]. Qed.

(** The loop of [dispatch_tasks] assigns no task that exceeds the static
    capacity and keeps every such node. *)
Lemma dispatch_tasks_loop_oversized (rest : list (Cursor * TaskQueueEntry)) :
  forall state a kept,
    capacity_respected state ->
    queue_requires_nonnegative rest ->
    let r := dispatch_tasks_loop state a kept rest in
    (forall node, node ∈ kept ++ rest -> exceeds_static state (spec node.2) ->
                  node ∈ dispatch_task_queue r.2)
    /\ static_resources r.1 = static_resources state
    /\ exists new, effects r.1 = effects state ++ new
                   /\ forall s size w, AssignTask s size w ∈ new ->
                                       ~ exceeds_static state s.
Proof.
  induction rest as [|node rest IH]; intros state a kept Hcap Hnonneg; cbv zeta.
  - cbn. split; [by intros node; rewrite app_nil_r|]. split; [done|].
    exists []. split; [by rewrite app_nil_r|]. intros s size w Hin.
    by apply elem_of_nil in Hin.
  - cbn [dispatch_tasks_loop].
    destruct (last (available_workers a)) as [w|].
    2:{ cbn. split; [done|]. split; [by destruct (bool_decide _)|].
        destruct (bool_decide _); cbn.
        - eexists. split; [reflexivity|]. intros s size w Hin.
          apply list_elem_of_singleton in Hin. discriminate.
        - exists []. split; [by rewrite app_nil_r|]. intros s size w Hin.
          by apply elem_of_nil in Hin. }
    destruct (resources_available state).
    2:{ cbn. split; [done|]. split; [done|].
        exists []. split; [by rewrite app_nil_r|]. intros s size w0 Hin.
        by apply elem_of_nil in Hin. }
    destruct (task_satisfied state (spec node.2)) eqn:Hfit; cbn [negb].
    + match goal with
      | |- context [dispatch_tasks_loop ?s1 ?a1 kept rest] =>
          destruct (IH s1 a1 kept) as (Hkeep & Hstatic & new & Hnew & Hassigned)
      end.
      * apply capacity_respected_same with
          (state := assign_task_to_worker state (spec node.2) (task_spec_size node.2)
                      (Some w)); [by split|].
        apply assign_task_to_worker_capacity; [|done]. apply Hnonneg. by left.
      * intros n Hn. apply Hnonneg. by right.
      * cbv zeta in Hkeep, Hstatic, Hnew.
        split; [|split; [exact Hstatic|]].
        -- intros n Hn Hexceeds. apply Hkeep; [|exact Hexceeds].
           apply elem_of_app in Hn as [Hn|Hn]; [apply elem_of_app; by left|].
           apply elem_of_cons in Hn as [->|Hn]; [|apply elem_of_app; by right].
           by destruct (fits_within_capacity state (spec node.2)).
        -- rewrite Hnew. cbn. rewrite <- !app_assoc. eexists. split; [reflexivity|].
           intros s size w0 Hin. cbn in Hin.
           apply elem_of_cons in Hin as [Heq|Hin].
           { injection Heq as -> _ _. by apply fits_within_capacity. }
           apply elem_of_cons in Hin as [Heq|Hin]; [discriminate|].
           by eapply Hassigned.
    + destruct (IH state a (kept ++ [node])) as (Hkeep & Hrest); [done| |].
      * intros n Hn. apply Hnonneg. by right.
      * split; [|exact Hrest].
        intros n Hn. apply Hkeep. by rewrite <- app_assoc.
Qed.

Lemma dispatch_tasks_oversized (state : LocalSchedulerState)
    (a : SchedulingAlgorithmState) :
  capacity_respected state ->
  queue_requires_nonnegative (dispatch_task_queue a) ->
  (forall node, node ∈ dispatch_task_queue a -> exceeds_static state (spec node.2) ->
                node ∈ dispatch_task_queue (dispatch_tasks state a).2)
  /\ (forall s size w,
        AssignTask s size w ∈ new_effects state (dispatch_tasks state a).1 ->
        ~ exceeds_static state s).
Proof.
  intros Hcap Hnonneg.
  destruct (dispatch_tasks_loop_oversized (dispatch_task_queue a) state a []
              Hcap Hnonneg) as (Hkeep & _ & new & Hnew & Hassigned).
  split; [exact Hkeep|].
  unfold new_effects, dispatch_tasks. rewrite Hnew, drop_app_length. exact Hassigned.
Qed.

(** A step that only queues tasks, followed by [dispatch_tasks], keeps the
    oversized nodes. *)
Lemma queue_then_dispatch_oversized (state state1 : LocalSchedulerState)
    (a a1 : SchedulingAlgorithmState) (node : Cursor * TaskQueueEntry) :
  capacity_respected state ->
  resources_same state state1 ->
  queue_requires_nonnegative (dispatch_task_queue a1) ->
  (node ∈ dispatch_task_queue a -> node ∈ dispatch_task_queue a1) ->
  node ∈ dispatch_task_queue a ->
  exceeds_static state (spec node.2) ->
  node ∈ dispatch_task_queue (dispatch_tasks state1 a1).2.
Proof.
  intros Hcap Hsame Hnonneg Hkeep Hnode Hexceeds.
  apply dispatch_tasks_oversized; [by eapply capacity_respected_same|done|auto|].
  apply (exceeds_static_same state state1); [by destruct Hsame|done].
Qed.

Lemma queues_gain_nonnegative (s : TaskSpec) (a a' : SchedulingAlgorithmState) :
  queues_gain s a a' ->
  requires_nonnegative s ->
  queue_requires_nonnegative (dispatch_task_queue a) ->
  queue_requires_nonnegative (dispatch_task_queue a').
Proof.
  intros (_ & _ & Hnew & _) Hs Hqueue node Hnode.
  destruct (Hnew node Hnode) as [Hold| ->]; auto.
Qed.

(** Every handler keeps the oversized nodes of the dispatch queue, the
    removal of their driver and of an object they depend on apart. *)
Lemma handle_oversized (e : Event) (state state' : LocalSchedulerState)
    (a a' : SchedulingAlgorithmState) (node : Cursor * TaskQueueEntry) :
  capacity_respected state ->
  queue_requires_nonnegative (dispatch_task_queue a) ->
  queue_requires_nonnegative (waiting_task_queue a) ->
  event_requires_nonnegative e ->
  handle e state a = Ok (state', a') ->
  node ∈ dispatch_task_queue a ->
  exceeds_static state (spec node.2) ->
  outlives e node ->
  node ∈ dispatch_task_queue a'.
Proof.
  intros Hcap Hdispatch Hwaiting Hevent H Hnode Hexceeds Houtlives.
  assert (Hpreserved : queues_preserved a a' -> node ∈ dispatch_task_queue a')
    by (by intros (_ & -> & _)).
  destruct e; cbn [handle] in H; cbn in Hevent, Houtlives.
  - unfold handle_task_submitted in H.
    apply bind_Ok in H as ([s1 a1] & Hq & H). injection H as H.
    replace a' with (dispatch_tasks s1 a1).2 by (by rewrite H).
    assert (Hframe : queues_gain s a a1 /\ resources_same state s1).
    { destruct (_ && _) in Hq.
      - pose proof (queue_dispatch_task_frame state a s size false) as Hf.
        assert (Ha1 : queue_dispatch_task state a s size false = (s1, a1))
          by congruence.
        by rewrite Ha1 in Hf.
      - by apply give_task_to_global_scheduler_frame in Hq. }
    destruct Hframe as [Hgain Hsame].
    apply (queue_then_dispatch_oversized state s1 a a1 node Hcap Hsame);
      [by eapply queues_gain_nonnegative| |done|done].
    destruct Hgain as (_ & Hkeep & _). apply Hkeep.
  - apply Hpreserved. eapply handle_actor_task_submitted_preserved; eassumption.
  - apply Hpreserved.
    eapply handle_actor_creation_notification_preserved; eassumption.
  - unfold handle_task_scheduled in H.
    apply bind_Ok in H as (_ & _ & H). apply bind_Ok in H as (_ & _ & H).
    apply bind_Ok in H as ([s1 a1] & Hq & H). injection H as H.
    replace a' with (dispatch_tasks s1 a1).2 by (by rewrite H).
    apply queue_task_locally_frame in Hq as [Hgain Hsame].
    apply (queue_then_dispatch_oversized state s1 a a1 node Hcap Hsame);
      [by eapply queues_gain_nonnegative| |done|done].
    destruct Hgain as (_ & Hkeep & _). apply Hkeep.
  - apply Hpreserved. unfold handle_actor_task_scheduled in H.
    apply bind_Ok in H as (_ & _ & H). apply bind_Ok in H as (_ & _ & H).
    apply bind_Ok in H as (_ & _ & H). apply bind_Ok in H as (s1 & _ & H).
    apply bind_Ok in H as ([s2 a2] & Hadd & H).
    apply bind_Ok in H as ([[b s3] a3] & Hrun & H). injection H as <- <-.
    eapply queues_preserved_trans;
      [eapply add_task_to_actor_queue_preserved|eapply dispatch_actor_task_preserved];
      eassumption.
  - unfold handle_worker_available in H.
    apply bind_Ok in H as (_ & _ & H). apply bind_Ok in H as (_ & _ & H).
    apply bind_Ok in H as (_ & _ & H). apply bind_Ok in H as (_ & _ & H).
    injection H as H.
    match type of H with
    | dispatch_tasks state ?a1 = _ =>
        replace a' with (dispatch_tasks state a1).2 by (by rewrite H)
    end.
    match goal with
    | |- _ ∈ dispatch_task_queue (dispatch_tasks state ?a1).2 =>
        apply (queue_then_dispatch_oversized state state a a1 node Hcap
                 (resources_same_refl state)); [exact Hdispatch|auto|done|done]
    end.
  - unfold handle_worker_removed in H.
    apply bind_Ok in H as (_ & _ & H).
    destruct (remove_worker_from_vector (available_workers a) (client_ptr w)).
    cbn in H. apply bind_Ok in H as (_ & _ & H).
    destruct (remove_worker_from_vector (executing_workers a) (client_ptr w)).
    cbn in H. apply bind_Ok in H as (_ & _ & H).
    destruct (remove_worker_from_vector (blocked_workers a) (client_ptr w)).
    cbn in H. apply bind_Ok in H as (_ & _ & H). apply bind_Ok in H as (_ & _ & H).
    by injection H as <- <-.
  - apply Hpreserved. unfold handle_actor_worker_available in H.
    apply bind_Ok in H as (_ & _ & H).
    destruct (local_actor_infos a !! client_actor_id w); [|done].
    apply bind_Ok in H as (_ & _ & H). apply bind_Ok in H as (_ & _ & H).
    apply bind_Ok in H as ([[b s3] a3] & Hrun & H). injection H as <- <-.
    eapply queues_preserved_trans;
      [|eapply dispatch_actor_task_preserved; eassumption].
    by repeat split.
  - apply Hpreserved. unfold handle_actor_worker_connect in H.
    apply bind_Ok in H as (a1 & Ha1 & H).
    apply bind_Ok in H as ([[b s3] a3] & Hrun & H). injection H as <- <-.
    eapply queues_preserved_trans;
      [|eapply dispatch_actor_task_preserved; eassumption].
    destruct (local_actor_infos a !! id).
    + injection Ha1 as <-. by repeat split.
    + eapply create_actor_preserved; eassumption.
  - apply Hpreserved. eapply remove_actor_preserved; eassumption.
  - unfold handle_worker_blocked in H.
    destruct (remove_worker_from_vector (executing_workers a) (client_ptr w)).
    cbn in H. apply bind_Ok in H as (_ & _ & H). apply bind_Ok in H as (_ & _ & H).
    injection H as H.
    match type of H with
    | dispatch_tasks_loop state ?a1 [] _ = _ =>
        replace a' with (dispatch_tasks state a1).2 by exact (f_equal snd H)
    end.
    match goal with
    | |- _ ∈ dispatch_task_queue (dispatch_tasks state ?a1).2 =>
        apply (queue_then_dispatch_oversized state state a a1 node Hcap
                 (resources_same_refl state)); [exact Hdispatch|auto|done|done]
    end.
  - unfold handle_worker_unblocked in H.
    destruct (remove_worker_from_vector (blocked_workers a) (client_ptr w)).
    cbn in H. apply bind_Ok in H as (_ & _ & H). apply bind_Ok in H as (_ & _ & H).
    by injection H as <- <-.
  - apply handle_object_available_promotes in H
      as (a1 & (_ & Hkeep & Hnew & _) & [H|H]).
    + injection H as _ ->. auto.
    + replace a' with (dispatch_tasks state a1).2 by (by rewrite <- H).
      apply (queue_then_dispatch_oversized state state a a1 node Hcap
               (resources_same_refl state)); [|exact (Hkeep node)|done|done].
      intros n Hn. destruct (Hnew n Hn) as [Hold|(n' & Hn' & Heq)]; [auto|].
      unfold requires_nonnegative. rewrite Heq. by apply Hwaiting.
  - unfold handle_object_removed in H.
    apply bind_Ok in H as (_ & _ & H). injection H as H.
    match type of H with
    | foldl _ (state, ?a0) ?q = _ =>
        pose proof (register_removed_object_frame id q state a0) as [(_ & Hd & _) _]
    end.
    cbv zeta in Hd. rewrite H in Hd. cbn [snd] in Hd. rewrite Hd.
    rewrite requeue_dependent_tasks_spec. cbn.
    by apply list_elem_of_filter.
  - unfold handle_driver_removed in H.
    apply bind_Ok in H as (remote & _ & H). injection H as <- <-. cbn.
    by apply list_elem_of_filter.
  - by injection H as _ <-.
Qed.

(** C9 (as amended).  While what is available never exceeds the node's
    capacity and the queued tasks and the task an event brings require
    non-negative quantities, [dispatch_tasks] assigns
    no task whose requirement exceeds the static capacity in some component
    and keeps every such node in the dispatch queue; and every handler that
    returns keeps such a node in the dispatch queue, except the removal of
    the task's driver and the removal of an object the task depends on.
    [dispatch_tasks] has no failing outcome. *)
Theorem oversized_task_stays_queued (state : LocalSchedulerState)
    (a : SchedulingAlgorithmState) (node : Cursor * TaskQueueEntry) :
  capacity_respected state ->
  queue_requires_nonnegative (dispatch_task_queue a) ->
  node ∈ dispatch_task_queue a ->
  exceeds_static state (spec node.2) ->
  (node ∈ dispatch_task_queue (dispatch_tasks state a).2
   /\ forall size w,
        AssignTask (spec node.2) size w ∉ new_effects state (dispatch_tasks state a).1)
  /\ (forall e state' a',
        queue_requires_nonnegative (waiting_task_queue a) ->
        event_requires_nonnegative e ->
        outlives e node ->
        handle e state a = Ok (state', a') ->
        node ∈ dispatch_task_queue a').
Proof.
  intros Hcap Hnonneg Hnode Hexceeds. split.
  - destruct (dispatch_tasks_oversized state a Hcap Hnonneg) as [Hkeep Hassigned].
    split; [by apply Hkeep|].
    intros size w Hin. by apply (Hassigned _ _ _ Hin).
  - intros e state' a' Hwaiting Hevent Houtlives Hstep.
    by eapply handle_oversized.
Qed.

(** ** Removal and return of an object *)

Lemma set_remote_objects_id (a : SchedulingAlgorithmState) :
  set_remote_objects a (remote_objects a) = a.
Proof. by destruct a. Qed.

Lemma alter_Some (remote : gmap UniqueID ObjectEntry) (id : UniqueID)
    (f : ObjectEntry -> ObjectEntry) (entry : ObjectEntry) :
  remote !! id = Some entry -> alter f id remote = <[id := f entry]> remote.
Proof.
  intros Hentry. apply map_eq. intros j. destruct (decide (id = j)) as [->|Hne].
  - by rewrite lookup_alter_eq, lookup_insert_eq, Hentry.
  - by rewrite lookup_alter_ne, lookup_insert_ne.
Qed.

(** Registering iterators for an object that is already being fetched
    appends them to its entry. *)
Lemma fetch_registered (id : ObjectID) (cursors : list Cursor) :
  forall state a entry,
    remote_objects a !! id = Some entry ->
    foldl (fun '(state, a) it => fetch_missing_dependency state a it id)
          (state, a) cursors
    = (state,
       set_remote_objects a
         (<[id := {| object_id := object_id entry;
                     dependent_tasks := dependent_tasks entry ++ cursors |}]>
            (remote_objects a))).
Proof.
  induction cursors as [|it cursors IH]; intros state a entry Hentry.
  - cbn. rewrite app_nil_r. rewrite insert_id by (by destruct entry).
    by rewrite set_remote_objects_id.
  - cbn [foldl]. unfold fetch_missing_dependency at 2. rewrite Hentry.
    rewrite (alter_Some _ _ _ _ Hentry).
    erewrite IH by (cbn; apply lookup_insert_eq).
    cbn. rewrite insert_insert_eq. by rewrite <- app_assoc.
Qed.

(** Registering iterators for an object that is not being fetched creates
    its entry and asks for the object once, if the store is connected. *)
Lemma fetch_unregistered (id : ObjectID) (it : Cursor) (cursors : list Cursor)
    (state : LocalSchedulerState) (a : SchedulingAlgorithmState) :
  remote_objects a !! id = None ->
  foldl (fun '(state, a) it => fetch_missing_dependency state a it id)
        (state, a) (it :: cursors)
  = (if plasma_connected state then emit state (PlasmaFetch [id]) else state,
     set_remote_objects a
       (<[id := {| object_id := id; dependent_tasks := it :: cursors |}]>
          (remote_objects a))).
Proof.
  intros Hnone. cbn [foldl]. unfold fetch_missing_dependency at 2. rewrite Hnone.
  cbn [remote_objects set_remote_objects].
  erewrite alter_Some by apply lookup_insert_eq.
  erewrite fetch_registered by (cbn; apply lookup_insert_eq).
  cbn. by rewrite !insert_insert_eq.
Qed.

(** The second loop of [handle_object_removed] registers the iterators of
    [mentions], in order. *)
Lemma register_mentions (id : ObjectID) (queue : list (Cursor * TaskQueueEntry)) :
  forall state a,
    foldl (fun '(state, algorithm_state) node =>
             let it := node.1 in
             foldl (fun '(state, algorithm_state) i =>
                      if TaskSpec_arg_by_ref (spec node.2) i then
                        let arg_id := TaskSpec_arg_id (spec node.2) i in
                        if ObjectID_equal arg_id id
                        then fetch_missing_dependency state algorithm_state it id
                        else (state, algorithm_state)
                      else (state, algorithm_state))
                   (state, algorithm_state) (seq 0 (TaskSpec_num_args (spec node.2))))
          (state, a) queue
    = foldl (fun '(state, a) it => fetch_missing_dependency state a it id)
            (state, a) (mentions id queue).
Proof.
  induction queue as [|node queue IH]; intros state a; [done|].
  cbn [foldl mentions flat_map]. rewrite foldl_app.
  assert (Hinner : forall indices acc,
    foldl (fun '(state, algorithm_state) i =>
             if TaskSpec_arg_by_ref (spec node.2) i then
               let arg_id := TaskSpec_arg_id (spec node.2) i in
               if ObjectID_equal arg_id id
               then fetch_missing_dependency state algorithm_state node.1 id
               else (state, algorithm_state)
             else (state, algorithm_state)) acc indices
    = foldl (fun '(state, a) it => fetch_missing_dependency state a it id) acc
        (replicate
           (length (filter (fun i => TaskSpec_arg_by_ref (spec node.2) i
                                 && ObjectID_equal (TaskSpec_arg_id (spec node.2) i) id
                                 = true) indices))
           node.1)).
  { induction indices as [|i indices IHi]; intros [s0 a0]; [done|].
    cbn [foldl]. rewrite filter_cons.
    destruct (TaskSpec_arg_by_ref (spec node.2) i); cbn [andb].
    - destruct (ObjectID_equal (TaskSpec_arg_id (spec node.2) i) id).
      + rewrite decide_True by done. cbn [length replicate foldl]. apply IHi.
      + rewrite decide_False by done. apply IHi.
    - rewrite decide_False by done. apply IHi. }
  rewrite Hinner. fold (occurrences id (spec node.2)).
  destruct (foldl _ (state, a) (replicate _ _)) as [s1 a1]. apply IH.
Qed.

Lemma deref_app_l (queue later : list (Cursor * TaskQueueEntry)) (it : Cursor)
    (entry : TaskQueueEntry) :
  (it, entry) ∈ queue -> deref (queue ++ later) it = deref queue it.
Proof.
  intros Hin. unfold deref.
  destruct (list_find_elem_of (fun node : Cursor * TaskQueueEntry => node.1 = it)
              queue (it, entry) Hin eq_refl) as [[i node] Hfind].
  by rewrite (list_find_app_l _ _ _ _ _ Hfind), Hfind.
Qed.

Lemma list_find_absent (queue : list (Cursor * TaskQueueEntry)) (it : Cursor) :
  it ∉ queue.*1 ->
  list_find (fun node : Cursor * TaskQueueEntry => node.1 = it) queue = None.
Proof.
  intros Hout. apply list_find_None, Forall_forall. intros node Hnode Heq.
  apply Hout. rewrite <- Heq. by apply list_elem_of_fmap_2.
Qed.

Lemma deref_app_r (queue later : list (Cursor * TaskQueueEntry)) (it : Cursor) :
  it ∉ queue.*1 -> deref (queue ++ later) it = deref later it.
Proof.
  intros Hout. unfold deref.
  rewrite list_find_app_r by (by apply list_find_absent).
  by destruct (list_find _ later) as [[i node]|].
Qed.

Lemma delete_app_r {A : Type} (l k : list A) (i : nat) :
  delete (i + length l)%nat (l ++ k) = l ++ delete i k.
Proof.
  induction l as [|x l IH]; [cbn; by rewrite Nat.add_0_r|].
  cbn [length app]. rewrite Nat.add_succ_r.
  change (delete (S (i + length l)) (x :: l ++ k))
    with (x :: delete (i + length l)%nat (l ++ k)).
  by rewrite IH.
Qed.

Lemma erase_app_r (queue later : list (Cursor * TaskQueueEntry)) (it : Cursor) :
  it ∉ queue.*1 -> erase (queue ++ later) it = queue ++ erase later it.
Proof.
  intros Hout. unfold erase.
  rewrite list_find_app_r by (by apply list_find_absent).
  destruct (list_find _ later) as [[i node]|]; cbn; [|done].
  apply delete_app_r.
Qed.

Lemma deref_head (queue : list (Cursor * TaskQueueEntry)) (it : Cursor)
    (entry : TaskQueueEntry) :
  deref ((it, entry) :: queue) it = Ok entry.
Proof. unfold deref. cbn. by rewrite decide_True. Qed.

Lemma erase_head (queue : list (Cursor * TaskQueueEntry)) (it : Cursor)
    (entry : TaskQueueEntry) :
  erase ((it, entry) :: queue) it = queue.
Proof. unfold erase. cbn. by rewrite decide_True. Qed.

Lemma promote_dependent_eq (b : SchedulingAlgorithmState) (it : Cursor) :
  promote_dependent b it
  = (node ← deref (waiting_task_queue b) it;
     if can_run b (spec node) then
       let '(b', _) := push_back b DispatchQueue node in
       Ok (set_waiting b' (erase (waiting_task_queue b') it))
     else Ok b).
Proof. reflexivity. Qed.

(** Iterators of tasks that still miss an object leave the state as it is. *)
Lemma promote_blocked (cursors : list Cursor) (b : SchedulingAlgorithmState)
    (queue later : list (Cursor * TaskQueueEntry)) :
  waiting_task_queue b = queue ++ later ->
  (forall it, it ∈ cursors -> exists entry, (it, entry) ∈ queue) ->
  (forall node, node ∈ queue -> can_run b (spec node.2) = false) ->
  for_each promote_dependent b cursors = Ok b.
Proof.
  intros Hwaiting Hcursors Hblocked.
  induction cursors as [|it cursors IH]; [done|].
  cbn [for_each]. rewrite promote_dependent_eq.
  destruct (Hcursors it) as [entry Hentry]; [by left|].
  rewrite Hwaiting, (deref_app_l _ _ _ _ Hentry).
  destruct (deref queue it) as [found| |] eqn:Hfound.
  - apply deref_Ok in Hfound. cbn [mbind result_bind].
    pose proof (Hblocked _ Hfound) as Hcannot. cbn in Hcannot.
    rewrite Hcannot. cbn. apply IH.
    intros ? ?. apply Hcursors. by right.
  - unfold deref in Hfound.
    by destruct (list_find _ queue) as [[? ?]|].
  - exfalso. unfold deref in Hfound.
    destruct (list_find _ queue) as [[? ?]|] eqn:Hfind; [done|].
    apply list_find_None in Hfind. rewrite Forall_forall in Hfind.
    by apply (Hfind _ Hentry).
Qed.

(** Iterators of tasks that can run again move them, in order and as fresh
    nodes, to the tail of the dispatch queue. *)
Lemma promote_ready (later : list (Cursor * TaskQueueEntry)) :
  forall (b : SchedulingAlgorithmState) (queue : list (Cursor * TaskQueueEntry)),
    waiting_task_queue b = queue ++ later ->
    NoDup later.*1 ->
    (forall it, it ∈ later.*1 -> it ∉ queue.*1) ->
    (forall node, node ∈ later -> can_run b (spec node.2) = true) ->
    for_each promote_dependent b later.*1
    = Ok (set_waiting
            (set_next_node
               (set_dispatch b (dispatch_task_queue b ++ renumber (next_node b) later))
               (next_node b + length later)%nat)
            queue).
Proof.
  induction later as [|[it entry] later IH]; intros b queue Hwaiting Hnodup Hfresh Hready.
  - cbn. rewrite app_nil_r in *. rewrite Nat.add_0_r.
    destruct b; cbn in *; by subst.
  - cbn [fmap list_fmap for_each]. rewrite promote_dependent_eq.
    cbn in Hnodup. apply NoDup_cons in Hnodup as [Hit Hnodup].
    assert (Hout : it ∉ queue.*1) by (apply Hfresh; by left).
    rewrite Hwaiting, (deref_app_r _ _ _ Hout), deref_head.
    cbn [mbind result_bind].
    pose proof (Hready (it, entry) ltac:(by left)) as Hcan. cbn in Hcan.
    rewrite Hcan.
    cbn [push_back waiting_task_queue set_dispatch set_next_node].
    rewrite Hwaiting, (erase_app_r _ _ _ Hout), erase_head.
    cbn [mbind result_bind].
    erewrite IH; [|reflexivity|done| |].
    + f_equal. unfold set_waiting, set_next_node, set_dispatch, renumber. cbn.
      f_equal; [lia|].
      rewrite <- app_assoc. f_equal. cbn. rewrite Nat.add_0_r. f_equal.
      apply imap_ext. intros i x _. cbn. f_equal. lia.
    + intros c Hc. apply Hfresh. by right.
    + intros node Hnode. apply (Hready node). by right.
Qed.

Lemma depends_on_occurrences (id : ObjectID) (node : Cursor * TaskQueueEntry) :
  depends_on id node <-> (0 < occurrences id (spec node.2))%nat.
Proof.
  unfold depends_on, TaskSpec_is_dependent_on, occurrences.
  induction (seq 0 (TaskSpec_num_args (spec node.2))) as [|i indices IH].
  - cbn. split; [discriminate|lia].
  - cbn [existsb]. rewrite filter_cons.
    destruct (TaskSpec_arg_by_ref (spec node.2) i
              && ObjectID_equal (TaskSpec_arg_id (spec node.2) i) id).
    + rewrite decide_True by done. cbn. split; [lia|done].
    + rewrite decide_False by done. exact IH.
Qed.

Lemma mentions_app (id : ObjectID) (queue later : list (Cursor * TaskQueueEntry)) :
  mentions id (queue ++ later) = mentions id queue ++ mentions id later.
Proof. apply flat_map_app. Qed.

Lemma mentions_elem_of (id : ObjectID) (queue : list (Cursor * TaskQueueEntry))
    (it : Cursor) :
  it ∈ mentions id queue -> exists entry, (it, entry) ∈ queue.
Proof.
  unfold mentions. rewrite list_elem_of_In, in_flat_map.
  intros ([c entry] & Hnode%list_elem_of_In & Hit%list_elem_of_In).
  apply elem_of_replicate_inv in Hit. cbn in Hit. subst. by exists entry.
Qed.

Lemma mentions_once (id : ObjectID) (queue : list (Cursor * TaskQueueEntry)) :
  (forall node, node ∈ queue -> occurrences id (spec node.2) = 1%nat) ->
  mentions id queue = queue.*1.
Proof.
  induction queue as [|node queue IH]; intros Honce; [done|].
  cbn. rewrite (Honce node) by (by left). cbn. f_equal.
  apply IH. intros ? ?. apply Honce. by right.
Qed.

Lemma mentions_nil (id : ObjectID) (queue : list (Cursor * TaskQueueEntry)) :
  mentions id queue = [] ->
  forall node, node ∈ queue -> occurrences id (spec node.2) = 0%nat.
Proof.
  induction queue as [|node queue IH]; intros Hnil n Hn; [by apply elem_of_nil in Hn|].
  cbn in Hnil. apply app_eq_nil in Hnil as [Hhead Htail].
  apply elem_of_cons in Hn as [->|Hn]; [|by apply IH].
  by destruct (occurrences id (spec node.2)).
Qed.

Lemma renumber_keys (n : Cursor) (nodes : list (Cursor * TaskQueueEntry)) :
  (renumber n nodes).*1 = seq n (length nodes).
Proof.
  revert n. induction nodes as [|node nodes IH]; intros n; [done|].
  unfold renumber in *. rewrite imap_cons. cbn. rewrite Nat.add_0_r. f_equal.
  rewrite <- IH. f_equal. apply imap_ext. intros i x _. cbn. f_equal. lia.
Qed.

Lemma renumber_entries (n : Cursor) (nodes : list (Cursor * TaskQueueEntry)) :
  (renumber n nodes).*2 = nodes.*2.
Proof.
  revert n. induction nodes as [|node nodes IH]; intros n; [done|].
  unfold renumber in *. rewrite imap_cons. cbn. f_equal.
  rewrite <- (IH (S n)). f_equal. apply imap_ext. intros i x _. cbn. f_equal. lia.
Qed.

Lemma renumber_renumber (n k : Cursor) (nodes : list (Cursor * TaskQueueEntry)) :
  renumber k (renumber n nodes) = renumber k nodes.
Proof.
  unfold renumber. apply list_eq. intros i. rewrite !list_lookup_imap.
  by destruct (nodes !! i).
Qed.

Lemma length_renumber (n : Cursor) (nodes : list (Cursor * TaskQueueEntry)) :
  length (renumber n nodes) = length nodes.
Proof. apply length_imap. Qed.

Lemma elem_of_renumber (n : Cursor) (nodes : list (Cursor * TaskQueueEntry))
    (node : Cursor * TaskQueueEntry) :
  node ∈ renumber n nodes -> exists original, original ∈ nodes /\ node.2 = original.2.
Proof.
  unfold renumber. intros (i & original & -> & Hi)%elem_of_lookup_imap.
  exists original. split; [by eapply list_elem_of_lookup_2|done].
Qed.

Lemma forallb_pointwise {A : Type} (f g : A -> bool) (l : list A) :
  (forall x, f x = g x) -> forallb f l = forallb g l.
Proof. intros Heq. induction l as [|x l IH]; cbn; [done|]. by rewrite Heq, IH. Qed.

(** Whether a task can run depends on which objects are local only. *)
Lemma can_run_same_objects (a a' : SchedulingAlgorithmState) (s : TaskSpec) :
  (forall id, is_Some (local_objects a' !! id) <-> is_Some (local_objects a !! id)) ->
  can_run a' s = can_run a s.
Proof.
  intros Hsame. unfold can_run. apply forallb_pointwise. intros i.
  destruct (TaskSpec_arg_by_ref s i); [|done].
  apply bool_decide_ext, Hsame.
Qed.

Lemma for_each_app {A S : Type} (body : S -> A -> result S) (l k : list A) (s : S) :
  for_each body s (l ++ k) = (s' ← for_each body s l; for_each body s' k).
Proof.
  revert s. induction l as [|x l IH]; intros s; [done|].
  cbn [app for_each]. destruct (body s x); cbn; [apply IH|done..].
Qed.

Lemma mentions_nil_iff (id : ObjectID) (queue : list (Cursor * TaskQueueEntry)) :
  mentions id queue = [] <-> filter (depends_on id) queue = [].
Proof.
  induction queue as [|node queue IH]; [done|].
  cbn [mentions flat_map]. rewrite filter_cons.
  pose proof (depends_on_occurrences id node) as Hdep.
  destruct (decide (depends_on id node)) as [Hyes|Hno].
  - apply Hdep in Hyes. destruct (occurrences id (spec node.2)); [lia|].
    cbn. split; discriminate.
  - assert (Hzero : occurrences id (spec node.2) = 0%nat)
      by (destruct (occurrences id (spec node.2)); [done|destruct Hno; apply Hdep; lia]).
    rewrite Hzero. cbn. exact IH.
Qed.


Lemma handle_object_available_fresh (state : LocalSchedulerState)
    (b : SchedulingAlgorithmState) (id : ObjectID) :
  remote_objects b !! id = None ->
  local_objects b !! id = None ->
  handle_object_available state b id
  = Ok (state,
        set_local_objects b
          (<[id := {| object_id := id; dependent_tasks := [] |}]> (local_objects b))).
Proof.
  intros Hremote Hlocal. unfold handle_object_available.
  rewrite Hremote, Hlocal. reflexivity.
Qed.

Lemma handle_object_available_fetched (state : LocalSchedulerState)
    (b : SchedulingAlgorithmState) (id : ObjectID) (entry : ObjectEntry) :
  remote_objects b !! id = Some entry ->
  dependent_tasks entry <> [] ->
  local_objects b !! id = None ->
  handle_object_available state b id
  = (b' ← for_each promote_dependent
            (set_local_objects
               (set_remote_objects b (delete id (remote_objects b)))
               (<[id := entry]> (local_objects b)))
            (dependent_tasks entry);
     Ok (dispatch_tasks state b')).
Proof.
  intros Hremote Hdeps Hlocal. unfold handle_object_available.
  rewrite Hremote. cbn [local_objects set_remote_objects]. rewrite Hlocal.
  rewrite (bool_decide_eq_true_2 (@None ObjectEntry = None)) by done.
  cbn [CHECK mbind result_bind].
  rewrite bool_decide_eq_false_2 by done. cbn [negb].
  destruct (for_each _ _ _) as [b'| |]; cbn; [|done..].
  by destruct (dispatch_tasks state b').
Qed.

Lemma round_trip_steps (state : LocalSchedulerState) (a : SchedulingAlgorithmState)
    (id : ObjectID) :
  is_Some (local_objects a !! id) ->
  round_trip_ready a id ->
  exists entry,
    round_trip state a id
    = Ok (if decide (mentions id (waiting_task_queue a ++ dispatch_task_queue a) = [])
          then (state, round_trip_requeued a id entry)
          else dispatch_tasks
                 (if plasma_connected state then emit state (PlasmaFetch [id])
                  else state)
                 (round_trip_requeued a id entry)).
Proof.
  intros Hlocal [Hremote Hdispatch Hwaiting Hnodes Honce].
  unfold round_trip, handle_object_removed.
  rewrite bool_decide_eq_true_2 by done. cbn [CHECK mbind result_bind].
  rewrite requeue_dependent_tasks_spec, register_mentions.
  cbn [waiting_task_queue set_dispatch set_waiting set_next_node set_local_objects
       next_node dispatch_task_queue app].
  set (moved := filter (depends_on id) (dispatch_task_queue a)).
  set (stay := filter (fun node => ~ depends_on id node) (dispatch_task_queue a)).
  set (later := renumber (next_node a) moved).
  assert (Hlater_once : forall node, node ∈ later -> occurrences id (spec node.2) = 1%nat).
  { intros node (original & Horiginal & ->)%elem_of_renumber.
    apply list_elem_of_filter in Horiginal as [Hdep Hin].
    apply depends_on_occurrences in Hdep. specialize (Honce _ Hin). lia. }
  rewrite mentions_app, (mentions_once id later Hlater_once).
  assert (Hnil : mentions id (waiting_task_queue a ++ dispatch_task_queue a) = []
                 <-> mentions id (waiting_task_queue a) ++ later.*1 = []).
  { rewrite mentions_app. split; intros [Hw Hd]%app_eq_nil.
    - rewrite Hw. apply mentions_nil_iff in Hd. subst later. fold moved in Hd.
      by rewrite Hd.
    - rewrite Hw. cbn. apply mentions_nil_iff. fold moved.
      apply (f_equal length) in Hd. subst later.
      rewrite length_fmap, length_renumber in Hd. by destruct moved. }
  set (b := set_dispatch
              (set_waiting
                 (set_next_node (set_local_objects a (delete id (local_objects a)))
                    (next_node a + length moved)%nat)
                 (waiting_task_queue a ++ later))
              stay).
  destruct (mentions id (waiting_task_queue a) ++ later.*1) as [|it cursors] eqn:Hcursors.
  - (* no queued task takes the object *)
    exists {| object_id := id; dependent_tasks := [] |}.
    rewrite decide_True by (by apply Hnil).
    apply app_eq_nil in Hcursors as [_ Hlater].
    assert (Hmoved : moved = []).
    { apply (f_equal length) in Hlater. subst later.
      rewrite length_fmap, length_renumber in Hlater. by destruct moved. }
    cbn [foldl mbind result_bind].
    rewrite handle_object_available_fresh; [|exact Hremote|apply lookup_delete_eq].
    f_equal. f_equal. unfold round_trip_requeued. fold moved stay.
    subst b later. rewrite Hmoved. cbn [length renumber imap].
    cbn [local_objects set_dispatch set_waiting set_next_node set_local_objects].
    rewrite !app_nil_r, !Nat.add_0_r, insert_delete_eq.
    destruct a; reflexivity.
  - (* some queued task takes the object *)
    exists {| object_id := id; dependent_tasks := it :: cursors |}.
    rewrite decide_False by (rewrite Hnil; discriminate).
    rewrite fetch_unregistered by done.
    cbn [mbind result_bind].
    erewrite handle_object_available_fetched;
      [|cbn; apply lookup_insert_eq|discriminate|cbn; apply lookup_delete_eq].
    cbn [remote_objects set_dispatch set_waiting set_next_node set_local_objects
         set_remote_objects local_objects dependent_tasks].
    set (entry := {| object_id := id; dependent_tasks := it :: cursors |}).
    match goal with
    | |- for_each _ ?start _ ≫= _ = _ => set (b0 := start)
    end.
    assert (Hcan : forall s, can_run b0 s = can_run a s).
    { intros s. apply can_run_same_objects. intros x. subst b0 b. cbn.
      destruct (decide (id = x)) as [->|Hne].
      - rewrite lookup_insert_eq. split; [done|by eexists].
      - by rewrite lookup_insert_ne, lookup_delete_ne. }
    rewrite <- Hcursors, for_each_app.
    rewrite (promote_blocked _ b0 (waiting_task_queue a) later);
      [|reflexivity|apply mentions_elem_of|by intros node Hnode; rewrite Hcan; auto].
    cbn [mbind result_bind].
    rewrite (promote_ready later b0 (waiting_task_queue a)); [|reflexivity| | |].
    + cbn [mbind result_bind]. do 2 f_equal.
      unfold round_trip_requeued. fold moved stay. subst b0 b later.
      cbn [remote_objects set_dispatch set_waiting set_next_node set_local_objects
           set_remote_objects local_objects dispatch_task_queue next_node].
      rewrite length_renumber, renumber_renumber, delete_insert_eq, insert_delete_eq.
      rewrite (delete_id (remote_objects a)) by done.
      destruct a; reflexivity.
    + subst later. rewrite renumber_keys. apply NoDup_seq.
    + intros c Hc. subst later. rewrite renumber_keys in Hc.
      apply elem_of_seq in Hc as [Hc _].
      intros ([c' e] & -> & Hin)%list_elem_of_fmap.
      specialize (Hnodes _ Hin). cbn in *. lia.
    + intros node (original & Horiginal & Heq)%elem_of_renumber.
      rewrite Hcan, Heq. apply Hdispatch.
      by apply list_elem_of_filter in Horiginal as [_ ?].
Qed.

Lemma filter_complement_all (id : ObjectID) (queue : list (Cursor * TaskQueueEntry)) :
  filter (depends_on id) queue = [] ->
  filter (fun node => ~ depends_on id node) queue = queue.
Proof.
  induction queue as [|node queue IH]; [done|].
  rewrite !filter_cons. destruct (decide (depends_on id node)) as [Hyes|Hno]; [done|].
  intros Hnone. rewrite decide_True by done. by rewrite IH.
Qed.

(** C3 (as amended).  When the object is local and not also listed as
    remote, the queued tasks are where their dependencies put them, and no
    task in the dispatch queue takes the object twice, handling its removal
    and then its return succeeds and leaves the waiting queue and the table of
    remote objects as they were and [local_objects] with the same keys.  If
    no queued task takes the object by reference, the collaborator state and
    the dispatch queue are unchanged as well.  Otherwise a fetch for the
    object is emitted if the store is connected, the entries of the dispatch
    queue that depend on the object are moved behind the others, both groups
    in their order, and [dispatch_tasks] runs on that queue. *)
Theorem object_round_trip (state : LocalSchedulerState)
    (a : SchedulingAlgorithmState) (id : ObjectID) :
  is_Some (local_objects a !! id) ->
  round_trip_ready a id ->
  exists entry state2 a2,
    round_trip state a id = Ok (state2, a2)
    /\ (state2, a2)
       = (if decide (mentions id (waiting_task_queue a ++ dispatch_task_queue a) = [])
          then (state, round_trip_requeued a id entry)
          else dispatch_tasks
                 (if plasma_connected state then emit state (PlasmaFetch [id])
                  else state)
                 (round_trip_requeued a id entry))
    /\ (dispatch_task_queue (round_trip_requeued a id entry)).*2
       = (filter (fun node => ~ depends_on id node) (dispatch_task_queue a)
          ++ filter (depends_on id) (dispatch_task_queue a)).*2
    /\ waiting_task_queue a2 = waiting_task_queue a
    /\ remote_objects a2 = remote_objects a
    /\ dom (local_objects a2) = dom (local_objects a)
    /\ (mentions id (waiting_task_queue a ++ dispatch_task_queue a) = [] ->
        state2 = state /\ dispatch_task_queue a2 = dispatch_task_queue a).
Proof.
  intros Hlocal Hready.
  destruct (round_trip_steps state a id Hlocal Hready) as [entry Hsteps].
  exists entry.
  destruct (decide (mentions id (waiting_task_queue a ++ dispatch_task_queue a) = []))
    as [Hnone|Hsome].
  - exists state, (round_trip_requeued a id entry).
    split; [exact Hsteps|]. split; [done|].
    split; [cbn; by rewrite !fmap_app, renumber_entries|].
    split; [done|]. split; [done|].
    split; [cbn; by apply dom_insert_lookup_L|].
    intros _. split; [done|].
    rewrite mentions_app in Hnone. apply app_eq_nil in Hnone as [_ Hnone].
    apply mentions_nil_iff in Hnone. cbn. rewrite Hnone. cbn.
    rewrite app_nil_r. by apply filter_complement_all.
  - pose proof (dispatch_tasks_loop_tables
                  (dispatch_task_queue (round_trip_requeued a id entry))
                  (if plasma_connected state then emit state (PlasmaFetch [id])
                   else state)
                  (round_trip_requeued a id entry) [])
      as (Hwaiting & _ & Hlocals & Hremote).
    cbv zeta in Hwaiting, Hlocals, Hremote.
    fold (dispatch_tasks
            (if plasma_connected state then emit state (PlasmaFetch [id]) else state)
            (round_trip_requeued a id entry)) in Hwaiting, Hlocals, Hremote.
    destruct (dispatch_tasks _ (round_trip_requeued a id entry)) as [state2 a2].
    exists state2, a2.
    split; [exact Hsteps|]. split; [done|].
    split; [cbn; by rewrite !fmap_app, renumber_entries|].
    split; [exact Hwaiting|]. split; [exact Hremote|].
    split; [cbn in Hlocals; rewrite Hlocals; by apply dom_insert_lookup_L|].
    intros Hnone. by destruct Hsome.
Qed.

(** * Further properties *)

(** ** Arguments and dependencies *)

Lemma arg_by_ref_takes (s : TaskSpec) (i : nat) :
  TaskSpec_arg_by_ref s i = true -> takes s (TaskSpec_arg_id s i).
Proof.
  unfold TaskSpec_arg_by_ref, TaskSpec_arg_id, takes.
  destruct (spec_args s !! i) as [[id|data]|] eqn:Hi; try discriminate.
  intros _. by eapply list_elem_of_lookup_2.
Qed.

Lemma takes_position (s : TaskSpec) (id : ObjectID) :
  takes s id ->
  exists i, (i < TaskSpec_num_args s)%nat
            /\ TaskSpec_arg_by_ref s i = true /\ TaskSpec_arg_id s i = id.
Proof.
  unfold takes, TaskSpec_arg_by_ref, TaskSpec_arg_id, TaskSpec_num_args.
  intros [i Hi]%list_elem_of_lookup_1. exists i.
  split; [by eapply lookup_lt_Some|]. by rewrite Hi.
Qed.

Lemma can_run_iff (a : SchedulingAlgorithmState) (s : TaskSpec) :
  can_run a s = true <-> forall id, takes s id -> is_Some (local_objects a !! id).
Proof.
  unfold can_run. rewrite forallb_forall. split.
  - intros H id (i & Hi & Href & <-)%takes_position.
    specialize (H i). rewrite in_seq in H. specialize (H ltac:(lia)).
    rewrite Href in H. by apply bool_decide_eq_true in H.
  - intros H i _. destruct (TaskSpec_arg_by_ref s i) eqn:Href; [|done].
    apply bool_decide_eq_true, H. by apply arg_by_ref_takes.
Qed.

Lemma can_run_false_iff (a : SchedulingAlgorithmState) (s : TaskSpec) :
  can_run a s = false <-> exists id, takes s id /\ local_objects a !! id = None.
Proof.
  split.
  - unfold can_run. induction (seq 0 (TaskSpec_num_args s)) as [|i l IH]; [done|].
    cbn [forallb]. destruct (TaskSpec_arg_by_ref s i) eqn:Href; [|exact IH].
    destruct (local_objects a !! TaskSpec_arg_id s i) as [entry|] eqn:Hlocal.
    + rewrite bool_decide_eq_true_2 by (by eexists). exact IH.
    + intros _. eexists. split; [by apply arg_by_ref_takes|done].
  - intros (id & Htakes & Hnone). apply not_true_iff_false.
    rewrite can_run_iff. intros H. destruct (H id Htakes) as [entry Hentry].
    congruence.
Qed.

Lemma is_dependent_on_iff (s : TaskSpec) (id : ObjectID) :
  TaskSpec_is_dependent_on s id = true <-> takes s id.
Proof.
  unfold TaskSpec_is_dependent_on. rewrite existsb_exists. split.
  - intros (i & _ & [Href Heq]%andb_true_iff).
    apply bool_decide_eq_true in Heq. subst id. by apply arg_by_ref_takes.
  - intros (i & Hi & Href & <-)%takes_position. exists i.
    split; [apply in_seq; lia|]. rewrite Href. cbn.
    by apply bool_decide_eq_true.
Qed.

Lemma elem_of_missing_dependencies (a : SchedulingAlgorithmState) (s : TaskSpec)
    (id : ObjectID) :
  id ∈ missing_dependencies a s <-> takes s id /\ local_objects a !! id = None.
Proof.
  unfold missing_dependencies, missing_positions.
  rewrite list_elem_of_fmap. split.
  - intros (i & -> & [[Href Hnone] _]%list_elem_of_filter).
    split; [by apply arg_by_ref_takes|done].
  - intros [(i & Hi & Href & <-)%takes_position Hnone]. exists i.
    split; [done|]. apply list_elem_of_filter. split; [done|].
    apply elem_of_seq. lia.
Qed.

(** ** One run of the dispatch loop *)

Lemma debit_length (s : TaskSpec) (indices : list nat) :
  forall d,
    length (foldl (fun d i => <[i := nth i d 0 - TaskSpec_get_required_resource s i]> d)
                  d indices)
    = length d.
Proof.
  induction indices as [|i indices IH]; intros d; cbn [foldl]; [done|].
  by rewrite IH, length_insert.
Qed.

Lemma nth_insert (l : list Z) (i k : nat) (x : Z) :
  nth k (<[i := x]> l) 0 = if decide (i = k /\ k < length l)%nat then x else nth k l 0.
Proof.
  rewrite !nth_lookup. destruct (decide (i = k /\ k < length l)%nat) as [[-> Hk]|Hk].
  - by rewrite list_lookup_insert_eq.
  - destruct (decide (i = k)) as [->|Hne].
    + by rewrite list_insert_ge by lia.
    + by rewrite list_lookup_insert_ne.
Qed.

(** The debit of [assign_task_to_worker], kind by kind. *)
Lemma debit_nth (s : TaskSpec) (n : nat) :
  forall d k,
    nth k (foldl (fun d i => <[i := nth i d 0 - TaskSpec_get_required_resource s i]> d)
                 d (seq 0 n)) 0
    = if decide (k < n /\ k < length d)%nat
      then nth k d 0 - TaskSpec_get_required_resource s k
      else nth k d 0.
Proof.
  induction n as [|n IH]; intros d k.
  - cbn. rewrite decide_False by lia. done.
  - rewrite seq_S, foldl_app. cbn [foldl Nat.add].
    rewrite nth_insert, debit_length, !IH.
    repeat destruct (decide _); try lia; by destruct_and?; simplify_eq.
Qed.

(** The assignments of one run of the loop, in order: what they log, where
    the workers come from and go, which nodes leave the queue, and what is
    debited. *)
Lemma dispatch_tasks_loop_trace (rest : list (Cursor * TaskQueueEntry)) :
  forall state a kept,
    let r := dispatch_tasks_loop state a kept rest in
    exists assigned started,
      effects r.1 = effects state ++ flat_map assignment_effects assigned ++ started
      /\ (started = []
          \/ (started = [StartWorker NIL_ACTOR_ID]
              /\ available_workers r.2 = [] /\ child_pids state = []
              /\ dispatch_task_queue r.2 <> []))
      /\ available_workers a = available_workers r.2 ++ reverse assigned.*2
      /\ executing_workers r.2 = executing_workers a ++ assigned.*2
      /\ sublist (dispatch_task_queue r.2) (kept ++ rest)
      /\ sublist assigned.*1 rest
      /\ kept ++ rest ≡ₚ dispatch_task_queue r.2 ++ assigned.*1
      /\ (forall k,
            nth k (dynamic_resources r.1) 0
            = nth k (dynamic_resources state) 0
              - (if decide (k < ResourceIndex_MAX
                            /\ k < length (dynamic_resources state))%nat
                 then required_total k assigned else 0)).
Proof.
  induction rest as [|node rest IH]; intros state a kept; cbv zeta.
  - exists [], []. cbn. rewrite !app_nil_r. repeat split; try done; auto.
    intros k. destruct (decide _); lia.
  - cbn [dispatch_tasks_loop].
    destruct (last (available_workers a)) as [w|] eqn:Hlast.
    2:{ apply last_None in Hlast.
        exists []. cbn. rewrite !app_nil_r.
        destruct (bool_decide (length (child_pids state) = 0%nat)) eqn:Hpids.
        - exists [StartWorker NIL_ACTOR_ID]. cbn.
          apply bool_decide_eq_true, nil_length_inv in Hpids.
          repeat split; try done; auto.
          + right. repeat split; try done. by destruct kept.
          + apply sublist_nil_l.
          + intros k. destruct (decide _); lia.
        - exists []. cbn. rewrite !app_nil_r.
          repeat split; try done; auto.
          + apply sublist_nil_l.
          + intros k. destruct (decide _); lia. }
    destruct (resources_available state).
    2:{ exists [], []. cbn. rewrite !app_nil_r. repeat split; try done; auto.
        - apply sublist_nil_l.
        - intros k. destruct (decide _); lia. }
    destruct (task_satisfied state (spec node.2)); cbn [negb].
    + cbv zeta.
      match goal with
      | |- context [dispatch_tasks_loop ?s1 ?a1 kept rest] =>
          destruct (IH s1 a1 kept)
            as (assigned & started & Heff & Hstart & Havail & Hexec & Hsub & Hsub'
                & Hperm & Hres);
          cbv zeta in Heff, Hstart, Havail, Hexec, Hsub, Hsub', Hperm, Hres;
          set (r := dispatch_tasks_loop s1 a1 kept rest) in *
      end.
      exists ((node, w) :: assigned), started.
      apply last_Some in Hlast as [ws Hws].
      cbn in Heff, Hstart, Havail, Hexec, Hres.
      rewrite Hws, removelast_last in Havail.
      split; [rewrite Heff; cbn; by rewrite <- !app_assoc|].
      split; [exact Hstart|].
      split; [rewrite Hws, Havail, fmap_cons, reverse_cons; by rewrite <- !app_assoc|].
      split; [rewrite Hexec; cbn; by rewrite <- !app_assoc|].
      split; [etrans; [exact Hsub|]; apply sublist_app; [done|by apply sublist_cons]|].
      split; [cbn; by apply sublist_skip|].
      split; [cbn; rewrite <- !Permutation_middle; by apply perm_skip|].
      intros k. rewrite Hres, debit_nth, debit_length. unfold required_total. cbn.
      destruct (decide (k < ResourceIndex_MAX
                        /\ k < length (dynamic_resources state))%nat); lia.
    + destruct (IH state a (kept ++ [node]))
        as (assigned & started & Heff & Hstart & Havail & Hexec & Hsub & Hsub'
            & Hperm & Hres).
      cbv zeta in Heff, Hstart, Havail, Hexec, Hsub, Hsub', Hperm, Hres.
      exists assigned, started. rewrite <- app_assoc in Hsub, Hperm.
      repeat split; try done. by apply sublist_cons.
Qed.

(** ** Nodes and iterators *)

Lemma node_unique (queue : list (Cursor * TaskQueueEntry)) (it : Cursor)
    (e1 e2 : TaskQueueEntry) :
  NoDup queue.*1 -> (it, e1) ∈ queue -> (it, e2) ∈ queue -> e1 = e2.
Proof.
  induction queue as [|[c e] queue IH]; intros Hnodup H1 H2;
    [by apply elem_of_nil in H1|].
  cbn in Hnodup. apply NoDup_cons in Hnodup as [Hc Hnodup].
  apply elem_of_cons in H1 as [H1|H1]; apply elem_of_cons in H2 as [H2|H2];
    simplify_eq; auto.
  - destruct Hc. by apply (list_elem_of_fmap_2 fst _ (c, e2)).
  - destruct Hc. by apply (list_elem_of_fmap_2 fst _ (c, e1)).
Qed.

Lemma deref_elem_of (queue : list (Cursor * TaskQueueEntry)) (it : Cursor)
    (entry : TaskQueueEntry) :
  NoDup queue.*1 -> (it, entry) ∈ queue -> deref queue it = Ok entry.
Proof.
  intros Hnodup Hin. unfold deref.
  destruct (list_find_elem_of (fun node : Cursor * TaskQueueEntry => node.1 = it)
              queue (it, entry) Hin eq_refl) as [[i [c e]] Hfind].
  rewrite Hfind. apply list_find_Some in Hfind as (Hi & Hc & _). cbn in Hc. subst c.
  apply list_elem_of_lookup_2 in Hi. cbn. f_equal. by eapply node_unique.
Qed.

Lemma filter_all {A : Type} (P : A -> Prop) `{!forall x, Decision (P x)} (l : list A) :
  (forall x, x ∈ l -> P x) -> filter P l = l.
Proof.
  induction l as [|x l IH]; intros Hall; [done|].
  rewrite filter_cons, decide_True by (apply Hall; by left).
  f_equal. apply IH. intros y Hy. apply Hall. by right.
Qed.

Lemma erase_filter (queue : list (Cursor * TaskQueueEntry)) (it : Cursor) :
  NoDup queue.*1 -> erase queue it = filter (fun node => node.1 <> it) queue.
Proof.
  unfold erase. induction queue as [|[c e] queue IH]; intros Hnodup; [done|].
  cbn in Hnodup. apply NoDup_cons in Hnodup as [Hc Hnodup].
  rewrite filter_cons. cbn [list_find fst].
  destruct (decide (c = it)) as [->|Hne].
  - rewrite decide_False by (by intros []). cbn.
    symmetry. apply filter_all.
    intros node Hnode Heq. apply Hc. rewrite <- Heq. by apply list_elem_of_fmap_2.
  - rewrite decide_True by done. specialize (IH Hnodup).
    destruct (list_find _ queue) as [[i found]|]; cbn; by rewrite <- IH.
Qed.

Lemma elem_of_erase (queue : list (Cursor * TaskQueueEntry)) (it : Cursor)
    (node : Cursor * TaskQueueEntry) :
  NoDup queue.*1 -> node ∈ erase queue it <-> node ∈ queue /\ node.1 <> it.
Proof.
  intros Hnodup. rewrite erase_filter by done. rewrite list_elem_of_filter. tauto.
Qed.

Lemma erase_sublist (queue : list (Cursor * TaskQueueEntry)) (it : Cursor) :
  NoDup queue.*1 -> sublist (erase queue it) queue.
Proof. intros Hnodup. rewrite erase_filter by done. apply sublist_filter. Qed.

Lemma sublist_nodes_unique (queue queue' : list (Cursor * TaskQueueEntry)) :
  sublist queue' queue -> NoDup queue.*1 -> NoDup queue'.*1.
Proof.
  intros Hsub Hnodup. eapply sublist_NoDup; [exact Hnodup|]. by apply fmap_sublist.
Qed.

(** ** Promotion of the tasks that waited for an object *)

Lemma can_run_monotone (a a' : SchedulingAlgorithmState) (s : TaskSpec) :
  (forall id, takes s id -> is_Some (local_objects a !! id) ->
              is_Some (local_objects a' !! id)) ->
  can_run a s = true -> can_run a' s = true.
Proof. rewrite !can_run_iff. intros Hmono H id Hid. apply Hmono; auto. Qed.

Lemma promote_dependent_step (a a1 : SchedulingAlgorithmState) (it : Cursor) :
  NoDup (waiting_task_queue a).*1 ->
  promote_dependent a it = Ok a1 ->
  local_objects a1 = local_objects a
  /\ remote_objects a1 = remote_objects a
  /\ (next_node a <= next_node a1)%nat
  /\ sublist (waiting_task_queue a1) (waiting_task_queue a)
  /\ (forall node, node ∈ waiting_task_queue a1
                   <-> node ∈ waiting_task_queue a
                       /\ ~ (node.1 = it /\ can_run a (spec node.2) = true))
  /\ (forall node, node ∈ dispatch_task_queue a1 ->
                   node ∈ dispatch_task_queue a \/ can_run a (spec node.2) = true).
Proof.
  intros Hnodup. rewrite promote_dependent_eq. intros H.
  apply bind_Ok in H as (entry & Hentry%deref_Ok & H).
  assert (Hsame : forall node, node ∈ waiting_task_queue a -> node.1 = it ->
                               node = (it, entry)).
  { intros [c e] Hnode Hc. cbn in Hc. subst c. f_equal. by eapply node_unique. }
  destruct (can_run a (spec entry)) eqn:Hcan.
  - cbn in H. injection H as <-. cbn.
    split; [done|]. split; [done|]. split; [lia|].
    split; [by apply erase_sublist|]. split.
    + intros node. rewrite elem_of_erase by done. split.
      * intros [Hnode Hne]. split; [done|]. by intros [? _].
      * intros [Hnode Hno]. split; [done|]. intros Heq. apply Hno. split; [done|].
        by rewrite (Hsame node Hnode Heq).
    + intros node [Hnode|Hnode%list_elem_of_singleton]%elem_of_app; [by left|].
      right. by subst node.
  - injection H as <-. split; [done|]. split; [done|]. split; [lia|].
    split; [done|]. split; [|by left].
    intros node. split; [|tauto]. intros Hnode. split; [done|].
    intros [Heq Hyes]. rewrite (Hsame node Hnode Heq) in Hyes. cbn in Hyes. congruence.
Qed.

(** The loop of [handle_object_available]: the waiting queue loses the nodes
    of the listed iterators whose tasks can run, and the dispatch queue gains
    only tasks that can run. *)
Lemma promote_dependents_spec (deps : list Cursor) :
  forall a a',
    NoDup (waiting_task_queue a).*1 ->
    for_each promote_dependent a deps = Ok a' ->
    local_objects a' = local_objects a
    /\ remote_objects a' = remote_objects a
    /\ (next_node a <= next_node a')%nat
    /\ sublist (waiting_task_queue a') (waiting_task_queue a)
    /\ (forall node, node ∈ waiting_task_queue a'
                     <-> node ∈ waiting_task_queue a
                         /\ ~ (node.1 ∈ deps /\ can_run a (spec node.2) = true))
    /\ (forall node, node ∈ dispatch_task_queue a' ->
                     node ∈ dispatch_task_queue a \/ can_run a (spec node.2) = true).
Proof.
  induction deps as [|it deps IH]; intros a a' Hnodup Hrun.
  - injection Hrun as <-.
    split; [done|]. split; [done|]. split; [lia|]. split; [done|]. split; [|by left].
    intros node. split; [|tauto]. intros Hnode. split; [done|].
    intros [Hin _]. by apply elem_of_nil in Hin.
  - cbn [for_each] in Hrun. apply bind_Ok in Hrun as (a1 & Hstep & Hrun).
    apply promote_dependent_step in Hstep
      as (Hlocal1 & Hremote1 & Hnext1 & Hsub1 & Hwaiting1 & Hdispatch1); [|done].
    apply IH in Hrun as (Hlocal & Hremote & Hnext & Hsub & Hwaiting & Hdispatch);
      [|by eapply sublist_nodes_unique].
    assert (Hcan : forall s, can_run a1 s = can_run a s)
      by (intros s0; apply can_run_same_objects; intros id; by rewrite Hlocal1).
    split; [congruence|]. split; [congruence|]. split; [lia|].
    split; [by etrans|]. split.
    + intros node. rewrite Hwaiting, Hwaiting1, Hcan, elem_of_cons. tauto.
    + intros node Hnode. destruct (Hdispatch node Hnode) as [Hold|Hyes].
      * by apply Hdispatch1.
      * right. by rewrite <- Hcan.
Qed.

(** ** Consistency of the queues with the object tables *)

(** A step that leaves the waiting queue and the tables alone and brings only
    runnable tasks to the dispatch queue. *)
Lemma queues_consistent_dispatch (a a' : SchedulingAlgorithmState) :
  waiting_task_queue a' = waiting_task_queue a ->
  (next_node a <= next_node a')%nat ->
  local_objects a' = local_objects a ->
  remote_objects a' = remote_objects a ->
  (forall node, node ∈ dispatch_task_queue a' ->
                node ∈ dispatch_task_queue a \/ can_run a (spec node.2) = true) ->
  queues_consistent a -> queues_consistent a'.
Proof.
  intros Hw Hn Hl Hr Hd [[Hnodup Halloc] Htables Hdeps Hreg Hblocked Hready].
  assert (Hcan : forall s, can_run a' s = can_run a s)
    by (intros s0; apply can_run_same_objects; intros id; by rewrite Hl).
  split.
  - split; rewrite Hw; [done|]. intros node Hnode. specialize (Halloc node Hnode). lia.
  - intros id. rewrite Hl, Hr. apply Htables.
  - intros id entry. rewrite Hr, Hw. apply Hdeps.
  - intros it node id. rewrite Hw, Hl, Hr. apply Hreg.
  - intros node. rewrite Hw, Hcan. apply Hblocked.
  - intros node Hnode. rewrite Hcan. destruct (Hd node Hnode); auto.
Qed.

Lemma dispatch_tasks_sublist (state : LocalSchedulerState)
    (a : SchedulingAlgorithmState) :
  sublist (dispatch_task_queue (dispatch_tasks state a).2) (dispatch_task_queue a).
Proof.
  destruct (dispatch_tasks_loop_trace (dispatch_task_queue a) state a [])
    as (assigned & started & _ & _ & _ & _ & Hsub & _).
  exact Hsub.
Qed.

Lemma dispatch_tasks_consistent (state : LocalSchedulerState)
    (a : SchedulingAlgorithmState) :
  queues_consistent a -> queues_consistent (dispatch_tasks state a).2.
Proof.
  pose proof (dispatch_tasks_loop_tables (dispatch_task_queue a) state a [])
    as (Hw & Hn & Hl & Hr).
  cbv zeta in Hw, Hn, Hl, Hr. fold (dispatch_tasks state a) in Hw, Hn, Hl, Hr.
  apply queues_consistent_dispatch; try done; [lia|].
  intros node Hnode. left.
  eapply elem_of_sublist; [exact Hnode|apply dispatch_tasks_sublist].
Qed.

(** [handle_object_available] in steps: the entry moves from the remote to
    the local table, the dependent tasks are visited, and [dispatch_tasks]
    runs if there was one. *)
Lemma handle_object_available_steps (state state' : LocalSchedulerState)
    (a a' : SchedulingAlgorithmState) (id : ObjectID) :
  handle_object_available state a id = Ok (state', a') ->
  let found := remote_objects a !! id in
  let deps := from_option dependent_tasks [] found in
  let a0 :=
    set_local_objects
      (set_remote_objects a (delete id (remote_objects a)))
      (<[id := default {| object_id := id; dependent_tasks := [] |} found]>
         (local_objects a)) in
  local_objects a !! id = None
  /\ exists a1,
       for_each promote_dependent a0 deps = Ok a1
       /\ (state', a')
          = if decide (deps = []) then (state, a1) else dispatch_tasks state a1.
Proof.
  unfold handle_object_available. intros H. cbv zeta.
  destruct (remote_objects a !! id) as [found|] eqn:Hfound;
    cbn [from_option Datatypes.id].
  - apply bind_Ok in H as (_ & Hlocal%CHECK_Ok%bool_decide_eq_true & H).
    cbn in Hlocal. split; [done|].
    destruct (decide (dependent_tasks found = [])) as [Hnil|Hsome].
    + rewrite bool_decide_eq_true_2 in H by done. cbn in H. injection H as <- <-.
      rewrite Hnil. by eexists.
    + rewrite bool_decide_eq_false_2 in H by done. cbn [negb] in H.
      apply bind_Ok in H as (a1 & Hloop & H). exists a1. split; [done|].
      destruct (dispatch_tasks state a1). by simplify_eq.
  - apply bind_Ok in H as (_ & Hlocal%CHECK_Ok%bool_decide_eq_true & H).
    split; [done|]. cbn in H. injection H as <- <-.
    rewrite (delete_id (remote_objects a)) by done.
    rewrite set_remote_objects_id. by eexists.
Qed.

(** The state in which [handle_object_available] ends, or on which it runs
    [dispatch_tasks], is consistent. *)
Lemma handle_object_available_promoted (state state' : LocalSchedulerState)
    (a a' : SchedulingAlgorithmState) (id : ObjectID) :
  queues_consistent a ->
  handle_object_available state a id = Ok (state', a') ->
  exists a1,
    queues_consistent a1
    /\ ((state', a') = (state, a1) \/ (state', a') = dispatch_tasks state a1).
Proof.
  intros [[Hnodup Halloc] Htables Hdeps Hreg Hblocked Hready] H.
  apply handle_object_available_steps in H as (Hlocal & a1 & Hloop & H).
  cbv zeta in Hloop, H.
  set (a0 := set_local_objects _ _) in Hloop.
  set (deps := from_option dependent_tasks [] (remote_objects a !! id)) in *.
  apply promote_dependents_spec in Hloop
    as (Hlocal1 & Hremote1 & Hnext1 & Hsub1 & Hwaiting1 & Hdispatch1); [|done].
  cbn in Hlocal1, Hremote1, Hnext1, Hsub1, Hwaiting1, Hdispatch1.
  assert (Hgrow : forall s, can_run a s = true -> can_run a0 s = true).
  { intros s0. apply can_run_monotone. intros id' _ [entry Hentry]. cbn.
    destruct (decide (id = id')) as [->|Hne]; [congruence|].
    rewrite lookup_insert_ne by done. by eexists. }
  assert (Hcan1 : forall s, can_run a1 s = can_run a0 s)
    by (intros s0; apply can_run_same_objects; intros id'; by rewrite Hlocal1).
  assert (Hother : forall s id', takes s id' -> can_run a0 s = true -> id' <> id ->
                                 is_Some (local_objects a !! id')).
  { intros s0 id' Htakes Hcan Hne. rewrite can_run_iff in Hcan.
    specialize (Hcan id' Htakes). cbn in Hcan. by rewrite lookup_insert_ne in Hcan. }
  assert (Hconsistent : queues_consistent a1).
  { split.
    - split; [by eapply sublist_nodes_unique|].
      intros node Hnode%Hwaiting1. destruct Hnode as [Hnode _].
      specialize (Halloc node Hnode). lia.
    - intros id'. rewrite Hlocal1, Hremote1. cbn.
      destruct (decide (id = id')) as [->|Hne]; [right; apply lookup_delete_eq|].
      rewrite lookup_insert_ne, lookup_delete_ne by done. apply Htables.
    - intros id' entry. rewrite Hremote1. cbn. intros Hentry.
      destruct (decide (id = id')) as [->|Hne];
        [by rewrite lookup_delete_eq in Hentry|].
      rewrite lookup_delete_ne in Hentry by done.
      destruct (Hdeps id' entry Hentry) as (Hkey & Hsome & Hnodes).
      split; [done|]. split; [done|].
      intros it Hit. destruct (Hnodes it Hit) as (node & Hnode & Htakes).
      exists node. split; [|done]. apply Hwaiting1. split; [done|].
      intros [_ Hcan]. cbn in Hcan.
      destruct (Hother _ _ Htakes Hcan ltac:(done)) as [e He].
      destruct (Htables id'); congruence.
    - intros it node id' Hnode%Hwaiting1 Htakes. destruct Hnode as [Hnode _].
      rewrite Hlocal1, Hremote1. cbn. intros Hnone.
      destruct (decide (id = id')) as [->|Hne];
        [by rewrite lookup_insert_eq in Hnone|].
      rewrite lookup_insert_ne in Hnone by done. rewrite lookup_delete_ne by done.
      by eapply Hreg.
    - intros node Hnode%Hwaiting1. destruct Hnode as [Hnode Hkept].
      rewrite Hcan1. destruct (can_run a0 (spec node.2)) eqn:Hcan; [|done].
      exfalso. apply Hkept. split; [|done].
      pose proof (Hblocked node Hnode) as Hno.
      apply can_run_false_iff in Hno as (id' & Htakes & Hnone).
      destruct (decide (id' = id)) as [->|Hne].
      + destruct node as [it entry].
        destruct (Hreg it entry id Hnode Htakes Hnone) as (found & Hfound & Hit).
        unfold deps. by rewrite Hfound.
      + destruct (Hother _ _ Htakes Hcan Hne) as [e He]. congruence.
    - intros node Hnode. rewrite Hcan1.
      destruct (Hdispatch1 node Hnode) as [Hold|Hyes]; [|done].
      by apply Hgrow, Hready. }
  exists a1. split; [done|]. destruct (decide (deps = [])); auto.
Qed.

Lemma handle_object_available_consistent (state state' : LocalSchedulerState)
    (a a' : SchedulingAlgorithmState) (id : ObjectID) :
  queues_consistent a ->
  handle_object_available state a id = Ok (state', a') ->
  queues_consistent a'.
Proof.
  intros Hconsistent H.
  destruct (handle_object_available_promoted _ _ _ _ _ Hconsistent H)
    as (a1 & Ha1 & [Heq|Heq]).
  - by injection Heq as _ ->.
  - replace a' with (dispatch_tasks state a1).2 by (by rewrite <- Heq).
    by apply dispatch_tasks_consistent.
Qed.

(** ** Registration of the missing dependencies *)

Lemma fetch_missing_dependency_spec (state : LocalSchedulerState)
    (a : SchedulingAlgorithmState) (it : Cursor) (id : ObjectID) :
  let r := fetch_missing_dependency state a it id in
  waiting_task_queue r.2 = waiting_task_queue a
  /\ dispatch_task_queue r.2 = dispatch_task_queue a
  /\ next_node r.2 = next_node a
  /\ local_objects r.2 = local_objects a
  /\ remote_objects r.2
     = <[id := {| object_id := from_option object_id id (remote_objects a !! id);
                  dependent_tasks :=
                    from_option dependent_tasks [] (remote_objects a !! id) ++ [it] |}]>
         (remote_objects a).
Proof.
  unfold fetch_missing_dependency.
  destruct (remote_objects a !! id) as [entry|] eqn:Hentry; cbn.
  - repeat split. by rewrite (alter_Some _ _ _ _ Hentry).
  - repeat split. erewrite alter_Some by apply lookup_insert_eq.
    by rewrite insert_insert_eq.
Qed.

(** Registering one iterator with the objects [ids], one after the other:
    each of these objects has an entry afterwards, which ends with the
    iterator; the other entries are untouched. *)
Lemma fetch_dependencies_spec (it : Cursor) (ids : list ObjectID) :
  forall state a,
    let r := foldl (fun '(state, a) id => fetch_missing_dependency state a it id)
                   (state, a) ids in
    waiting_task_queue r.2 = waiting_task_queue a
    /\ dispatch_task_queue r.2 = dispatch_task_queue a
    /\ next_node r.2 = next_node a
    /\ local_objects r.2 = local_objects a
    /\ (forall id, id ∉ ids -> remote_objects r.2 !! id = remote_objects a !! id)
    /\ (forall id, id ∈ ids ->
          exists entry k,
            remote_objects r.2 !! id = Some entry
            /\ object_id entry = from_option object_id id (remote_objects a !! id)
            /\ dependent_tasks entry
               = from_option dependent_tasks [] (remote_objects a !! id)
                 ++ replicate (S k) it).
Proof.
  induction ids as [|id0 ids IH]; intros state a; cbv zeta.
  - cbn. repeat split; try done. intros id Hid. by apply elem_of_nil in Hid.
  - cbn [foldl].
    pose proof (fetch_missing_dependency_spec state a it id0)
      as (Hw0 & Hd0 & Hn0 & Hl0 & Hr0).
    destruct (fetch_missing_dependency state a it id0) as [state1 a1].
    cbn in Hw0, Hd0, Hn0, Hl0, Hr0.
    destruct (IH state1 a1) as (Hw & Hd & Hn & Hl & Hout & Hin).
    cbv zeta in Hw, Hd, Hn, Hl, Hout, Hin.
    split; [congruence|]. split; [congruence|]. split; [congruence|].
    split; [congruence|]. split.
    + intros id [Hne Hid]%not_elem_of_cons.
      rewrite Hout, Hr0 by done. by rewrite lookup_insert_ne.
    + intros id Hid.
      destruct (decide (id ∈ ids)) as [Hlater|Hnot].
      * destruct (Hin id Hlater) as (entry & k & Hentry & Hkey & Hdeps).
        rewrite Hr0 in Hkey, Hdeps.
        destruct (decide (id0 = id)) as [->|Hne].
        -- rewrite lookup_insert_eq in Hkey, Hdeps. cbn in Hkey, Hdeps.
           exists entry, (S k). split; [done|]. split; [done|].
           rewrite Hdeps, <- app_assoc. done.
        -- rewrite lookup_insert_ne in Hkey, Hdeps by done. by exists entry, k.
      * apply elem_of_cons in Hid as [->|Hid]; [|done].
        rewrite Hout, Hr0, lookup_insert_eq by done.
        eexists _, 0%nat. split; [done|]. by split.
Qed.

(** The loop of [fetch_missing_dependencies] registers the iterator with the
    objects at the missing positions and counts them. *)
Lemma fetch_missing_positions (task : TaskSpec) (it : Cursor) (indices : list nat) :
  forall state a n,
    foldl (fun '(state, algorithm_state, num_missing_dependencies) i =>
             if TaskSpec_arg_by_ref task i then
               let obj_id := TaskSpec_arg_id task i in
               if bool_decide (local_objects algorithm_state !! obj_id = None) then
                 let '(state, algorithm_state) :=
                   fetch_missing_dependency state algorithm_state it obj_id in
                 (state, algorithm_state, num_missing_dependencies + 1)
               else (state, algorithm_state, num_missing_dependencies)
             else (state, algorithm_state, num_missing_dependencies))
          (state, a, n) indices
    = let missing :=
        filter (fun i => TaskSpec_arg_by_ref task i = true
                         /\ local_objects a !! TaskSpec_arg_id task i = None)
               indices in
      let r := foldl (fun '(state, a) id => fetch_missing_dependency state a it id)
                     (state, a) (map (TaskSpec_arg_id task) missing) in
      (r.1, r.2, n + Z.of_nat (length missing)).
Proof.
  induction indices as [|i indices IH]; intros state a n; cbv zeta.
  - cbn. f_equal. lia.
  - cbn [foldl]. rewrite filter_cons.
    destruct (TaskSpec_arg_by_ref task i) eqn:Href.
    2:{ rewrite decide_False by (by intros [? _]). apply IH. }
    cbv zeta.
    destruct (local_objects a !! TaskSpec_arg_id task i) as [entry|] eqn:Hlocal.
    { rewrite bool_decide_eq_false_2 by done.
      rewrite decide_False by (by intros [_ ?]). apply IH. }
    rewrite bool_decide_eq_true_2 by done. rewrite decide_True by done.
    pose proof (fetch_missing_dependency_spec state a it (TaskSpec_arg_id task i))
      as (_ & _ & _ & Hl & _).
    destruct (fetch_missing_dependency state a it (TaskSpec_arg_id task i))
      as [state1 a1] eqn:Hstep.
    cbn in Hl. rewrite IH. cbv zeta. cbn [map foldl length]. rewrite Hstep, Hl.
    f_equal. lia.
Qed.

Lemma fetch_missing_dependencies_spec (state : LocalSchedulerState)
    (a : SchedulingAlgorithmState) (it : Cursor) (entry : TaskQueueEntry) :
  deref (waiting_task_queue a) it = Ok entry ->
  fetch_missing_dependencies state a it
  = if decide (missing_dependencies a (spec entry) = [])
    then Fatal
    else Ok (foldl (fun '(state, a) id => fetch_missing_dependency state a it id)
                   (state, a) (missing_dependencies a (spec entry))).
Proof.
  intros Hentry. unfold fetch_missing_dependencies. rewrite Hentry.
  cbn [mbind result_bind]. rewrite fetch_missing_positions. cbv zeta.
  fold (missing_positions a (spec entry)).
  fold (missing_dependencies a (spec entry)).
  destruct (foldl _ (state, a) (missing_dependencies a (spec entry))) as [state1 a1].
  cbn [fst snd]. unfold missing_dependencies.
  destruct (missing_positions a (spec entry)) as [|i missing]; cbn; [done|].
  rewrite decide_False by done.
  replace (0 + Z.pos (Pos.of_succ_nat (length missing)) >? 0) with true
    by (symmetry; apply Z.gtb_lt; lia).
  done.
Qed.

(** ** Queueing a task *)

Lemma queue_dispatch_task_consistent (state : LocalSchedulerState)
    (a : SchedulingAlgorithmState) (s : TaskSpec) (size : Z) (g : bool) :
  can_run a s = true ->
  queues_consistent a ->
  queues_consistent (queue_dispatch_task state a s size g).2.
Proof.
  intros Hcan. apply queues_consistent_dispatch; cbn; try done; [lia|].
  intros node [Hnode|Hnode%list_elem_of_singleton]%elem_of_app; [by left|].
  right. by subst node.
Qed.

(** A task that misses an object is appended to the waiting queue and
    registered with each object it misses; this cannot fail. *)
Lemma queue_waiting_task_consistent (state : LocalSchedulerState)
    (a : SchedulingAlgorithmState) (s : TaskSpec) (size : Z) (g : bool) :
  can_run a s = false ->
  queues_consistent a ->
  exists state' a',
    queue_waiting_task state a s size g = Ok (state', a')
    /\ queues_consistent a'
    /\ waiting_task_queue a'
       = waiting_task_queue a ++ [(next_node a, TaskQueueEntry_init s size)]
    /\ dispatch_task_queue a' = dispatch_task_queue a.
Proof.
  intros Hcan [[Hnodup Halloc] Htables Hdeps Hreg Hblocked Hready].
  unfold queue_waiting_task, queue_task, push_back. cbn.
  set (n := next_node a). set (entry := TaskQueueEntry_init s size).
  assert (Hfresh : n ∉ (waiting_task_queue a).*1).
  { intros (node & Heq & Hnode%Halloc)%list_elem_of_fmap.
    unfold n in Heq. rewrite Heq in Hnode. exact (Nat.lt_irrefl _ Hnode). }
  erewrite fetch_missing_dependencies_spec
    by (cbn; rewrite deref_app_r by done; apply deref_head).
  cbn [spec entry TaskQueueEntry_init].
  set (a0 := set_waiting _ _).
  set (ids := missing_dependencies a0 s).
  assert (Hmissing : forall id, id ∈ ids <-> takes s id /\ local_objects a !! id = None)
    by (intros id; exact (elem_of_missing_dependencies a0 s id)).
  apply can_run_false_iff in Hcan as Hsome. destruct Hsome as (id0 & Htakes0 & Hnone0).
  rewrite decide_False
    by (intros Hnil; assert (Hin : id0 ∈ ids) by (by apply Hmissing);
        rewrite Hnil in Hin; by apply elem_of_nil in Hin).
  pose proof (fetch_dependencies_spec n ids (task_table_write_queued state s size g) a0)
    as (Hw & Hd & Hn & Hl & Hout & Hin).
  cbv zeta in Hw, Hd, Hn, Hl, Hout, Hin.
  destruct (foldl _ _ ids) as [state' a'].
  cbn [fst snd] in Hw, Hd, Hn, Hl, Hout, Hin.
  change (waiting_task_queue a0) with (waiting_task_queue a ++ [(n, entry)]) in Hw.
  change (dispatch_task_queue a0) with (dispatch_task_queue a) in Hd.
  change (next_node a0) with (S n) in Hn.
  change (local_objects a0) with (local_objects a) in Hl.
  change (remote_objects a0) with (remote_objects a) in Hout, Hin.
  exists state', a'. split; [done|]. split; [|by split].
  assert (Hcan' : forall s0, can_run a' s0 = can_run a s0)
    by (intros s0; apply can_run_same_objects; intros id; by rewrite Hl).
  split.
  - split.
    + rewrite Hw, fmap_app. cbn. apply NoDup_app. split; [done|].
      split; [|apply NoDup_singleton].
      intros c Hc Heq%list_elem_of_singleton. by subst c.
    + intros node. rewrite Hw, Hn.
      intros [Hnode%Halloc|Hnode%list_elem_of_singleton]%elem_of_app; [lia|].
      subst node. cbn. lia.
  - intros id. rewrite Hl.
    destruct (decide (id ∈ ids)) as [Hid|Hid].
    + left. by apply Hmissing.
    + rewrite Hout by done. apply Htables.
  - intros id e'. rewrite Hw.
    destruct (decide (id ∈ ids)) as [Hid|Hid].
    + destruct (Hin id Hid) as (e & k & He & Hkey & Hlist).
      intros He'. assert (e' = e) by congruence. subst e'.
      apply Hmissing in Hid as [Htakes Hnone].
      destruct (remote_objects a !! id) as [old|] eqn:Hold;
        cbn [from_option] in Hkey, Hlist.
      * destruct (Hdeps id old Hold) as (Hkey0 & Hsome0 & Hnodes0).
        split; [congruence|].
        split; [rewrite Hlist; by destruct (dependent_tasks old)|].
        intros it. rewrite Hlist.
        intros [Hit|Hit%elem_of_replicate_inv]%elem_of_app.
        -- destruct (Hnodes0 it Hit) as (node & Hnode & Htakes').
           exists node. split; [apply elem_of_app; by left|done].
        -- subst it. exists entry. split; [|done].
           apply elem_of_app. right. by apply list_elem_of_singleton.
      * split; [done|]. split; [by rewrite Hlist|].
        intros it. rewrite Hlist. cbn [app].
        intros Hit%elem_of_replicate_inv. subst it.
        exists entry. split; [|done].
        apply elem_of_app. right. by apply list_elem_of_singleton.
    + rewrite Hout by done. intros Hold.
      destruct (Hdeps id e' Hold) as (Hkey0 & Hsome0 & Hnodes0).
      split; [done|]. split; [done|].
      intros it Hit. destruct (Hnodes0 it Hit) as (node & Hnode & Htakes').
      exists node. split; [apply elem_of_app; by left|done].
  - intros it node id. rewrite Hw, Hl.
    intros [Hnode|Hnode%list_elem_of_singleton]%elem_of_app Htakes Hnone.
    + destruct (Hreg it node id Hnode Htakes Hnone) as (old & Hold & Hit).
      destruct (decide (id ∈ ids)) as [Hid|Hid].
      * destruct (Hin id Hid) as (e & k & He & _ & Hlist).
        rewrite Hold in Hlist. cbn [from_option] in Hlist.
        exists e. split; [done|]. rewrite Hlist. apply elem_of_app. by left.
      * exists old. by rewrite Hout.
    + injection Hnode as -> ->.
      assert (Hid : id ∈ ids) by (by apply Hmissing).
      destruct (Hin id Hid) as (e & k & He & _ & Hlist).
      exists e. split; [done|]. rewrite Hlist. apply elem_of_app. right.
      cbn. by left.
  - intros node. rewrite Hw, Hcan'.
    intros [Hnode|Hnode%list_elem_of_singleton]%elem_of_app; [by apply Hblocked|].
    subst node. cbn. apply can_run_false_iff. eauto.
  - intros node. rewrite Hd, Hcan'. apply Hready.
Qed.

(** Queueing a task locally cannot fail: the task goes to the tail of the
    dispatch queue if it can run and to the tail of the waiting queue if not. *)
Lemma queue_task_locally_consistent (state : LocalSchedulerState)
    (a : SchedulingAlgorithmState) (s : TaskSpec) (size : Z) (g : bool) :
  queues_consistent a ->
  exists state' a',
    queue_task_locally state a s size g = Ok (state', a')
    /\ queues_consistent a'
    /\ (if can_run a s
        then dispatch_task_queue a'
             = dispatch_task_queue a ++ [(next_node a, TaskQueueEntry_init s size)]
             /\ waiting_task_queue a' = waiting_task_queue a
        else waiting_task_queue a'
             = waiting_task_queue a ++ [(next_node a, TaskQueueEntry_init s size)]
             /\ dispatch_task_queue a' = dispatch_task_queue a).
Proof.
  intros Hconsistent. unfold queue_task_locally.
  destruct (can_run a s) eqn:Hcan.
  - eexists _, _. split; [by rewrite <- surjective_pairing|].
    split; [by apply queue_dispatch_task_consistent|]. by cbn.
  - by apply queue_waiting_task_consistent.
Qed.

(** ** Removal of an object *)

Lemma elem_of_mentions (id : ObjectID) (queue : list (Cursor * TaskQueueEntry))
    (it : Cursor) :
  it ∈ mentions id queue
  <-> exists entry, (it, entry) ∈ queue /\ takes (spec entry) id.
Proof.
  unfold mentions. rewrite list_elem_of_In, in_flat_map. split.
  - intros ([c entry] & Hnode%list_elem_of_In & Hit%list_elem_of_In).
    cbn in Hit. apply elem_of_replicate in Hit as [-> Hsome].
    exists entry. split; [done|].
    apply is_dependent_on_iff.
    apply (depends_on_occurrences id (c, entry)). cbn. lia.
  - intros (entry & Hnode & Htakes). exists (it, entry).
    split; [by apply list_elem_of_In|]. apply list_elem_of_In. cbn.
    apply elem_of_replicate. split; [done|].
    apply is_dependent_on_iff in Htakes.
    apply (depends_on_occurrences id (it, entry)) in Htakes. cbn in Htakes. lia.
Qed.

(** [handle_object_removed] on an object that is local and not listed as
    remote: the tasks of the dispatch queue that take it go to the tail of the
    waiting queue as fresh nodes, and the object is listed as remote with the
    waiting tasks that take it, if there is one. *)
Lemma handle_object_removed_spec (state : LocalSchedulerState)
    (a : SchedulingAlgorithmState) (id : ObjectID) :
  is_Some (local_objects a !! id) ->
  remote_objects a !! id = None ->
  let moved := filter (depends_on id) (dispatch_task_queue a) in
  let stay := filter (fun node => ~ depends_on id node) (dispatch_task_queue a) in
  let waiting' := waiting_task_queue a ++ renumber (next_node a) moved in
  let b :=
    set_dispatch
      (set_waiting
         (set_next_node (set_local_objects a (delete id (local_objects a)))
            (next_node a + length moved)%nat)
         waiting')
      stay in
  handle_object_removed state a id
  = Ok (match mentions id waiting' with
        | [] => (state, b)
        | cursors =>
            (if plasma_connected state then emit state (PlasmaFetch [id]) else state,
             set_remote_objects b
               (<[id := {| object_id := id; dependent_tasks := cursors |}]>
                  (remote_objects a)))
        end).
Proof.
  intros Hlocal Hremote. cbv zeta. unfold handle_object_removed.
  rewrite bool_decide_eq_true_2 by done. cbn [CHECK mbind result_bind].
  rewrite requeue_dependent_tasks_spec, register_mentions.
  cbn [waiting_task_queue set_dispatch set_waiting set_next_node set_local_objects
       next_node dispatch_task_queue app].
  destruct (mentions id _) as [|it cursors]; [done|].
  by rewrite fetch_unregistered.
Qed.

Lemma handle_object_removed_consistent (state state' : LocalSchedulerState)
    (a a' : SchedulingAlgorithmState) (id : ObjectID) :
  queues_consistent a ->
  handle_object_removed state a id = Ok (state', a') ->
  queues_consistent a'.
Proof.
  intros [[Hnodup Halloc] Htables Hdeps Hreg Hblocked Hready] H.
  assert (Hlocal : is_Some (local_objects a !! id)).
  { unfold handle_object_removed in H.
    by apply bind_Ok in H as (_ & Hlocal%CHECK_Ok%bool_decide_eq_true & _). }
  assert (Hremote : remote_objects a !! id = None).
  { destruct (Htables id) as [Hnone|Hnone]; [|done].
    destruct Hlocal as [e He]. congruence. }
  rewrite handle_object_removed_spec in H by done. cbv zeta in H.
  set (moved := filter (depends_on id) (dispatch_task_queue a)) in H.
  set (stay := filter (fun node => ~ depends_on id node) (dispatch_task_queue a)) in H.
  set (later := renumber (next_node a) moved) in H.
  set (cursors := mentions id (waiting_task_queue a ++ later)) in H.
  assert (Hcursors : forall it, it ∈ cursors
            <-> exists entry, (it, entry) ∈ waiting_task_queue a ++ later
                              /\ takes (spec entry) id)
    by (intros it; apply elem_of_mentions).
  assert (Hw : waiting_task_queue a' = waiting_task_queue a ++ later)
    by (destruct cursors; by injection H as _ <-).
  assert (Hd : dispatch_task_queue a' = stay)
    by (destruct cursors; by injection H as _ <-).
  assert (Hn : next_node a' = (next_node a + length moved)%nat)
    by (destruct cursors; by injection H as _ <-).
  assert (Hl : local_objects a' = delete id (local_objects a))
    by (destruct cursors; by injection H as _ <-).
  assert (Hr : forall id', id' <> id -> remote_objects a' !! id' = remote_objects a !! id').
  { intros id' Hne. destruct cursors; injection H as _ <-; cbn; [done|].
    by rewrite lookup_insert_ne. }
  assert (Hr' : remote_objects a' !! id
                = if decide (cursors = []) then None
                  else Some {| object_id := id; dependent_tasks := cursors |}).
  { destruct cursors; injection H as _ <-; cbn; [done|]. by rewrite lookup_insert_eq. }
  clear H.
  assert (Hlater : forall node, node ∈ later ->
            (next_node a <= node.1)%nat
            /\ exists original, original ∈ dispatch_task_queue a
                                /\ depends_on id original /\ node.2 = original.2).
  { intros node Hnode. split.
    - assert (Hkey : node.1 ∈ later.*1) by (by apply list_elem_of_fmap_2).
      unfold later in Hkey. rewrite renumber_keys in Hkey.
      apply elem_of_seq in Hkey. lia.
    - apply elem_of_renumber in Hnode as (original & Horiginal & Heq).
      apply list_elem_of_filter in Horiginal as [Hdep Hin]. eauto. }
  assert (Hlocal' : forall id', id' <> id ->
            local_objects a' !! id' = local_objects a !! id')
    by (intros id' Hne; rewrite Hl; by apply lookup_delete_ne).
  assert (Hgone : local_objects a' !! id = None)
    by (rewrite Hl; apply lookup_delete_eq).
  split.
  - split.
    + rewrite Hw, fmap_app. apply NoDup_app. split; [done|]. split.
      * intros c (old & -> & Hold%Halloc)%list_elem_of_fmap
                 (new & Heq & [Hnew _]%Hlater)%list_elem_of_fmap.
        unfold Cursor in *. lia.
      * unfold later. rewrite renumber_keys. apply NoDup_seq.
    + intros node. rewrite Hw, Hn. intros [Hold%Halloc|Hnew]%elem_of_app; [lia|].
      assert (Hkey : node.1 ∈ later.*1) by (by apply list_elem_of_fmap_2).
      unfold later in Hkey. rewrite renumber_keys in Hkey.
      apply elem_of_seq in Hkey. lia.
  - intros id'. destruct (decide (id' = id)) as [->|Hne]; [by left|].
    rewrite Hlocal', Hr by done. apply Htables.
  - intros id' entry. rewrite Hw. destruct (decide (id' = id)) as [->|Hne].
    + rewrite Hr'. destruct (decide (cursors = [])); [done|].
      intros Hentry. injection Hentry as <-. cbn.
      split; [done|]. split; [done|]. intros it. apply Hcursors.
    + rewrite Hr by done. intros Hentry.
      destruct (Hdeps id' entry Hentry) as (Hkey & Hsome & Hnodes).
      split; [done|]. split; [done|].
      intros it Hit. destruct (Hnodes it Hit) as (node & Hnode & Htakes).
      exists node. split; [apply elem_of_app; by left|done].
  - intros it node id'. rewrite Hw. intros Hnode Htakes Hnone.
    destruct (decide (id' = id)) as [->|Hne].
    + assert (Hit : it ∈ cursors) by (apply Hcursors; eauto).
      rewrite Hr'. rewrite decide_False by (intros Hnil; rewrite Hnil in Hit;
                                            by apply elem_of_nil in Hit).
      by eexists.
    + rewrite Hlocal' in Hnone by done. rewrite Hr by done.
      apply elem_of_app in Hnode as [Hnode|Hnode]; [by eapply Hreg|].
      exfalso. apply Hlater in Hnode as (_ & original & Hin & _ & Heq).
      cbn in Heq. subst node.
      pose proof (Hready original Hin) as Hcan. rewrite can_run_iff in Hcan.
      destruct (Hcan id' Htakes) as [e He]. congruence.
  - intros node. rewrite Hw. intros Hnode. apply can_run_false_iff.
    apply elem_of_app in Hnode as [Hnode|Hnode].
    + pose proof (Hblocked node Hnode) as Hno.
      apply can_run_false_iff in Hno as (id0 & Htakes & Hnone).
      exists id0. split; [done|].
      destruct (decide (id0 = id)) as [->|Hne]; [done|]. by rewrite Hlocal'.
    + apply Hlater in Hnode as (_ & original & _ & Hdep & Heq).
      exists id. split; [|done]. destruct node as [c e], original as [c0 e0].
      cbn in Heq. subst e. by apply is_dependent_on_iff.
  - intros node. rewrite Hd. intros [Hno Hin]%list_elem_of_filter.
    pose proof (Hready node Hin) as Hcan. rewrite can_run_iff in *.
    intros id0 Htakes.
    destruct (decide (id0 = id)) as [->|Hne];
      [destruct Hno; by apply is_dependent_on_iff|].
    rewrite Hlocal' by done. by apply Hcan.
Qed.

(** ** Removal of a driver *)

Lemma elem_of_remove_driver_dependents (waiting : list (Cursor * TaskQueueEntry))
    (driver_id : WorkerID) (deps : list Cursor) :
  forall deps',
    remove_driver_dependents waiting driver_id deps = Ok deps' ->
    forall it, it ∈ deps' <-> it ∈ deps /\ of_other_driver waiting driver_id it.
Proof.
  induction deps as [|it0 deps IH]; intros deps' H it; cbn in H.
  - injection H as <-. split; [by intros ?%elem_of_nil|by intros [?%elem_of_nil _]].
  - apply bind_Ok in H as (node & Hnode & H).
    apply bind_Ok in H as (deps'' & Hrest & H).
    specialize (IH deps'' Hrest it). rewrite elem_of_cons.
    destruct (WorkerID_equal _ driver_id) eqn:Hd; injection H as <-.
    + rewrite IH. split; [tauto|]. intros [[->|Hin] Hother]; [|done].
      destruct Hother as (node' & Hnode' & Hother). congruence.
    + rewrite elem_of_cons, IH. split; [|tauto].
      intros [->|[Hin Hother]]; [|tauto]. split; [by left|]. by exists node.
Qed.

(** The visits of [handle_driver_removed]: a visited entry keeps the
    iterators of the other drivers' tasks and goes if none is left. *)
Lemma visit_remote_objects_spec (waiting : list (Cursor * TaskQueueEntry))
    (driver_id : WorkerID) (visited : list (UniqueID * ObjectEntry)) :
  forall remote remote',
    NoDup visited.*1 ->
    for_each (visit_remote_object waiting driver_id) remote visited = Ok remote' ->
    (forall id, id ∉ visited.*1 -> remote' !! id = remote !! id)
    /\ (forall id entry, (id, entry) ∈ visited ->
          exists deps,
            remove_driver_dependents waiting driver_id (dependent_tasks entry) = Ok deps
            /\ remote' !! id
               = if decide (deps = []) then None
                 else Some {| object_id := object_id entry; dependent_tasks := deps |}).
Proof.
  induction visited as [|[id0 entry0] visited IH]; intros remote remote' Hnodup Hrun.
  - injection Hrun as <-. split; [done|]. intros id entry Hin.
    by apply elem_of_nil in Hin.
  - cbn in Hnodup. apply NoDup_cons in Hnodup as [Hfresh Hnodup].
    cbn [for_each] in Hrun. apply bind_Ok in Hrun as (remote1 & Hvisit & Hrun).
    destruct (IH remote1 remote' Hnodup Hrun) as [Hout Hin].
    cbn in Hvisit. apply bind_Ok in Hvisit as (deps & Hdeps & Hvisit).
    split.
    + intros id Hid. cbn in Hid. apply not_elem_of_cons in Hid as [Hne Hid].
      rewrite (Hout id Hid).
      destruct (bool_decide (length deps = 0%nat)); injection Hvisit as <-.
      * by rewrite lookup_delete_ne.
      * by rewrite lookup_insert_ne.
    + intros id entry [Heq|Hlater]%elem_of_cons; [|by apply Hin].
      injection Heq as -> ->. exists deps. split; [done|].
      rewrite (Hout id0 Hfresh).
      destruct deps as [|it deps]; cbn in Hvisit; injection Hvisit as <-.
      * apply lookup_delete_eq.
      * apply lookup_insert_eq.
Qed.

Lemma handle_driver_removed_consistent (state state' : LocalSchedulerState)
    (a a' : SchedulingAlgorithmState) (driver_id : WorkerID) :
  queues_consistent a ->
  handle_driver_removed state a driver_id = Ok (state', a') ->
  queues_consistent a'.
Proof.
  intros [[Hnodup Halloc] Htables Hdeps Hreg Hblocked Hready] H.
  unfold handle_driver_removed in H.
  apply bind_Ok in H as (remote' & Hvisit & H). injection H as _ <-.
  apply visit_remote_objects_spec in Hvisit as [Hout Hin];
    [|apply NoDup_fst_map_to_list].
  assert (Hkept : forall id e', remote' !! id = Some e' ->
            exists e, remote_objects a !! id = Some e
                      /\ object_id e' = object_id e
                      /\ dependent_tasks e' <> []
                      /\ remove_driver_dependents (waiting_task_queue a) driver_id
                           (dependent_tasks e) = Ok (dependent_tasks e')).
  { intros id e' He'.
    destruct (remote_objects a !! id) as [e|] eqn:He.
    - destruct (Hin id e) as (deps & Hdeps' & Hlookup); [by apply elem_of_map_to_list|].
      rewrite He' in Hlookup. destruct (decide (deps = [])); [done|].
      injection Hlookup as ->. by exists e.
    - rewrite Hout in He' by (by rewrite elem_of_map_to_list_keys, He; intros [? ?]).
      congruence. }
  assert (Hother : forall it node,
            (it, node) ∈ waiting_task_queue a ->
            of_other_driver (waiting_task_queue a) driver_id it
            <-> WorkerID_equal (TaskSpec_driver_id (spec node)) driver_id = false).
  { intros it node Hnode. pose proof (deref_elem_of _ _ _ Hnodup Hnode) as Hderef.
    split.
    - intros (node' & Hnode' & Hd). congruence.
    - intros Hd. by exists node. }
  set (waiting' := remove_driver_tasks driver_id (waiting_task_queue a)).
  assert (Hw : forall node, node ∈ waiting'
            <-> node ∈ waiting_task_queue a
                /\ WorkerID_equal (TaskSpec_driver_id (spec node.2)) driver_id = false).
  { intros node. unfold waiting', remove_driver_tasks.
    rewrite list_elem_of_filter. tauto. }
  split; cbn -[remove_driver_tasks]; fold waiting'.
  - split.
    + eapply sublist_nodes_unique; [apply sublist_filter|done].
    + intros node [Hnode _]%Hw. by apply Halloc.
  - intros id. destruct (Htables id) as [Hnone|Hnone]; [by left|]. right.
    destruct (remote' !! id) as [e'|] eqn:He'; [|done].
    destruct (Hkept id e' He') as (e & He & _). congruence.
  - intros id e' He'. destruct (Hkept id e' He') as (e & He & Hkey & Hsome & Hrun).
    destruct (Hdeps id e He) as (Hkey0 & _ & Hnodes).
    split; [congruence|]. split; [done|].
    intros it Hit.
    apply (elem_of_remove_driver_dependents _ _ _ _ Hrun) in Hit as [Hit Hothers].
    destruct (Hnodes it Hit) as (node & Hnode & Htakes).
    exists node. split; [|done]. apply Hw. split; [done|]. cbn.
    by apply (Hother it node).
  - intros it node id [Hnode Hd]%Hw Htakes Hnone. cbn in Hd.
    destruct (Hreg it node id Hnode Htakes Hnone) as (e & He & Hit).
    destruct (Hin id e) as (deps & Hrun & Hlookup); [by apply elem_of_map_to_list|].
    assert (Hit' : it ∈ deps).
    { apply (elem_of_remove_driver_dependents _ _ _ _ Hrun). split; [done|].
      by apply (Hother it node). }
    rewrite decide_False in Hlookup
      by (intros Hnil; rewrite Hnil in Hit'; by apply elem_of_nil in Hit').
    by eexists.
  - intros node [Hnode _]%Hw. by apply Hblocked.
  - intros node [_ Hnode]%list_elem_of_filter. by apply Hready.
Qed.

(** ** Steps that leave the queues and the tables alone *)

Lemma queues_consistent_preserved (a a' : SchedulingAlgorithmState) :
  queues_preserved a a' -> objects_preserved a a' ->
  queues_consistent a -> queues_consistent a'.
Proof.
  intros (_ & Hd & _) (Hw & Hn & Hl & Hr).
  apply queues_consistent_dispatch; try done; [lia|].
  intros node. rewrite Hd. by left.
Qed.

Lemma objects_preserved_refl (a : SchedulingAlgorithmState) : objects_preserved a a.
Proof. by repeat split. Qed.

Lemma objects_preserved_trans (a b c : SchedulingAlgorithmState) :
  objects_preserved a b -> objects_preserved b c -> objects_preserved a c.
Proof. intros (? & ? & ? & ?) (? & ? & ? & ?). repeat split; congruence. Qed.

Lemma create_actor_objects (a a' : SchedulingAlgorithmState) (id : ActorID)
    (w : option ClientPtr) :
  create_actor a id w = Ok a' -> objects_preserved a a'.
Proof. unfold create_actor. intros H. result_inv. by repeat split. Qed.

Lemma remove_actor_objects (state state' : LocalSchedulerState)
    (a a' : SchedulingAlgorithmState) (id : ActorID) :
  remove_actor state a id = Ok (state', a') -> objects_preserved a a'.
Proof. unfold remove_actor. intros H. result_inv. by repeat split. Qed.

Lemma dispatch_actor_task_objects (state state' : LocalSchedulerState)
    (a a' : SchedulingAlgorithmState) (id : ActorID) (b : bool) :
  dispatch_actor_task state a id = Ok (b, state', a') -> objects_preserved a a'.
Proof.
  unfold dispatch_actor_task. intros H. result_inv; by repeat split.
Qed.

Lemma add_task_to_actor_queue_objects (state state' : LocalSchedulerState)
    (a a' : SchedulingAlgorithmState) (s : TaskSpec) (size : Z) (g : bool) :
  add_task_to_actor_queue state a s size g = Ok (state', a') -> objects_preserved a a'.
Proof.
  unfold add_task_to_actor_queue. intros H. result_inv.
  all: try match goal with Hc : create_actor _ _ _ = Ok _ |- _ =>
         apply create_actor_objects in Hc as (? & ? & ? & ?) end.
  all: by repeat split.
Qed.

Lemma give_task_to_local_scheduler_objects (state state' : LocalSchedulerState)
    (a a' : SchedulingAlgorithmState) (s : TaskSpec) (size : Z) (target : DBClientID) :
  give_task_to_local_scheduler state a s size target = Ok (state', a') ->
  objects_preserved a a'.
Proof.
  unfold give_task_to_local_scheduler. intros H. result_inv. by repeat split.
Qed.

Lemma handle_actor_task_submitted_objects (state state' : LocalSchedulerState)
    (a a' : SchedulingAlgorithmState) (s : TaskSpec) (size : Z) :
  handle_actor_task_submitted state a s size = Ok (state', a') -> objects_preserved a a'.
Proof.
  unfold handle_actor_task_submitted. intros H. result_inv.
  - eapply objects_preserved_trans.
    + eapply add_task_to_actor_queue_objects; eassumption.
    + eapply dispatch_actor_task_objects; eassumption.
  - eapply give_task_to_local_scheduler_objects; eassumption.
  - by repeat split.
Qed.

Lemma handle_actor_creation_notification_objects (state state' : LocalSchedulerState)
    (a a' : SchedulingAlgorithmState) (id : ActorID) :
  handle_actor_creation_notification state a id = Ok (state', a') ->
  objects_preserved a a'.
Proof.
  unfold handle_actor_creation_notification. intros H. result_inv.
  lazymatch goal with Hrun : for_each _ ?init _ = Ok _ |- _ =>
    pose proof (fun Hbody =>
      for_each_invariant (fun sa => objects_preserved a sa.2) _ _ Hbody init _
        (objects_preserved_refl a) Hrun) as Hinv
  end.
  cbn in Hinv. destruct Hinv as (? & ? & ? & ?); [|by repeat split].
  intros [s0 a0] i [s1 a1] _ Hpre Hbody. cbn in *.
  result_inv. eapply objects_preserved_trans; [exact Hpre|].
  eapply handle_actor_task_submitted_objects; eassumption.
Qed.

(** ** Every handler keeps the queues consistent with the tables *)

Lemma handle_task_submitted_consistent (state state' : LocalSchedulerState)
    (a a' : SchedulingAlgorithmState) (s : TaskSpec) (size : Z) :
  queues_consistent a ->
  handle_task_submitted state a s size = Ok (state', a') ->
  queues_consistent a'.
Proof.
  intros Hconsistent H. unfold handle_task_submitted in H.
  apply bind_Ok in H as ([s1 a1] & Hq & H). injection H as H.
  replace a' with (dispatch_tasks s1 a1).2 by (by rewrite H).
  apply dispatch_tasks_consistent.
  destruct (resource_constraints_satisfied state s
            && bool_decide (0 < length (available_workers a))%nat
            && can_run a s) eqn:Hcond.
  - apply andb_true_iff in Hcond as [_ Hcan].
    assert (Hq' : queue_dispatch_task state a s size false = (s1, a1)) by congruence.
    replace a1 with (queue_dispatch_task state a s size false).2 by (by rewrite Hq').
    by apply queue_dispatch_task_consistent.
  - unfold give_task_to_global_scheduler in Hq.
    destruct (bool_decide (db state = None) || negb (global_scheduler_exists state)).
    + destruct (queue_task_locally_consistent state a s size false Hconsistent)
        as (s2 & a2 & Hq2 & Ha2 & _).
      assert (a1 = a2) by congruence. by subst a1.
    + apply bind_Ok in Hq as (_ & _ & Hq). apply bind_Ok in Hq as (_ & _ & Hq).
      by injection Hq as _ <-.
Qed.

Lemma handle_consistent (e : Event) (state state' : LocalSchedulerState)
    (a a' : SchedulingAlgorithmState) :
  queues_consistent a ->
  handle e state a = Ok (state', a') ->
  queues_consistent a'.
Proof.
  intros Hconsistent.
  destruct e; cbn [handle]; intros H.
  - by eapply handle_task_submitted_consistent.
  - eapply queues_consistent_preserved;
      [eapply handle_actor_task_submitted_preserved; eassumption
      |eapply handle_actor_task_submitted_objects; eassumption|done].
  - eapply queues_consistent_preserved;
      [eapply handle_actor_creation_notification_preserved; eassumption
      |eapply handle_actor_creation_notification_objects; eassumption|done].
  - unfold handle_task_scheduled in H.
    apply bind_Ok in H as (_ & _ & H). apply bind_Ok in H as (_ & _ & H).
    apply bind_Ok in H as ([s1 a1] & Hq & H). injection H as H.
    replace a' with (dispatch_tasks s1 a1).2 by (by rewrite H).
    apply dispatch_tasks_consistent.
    destruct (queue_task_locally_consistent state a s size true Hconsistent)
      as (s2 & a2 & Hq' & Ha2 & _). congruence.
  - unfold handle_actor_task_scheduled in H.
    apply bind_Ok in H as (_ & _ & H). apply bind_Ok in H as (_ & _ & H).
    apply bind_Ok in H as (_ & _ & H). apply bind_Ok in H as (s1 & _ & H).
    apply bind_Ok in H as ([s2 a2] & Hadd & H).
    apply bind_Ok in H as ([[b s3] a3] & Hdispatch & H). injection H as <- <-.
    eapply queues_consistent_preserved;
      [eapply dispatch_actor_task_preserved; eassumption
      |eapply dispatch_actor_task_objects; eassumption|].
    eapply queues_consistent_preserved;
      [eapply add_task_to_actor_queue_preserved; eassumption
      |eapply add_task_to_actor_queue_objects; eassumption|done].
  - unfold handle_worker_available in H.
    apply bind_Ok in H as (_ & _ & H). apply bind_Ok in H as (_ & _ & H).
    apply bind_Ok in H as (_ & _ & H). apply bind_Ok in H as (_ & _ & H).
    injection H as H.
    match type of H with
    | dispatch_tasks state ?a1 = _ =>
        replace a' with (dispatch_tasks state a1).2 by (by rewrite H)
    end.
    apply dispatch_tasks_consistent.
    revert Hconsistent. apply queues_consistent_dispatch; cbn; try done; auto.
  - unfold handle_worker_removed in H.
    apply bind_Ok in H as (_ & _ & H).
    destruct (remove_worker_from_vector (available_workers a) (client_ptr w)) as [ba va].
    cbn in H. apply bind_Ok in H as (_ & _ & H).
    destruct (remove_worker_from_vector (executing_workers a) (client_ptr w)) as [be ve].
    cbn in H. apply bind_Ok in H as (_ & _ & H).
    destruct (remove_worker_from_vector (blocked_workers a) (client_ptr w)) as [bb vb].
    cbn in H. apply bind_Ok in H as (_ & _ & H). apply bind_Ok in H as (_ & _ & H).
    injection H as <- <-.
    revert Hconsistent. apply queues_consistent_dispatch; cbn; try done; auto.
  - unfold handle_actor_worker_available in H.
    apply bind_Ok in H as (_ & _ & H).
    destruct (local_actor_infos a !! client_actor_id w); [|done].
    apply bind_Ok in H as (_ & _ & H). apply bind_Ok in H as (_ & _ & H).
    apply bind_Ok in H as ([[b s3] a3] & Hdispatch & H). injection H as <- <-.
    eapply queues_consistent_preserved;
      [eapply dispatch_actor_task_preserved; eassumption
      |eapply dispatch_actor_task_objects; eassumption|].
    revert Hconsistent. apply queues_consistent_dispatch; cbn; try done; auto.
  - unfold handle_actor_worker_connect in H.
    apply bind_Ok in H as (a1 & Ha1 & H).
    apply bind_Ok in H as ([[b s3] a3] & Hdispatch & H). injection H as <- <-.
    eapply queues_consistent_preserved;
      [eapply dispatch_actor_task_preserved; eassumption
      |eapply dispatch_actor_task_objects; eassumption|].
    destruct (local_actor_infos a !! id).
    + injection Ha1 as <-.
      revert Hconsistent. apply queues_consistent_dispatch; cbn; try done; auto.
    + eapply queues_consistent_preserved;
        [eapply create_actor_preserved; eassumption
        |eapply create_actor_objects; eassumption|done].
  - eapply queues_consistent_preserved;
      [eapply remove_actor_preserved; eassumption
      |eapply remove_actor_objects; eassumption|done].
  - unfold handle_worker_blocked in H.
    destruct (remove_worker_from_vector (executing_workers a) (client_ptr w)) as [be ve].
    cbn -[dispatch_tasks] in H.
    apply bind_Ok in H as (_ & _ & H). apply bind_Ok in H as (_ & _ & H).
    injection H as H.
    match type of H with
    | dispatch_tasks state ?a1 = _ =>
        replace a' with (dispatch_tasks state a1).2 by (by rewrite H)
    end.
    apply dispatch_tasks_consistent.
    revert Hconsistent. apply queues_consistent_dispatch; cbn; try done; auto.
  - unfold handle_worker_unblocked in H.
    destruct (remove_worker_from_vector (blocked_workers a) (client_ptr w)) as [bb vb].
    cbn in H. apply bind_Ok in H as (_ & _ & H). apply bind_Ok in H as (_ & _ & H).
    injection H as <- <-.
    revert Hconsistent. apply queues_consistent_dispatch; cbn; try done; auto.
  - by eapply handle_object_available_consistent.
  - by eapply handle_object_removed_consistent.
  - by eapply handle_driver_removed_consistent.
  - by injection H as _ <-.
Qed.

Lemma init_consistent : queues_consistent SchedulingAlgorithmState_init.
Proof.
  split.
  - split; [constructor|]. by intros node Hnode%elem_of_nil.
  - by left.
  - by intros id entry Hentry.
  - by intros it node id Hnode%elem_of_nil.
  - by intros node Hnode%elem_of_nil.
  - by intros node Hnode%elem_of_nil.
Qed.

Lemma reachable_consistent (a : SchedulingAlgorithmState) :
  reachable a -> queues_consistent a.
Proof.
  induction 1 as [|e state a0 state' a1 _ IH Hstep]; [apply init_consistent|].
  by eapply handle_consistent.
Qed.

(** ** Reachable states *)

Lemma run_reachable (events : list Event) :
  forall state a state' a',
    reachable a -> run events state a = Ok (state', a') -> reachable a'.
Proof.
  unfold run. induction events as [|e events IH]; intros state a state' a' Hreach Hrun.
  - by injection Hrun as _ <-.
  - cbn [for_each] in Hrun. apply bind_Ok in Hrun as ([s1 a1] & Hstep & Hrun).
    eapply IH; [|exact Hrun]. by eapply reachable_step.
Qed.

(** X1.  In every reachable state no object is listed both in
    [local_objects] and in [remote_objects]. *)
Theorem object_tables_disjoint (a : SchedulingAlgorithmState) :
  reachable a ->
  forall id, ~ (is_Some (local_objects a !! id) /\ is_Some (remote_objects a !! id)).
Proof.
  intros Hreach%reachable_consistent id [[e He] [e' He']].
  destruct (consistent_tables a Hreach id); congruence.
Qed.

(** X2.  In every reachable state each entry of [remote_objects] is filed
    under its own object id and has at least one dependent task, and every
    iterator in [dependent_tasks] designates a node of the waiting queue
    whose task takes the object by reference. *)
Theorem remote_dependents_are_waiting_tasks (a : SchedulingAlgorithmState) :
  reachable a ->
  forall id entry,
    remote_objects a !! id = Some entry ->
    object_id entry = id
    /\ dependent_tasks entry <> []
    /\ forall it, it ∈ dependent_tasks entry ->
         exists node, deref (waiting_task_queue a) it = Ok node
                      /\ (it, node) ∈ waiting_task_queue a
                      /\ ArgByRef id ∈ spec_args (spec node).
Proof.
  intros Hreach%reachable_consistent id entry Hentry.
  destruct (consistent_dependents a Hreach id entry Hentry) as (Hkey & Hsome & Hnodes).
  split; [done|]. split; [done|].
  intros it Hit. destruct (Hnodes it Hit) as (node & Hnode & Htakes).
  exists node. split; [|done].
  apply deref_elem_of; [|done]. by destruct (consistent_nodes a Hreach).
Qed.

(** X3.  In every reachable state every task of the dispatch queue has all its
    by-reference arguments in [local_objects], and every task of the waiting
    queue misses at least one. *)
Theorem queues_sorted_by_readiness (a : SchedulingAlgorithmState) :
  reachable a ->
  (forall node, node ∈ dispatch_task_queue a ->
     can_run a (spec node.2) = true
     /\ forall id, ArgByRef id ∈ spec_args (spec node.2) ->
                   is_Some (local_objects a !! id))
  /\ (forall node, node ∈ waiting_task_queue a ->
        can_run a (spec node.2) = false
        /\ exists id, ArgByRef id ∈ spec_args (spec node.2)
                      /\ local_objects a !! id = None).
Proof.
  intros Hreach%reachable_consistent. split.
  - intros node Hnode. pose proof (consistent_dispatch a Hreach node Hnode) as Hcan.
    split; [done|]. by apply can_run_iff.
  - intros node Hnode. pose proof (consistent_waiting a Hreach node Hnode) as Hcan.
    split; [done|]. by apply can_run_false_iff.
Qed.

(** X4.  In every reachable state every waiting task is registered with each
    object it takes by reference that is not local: the object has an entry in
    [remote_objects] and the entry holds the iterator of the task's node. *)
Theorem waiting_tasks_are_registered (a : SchedulingAlgorithmState) :
  reachable a ->
  forall it node id,
    (it, node) ∈ waiting_task_queue a ->
    ArgByRef id ∈ spec_args (spec node) ->
    local_objects a !! id = None ->
    exists entry, remote_objects a !! id = Some entry /\ it ∈ dependent_tasks entry.
Proof. intros Hreach%reachable_consistent. apply (consistent_registered a Hreach). Qed.

(** X5.  In every reachable state [handle_driver_removed] returns, for every
    driver: it leaves the collaborator state as it is, keeps of both queues
    the tasks of the other drivers, in order, and leaves in [remote_objects]
    only iterators of other drivers' tasks. *)
Theorem handle_driver_removed_returns (a : SchedulingAlgorithmState)
    (state : LocalSchedulerState) (driver_id : WorkerID) :
  reachable a ->
  exists a',
    handle_driver_removed state a driver_id = Ok (state, a')
    /\ waiting_task_queue a' = remove_driver_tasks driver_id (waiting_task_queue a)
    /\ dispatch_task_queue a' = remove_driver_tasks driver_id (dispatch_task_queue a)
    /\ forall id entry it,
         remote_objects a' !! id = Some entry -> it ∈ dependent_tasks entry ->
         of_other_driver (waiting_task_queue a) driver_id it.
Proof.
  intros Hreach%reachable_consistent.
  destruct Hreach as [[Hnodup _] _ Hdeps _ _ _].
  unfold handle_driver_removed.
  destruct (visit_remote_objects_total (waiting_task_queue a) driver_id
              (map_to_list (remote_objects a)) (remote_objects a))
    as [remote' Hvisit].
  { intros id entry it Hentry%elem_of_map_to_list Hit.
    destruct (Hdeps id entry Hentry) as (_ & _ & Hnodes).
    destruct (Hnodes it Hit) as (node & Hnode & _).
    exists node. by apply deref_elem_of. }
  rewrite Hvisit. cbn -[remove_driver_tasks]. eexists. split; [reflexivity|].
  cbn -[remove_driver_tasks]. split; [done|]. split; [done|].
  intros id entry it Hentry Hit.
  apply visit_remote_objects_Ok in Hvisit as [Hin Hout];
    [|apply NoDup_fst_map_to_list].
  destruct (decide (id ∈ (map_to_list (remote_objects a)).*1)) as [Hkey|Hkey].
  - destruct (Hin id entry Hkey Hentry) as [_ Hother].
    rewrite Forall_forall in Hother. by apply Hother.
  - rewrite (Hout id Hkey) in Hentry.
    destruct Hkey. apply elem_of_map_to_list_keys. by eexists.
Qed.

(** X6.  In every reachable state the submission of a plain task cannot fail,
    whatever the task and the collaborator state; and the scheduling of a
    plain task by the global scheduler cannot fail when the two debug
    assertions of [handle_task_scheduled] hold. *)
Theorem plain_task_handlers_return (a : SchedulingAlgorithmState)
    (state : LocalSchedulerState) (s : TaskSpec) (size : Z) :
  reachable a ->
  (exists state' a', handle_task_submitted state a s size = Ok (state', a'))
  /\ ((RAY_DCHECK = true ->
       is_Some (db state) /\ global_scheduler_exists state = true) ->
      exists state' a', handle_task_scheduled state a s size = Ok (state', a')).
Proof.
  intros Hreach%reachable_consistent.
  destruct (queue_task_locally_consistent state a s size false Hreach)
    as (s1 & a1 & Hlocal & _).
  destruct (queue_task_locally_consistent state a s size true Hreach)
    as (s2 & a2 & Hscheduled & _).
  split.
  - unfold handle_task_submitted.
    destruct (_ && _ && _); cbn [mbind result_bind].
    + destruct (queue_dispatch_task state a s size false) as [s3 a3].
      cbn [mbind result_bind]. destruct (dispatch_tasks s3 a3). by eexists _, _.
    + unfold give_task_to_global_scheduler.
      destruct (bool_decide (db state = None)) eqn:Hdb; cbn [orb].
      { rewrite Hlocal. cbn [mbind result_bind].
        destruct (dispatch_tasks s1 a1). by eexists _, _. }
      destruct (global_scheduler_exists state) eqn:Hglobal; cbn [negb].
      2:{ rewrite Hlocal. cbn [mbind result_bind].
          destruct (dispatch_tasks s1 a1). by eexists _, _. }
      apply bool_decide_eq_false in Hdb.
      unfold DCHECK. rewrite bool_decide_eq_true_2
        by (by destruct (db state); [eexists|]).
      destruct RAY_DCHECK; cbn [CHECK mbind result_bind];
        destruct (dispatch_tasks _ a); by eexists _, _.
  - intros Hassert. unfold handle_task_scheduled, DCHECK.
    destruct RAY_DCHECK.
    + destruct Hassert as [Hdb ->]; [done|].
      rewrite bool_decide_eq_true_2 by done. cbn [CHECK mbind result_bind].
      rewrite Hscheduled. cbn [mbind result_bind].
      destruct (dispatch_tasks s2 a2). by eexists _, _.
    + cbn [mbind result_bind]. rewrite Hscheduled. cbn [mbind result_bind].
      destruct (dispatch_tasks s2 a2). by eexists _, _.
Qed.

(** ** What one run of [dispatch_tasks] does *)

(** X7.  One run of [dispatch_tasks] makes a sequence of assignments: it logs,
    for each, the assignment and the release of the specification, and at the
    end at most one request for a new worker, made only when no worker is
    available, no worker process is pending and a task is left; the workers
    come off the back of [available_workers] and go, in that order, to the
    back of [executing_workers]; the assigned nodes are taken in queue order
    and the others stay, in order; each resource kind is debited by what the
    assigned tasks require together. *)
Theorem dispatch_tasks_assignments (state : LocalSchedulerState)
    (a : SchedulingAlgorithmState) :
  let r := dispatch_tasks state a in
  exists assigned started,
    effects r.1 = effects state ++ flat_map assignment_effects assigned ++ started
    /\ (started = []
        \/ (started = [StartWorker NIL_ACTOR_ID]
            /\ available_workers r.2 = [] /\ child_pids state = []
            /\ dispatch_task_queue r.2 <> []))
    /\ available_workers a = available_workers r.2 ++ reverse assigned.*2
    /\ executing_workers r.2 = executing_workers a ++ assigned.*2
    /\ blocked_workers r.2 = blocked_workers a
    /\ sublist (dispatch_task_queue r.2) (dispatch_task_queue a)
    /\ sublist assigned.*1 (dispatch_task_queue a)
    /\ dispatch_task_queue a ≡ₚ dispatch_task_queue r.2 ++ assigned.*1
    /\ (forall k,
          nth k (dynamic_resources r.1) 0
          = nth k (dynamic_resources state) 0
            - (if decide (k < ResourceIndex_MAX
                          /\ k < length (dynamic_resources state))%nat
               then required_total k assigned else 0)).
Proof.
  cbv zeta. unfold dispatch_tasks.
  destruct (dispatch_tasks_loop_trace (dispatch_task_queue a) state a [])
    as (assigned & started & Heff & Hstart & Havail & Hexec & Hsub & Hsub'
        & Hperm & Hres).
  destruct (dispatch_tasks_loop_workers (dispatch_task_queue a) state a [])
    as [_ Hblocked].
  exists assigned, started. repeat split; done.
Qed.

Lemma dispatch_tasks_loop_nonnegative (rest : list (Cursor * TaskQueueEntry)) :
  forall state a kept,
    resources_nonnegative state ->
    resources_nonnegative (dispatch_tasks_loop state a kept rest).1.
Proof.
  induction rest as [|node rest IH]; intros state a kept Hnonneg; [done|].
  cbn [dispatch_tasks_loop].
  destruct (last (available_workers a)) as [w|];
    [|by destruct (bool_decide _)].
  destruct (resources_available state); [|done].
  destruct (task_satisfied state (spec node.2)) eqn:Hfit; cbn [negb];
    [|by apply IH].
  apply IH. intros k Hk. cbn. rewrite debit_nth.
  apply task_satisfied_iff in Hfit. specialize (Hfit k Hk). specialize (Hnonneg k Hk).
  destruct (decide _); lia.
Qed.

(** X8.  [dispatch_tasks] overdraws no resource kind: if every kind is
    non-negative before the run, every kind is non-negative after it,
    whatever the queued tasks require. *)
Theorem dispatch_tasks_never_overdraws (state : LocalSchedulerState)
    (a : SchedulingAlgorithmState) :
  resources_nonnegative state ->
  resources_nonnegative (dispatch_tasks state a).1.
Proof. apply dispatch_tasks_loop_nonnegative. Qed.

(** A queue whose nodes before some point do not fit, and at which point the
    loop ends, is left as it is. *)
Lemma dispatch_tasks_settled (state : LocalSchedulerState)
    (a : SchedulingAlgorithmState) (pre rest : list (Cursor * TaskQueueEntry)) :
  dispatch_task_queue a = pre ++ rest ->
  Forall (fun node => task_satisfied state (spec node.2) = false) pre ->
  rest = [] \/ last (available_workers a) = None \/ resources_available state = false ->
  (dispatch_tasks state a).2 = a
  /\ dynamic_resources (dispatch_tasks state a).1 = dynamic_resources state.
Proof.
  intros Hq Hpre Hend. unfold dispatch_tasks.
  destruct (dispatch_task_queue a) as [|node queue] eqn:Hqueue.
  { cbn. split; [|done]. rewrite <- Hqueue. apply set_dispatch_id. }
  destruct (last (available_workers a)) as [w|] eqn:Hlast.
  2:{ cbn [dispatch_tasks_loop]. rewrite Hlast. cbn.
      split; [rewrite <- Hqueue; apply set_dispatch_id|].
      by destruct (bool_decide _). }
  destruct (resources_available state) eqn:Hres.
  2:{ cbn [dispatch_tasks_loop]. rewrite Hlast, Hres. cbn.
      split; [|done]. rewrite <- Hqueue. apply set_dispatch_id. }
  destruct Hend as [->|[?|?]]; [|done..].
  rewrite Hq, (dispatch_tasks_loop_skip pre state a [] [] w) by done.
  cbn. split; [|done]. rewrite app_nil_r in Hq. rewrite <- Hq, <- Hqueue.
  apply set_dispatch_id.
Qed.

Lemma unsatisfied_after_assignment (state : LocalSchedulerState) (assigned s : TaskSpec)
    (size : Z) (w : option ClientPtr) :
  requires_nonnegative assigned ->
  task_satisfied state s = false ->
  task_satisfied
    (TaskQueueEntry_free (assign_task_to_worker state assigned size w)
       {| spec := assigned; task_spec_size := size |}) s
  = false.
Proof.
  intros Hnonneg. rewrite !task_unsatisfied_iff. intros (k & Hk & Hgt).
  exists k. split; [done|]. cbn.
  pose proof (debit_le assigned (seq 0 ResourceIndex_MAX)
                ltac:(intros i Hi%elem_of_seq; apply Hnonneg; lia)
                (dynamic_resources state) k).
  lia.
Qed.

(** Where the loop ends: the nodes before that point do not fit what is left. *)
Lemma dispatch_tasks_loop_ends (rest : list (Cursor * TaskQueueEntry)) :
  forall state a kept,
    queue_requires_nonnegative rest ->
    Forall (fun node => task_satisfied state (spec node.2) = false) kept ->
    let r := dispatch_tasks_loop state a kept rest in
    exists kept' rest',
      dispatch_task_queue r.2 = kept' ++ rest'
      /\ Forall (fun node => task_satisfied r.1 (spec node.2) = false) kept'
      /\ (rest' = [] \/ last (available_workers r.2) = None
          \/ resources_available r.1 = false).
Proof.
  induction rest as [|node rest IH]; intros state a kept Hnonneg Hkept; cbv zeta.
  - exists kept, []. cbn. rewrite app_nil_r. auto.
  - cbn [dispatch_tasks_loop].
    destruct (last (available_workers a)) as [w|] eqn:Hlast.
    2:{ exists kept, (node :: rest). cbn. split; [done|]. split; [|auto].
        destruct (bool_decide _); [|done].
        eapply Forall_impl; [exact Hkept|]. by intros n Hn. }
    destruct (resources_available state) eqn:Hres.
    2:{ exists kept, (node :: rest). cbn. auto. }
    destruct (task_satisfied state (spec node.2)) eqn:Hfit; cbn [negb].
    + apply IH; [intros n Hn; apply Hnonneg; by right|].
      eapply Forall_impl; [exact Hkept|]. intros n Hn.
      pose proof (unsatisfied_after_assignment state (spec node.2) (spec n.2)
                    (task_spec_size node.2) (Some w)
                    (Hnonneg node ltac:(by left)) Hn) as Hstill.
      by destruct node as [c [s0 size0]].
    + apply IH; [intros n Hn; apply Hnonneg; by right|].
      apply Forall_app. split; [done|]. by constructor.
Qed.

(** X9.  When the queued tasks require non-negative quantities, a second run
    of [dispatch_tasks] right after a first one changes neither the algorithm
    state nor the available resources. *)
Theorem dispatch_tasks_idempotent (state : LocalSchedulerState)
    (a : SchedulingAlgorithmState) :
  queue_requires_nonnegative (dispatch_task_queue a) ->
  let r := dispatch_tasks state a in
  (dispatch_tasks r.1 r.2).2 = r.2
  /\ dynamic_resources (dispatch_tasks r.1 r.2).1 = dynamic_resources r.1.
Proof.
  intros Hnonneg. cbv zeta.
  destruct (dispatch_tasks_loop_ends (dispatch_task_queue a) state a [] Hnonneg)
    as (kept' & rest' & Hq & Hkept & Hend); [constructor|].
  cbv zeta in Hq, Hkept, Hend. fold (dispatch_tasks state a) in Hq, Hkept, Hend.
  by eapply dispatch_tasks_settled.
Qed.

(** ** What the handlers log *)

Lemma logs_refl (P : Effect -> Prop) (state : LocalSchedulerState) : logs P state state.
Proof. exists []. by rewrite app_nil_r. Qed.

Lemma logs_trans (P : Effect -> Prop) (s1 s2 s3 : LocalSchedulerState) :
  logs P s1 s2 -> logs P s2 s3 -> logs P s1 s3.
Proof.
  intros (l1 & H1 & HP1) (l2 & H2 & HP2). exists (l1 ++ l2).
  split; [by rewrite H2, H1, app_assoc|]. by apply Forall_app.
Qed.

Lemma logs_emit (P : Effect -> Prop) (state : LocalSchedulerState) (e : Effect) :
  P e -> logs P state (emit state e).
Proof. intros HP. exists [e]. split; [done|]. by constructor. Qed.

Lemma logs_weaken (P Q : Effect -> Prop) (s1 s2 : LocalSchedulerState) :
  (forall e, P e -> Q e) -> logs P s1 s2 -> logs Q s1 s2.
Proof.
  intros HPQ (l & Hl & HP). exists l. split; [done|]. by eapply Forall_impl.
Qed.

Lemma logs_new_effects (P : Effect -> Prop) (s1 s2 : LocalSchedulerState) (e : Effect) :
  logs P s1 s2 -> e ∈ new_effects s1 s2 -> P e.
Proof.
  intros (l & Hl & HP). unfold new_effects. rewrite Hl, drop_app_length.
  rewrite Forall_forall in HP. apply HP.
Qed.

Lemma task_table_write_queued_logs (state : LocalSchedulerState) (s : TaskSpec)
    (size : Z) (g : bool) :
  logs no_assignment state (task_table_write_queued state s size g).
Proof.
  unfold task_table_write_queued.
  destruct (db state); [destruct g|]; try (by apply logs_emit). apply logs_refl.
Qed.

Lemma fetch_missing_dependency_logs (state : LocalSchedulerState)
    (a : SchedulingAlgorithmState) (it : Cursor) (id : ObjectID) :
  logs no_assignment state (fetch_missing_dependency state a it id).1.
Proof.
  unfold fetch_missing_dependency.
  destruct (remote_objects a !! id); [apply logs_refl|].
  destruct (plasma_connected state); [by apply logs_emit|apply logs_refl].
Qed.

Lemma fetch_missing_dependencies_logs (state state' : LocalSchedulerState)
    (a a' : SchedulingAlgorithmState) (it : Cursor) :
  fetch_missing_dependencies state a it = Ok (state', a') ->
  logs no_assignment state state'.
Proof.
  unfold fetch_missing_dependencies. intros H.
  apply bind_Ok in H as (entry & _ & H).
  match type of H with
  | context [foldl ?body ?init ?l] =>
      assert (Hinv : (fun acc : LocalSchedulerState * SchedulingAlgorithmState * Z =>
                        logs no_assignment state acc.1.1)
                     (foldl body init l))
  end.
  { apply foldl_invariant; [|apply logs_refl].
    intros [[s0 a0] n0] i _ Hlogs. cbn in *.
    destruct (TaskSpec_arg_by_ref (spec entry) i); [|done].
    destruct (bool_decide _); [|done].
    pose proof (fetch_missing_dependency_logs s0 a0 it
                  (TaskSpec_arg_id (spec entry) i)) as Hstep.
    destruct (fetch_missing_dependency s0 a0 it _) as [s2 a2]. cbn in *.
    by eapply logs_trans. }
  match type of H with
  | context [foldl ?body ?init ?l] => destruct (foldl body init l) as [[s1 a1] n]
  end.
  result_inv. exact Hinv.
Qed.

Lemma queue_task_locally_logs (state state' : LocalSchedulerState)
    (a a' : SchedulingAlgorithmState) (s : TaskSpec) (size : Z) (g : bool) :
  queue_task_locally state a s size g = Ok (state', a') ->
  logs no_assignment state state'.
Proof.
  unfold queue_task_locally. destruct (can_run a s).
  - intros [= <- _]. apply task_table_write_queued_logs.
  - unfold queue_waiting_task, queue_task, push_back. cbn.
    intros H%fetch_missing_dependencies_logs.
    eapply logs_trans; [apply task_table_write_queued_logs|exact H].
Qed.

Lemma give_task_to_global_scheduler_logs (state state' : LocalSchedulerState)
    (a a' : SchedulingAlgorithmState) (s : TaskSpec) (size : Z) :
  give_task_to_global_scheduler state a s size = Ok (state', a') ->
  logs no_assignment state state'.
Proof.
  unfold give_task_to_global_scheduler.
  destruct (bool_decide (db state = None) || negb (global_scheduler_exists state)).
  - apply queue_task_locally_logs.
  - intros H. apply bind_Ok in H as (_ & _ & H). apply bind_Ok in H as (_ & _ & H).
    injection H as <- _. by apply logs_emit.
Qed.

Lemma handle_object_removed_logs (state state' : LocalSchedulerState)
    (a a' : SchedulingAlgorithmState) (id : ObjectID) :
  handle_object_removed state a id = Ok (state', a') ->
  logs no_assignment state state'.
Proof.
  unfold handle_object_removed. intros H.
  apply bind_Ok in H as (_ & _ & H). injection H as H.
  match type of H with
  | foldl ?body ?init ?q = _ =>
      assert (Hinv : (fun r : LocalSchedulerState * SchedulingAlgorithmState =>
                        logs no_assignment state r.1) (foldl body init q))
  end.
  { apply foldl_invariant; [|apply logs_refl].
    intros [s0 a0] node _ H0.
    apply (foldl_invariant
             (fun r : LocalSchedulerState * SchedulingAlgorithmState =>
                logs no_assignment state r.1)); [|exact H0].
    intros [s1 a1] i _ Hlogs.
    destruct (TaskSpec_arg_by_ref (spec node.2) i); [|done].
    destruct (ObjectID_equal _ id); [|done].
    eapply logs_trans; [exact Hlogs|apply fetch_missing_dependency_logs]. }
  by rewrite H in Hinv.
Qed.

Lemma fetch_object_timeout_handler_logs (state : LocalSchedulerState)
    (a : SchedulingAlgorithmState) :
  logs no_assignment state (fetch_object_timeout_handler state a).
Proof.
  unfold fetch_object_timeout_handler.
  destruct (plasma_connected state); cbn [negb]; [|by apply logs_emit].
  apply (foldl_invariant (fun s0 => logs no_assignment state s0)).
  - intros s0 id _ Hlogs. eapply logs_trans; [exact Hlogs|]. by apply logs_emit.
  - by apply logs_emit.
Qed.

(** [dispatch_tasks] on a queue of runnable tasks assigns runnable tasks. *)
Lemma dispatch_tasks_logs (state : LocalSchedulerState) (a : SchedulingAlgorithmState) :
  dispatch_ready a ->
  logs (assigns_runnable a) state (dispatch_tasks state a).1.
Proof.
  intros Hready.
  destruct (dispatch_tasks_loop_trace (dispatch_task_queue a) state a [])
    as (assigned & started & Heff & Hstart & _ & _ & _ & Hsub & _).
  cbv zeta in Heff, Hstart, Hsub. fold (dispatch_tasks state a) in Heff, Hstart.
  eexists. split; [exact Heff|]. apply Forall_app. split.
  - apply Forall_forall. intros e Hin%list_elem_of_In.
    apply in_flat_map in Hin as ([node w] & Hin%list_elem_of_In & He%list_elem_of_In).
    cbn in He.
    apply elem_of_cons in He as [->|He];
      [|by apply list_elem_of_singleton in He as ->].
    cbn. apply Hready. eapply elem_of_sublist; [|exact Hsub].
    by apply (list_elem_of_fmap_2 fst _ (node, w)).
  - destruct Hstart as [->|(-> & _)]; [constructor|]. by repeat constructor.
Qed.

(** A plain event is handled by steps that assign nothing, followed or not by
    one run of [dispatch_tasks] on a consistent state. *)
Lemma handle_plain_steps (e : Event) (state state' : LocalSchedulerState)
    (a a' : SchedulingAlgorithmState) :
  plain_event e ->
  queues_consistent a ->
  handle e state a = Ok (state', a') ->
  exists s1 a1,
    logs no_assignment state s1
    /\ queues_consistent a1
    /\ ((state', a') = (s1, a1) \/ (state', a') = dispatch_tasks s1 a1).
Proof.
  intros Hplain Hconsistent.
  destruct e; cbn [handle]; try (by destruct Hplain); intros H.
  - unfold handle_task_submitted in H.
    apply bind_Ok in H as ([s1 a1] & Hq & H). injection H as H.
    exists s1, a1. split; [|split; [|by right]].
    + destruct (_ && _ && _) in Hq.
      * injection Hq as <- _. apply task_table_write_queued_logs.
      * by eapply give_task_to_global_scheduler_logs.
    + destruct (resource_constraints_satisfied state s
                && bool_decide (0 < length (available_workers a))%nat
                && can_run a s) eqn:Hcond.
      * apply andb_true_iff in Hcond as [_ Hcan].
        assert (Hq' : queue_dispatch_task state a s size false = (s1, a1))
          by congruence.
        replace a1 with (queue_dispatch_task state a s size false).2
          by (by rewrite Hq').
        by apply queue_dispatch_task_consistent.
      * unfold give_task_to_global_scheduler in Hq.
        destruct (bool_decide (db state = None)
                  || negb (global_scheduler_exists state)).
        -- destruct (queue_task_locally_consistent state a s size false Hconsistent)
             as (s2 & a2 & Hq2 & Ha2 & _).
           assert (a1 = a2) by congruence. by subst a1.
        -- apply bind_Ok in Hq as (_ & _ & Hq). apply bind_Ok in Hq as (_ & _ & Hq).
           by injection Hq as _ <-.
  - unfold handle_task_scheduled in H.
    apply bind_Ok in H as (_ & _ & H). apply bind_Ok in H as (_ & _ & H).
    apply bind_Ok in H as ([s1 a1] & Hq & H). injection H as H.
    exists s1, a1. split; [by eapply queue_task_locally_logs|]. split; [|by right].
    destruct (queue_task_locally_consistent state a s size true Hconsistent)
      as (s2 & a2 & Hq' & Ha2 & _). congruence.
  - unfold handle_worker_available in H.
    apply bind_Ok in H as (_ & _ & H). apply bind_Ok in H as (_ & _ & H).
    apply bind_Ok in H as (_ & _ & H). apply bind_Ok in H as (_ & _ & H).
    injection H as H. eexists state, _.
    split; [apply logs_refl|]. split; [|right; symmetry; exact H].
    revert Hconsistent. apply queues_consistent_dispatch; cbn; try done; auto.
  - exists state', a'. split; [|split; [by eapply (handle_consistent (worker_removed w))|by left]].
    unfold handle_worker_removed in H.
    apply bind_Ok in H as (_ & _ & H).
    destruct (remove_worker_from_vector (available_workers a) (client_ptr w)) as [ba va].
    cbn in H. apply bind_Ok in H as (_ & _ & H).
    destruct (remove_worker_from_vector (executing_workers a) (client_ptr w)) as [be ve].
    cbn in H. apply bind_Ok in H as (_ & _ & H).
    destruct (remove_worker_from_vector (blocked_workers a) (client_ptr w)) as [bb vb].
    cbn in H. apply bind_Ok in H as (_ & _ & H). apply bind_Ok in H as (_ & _ & H).
    injection H as <- _. apply logs_refl.
  - unfold handle_worker_blocked in H.
    destruct (remove_worker_from_vector (executing_workers a) (client_ptr w)) as [be ve].
    cbn -[dispatch_tasks] in H.
    apply bind_Ok in H as (_ & _ & H). apply bind_Ok in H as (_ & _ & H).
    injection H as H. eexists state, _.
    split; [apply logs_refl|]. split; [|right; symmetry; exact H].
    revert Hconsistent. apply queues_consistent_dispatch; cbn; try done; auto.
  - exists state', a'.
    split; [|split; [by eapply (handle_consistent (worker_unblocked w))|by left]].
    unfold handle_worker_unblocked in H.
    destruct (remove_worker_from_vector (blocked_workers a) (client_ptr w)) as [bb vb].
    cbn in H. apply bind_Ok in H as (_ & _ & H). apply bind_Ok in H as (_ & _ & H).
    injection H as <- _. apply logs_refl.
  - destruct (handle_object_available_promoted _ _ _ _ _ Hconsistent H)
      as (a1 & Ha1 & Hend).
    exists state, a1. split; [apply logs_refl|]. by split.
  - exists state', a'. split; [by eapply handle_object_removed_logs|].
    split; [by eapply handle_object_removed_consistent|by left].
  - exists state', a'. split; [|split; [by eapply handle_driver_removed_consistent|by left]].
    unfold handle_driver_removed in H.
    apply bind_Ok in H as (remote & _ & H). injection H as <- _. apply logs_refl.
  - injection H as <- <-. eexists _, a.
    split; [apply fetch_object_timeout_handler_logs|]. split; [done|by left].
Qed.

(** X10.  When a plain event (one that is not about an actor) is handled in a
    reachable state, every task the handler assigns to a worker has all its
    by-reference arguments in [local_objects]. *)
Theorem plain_tasks_assigned_when_runnable (e : Event)
    (state state' : LocalSchedulerState) (a a' : SchedulingAlgorithmState)
    (s : TaskSpec) (size : Z) (w : option ClientPtr) :
  reachable a ->
  plain_event e ->
  handle e state a = Ok (state', a') ->
  AssignTask s size w ∈ new_effects state state' ->
  can_run a' s = true
  /\ forall id, ArgByRef id ∈ spec_args s -> is_Some (local_objects a' !! id).
Proof.
  intros Hreach%reachable_consistent Hplain H Hassigned.
  assert (Hcan : can_run a' s = true); [|split; [done|by apply can_run_iff]].
  destruct (handle_plain_steps e state state' a a' Hplain Hreach H)
    as (s1 & a1 & Hlogs & Ha1 & [Hend|Hend]).
  - injection Hend as -> ->.
    by destruct (logs_new_effects _ _ _ _ Hlogs Hassigned).
  - pose proof (dispatch_tasks_logs s1 a1 (consistent_dispatch a1 Ha1)) as Hrun.
    rewrite <- Hend in Hrun. cbn in Hrun.
    assert (Hall : logs (assigns_runnable a1) state state').
    { eapply logs_trans; [|exact Hrun]. eapply logs_weaken; [|exact Hlogs].
      by intros []. }
    pose proof (logs_new_effects _ _ _ _ Hall Hassigned) as Hyes. cbn in Hyes.
    pose proof (dispatch_tasks_loop_tables (dispatch_task_queue a1) s1 a1 [])
      as (_ & _ & Hlocal & _).
    cbv zeta in Hlocal. fold (dispatch_tasks s1 a1) in Hlocal.
    rewrite <- Hend in Hlocal. cbn in Hlocal.
    rewrite <- Hyes. apply can_run_same_objects. intros id. by rewrite Hlocal.
Qed.

(** ** Removal of a worker from a vector *)

(** X11.  [remove_worker_from_vector] reports whether the worker is in the
    vector; a vector without the worker is left as it is; from a vector with
    the worker exactly one occurrence is removed, the other slots are kept (in
    some order) and the vector is one shorter. *)
Theorem remove_worker_from_vector_removes_once (v : list ClientPtr) (w : ClientPtr) :
  let r := remove_worker_from_vector v w in
  r.1 = worker_in_vector v w
  /\ (w ∉ v -> r.2 = v)
  /\ (w ∈ v -> v ≡ₚ w :: r.2 /\ S (length r.2) = length v).
Proof.
  cbv zeta. unfold worker_in_vector.
  destruct (remove_worker_cases v w) as [[Hout ->]|[Hin (r & -> & Hperm)]]; cbn.
  - split; [by rewrite bool_decide_eq_false_2|]. by split.
  - split; [by rewrite bool_decide_eq_true_2|]. split; [done|].
    intros _. split; [done|]. by rewrite Hperm.
Qed.

Lemma remove_worker_last (v : list ClientPtr) (w : ClientPtr) :
  w ∉ v -> remove_worker_from_vector (v ++ [w]) w = (true, v).
Proof.
  intros Hout. unfold remove_worker_from_vector.
  rewrite list_find_app_r
    by (apply list_find_None, Forall_forall; intros x Hx ->; done).
  cbn. rewrite decide_True by done. cbn.
  rewrite last_snoc. cbn. rewrite length_app. cbn.
  replace (length v + 1 - 1)%nat with (length v) by lia.
  assert (Hlast : (v ++ [w]) !! length v = Some w)
    by (by rewrite lookup_app_r, Nat.sub_diag by lia).
  rewrite !(list_insert_id (v ++ [w]) (length v) w) by done.
  by rewrite removelast_last.
Qed.

Lemma remove_worker_gone (v : list ClientPtr) (w : ClientPtr) :
  NoDup v -> w ∉ (remove_worker_from_vector v w).2.
Proof.
  intros Hnodup.
  destruct (remove_worker_cases v w) as [[Hout ->]|[Hin (r & -> & Hperm)]]; cbn;
    [done|].
  rewrite Hperm in Hnodup. by apply NoDup_cons in Hnodup as [? _].
Qed.

Lemma remove_worker_others (v : list ClientPtr) (w x : ClientPtr) :
  x <> w -> x ∈ (remove_worker_from_vector v w).2 <-> x ∈ v.
Proof.
  intros Hne.
  destruct (remove_worker_cases v w) as [[Hout ->]|[Hin (r & -> & Hperm)]]; cbn;
    [done|].
  rewrite Hperm, elem_of_cons. tauto.
Qed.

(** X12.  [handle_worker_removed] fails its check for an actor worker.  For a
    worker without an actor, when no worker is recorded twice, it cannot
    fail: it leaves the collaborator state and the queues as they are, the
    worker is in none of the three vectors afterwards, and every other worker
    is where it was. *)
Theorem handle_worker_removed_removes (state : LocalSchedulerState)
    (a : SchedulingAlgorithmState) (w : LocalSchedulerClient) :
  (client_actor_id w <> NIL_ACTOR_ID -> handle_worker_removed state a w = Fatal)
  /\ (client_actor_id w = NIL_ACTOR_ID ->
      workers_disjoint a ->
      exists a',
        handle_worker_removed state a w = Ok (state, a')
        /\ (client_ptr w ∉ available_workers a' ++ executing_workers a'
                           ++ blocked_workers a')
        /\ (forall x, x <> client_ptr w ->
              (x ∈ available_workers a' <-> x ∈ available_workers a)
              /\ (x ∈ executing_workers a' <-> x ∈ executing_workers a)
              /\ (x ∈ blocked_workers a' <-> x ∈ blocked_workers a))
        /\ waiting_task_queue a' = waiting_task_queue a
        /\ dispatch_task_queue a' = dispatch_task_queue a).
Proof.
  split.
  - intros Hactor. unfold handle_worker_removed, ActorID_equal, UniqueID_equal.
    by rewrite bool_decide_eq_false_2.
  - intros Hplain Hdisjoint. unfold handle_worker_removed, ActorID_equal, UniqueID_equal.
    rewrite bool_decide_eq_true_2 by done. cbn [CHECK mbind result_bind].
    unfold workers_disjoint in Hdisjoint.
    apply NoDup_app in Hdisjoint as (Ha & Hae & Heb).
    apply NoDup_app in Heb as (He & Hebd & Hb).
    pose proof (remove_worker_gone _ (client_ptr w) Ha) as Hgone_a.
    pose proof (remove_worker_gone _ (client_ptr w) He) as Hgone_e.
    pose proof (remove_worker_gone _ (client_ptr w) Hb) as Hgone_b.
    pose proof (fun x => remove_worker_others (available_workers a) (client_ptr w) x)
      as Hothers_a.
    pose proof (fun x => remove_worker_others (executing_workers a) (client_ptr w) x)
      as Hothers_e.
    pose proof (fun x => remove_worker_others (blocked_workers a) (client_ptr w) x)
      as Hothers_b.
    assert (Hcount :
      Z.b2z (remove_worker_from_vector (available_workers a) (client_ptr w)).1
      + Z.b2z (remove_worker_from_vector (executing_workers a) (client_ptr w)).1
      + Z.b2z (remove_worker_from_vector (blocked_workers a) (client_ptr w)).1 <= 1).
    { destruct (remove_worker_cases (available_workers a) (client_ptr w))
        as [[Hout_a ->]|[Hin_a (ra & -> & _)]];
      destruct (remove_worker_cases (executing_workers a) (client_ptr w))
        as [[Hout_e ->]|[Hin_e (re & -> & _)]];
      destruct (remove_worker_cases (blocked_workers a) (client_ptr w))
        as [[Hout_b ->]|[Hin_b (rb & -> & _)]]; cbn; try lia.
      - destruct (Hebd _ Hin_e Hin_b).
      - destruct (Hae _ Hin_a). apply elem_of_app. by right.
      - destruct (Hae _ Hin_a). apply elem_of_app. by left.
      - destruct (Hae _ Hin_a). apply elem_of_app. by left. }
    cbn [available_workers executing_workers blocked_workers
         set_available_workers set_executing_workers set_blocked_workers].
    destruct (remove_worker_from_vector (available_workers a) (client_ptr w))
      as [ba va].
    destruct (remove_worker_from_vector (executing_workers a) (client_ptr w))
      as [be ve].
    destruct (remove_worker_from_vector (blocked_workers a) (client_ptr w))
      as [bb vb].
    cbn in Hgone_a, Hgone_e, Hgone_b, Hothers_a, Hothers_e, Hothers_b, Hcount.
    unfold DCHECK.
    rewrite !(proj2 (worker_in_vector_false _ _)) by done.
    replace (0 + Z.b2z ba + Z.b2z be + Z.b2z bb <=? 1) with true
      by (symmetry; apply Z.leb_le; lia).
    eexists. split; [by destruct RAY_DCHECK|].
    cbn. split; [rewrite !elem_of_app; tauto|]. split; [|done].
    intros x Hx. auto.
Qed.

(** X13.  A worker that was moved to the blocked workers by
    [handle_worker_blocked] is moved back by [handle_worker_unblocked], which
    cannot fail then: the blocked workers are again what they were before the
    two events, in order, the worker goes to the back of the executing
    workers, and the queues, the available workers and the collaborator state
    are left as [handle_worker_blocked] left them. *)
Theorem worker_blocked_then_unblocked (state state1 state2 : LocalSchedulerState)
    (a a1 : SchedulingAlgorithmState) (w : LocalSchedulerClient) :
  workers_disjoint a ->
  handle_worker_blocked state a w = Ok (state1, a1) ->
  exists a2,
    handle_worker_unblocked state2 a1 w = Ok (state2, a2)
    /\ blocked_workers a2 = blocked_workers a
    /\ executing_workers a2 = executing_workers a1 ++ [client_ptr w]
    /\ available_workers a2 = available_workers a1
    /\ waiting_task_queue a2 = waiting_task_queue a1
    /\ dispatch_task_queue a2 = dispatch_task_queue a1.
Proof.
  intros Hdisjoint H.
  pose proof (handle_worker_blocked_disjoint _ _ _ _ _ Hdisjoint H) as Hdisjoint1.
  unfold handle_worker_blocked in H.
  destruct (remove_worker_cases (executing_workers a) (client_ptr w))
    as [[_ Hrm]|[Hin (r & Hrm & Hperm)]]; rewrite Hrm in H;
    cbn -[dispatch_tasks] in H; [done|].
  apply bind_Ok in H as (_ & _ & H). injection H as H.
  assert (Hout : client_ptr w ∉ blocked_workers a).
  { unfold workers_disjoint in Hdisjoint.
    apply NoDup_app in Hdisjoint as (_ & _ & Heb).
    apply NoDup_app in Heb as (_ & Hebd & _). by apply Hebd. }
  match type of H with
  | dispatch_tasks state ?a0 = _ =>
      pose proof (dispatch_tasks_loop_workers (dispatch_task_queue a0) state a0 [])
        as [_ Hblocked];
      cbv zeta in Hblocked; fold (dispatch_tasks state a0) in Hblocked;
      rewrite H in Hblocked; cbn in Hblocked
  end.
  assert (Hexec : client_ptr w ∉ executing_workers a1).
  { unfold workers_disjoint in Hdisjoint1.
    apply NoDup_app in Hdisjoint1 as (_ & _ & Heb).
    apply NoDup_app in Heb as (_ & Hebd & _).
    intros Hexec. apply (Hebd _ Hexec). rewrite Hblocked.
    apply elem_of_app. right. by left. }
  unfold handle_worker_unblocked. rewrite Hblocked, remove_worker_last by done.
  cbn [CHECK mbind result_bind executing_workers set_blocked_workers].
  unfold DCHECK. rewrite (proj2 (worker_in_vector_false _ _)) by done.
  eexists. split; [by destruct RAY_DCHECK|]. by cbn.
Qed.

(** ** The actor queues *)

Lemma insert_by_actor_counter_permutation (c : Z) (elt : TaskQueueEntry)
    (queue : list TaskQueueEntry) :
  insert_by_actor_counter c elt queue ≡ₚ elt :: queue.
Proof.
  induction queue as [|x queue IH]; cbn; [done|].
  destruct (c >? TaskSpec_actor_counter (spec x)); [|done].
  rewrite IH. apply perm_swap.
Qed.

Lemma insert_by_actor_counter_ascending (elt : TaskQueueEntry)
    (queue : list TaskQueueEntry) :
  counters_ascending queue ->
  counters_ascending
    (insert_by_actor_counter (TaskSpec_actor_counter (spec elt)) elt queue).
Proof.
  induction queue as [|x queue IH]; cbn [insert_by_actor_counter counters_ascending].
  - intros _. split; [constructor|done].
  - intros [Hx Hqueue].
    destruct (TaskSpec_actor_counter (spec elt) >? TaskSpec_actor_counter (spec x))
      eqn:Hgt; cbn [counters_ascending].
    + apply Z.gtb_lt in Hgt. split; [|by apply IH].
      rewrite insert_by_actor_counter_permutation.
      constructor; [lia|done].
    + assert (Hle : TaskSpec_actor_counter (spec elt) <= TaskSpec_actor_counter (spec x))
        by (destruct (Z.gtb_spec (TaskSpec_actor_counter (spec elt))
                        (TaskSpec_actor_counter (spec x))); [done|lia]).
      split; [|by split].
      constructor; [done|]. eapply Forall_impl; [exact Hx|]. cbn. intros y Hy. lia.
Qed.

(** X14.  [insert_by_actor_counter], the insertion of [add_task_to_actor_queue],
    puts the new entry after the entries with a smaller actor counter and
    before the first entry whose counter is not smaller: the queue keeps its
    entries, in their order, and a queue that was in the order of the actor
    counters still is. *)
Theorem insert_by_actor_counter_keeps_order (elt : TaskQueueEntry)
    (queue : list TaskQueueEntry) :
  let c := TaskSpec_actor_counter (spec elt) in
  (exists before after,
     queue = before ++ after
     /\ insert_by_actor_counter c elt queue = before ++ elt :: after
     /\ Forall (fun x => TaskSpec_actor_counter (spec x) < c) before
     /\ match after with
        | [] => True
        | x :: _ => c <= TaskSpec_actor_counter (spec x)
        end)
  /\ (counters_ascending queue -> counters_ascending (insert_by_actor_counter c elt queue)).
Proof.
  cbv zeta. split; [|apply insert_by_actor_counter_ascending].
  induction queue as [|x queue (before & after & Hq & Hins & Hbefore & Hafter)]; cbn.
  - exists [], []. by repeat split.
  - destruct (TaskSpec_actor_counter (spec elt) >? TaskSpec_actor_counter (spec x))
      eqn:Hgt.
    + apply Z.gtb_lt in Hgt. exists (x :: before), after.
      split; [by rewrite Hq|]. split; [by rewrite Hins|]. split; [|done].
      constructor; [lia|done].
    + exists [], (x :: queue). split; [done|]. split; [done|]. split; [constructor|].
      destruct (Z.gtb_spec (TaskSpec_actor_counter (spec elt))
                  (TaskSpec_actor_counter (spec x))); [done|lia].
Qed.

Lemma create_actor_table (a a' : SchedulingAlgorithmState) (id : ActorID)
    (w : option ClientPtr) :
  create_actor a id w = Ok a' -> actor_table_consistent a -> actor_table_consistent a'.
Proof.
  unfold create_actor. intros H Htable. apply bind_Ok in H as (_ & _ & H).
  injection H as <-. intros id' entry. cbn.
  destruct (decide (id = id')) as [->|Hne].
  - rewrite lookup_insert_eq. intros [= <-]. by cbn.
  - rewrite lookup_insert_ne by done. apply Htable.
Qed.

Lemma remove_actor_table (state state' : LocalSchedulerState)
    (a a' : SchedulingAlgorithmState) (id : ActorID) :
  remove_actor state a id = Ok (state', a') ->
  actor_table_consistent a -> actor_table_consistent a'.
Proof.
  unfold remove_actor. intros H Htable.
  destruct (local_actor_infos a !! id); [|done]. injection H as _ <-.
  intros id' entry. cbn. intros [_ Hentry]%lookup_delete_Some. by apply Htable.
Qed.

Lemma dispatch_actor_task_table (state state' : LocalSchedulerState)
    (a a' : SchedulingAlgorithmState) (id : ActorID) (b : bool) :
  dispatch_actor_task state a id = Ok (b, state', a') ->
  actor_table_consistent a -> actor_table_consistent a'.
Proof.
  unfold dispatch_actor_task. intros H Htable.
  apply bind_Ok in H as (_ & _ & H).
  destruct (actor_mapping state !! id); [|done].
  apply bind_Ok in H as (self & _ & H). apply bind_Ok in H as (_ & _ & H).
  destruct (local_actor_infos a !! id) as [entry|] eqn:Hentry; [|done].
  destruct (Htable id entry Hentry) as [Hkey Hsorted].
  destruct (task_queue entry) as [|first_task remaining] eqn:Hqueue;
    [by injection H as _ _ <-|].
  destruct (negb (_ =? _)).
  { apply bind_Ok in H as (_ & _ & H). by injection H as _ _ <-. }
  destruct (negb (worker_available entry)); [by injection H as _ _ <-|].
  apply bind_Ok in H as (counter & _ & H).
  injection H as _ _ <-. intros id' entry'. cbn.
  destruct (decide (id = id')) as [->|Hne].
  - rewrite lookup_insert_eq. intros [= <-]. cbn. split; [done|].
    by destruct Hsorted.
  - rewrite lookup_insert_ne by done. apply Htable.
Qed.

Lemma add_task_to_actor_queue_table (state state' : LocalSchedulerState)
    (a a' : SchedulingAlgorithmState) (s : TaskSpec) (size : Z) (g : bool) :
  add_task_to_actor_queue state a s size g = Ok (state', a') ->
  actor_table_consistent a -> actor_table_consistent a'.
Proof.
  unfold add_task_to_actor_queue. intros H Htable.
  apply bind_Ok in H as (_ & _ & H). apply bind_Ok in H as (a1 & Ha1 & H).
  assert (Htable1 : actor_table_consistent a1).
  { destruct (local_actor_infos a !! TaskSpec_actor_id s); [by simplify_eq|].
    apply bind_Ok in Ha1 as (a2 & Hcreate & Ha1).
    apply bind_Ok in Ha1 as (_ & _ & Ha1). injection Ha1 as <-.
    by eapply create_actor_table. }
  destruct (local_actor_infos a1 !! TaskSpec_actor_id s) as [entry|] eqn:Hentry;
    [|done].
  destruct (Htable1 _ entry Hentry) as [Hkey Hsorted].
  apply bind_Ok in H as (_ & _ & H). injection H as _ <-.
  intros id' entry'. cbn.
  destruct (decide (TaskSpec_actor_id s = id')) as [<-|Hne].
  - rewrite lookup_insert_eq. intros [= <-]. cbn. split; [done|].
    by apply (insert_by_actor_counter_ascending (TaskQueueEntry_init s size)).
  - rewrite lookup_insert_ne by done. apply Htable1.
Qed.

Lemma actor_table_preserved (a a' : SchedulingAlgorithmState) :
  local_actor_infos a' = local_actor_infos a ->
  actor_table_consistent a -> actor_table_consistent a'.
Proof. unfold actor_table_consistent. by intros ->. Qed.

Lemma handle_actor_task_submitted_table (state state' : LocalSchedulerState)
    (a a' : SchedulingAlgorithmState) (s : TaskSpec) (size : Z) :
  handle_actor_task_submitted state a s size = Ok (state', a') ->
  actor_table_consistent a -> actor_table_consistent a'.
Proof.
  unfold handle_actor_task_submitted. intros H Htable.
  apply bind_Ok in H as (_ & _ & H).
  destruct (actor_mapping state !! TaskSpec_actor_id s) as [target|].
  - apply bind_Ok in H as (self & _ & H).
    destruct (DBClientID_equal target self).
    + apply bind_Ok in H as ([s1 a1] & Hadd & H).
      apply bind_Ok in H as ([[b s2] a2] & Hdispatch & H). injection H as <- <-.
      eapply dispatch_actor_task_table; [exact Hdispatch|].
      by eapply add_task_to_actor_queue_table.
    + unfold give_task_to_local_scheduler in H.
      apply bind_Ok in H as (self' & _ & H).
      apply bind_Ok in H as (_ & _ & H). apply bind_Ok in H as (_ & _ & H).
      by injection H as _ <-.
  - by injection H as _ <-.
Qed.

Lemma handle_actor_task_submitted_aligned (state state' : LocalSchedulerState)
    (a a' : SchedulingAlgorithmState) (s : TaskSpec) (size : Z) :
  handle_actor_task_submitted state a s size = Ok (state', a') ->
  cache_aligned a -> cache_aligned a'.
Proof.
  intros H [Hlen Hactors].
  assert (Hactor : TaskSpec_actor_id s <> NIL_ACTOR_ID).
  { unfold handle_actor_task_submitted in H.
    apply bind_Ok in H as (_ & Hcheck%CHECK_Ok%negb_true_iff & _).
    by apply bool_decide_eq_false in Hcheck. }
  apply handle_actor_task_submitted_cache in H as (_ & [(_ & Hc & Hz)|(_ & Hc & Hz)]);
    unfold cache_aligned; rewrite Hc, Hz; [done|].
  rewrite !length_app, Hlen. split; [done|].
  apply Forall_app. split; [done|]. by constructor.
Qed.

(** ** Plain events leave the actors and the cache alone *)

Lemma actors_preserved_refl (a : SchedulingAlgorithmState) : actors_preserved a a.
Proof. by repeat split. Qed.

Lemma actors_preserved_trans (a b c : SchedulingAlgorithmState) :
  actors_preserved a b -> actors_preserved b c -> actors_preserved a c.
Proof. intros (? & ? & ?) (? & ? & ?). repeat split; congruence. Qed.

Lemma dispatch_tasks_loop_actors (rest : list (Cursor * TaskQueueEntry)) :
  forall state a kept,
    actors_preserved a (dispatch_tasks_loop state a kept rest).2.
Proof.
  induction rest as [|node rest IH]; intros state a kept; [done|].
  cbn [dispatch_tasks_loop].
  destruct (last (available_workers a)) as [w|]; [|done].
  destruct (resources_available state); [|done].
  destruct (task_satisfied state (spec node.2)); cbn [negb]; [|apply IH].
  cbv zeta.
  match goal with
  | |- context [dispatch_tasks_loop ?s ?b kept rest] => apply (IH s b kept)
  end.
Qed.

Lemma fetch_missing_dependency_actors (state : LocalSchedulerState)
    (a : SchedulingAlgorithmState) (it : Cursor) (id : ObjectID) :
  actors_preserved a (fetch_missing_dependency state a it id).2.
Proof.
  unfold fetch_missing_dependency. by destruct (remote_objects a !! id).
Qed.

Lemma fetch_missing_dependencies_actors (state state' : LocalSchedulerState)
    (a a' : SchedulingAlgorithmState) (it : Cursor) :
  fetch_missing_dependencies state a it = Ok (state', a') -> actors_preserved a a'.
Proof.
  unfold fetch_missing_dependencies. intros H.
  apply bind_Ok in H as (entry & _ & H).
  match type of H with
  | context [foldl ?body ?init ?l] =>
      assert (Hinv : (fun acc : LocalSchedulerState * SchedulingAlgorithmState * Z =>
                        actors_preserved a acc.1.2)
                     (foldl body init l))
  end.
  { apply foldl_invariant; [|apply actors_preserved_refl].
    intros [[s0 a0] n0] i _ Hkept. cbn in *.
    destruct (TaskSpec_arg_by_ref (spec entry) i); [|done].
    destruct (bool_decide _); [|done].
    pose proof (fetch_missing_dependency_actors s0 a0 it
                  (TaskSpec_arg_id (spec entry) i)) as Hstep.
    destruct (fetch_missing_dependency s0 a0 it _) as [s2 a2]. cbn in *.
    by eapply actors_preserved_trans. }
  match type of H with
  | context [foldl ?body ?init ?l] => destruct (foldl body init l) as [[s1 a1] n]
  end.
  result_inv. exact Hinv.
Qed.

Lemma queue_task_locally_actors (state state' : LocalSchedulerState)
    (a a' : SchedulingAlgorithmState) (s : TaskSpec) (size : Z) (g : bool) :
  queue_task_locally state a s size g = Ok (state', a') -> actors_preserved a a'.
Proof.
  unfold queue_task_locally. destruct (can_run a s).
  - by intros [= _ <-].
  - unfold queue_waiting_task, queue_task, push_back. cbn.
    by intros H%fetch_missing_dependencies_actors.
Qed.

Lemma give_task_to_global_scheduler_actors (state state' : LocalSchedulerState)
    (a a' : SchedulingAlgorithmState) (s : TaskSpec) (size : Z) :
  give_task_to_global_scheduler state a s size = Ok (state', a') ->
  actors_preserved a a'.
Proof.
  unfold give_task_to_global_scheduler.
  destruct (bool_decide (db state = None) || negb (global_scheduler_exists state)).
  - apply queue_task_locally_actors.
  - intros H. apply bind_Ok in H as (_ & _ & H). apply bind_Ok in H as (_ & _ & H).
    by injection H as _ <-.
Qed.

Lemma promote_dependents_actors (deps : list Cursor) (a a' : SchedulingAlgorithmState) :
  for_each promote_dependent a deps = Ok a' -> actors_preserved a a'.
Proof.
  intros Hrun.
  lazymatch goal with Hrun : for_each _ ?init _ = Ok _ |- _ =>
    pose proof (fun Hbody =>
      for_each_invariant (fun b => actors_preserved a b) _ _ Hbody init _
        (actors_preserved_refl a) Hrun) as Hinv
  end.
  apply Hinv. clear.
  intros b it b' _ Hb Hbody.
  eapply actors_preserved_trans; [exact Hb|]. clear Hb.
  unfold promote_dependent in Hbody.
  apply bind_Ok in Hbody as (node & _ & Hbody).
  destruct (can_run b (spec node)); cbn in Hbody; by simplify_eq.
Qed.

Lemma handle_object_removed_actors (state state' : LocalSchedulerState)
    (a a' : SchedulingAlgorithmState) (id : ObjectID) :
  handle_object_removed state a id = Ok (state', a') -> actors_preserved a a'.
Proof.
  unfold handle_object_removed. intros H.
  apply bind_Ok in H as (_ & _ & H). injection H as H.
  rewrite requeue_dependent_tasks_spec in H.
  match type of H with
  | foldl ?body (state, ?a0) ?q = _ =>
      assert (Hinv : (fun r : LocalSchedulerState * SchedulingAlgorithmState =>
                        actors_preserved a r.2) (foldl body (state, a0) q))
  end.
  { apply foldl_invariant; [|done].
    intros [s0 a0] node _ H0.
    apply (foldl_invariant
             (fun r : LocalSchedulerState * SchedulingAlgorithmState =>
                actors_preserved a r.2)); [|exact H0].
    intros [s1 a1] i _ Hkept.
    destruct (TaskSpec_arg_by_ref (spec node.2) i); [|done].
    destruct (ObjectID_equal _ id); [|done].
    eapply actors_preserved_trans; [exact Hkept|apply fetch_missing_dependency_actors]. }
  by rewrite H in Hinv.
Qed.

Lemma handle_plain_actors (e : Event) (state state' : LocalSchedulerState)
    (a a' : SchedulingAlgorithmState) :
  plain_event e ->
  handle e state a = Ok (state', a') ->
  actors_preserved a a'.
Proof.
  intros Hplain.
  assert (Hdispatch : forall s1 a1, actors_preserved a a1 ->
            dispatch_tasks s1 a1 = (state', a') -> actors_preserved a a').
  { intros s1 a1 Ha1 Heq. eapply actors_preserved_trans; [exact Ha1|].
    pose proof (dispatch_tasks_loop_actors (dispatch_task_queue a1) s1 a1 []) as Hrun.
    fold (dispatch_tasks s1 a1) in Hrun. by rewrite Heq in Hrun. }
  destruct e; cbn [handle]; try (by destruct Hplain); intros H.
  - unfold handle_task_submitted in H.
    apply bind_Ok in H as ([s1 a1] & Hq & H). injection H as H.
    apply (Hdispatch s1 a1); [|done].
    destruct (_ && _ && _) in Hq.
    + by injection Hq as _ <-.
    + by eapply give_task_to_global_scheduler_actors.
  - unfold handle_task_scheduled in H.
    apply bind_Ok in H as (_ & _ & H). apply bind_Ok in H as (_ & _ & H).
    apply bind_Ok in H as ([s1 a1] & Hq & H). injection H as H.
    apply (Hdispatch s1 a1); [|done]. by eapply queue_task_locally_actors.
  - unfold handle_worker_available in H.
    apply bind_Ok in H as (_ & _ & H). apply bind_Ok in H as (_ & _ & H).
    apply bind_Ok in H as (_ & _ & H). apply bind_Ok in H as (_ & _ & H).
    injection H as H. by eapply Hdispatch; [|exact H].
  - unfold handle_worker_removed in H.
    apply bind_Ok in H as (_ & _ & H).
    destruct (remove_worker_from_vector (available_workers a) (client_ptr w)) as [ba va].
    cbn in H. apply bind_Ok in H as (_ & _ & H).
    destruct (remove_worker_from_vector (executing_workers a) (client_ptr w)) as [be ve].
    cbn in H. apply bind_Ok in H as (_ & _ & H).
    destruct (remove_worker_from_vector (blocked_workers a) (client_ptr w)) as [bb vb].
    cbn in H. apply bind_Ok in H as (_ & _ & H). apply bind_Ok in H as (_ & _ & H).
    by injection H as _ <-.
  - unfold handle_worker_blocked in H.
    destruct (remove_worker_from_vector (executing_workers a) (client_ptr w)) as [be ve].
    cbn -[dispatch_tasks] in H.
    apply bind_Ok in H as (_ & _ & H). apply bind_Ok in H as (_ & _ & H).
    injection H as H. by eapply Hdispatch; [|exact H].
  - unfold handle_worker_unblocked in H.
    destruct (remove_worker_from_vector (blocked_workers a) (client_ptr w)) as [bb vb].
    cbn in H. apply bind_Ok in H as (_ & _ & H). apply bind_Ok in H as (_ & _ & H).
    by injection H as _ <-.
  - apply handle_object_available_steps in H as (_ & a1 & Hloop & H).
    cbv zeta in Hloop, H. apply promote_dependents_actors in Hloop.
    cbn in Hloop. destruct (decide _).
    + by injection H as _ ->.
    + by eapply Hdispatch.
  - by eapply handle_object_removed_actors.
  - unfold handle_driver_removed in H.
    apply bind_Ok in H as (remote & _ & H). by injection H as _ <-.
  - by injection H as _ <-.
Qed.

(** ** Every handler keeps the actor queues in order and the cache aligned *)

Lemma handle_actors_consistent (e : Event) (state state' : LocalSchedulerState)
    (a a' : SchedulingAlgorithmState) :
  handle e state a = Ok (state', a') ->
  actor_table_consistent a /\ cache_aligned a ->
  actor_table_consistent a' /\ cache_aligned a'.
Proof.
  intros H [Htable Haligned].
  assert (Hplain : plain_event e -> actor_table_consistent a' /\ cache_aligned a').
  { intros Hplain.
    destruct (handle_plain_actors e state state' a a' Hplain H) as (Ha & Hc & Hz).
    split; [by eapply actor_table_preserved|].
    unfold cache_aligned. by rewrite Hc, Hz. }
  assert (Hcache : forall a0 a1,
            cached_submitted_actor_tasks a1 = cached_submitted_actor_tasks a0
            /\ cached_submitted_actor_task_sizes a1
               = cached_submitted_actor_task_sizes a0 ->
            cache_aligned a0 -> cache_aligned a1).
  { intros a0 a1 [Hc Hz]. unfold cache_aligned. by rewrite Hc, Hz. }
  destruct e; cbn [handle] in H; try (by apply Hplain).
  - split; [by eapply handle_actor_task_submitted_table
           |by eapply handle_actor_task_submitted_aligned].
  - unfold handle_actor_creation_notification in H.
    apply bind_Ok in H as (_ & _ & H).
    apply bind_Ok in H as ([s1 a1] & Hrun & H). injection H as _ <-.
    lazymatch type of Hrun with for_each _ ?init _ = Ok _ =>
      pose proof (fun Hbody =>
        for_each_invariant
          (fun sa : LocalSchedulerState * SchedulingAlgorithmState =>
             actor_table_consistent sa.2 /\ cache_aligned sa.2) _ _ Hbody init _
          (conj Htable Haligned) Hrun) as Hinv
    end.
    destruct Hinv as [Htable1 [Hlen1 Hactors1]].
    { intros [s0 a0] i [s2 a2] _ [Ht Hc] Hbody. cbn in *.
      destruct (cached_submitted_actor_tasks a0 !! i); [|done].
      destruct (cached_submitted_actor_task_sizes a0 !! i); [|done].
      split; [by eapply handle_actor_task_submitted_table
             |by eapply handle_actor_task_submitted_aligned]. }
    cbn in *. split; [done|]. split; cbn.
    + rewrite !length_drop. lia.
    + by apply Forall_drop.
  - unfold handle_actor_task_scheduled in H.
    apply bind_Ok in H as (_ & _ & H). apply bind_Ok in H as (_ & _ & H).
    apply bind_Ok in H as (_ & _ & H). apply bind_Ok in H as (s1 & _ & H).
    apply bind_Ok in H as ([s2 a2] & Hadd & H).
    apply bind_Ok in H as ([[b s3] a3] & Hdispatch & H). injection H as <- <-.
    split.
    + eapply dispatch_actor_task_table; [exact Hdispatch|].
      by eapply add_task_to_actor_queue_table.
    + apply (Hcache a2); [by apply dispatch_actor_task_cache in Hdispatch as [_ ?]|].
      apply (Hcache a); [by apply add_task_to_actor_queue_cache in Hadd as [_ ?]|done].
  - unfold handle_actor_worker_available in H.
    apply bind_Ok in H as (_ & _ & H).
    destruct (local_actor_infos a !! client_actor_id w) as [entry|] eqn:Hentry; [|done].
    apply bind_Ok in H as (_ & _ & H). apply bind_Ok in H as (_ & _ & H).
    apply bind_Ok in H as ([[b s3] a3] & Hdispatch & H). injection H as <- <-.
    split.
    + eapply dispatch_actor_task_table; [exact Hdispatch|].
      intros id' entry'. cbn. destruct (decide (client_actor_id w = id')) as [<-|Hne].
      * rewrite lookup_insert_eq. intros [= <-]. cbn. by apply Htable.
      * rewrite lookup_insert_ne by done. apply Htable.
    + eapply Hcache; [by apply dispatch_actor_task_cache in Hdispatch as [_ ?]|done].
  - unfold handle_actor_worker_connect in H.
    apply bind_Ok in H as (a1 & Ha1 & H).
    apply bind_Ok in H as ([[b s3] a3] & Hdispatch & H). injection H as <- <-.
    assert (Ha1' : actor_table_consistent a1 /\ cache_aligned a1).
    { destruct (local_actor_infos a !! id) as [entry|] eqn:Hentry.
      - injection Ha1 as <-. split; [|done].
        intros id' entry'. cbn. destruct (decide (id = id')) as [<-|Hne].
        + rewrite lookup_insert_eq. intros [= <-]. cbn. by apply Htable.
        + rewrite lookup_insert_ne by done. apply Htable.
      - split; [by eapply create_actor_table|].
        unfold create_actor in Ha1. apply bind_Ok in Ha1 as (_ & _ & Ha1).
        by injection Ha1 as <-. }
    destruct Ha1' as [Htable1 Haligned1]. split.
    + by eapply dispatch_actor_task_table.
    + eapply Hcache; [by apply dispatch_actor_task_cache in Hdispatch as [_ ?]|done].
  - split; [by eapply remove_actor_table|].
    unfold handle_actor_worker_disconnect, remove_actor in H.
    destruct (local_actor_infos a !! id); [|done]. by injection H as _ <-.
Qed.

Lemma reachable_actors_consistent (a : SchedulingAlgorithmState) :
  reachable a -> actor_table_consistent a /\ cache_aligned a.
Proof.
  induction 1 as [|e state a0 state' a1 _ IH Hstep].
  - split; [by intros id entry Hentry|]. split; [done|constructor].
  - by eapply handle_actors_consistent.
Qed.

(** X15.  In every reachable state every actor is filed under its own id and
    its task queue is in the order of the actor counters: no task is queued
    behind a task with a greater counter. *)
Theorem actor_queues_in_counter_order (a : SchedulingAlgorithmState) :
  reachable a ->
  forall id entry,
    local_actor_infos a !! id = Some entry ->
    actor_id entry = id /\ counters_ascending (task_queue entry).
Proof. intros [Htable _]%reachable_actors_consistent. exact Htable. Qed.

(** X16.  In every reachable state the array of cached actor tasks and the
    array of their sizes have the same length, and every cached task has an
    actor: the two checks on which a replay of the cache starts, in
    [handle_actor_creation_notification] and [handle_actor_task_submitted],
    cannot fail. *)
Theorem cached_actor_tasks_aligned (a : SchedulingAlgorithmState) :
  reachable a ->
  length (cached_submitted_actor_tasks a) = length (cached_submitted_actor_task_sizes a)
  /\ (forall s, s ∈ cached_submitted_actor_tasks a ->
        CHECK (negb (ActorID_equal (TaskSpec_actor_id s) NIL_ACTOR_ID)) = Ok tt)
  /\ CHECK (bool_decide (length (cached_submitted_actor_tasks a)
                         = length (cached_submitted_actor_task_sizes a)))
     = Ok tt.
Proof.
  intros [_ [Hlen Hactors]]%reachable_actors_consistent.
  split; [done|]. split.
  - intros s Hs. rewrite Forall_forall in Hactors. specialize (Hactors s Hs).
    unfold ActorID_equal, UniqueID_equal. by rewrite bool_decide_eq_false_2.
  - by rewrite bool_decide_eq_true_2.
Qed.

(** ** Whether a task can run *)

(** X17.  [can_run] answers whether every by-reference argument of the task
    is a key of [local_objects]: it is true exactly when all are, and false
    exactly when one is missing; arguments passed by value play no part. *)
Theorem can_run_iff_arguments_local (a : SchedulingAlgorithmState) (s : TaskSpec) :
  (can_run a s = true
   <-> forall id, ArgByRef id ∈ spec_args s -> is_Some (local_objects a !! id))
  /\ (can_run a s = false
      <-> exists id, ArgByRef id ∈ spec_args s /\ local_objects a !! id = None).
Proof. split; [apply can_run_iff|apply can_run_false_iff]. Qed.

(** ** The visit of the dependent tasks *)

Lemma promote_dependents_not_fatal (deps : list Cursor) :
  forall a, for_each promote_dependent a deps <> Fatal.
Proof.
  induction deps as [|it deps IH]; intros a; [done|].
  cbn [for_each]. rewrite promote_dependent_eq. unfold deref.
  destruct (list_find _ (waiting_task_queue a)) as [[i node]|]; [|done].
  cbn [mbind result_bind].
  destruct (can_run a (spec node.2)); cbn [push_back mbind result_bind]; apply IH.
Qed.

(** X18.  When an iterator is listed twice among the dependent tasks of an
    object and its task misses no other object, [handle_object_available]
    for that object moves the task to the dispatch queue, erases its node at
    the first visit and dereferences the erased iterator at the second: the
    outcome is undefined.  A waiting task that takes the object twice by
    reference is registered that way, as [example_twice_state] shows. *)
Theorem handle_object_available_revisits_erased_node (state : LocalSchedulerState)
    (a : SchedulingAlgorithmState) (id : ObjectID) (entry : ObjectEntry)
    (it : Cursor) (node : TaskQueueEntry) (l1 l2 l3 : list Cursor) :
  reachable a ->
  remote_objects a !! id = Some entry ->
  dependent_tasks entry = l1 ++ it :: l2 ++ it :: l3 ->
  (it, node) ∈ waiting_task_queue a ->
  (forall id', ArgByRef id' ∈ spec_args (spec node) ->
               id' = id \/ is_Some (local_objects a !! id')) ->
  handle_object_available state a id = Undefined.
Proof.
  intros Hreach%reachable_consistent Hentry Hdeps Hnode Hothers.
  destruct Hreach as [[Hnodup _] Htables _ _ _ _].
  assert (Hlocal : local_objects a !! id = None)
    by (destruct (Htables id); congruence).
  unfold handle_object_available. rewrite Hentry.
  cbn [local_objects set_remote_objects]. rewrite Hlocal.
  rewrite (bool_decide_eq_true_2 (@None ObjectEntry = None)) by done.
  cbn [CHECK mbind result_bind].
  rewrite bool_decide_eq_false_2 by (rewrite Hdeps; by destruct l1).
  cbn [negb].
  set (a0 := set_local_objects _ _).
  assert (Hcan : can_run a0 (spec node) = true).
  { apply can_run_iff. intros id' Htakes. cbn.
    destruct (decide (id = id')) as [->|Hne];
      [rewrite lookup_insert_eq; by eexists|].
    rewrite lookup_insert_ne by done.
    by destruct (Hothers id' Htakes) as [->|Hsome]. }
  destruct (for_each promote_dependent a0 (dependent_tasks entry)) as [a1| |] eqn:Hrun;
    [|by destruct (promote_dependents_not_fatal _ _ Hrun)|done].
  exfalso. rewrite Hdeps in Hrun.
  replace (l1 ++ it :: l2 ++ it :: l3) with ((l1 ++ [it]) ++ l2 ++ it :: l3) in Hrun
    by (by rewrite <- app_assoc).
  rewrite for_each_app in Hrun. apply bind_Ok in Hrun as (a2 & Hfirst & Hrun).
  rewrite for_each_app in Hrun. apply bind_Ok in Hrun as (a3 & Hmiddle & Hrun).
  cbn [for_each] in Hrun. apply bind_Ok in Hrun as (a4 & Hsecond & _).
  apply promote_dependents_spec in Hfirst
    as (Hlocal2 & _ & _ & Hsub2 & Hwaiting2 & _); [|done].
  apply promote_dependents_spec in Hmiddle as (_ & _ & _ & Hsub3 & _);
    [|by eapply sublist_nodes_unique].
  rewrite promote_dependent_eq in Hsecond.
  apply bind_Ok in Hsecond as (node' & Hnode'%deref_Ok & _).
  assert (Hin2 : (it, node') ∈ waiting_task_queue a2)
    by (by eapply elem_of_sublist).
  apply Hwaiting2 in Hin2 as [Hin0 Hkept]. cbn in Hin0.
  assert (node' = node) by (by eapply node_unique). subst node'.
  apply Hkept. split; [|done]. cbn. apply elem_of_app. right. by left.
Qed.

(** X19.  In every reachable state [handle_object_available] returns for an
    object that is not local when no iterator is listed twice among the tasks
    that depend on it; for an object that is local it fails its check. *)
Theorem handle_object_available_returns (state : LocalSchedulerState)
    (a : SchedulingAlgorithmState) (id : ObjectID) :
  reachable a ->
  (is_Some (local_objects a !! id) -> handle_object_available state a id = Fatal)
  /\ (local_objects a !! id = None ->
      NoDup (from_option dependent_tasks [] (remote_objects a !! id)) ->
      exists state' a', handle_object_available state a id = Ok (state', a')).
Proof.
  intros Hreach%reachable_consistent.
  destruct Hreach as [[Hnodup _] Htables Hdeps _ _ _]. split.
  - intros [found Hfound]. unfold handle_object_available.
    destruct (remote_objects a !! id); cbn [local_objects set_remote_objects];
      rewrite Hfound; by rewrite (bool_decide_eq_false_2 (Some found = None)).
  - intros Hlocal Hdistinct.
    assert (Hloop : forall deps a0,
              NoDup (waiting_task_queue a0).*1 -> NoDup deps ->
              (forall it, it ∈ deps -> exists node, (it, node) ∈ waiting_task_queue a0) ->
              exists a1, for_each promote_dependent a0 deps = Ok a1).
    { induction deps as [|it deps IH]; intros a0 Hnodup0 Hdeps0 Hnodes;
        [by eexists|].
      apply NoDup_cons in Hdeps0 as [Hfresh Hdeps0].
      destruct (Hnodes it) as [node Hnode]; [by left|].
      cbn [for_each].
      destruct (promote_dependent a0 it) as [a1| |] eqn:Hstep.
      - cbn [mbind result_bind].
        apply promote_dependent_step in Hstep as (_ & _ & _ & Hsub & Hwaiting & _);
          [|done].
        apply IH; [by eapply sublist_nodes_unique|done|].
        intros it' Hit'. destruct (Hnodes it') as [node' Hnode']; [by right|].
        exists node'. apply Hwaiting. split; [done|].
        intros [Heq _]. cbn in Heq. by subst it'.
      - rewrite promote_dependent_eq in Hstep.
        rewrite (deref_elem_of _ _ _ Hnodup0 Hnode) in Hstep.
        cbn [mbind result_bind] in Hstep.
        by destruct (can_run a0 (spec node)).
      - rewrite promote_dependent_eq in Hstep.
        rewrite (deref_elem_of _ _ _ Hnodup0 Hnode) in Hstep.
        cbn [mbind result_bind] in Hstep.
        by destruct (can_run a0 (spec node)). }
    unfold handle_object_available.
    destruct (remote_objects a !! id) as [found|] eqn:Hfound.
    + cbn [local_objects set_remote_objects]. rewrite Hlocal.
      rewrite (bool_decide_eq_true_2 (@None ObjectEntry = None)) by done.
      cbn [CHECK mbind result_bind].
      destruct (Hdeps id found Hfound) as (_ & _ & Hnodes).
      destruct (negb (bool_decide (dependent_tasks found = [])));
        [|by eexists _, _].
      match goal with
      | |- context [for_each promote_dependent ?a0 _] =>
          destruct (Hloop (dependent_tasks found) a0) as [a1 ->]
      end; try done.
      { intros it Hit. destruct (Hnodes it Hit) as (node & Hnode & _). by exists node. }
      cbn [mbind result_bind]. destruct (dispatch_tasks state a1). by eexists _, _.
    + rewrite Hlocal.
      rewrite (bool_decide_eq_true_2 (@None ObjectEntry = None)) by done.
      cbn. by eexists _, _.
Qed.

(** ** Notifications about objects *)

Lemma new_effects_app (state state' : LocalSchedulerState) (new : list Effect) :
  effects state' = effects state ++ new -> new_effects state state' = new.
Proof. intros H. unfold new_effects. by rewrite H, drop_app_length. Qed.

Lemma handle_object_available_local (state : LocalSchedulerState)
    (a : SchedulingAlgorithmState) (id : ObjectID) :
  is_Some (local_objects a !! id) -> handle_object_available state a id = Fatal.
Proof.
  intros [found Hfound]. unfold handle_object_available.
  destruct (remote_objects a !! id); cbn [local_objects set_remote_objects];
    rewrite Hfound; by rewrite (bool_decide_eq_false_2 (Some found = None)).
Qed.

Lemma handle_object_available_makes_local (state state' : LocalSchedulerState)
    (a a' : SchedulingAlgorithmState) (id : ObjectID) :
  handle_object_available state a id = Ok (state', a') ->
  is_Some (local_objects a' !! id).
Proof.
  destruct (remote_objects a !! id) as [found|] eqn:Hfound.
  - intros H. exists found. by eapply handle_object_available_stores_found.
  - unfold handle_object_available. rewrite Hfound. intros H.
    apply bind_Ok in H as (_ & _ & H). cbn in H. injection H as <- <-.
    cbn. rewrite lookup_insert_eq. by eexists.
Qed.

(** X20.  An object notification cannot be handled twice in a row: after
    [handle_object_available] has returned for an object, a second call for
    the same object fails its check that the object is not local, and after
    [handle_object_removed] has returned, a second call fails its check that
    the object is local. *)
Theorem object_notification_not_repeatable (e : Event)
    (state state' state2 : LocalSchedulerState) (a a' : SchedulingAlgorithmState)
    (id : ObjectID) :
  reachable a ->
  e = object_available id \/ e = object_removed id ->
  handle e state a = Ok (state', a') ->
  handle e state2 a' = Fatal.
Proof.
  intros Hreach%reachable_consistent [->| ->]; cbn [handle]; intros H.
  - by eapply handle_object_available_local, handle_object_available_makes_local.
  - destruct Hreach as [_ Htables _ _ _ _].
    assert (Hlocal : is_Some (local_objects a !! id)).
    { unfold handle_object_removed in H. apply bind_Ok in H as (u & Hcheck & _).
      apply CHECK_Ok in Hcheck. by apply bool_decide_eq_true in Hcheck. }
    assert (Hremote : remote_objects a !! id = None).
    { destruct (Htables id) as [Hnone|Hnone]; [|done].
      destruct Hlocal as [found Hfound]. congruence. }
    rewrite (handle_object_removed_spec state a id Hlocal Hremote) in H.
    assert (Hgone : local_objects a' !! id = None).
    { destruct (mentions id _); injection H as _ <-; cbn; apply lookup_delete_eq. }
    unfold handle_object_removed. rewrite Hgone.
    by rewrite (bool_decide_eq_false_2 (is_Some None)) by (by intros [? ?]).
Qed.

(** X21.  In every reachable state [handle_object_removed] fails for an object
    that is not local and returns for one that is.  It then takes the object
    out of [local_objects]; the nodes of the dispatch queue whose task takes
    the object leave it, the others stay in their order, and the tasks that
    left are appended to the waiting queue, in their order, under fresh
    iterators.  If a task of the new waiting queue takes the object, the
    object is made remote, with one iterator per by-reference occurrence, and
    one fetch for it is requested if the store is connected; otherwise the
    table of remote objects and the collaborator state are as before. *)
Theorem handle_object_removed_demotes (state : LocalSchedulerState)
    (a : SchedulingAlgorithmState) (id : ObjectID) :
  reachable a ->
  (local_objects a !! id = None -> handle_object_removed state a id = Fatal)
  /\ (is_Some (local_objects a !! id) ->
      exists state' a',
        handle_object_removed state a id = Ok (state', a')
        /\ local_objects a' = delete id (local_objects a)
        /\ dispatch_task_queue a'
           = filter (fun node => ~ depends_on id node) (dispatch_task_queue a)
        /\ waiting_task_queue a'
           = waiting_task_queue a
             ++ renumber (next_node a) (filter (depends_on id) (dispatch_task_queue a))
        /\ remote_objects a'
           = (if decide (mentions id (waiting_task_queue a') = [])
              then remote_objects a
              else <[id := {| object_id := id;
                              dependent_tasks := mentions id (waiting_task_queue a') |}]>
                     (remote_objects a))
        /\ new_effects state state'
           = (if decide (mentions id (waiting_task_queue a') = []) then []
              else if plasma_connected state then [PlasmaFetch [id]] else [])).
Proof.
  intros Hreach%reachable_consistent. destruct Hreach as [_ Htables _ _ _ _]. split.
  - intros Hnone. unfold handle_object_removed. rewrite Hnone.
    by rewrite (bool_decide_eq_false_2 (is_Some None)) by (by intros [? ?]).
  - intros Hlocal.
    assert (Hremote : remote_objects a !! id = None).
    { destruct (Htables id) as [Hnone|Hnone]; [|done].
      destruct Hlocal as [found Hfound]. congruence. }
    rewrite (handle_object_removed_spec state a id Hlocal Hremote).
    cbv zeta.
    destruct (mentions id (waiting_task_queue a ++ _)) as [|it cursors] eqn:Hmentions;
      eexists _, _; (split; [reflexivity|]);
      cbn [waiting_task_queue dispatch_task_queue local_objects remote_objects
           set_dispatch set_waiting set_next_node set_local_objects
           set_remote_objects];
      rewrite Hmentions.
    + rewrite !decide_True by done. repeat split.
      apply new_effects_app. by rewrite app_nil_r.
    + rewrite !decide_False by done. repeat split.
      destruct (plasma_connected state); apply new_effects_app; [done|].
      by rewrite app_nil_r.
Qed.

(** ** The fetch timer *)

Lemma reconstruct_objects_effects (ids : list ObjectID) :
  forall state,
    effects (foldl reconstruct_object state ids)
    = effects state ++ map ReconstructObject ids.
Proof.
  induction ids as [|id ids IH]; intros state; cbn [foldl map];
    [by rewrite app_nil_r|].
  rewrite IH. cbn. by rewrite <- app_assoc.
Qed.

Lemma entries_filed_keys (l : list (ObjectID * ObjectEntry)) :
  (forall kv, kv ∈ l -> object_id kv.2 = kv.1) ->
  map (fun kv : ObjectID * ObjectEntry => object_id kv.2) l = l.*1.
Proof.
  induction l as [|kv l IH]; intros Hfiled; [done|].
  cbn. rewrite IH by (intros ? ?; apply Hfiled; by right).
  by rewrite Hfiled by (by left).
Qed.

(** X22.  In every reachable state the fetch timer, when the store is
    connected, requests in one fetch the keys of [remote_objects], each once,
    and then the reconstruction of each of them, in the order of the fetch;
    when the store is not connected it only logs that. *)
Theorem fetch_object_timeout_handler_requests (state : LocalSchedulerState)
    (a : SchedulingAlgorithmState) :
  reachable a ->
  exists ids,
    NoDup ids
    /\ (forall id, id ∈ ids <-> is_Some (remote_objects a !! id))
    /\ new_effects state (fetch_object_timeout_handler state a)
       = (if plasma_connected state
          then PlasmaFetch ids :: map ReconstructObject ids
          else [LogInfo "Local scheduler is not connected to a object store manager"]).
Proof.
  intros Hreach%reachable_consistent. destruct Hreach as [_ _ Hdeps _ _ _].
  exists (map_to_list (remote_objects a)).*1.
  split; [apply NoDup_fst_map_to_list|]. split.
  - intros id. rewrite list_elem_of_fmap. split.
    + intros ([k v] & -> & Hin%elem_of_map_to_list). by eexists.
    + intros [v Hv]. exists (id, v). split; [done|by apply elem_of_map_to_list].
  - unfold fetch_object_timeout_handler.
    destruct (plasma_connected state); cbn [negb]; [|by apply new_effects_app].
    cbv zeta. rewrite entries_filed_keys.
    + apply new_effects_app. rewrite reconstruct_objects_effects. cbn.
      by rewrite <- app_assoc.
    + intros [k v] Hin%elem_of_map_to_list.
      by destruct (Hdeps k v Hin) as (Hid & _).
Qed.

(** ** Where a plain task goes *)

Lemma dispatch_tasks_places (state : LocalSchedulerState)
    (a : SchedulingAlgorithmState) (node : Cursor * TaskQueueEntry) :
  node ∈ dispatch_task_queue a ->
  node ∈ dispatch_task_queue (dispatch_tasks state a).2
  \/ exists w, AssignTask (spec node.2) (task_spec_size node.2) (Some w)
               ∈ new_effects state (dispatch_tasks state a).1.
Proof.
  intros Hnode. unfold dispatch_tasks.
  destruct (dispatch_tasks_loop_trace (dispatch_task_queue a) state a [])
    as (assigned & started & Heff & _ & _ & _ & _ & _ & Hperm & _).
  cbv zeta in *. cbn [app] in Hperm. rewrite Hperm in Hnode.
  apply elem_of_app in Hnode as [Hnode|Hnode]; [by left|right].
  apply list_elem_of_fmap in Hnode as ([node' w] & -> & Hin).
  exists w. rewrite (new_effects_app _ _ _ Heff).
  apply elem_of_app. left. apply list_elem_of_In, in_flat_map.
  exists (node', w). split; [by apply list_elem_of_In|by left].
Qed.

Lemma new_effects_later (s0 s1 s2 : LocalSchedulerState) (e : Effect) :
  (exists new, effects s1 = effects s0 ++ new) ->
  (exists new, effects s2 = effects s1 ++ new) ->
  e ∈ new_effects s0 s1 \/ e ∈ new_effects s1 s2 ->
  e ∈ new_effects s0 s2.
Proof.
  intros [l1 H1] [l2 H2] He.
  rewrite (new_effects_app _ _ _ H1), (new_effects_app _ _ _ H2) in He.
  rewrite (new_effects_app s0 s2 (l1 ++ l2)) by (by rewrite H2, H1, app_assoc).
  by apply elem_of_app.
Qed.

Lemma dispatch_tasks_extends (state : LocalSchedulerState)
    (a : SchedulingAlgorithmState) :
  exists new, effects (dispatch_tasks state a).1 = effects state ++ new.
Proof.
  unfold dispatch_tasks.
  destruct (dispatch_tasks_loop_trace (dispatch_task_queue a) state a [])
    as (assigned & started & Heff & _).
  cbv zeta in Heff. by eexists.
Qed.

Lemma queued_locally_places (state state' s1 : LocalSchedulerState)
    (a a' a1 : SchedulingAlgorithmState) (s : TaskSpec) (size : Z) (g : bool) :
  queues_consistent a ->
  queue_task_locally state a s size g = Ok (s1, a1) ->
  dispatch_tasks s1 a1 = (state', a') ->
  (next_node a, TaskQueueEntry_init s size) ∈ waiting_task_queue a'
  \/ (next_node a, TaskQueueEntry_init s size) ∈ dispatch_task_queue a'
  \/ exists w, AssignTask s size (Some w) ∈ new_effects state state'.
Proof.
  intros Hcons Hqueue Hdispatch.
  destruct (queue_task_locally_consistent state a s size g Hcons)
    as (s1' & a1' & Hqueue' & _ & Hwhere).
  rewrite Hqueue in Hqueue'. injection Hqueue' as <- <-.
  pose proof (queue_task_locally_logs _ _ _ _ _ _ _ Hqueue) as (new & Hnew & _).
  destruct (can_run a s).
  - destruct Hwhere as [Hdisp _].
    destruct (dispatch_tasks_places s1 a1 (next_node a, TaskQueueEntry_init s size))
      as [Hkept|[w Hassigned]].
    + rewrite Hdisp. apply elem_of_app. right. by left.
    + right. left. by rewrite Hdispatch in Hkept.
    + right. right. exists w. rewrite Hdispatch in Hassigned.
      apply (new_effects_later state s1 state'); [by eexists| |by right].
      pose proof (dispatch_tasks_extends s1 a1) as Hext. by rewrite Hdispatch in Hext.
  - destruct Hwhere as [Hwait _]. left.
    pose proof (dispatch_tasks_loop_tables (dispatch_task_queue a1) s1 a1 [])
      as (Hsame & _).
    cbv zeta in Hsame. fold (dispatch_tasks s1 a1) in Hsame.
    rewrite Hdispatch in Hsame. cbn in Hsame. rewrite Hsame, Hwait.
    apply elem_of_app. right. by left.
Qed.

(** X23.  A plain task is never dropped.  When [handle_task_submitted] or
    [handle_task_scheduled] returns in a reachable state, the task is in the
    waiting queue or in the dispatch queue under the iterator that was next,
    or it has been assigned to a worker, or, for a submitted task only, it has been
    written to the task table for the global scheduler, which needs the
    database and a global scheduler. *)
Theorem plain_task_is_placed (e : Event) (state state' : LocalSchedulerState)
    (a a' : SchedulingAlgorithmState) (s : TaskSpec) (size : Z) :
  reachable a ->
  e = task_submitted s size \/ e = task_scheduled s size ->
  handle e state a = Ok (state', a') ->
  (next_node a, TaskQueueEntry_init s size) ∈ waiting_task_queue a'
  \/ (next_node a, TaskQueueEntry_init s size) ∈ dispatch_task_queue a'
  \/ (exists w, AssignTask s size (Some w) ∈ new_effects state state')
  \/ (e = task_submitted s size
      /\ is_Some (db state) /\ global_scheduler_exists state = true
      /\ TaskTableAdd {| task_spec := s; task_size := size;
                         task_status := TASK_STATUS_WAITING;
                         task_local_scheduler := NIL_ID |}
         ∈ new_effects state state').
Proof.
  intros Hreach%reachable_consistent [->| ->]; cbn [handle]; intros H.
  - unfold handle_task_submitted in H.
    apply bind_Ok in H as ([s1 a1] & Hqueue & H). injection H as H.
    destruct (_ && _ && can_run a s) eqn:Hcond.
    + apply andb_true_iff in Hcond as [_ Hcan].
      assert (Hlocal : queue_task_locally state a s size false = Ok (s1, a1))
        by (unfold queue_task_locally; by rewrite Hcan).
      destruct (queued_locally_places _ _ _ _ _ _ _ _ _ Hreach Hlocal H)
        as [?|[?|?]]; auto.
    + unfold give_task_to_global_scheduler in Hqueue.
      destruct (bool_decide (db state = None) || negb (global_scheduler_exists state))
        eqn:Hglobal.
      * destruct (queued_locally_places _ _ _ _ _ _ _ _ _ Hreach Hqueue H)
          as [?|[?|?]]; auto.
      * apply orb_false_iff in Hglobal as [Hdb Hexists].
        apply bool_decide_eq_false in Hdb. apply negb_false_iff in Hexists.
        apply bind_Ok in Hqueue as (_ & _ & Hqueue).
        apply bind_Ok in Hqueue as (_ & _ & Hqueue). injection Hqueue as <- <-.
        right. right. right. split; [done|].
        split; [by destruct (db state); [eexists|]|]. split; [done|].
        pose proof (dispatch_tasks_extends (emit state (TaskTableAdd
          {| task_spec := s; task_size := size; task_status := TASK_STATUS_WAITING;
             task_local_scheduler := NIL_ID |})) a) as Hext.
        rewrite H in Hext. cbn [fst] in Hext.
        eapply (new_effects_later state (emit state _) state');
          [by eexists [_]|exact Hext|].
        left. rewrite (new_effects_app state (emit state _) [_]) by done. by left.
  - unfold handle_task_scheduled in H.
    apply bind_Ok in H as (_ & _ & H). apply bind_Ok in H as (_ & _ & H).
    apply bind_Ok in H as ([s1 a1] & Hqueue & H). injection H as H.
    destruct (queued_locally_places _ _ _ _ _ _ _ _ _ Hreach Hqueue H)
      as [?|[?|?]]; auto.
Qed.

(** ** Actors that come and go *)

Lemma free_entries_effects (tasks : list TaskQueueEntry) :
  forall state,
    effects (foldl TaskQueueEntry_free state tasks)
    = effects state ++ map (fun task => FreeSpec (spec task)) tasks.
Proof.
  induction tasks as [|task tasks IH]; intros state; cbn [foldl map];
    [by rewrite app_nil_r|].
  rewrite IH. cbn. by rewrite <- app_assoc.
Qed.

(** X24.  [handle_actor_worker_disconnect] fails for an actor that has no
    entry in [local_actor_infos].  For one that has, it deletes the entry and
    leaves the rest of the algorithm state as it is; it logs a warning when
    tasks were still queued and then the release of each queued
    specification, once, in queue order; a second disconnect of the actor
    fails. *)
Theorem handle_actor_worker_disconnect_frees_queue (state : LocalSchedulerState)
    (a : SchedulingAlgorithmState) (id : ActorID) (entry : LocalActorInfo) :
  local_actor_infos a !! id = Some entry ->
  exists state',
    let a' := set_local_actor_infos a (delete id (local_actor_infos a)) in
    handle_actor_worker_disconnect state a id = Ok (state', a')
    /\ new_effects state state'
       = (if decide (task_queue entry = []) then []
          else [LogWarn "Removing actor with remaining tasks."])
         ++ map (fun task => FreeSpec (spec task)) (task_queue entry)
    /\ (forall state2, handle_actor_worker_disconnect state2 a' id = Fatal).
Proof.
  intros Hentry. unfold handle_actor_worker_disconnect, remove_actor.
  rewrite Hentry. cbv zeta. eexists. split; [reflexivity|]. split.
  - apply new_effects_app. rewrite free_entries_effects.
    destruct (task_queue entry) as [|task tasks]; [done|].
    rewrite bool_decide_eq_true_2 by (cbn; lia).
    rewrite decide_False by done. cbn. by rewrite <- app_assoc.
  - intros state2. cbn. by rewrite lookup_delete_eq.
Qed.

(** X25.  The connection of the worker of an actor that had no entry,
    followed by its disconnection, leaves the collaborator state and the
    algorithm state as they were. *)
Theorem actor_worker_connect_then_disconnect (state state1 : LocalSchedulerState)
    (a a1 : SchedulingAlgorithmState) (id : ActorID) (w : ClientPtr) :
  local_actor_infos a !! id = None ->
  handle_actor_worker_connect state a id w = Ok (state1, a1) ->
  state1 = state
  /\ local_actor_infos a1 !! id
     = Some {| actor_id := id; task_counter := 0; task_queue := [];
               worker := Some w; worker_available := false |}
  /\ handle_actor_worker_disconnect state1 a1 id = Ok (state, a).
Proof.
  intros Hnone H. unfold handle_actor_worker_connect in H. rewrite Hnone in H.
  unfold create_actor in H. rewrite bool_decide_eq_true_2 in H by done.
  cbn [CHECK mbind result_bind] in H.
  unfold dispatch_actor_task in H.
  apply bind_Ok in H as ([[dispatched s2] a2] & H & Hret). injection Hret as <- <-.
  apply bind_Ok in H as (_ & _ & H).
  destruct (actor_mapping state !! id); [|done].
  apply bind_Ok in H as (self & _ & H). apply bind_Ok in H as (_ & _ & H).
  cbn [local_actor_infos set_local_actor_infos] in H.
  rewrite lookup_insert_eq in H. cbn in H. injection H as _ <- <-.
  split; [done|]. split; [cbn; by rewrite lookup_insert_eq|].
  unfold handle_actor_worker_disconnect, remove_actor. cbn.
  rewrite lookup_insert_eq. cbn. do 2 f_equal.
  rewrite delete_insert_id by done. by destruct a.
Qed.

(** ** What the scheduler reports *)

Lemma length_filter_split {A : Type} (P : A -> Prop) `{!forall x, Decision (P x)}
    (l : list A) :
  (length (filter P l) + length (filter (fun x => ~ P x) l) = length l)%nat.
Proof.
  induction l as [|x l IH]; [done|].
  rewrite !filter_cons. destruct (decide (P x)) as [Hx|Hx].
  - rewrite decide_False by tauto. cbn. lia.
  - rewrite decide_True by done. cbn. lia.
Qed.

(** X26.  One run of [dispatch_tasks] lowers the queue length and the number
    of available workers that [provide_scheduler_info] reports by the same
    number, the number of assignments it logs; the reported queue length is
    the sum of [num_waiting_tasks] and [num_dispatch_tasks]. *)
Theorem provide_scheduler_info_after_dispatch (state : LocalSchedulerState)
    (a : SchedulingAlgorithmState) :
  let r := dispatch_tasks state a in
  let before := provide_scheduler_info state a in
  let after := provide_scheduler_info r.1 r.2 in
  exists assigned started,
    effects r.1 = effects state ++ flat_map assignment_effects assigned ++ started
    /\ Forall (fun e => e = StartWorker NIL_ACTOR_ID) started
    /\ task_queue_length after = task_queue_length before - Z.of_nat (length assigned)
    /\ info_available_workers after
       = info_available_workers before - Z.of_nat (length assigned)
    /\ task_queue_length after = num_waiting_tasks r.2 + num_dispatch_tasks r.2.
Proof.
  cbv zeta. unfold dispatch_tasks.
  destruct (dispatch_tasks_loop_trace (dispatch_task_queue a) state a [])
    as (assigned & started & Heff & Hstart & Havail & _ & _ & _ & Hperm & _).
  destruct (dispatch_tasks_loop_tables (dispatch_task_queue a) state a [])
    as (Hwaiting & _).
  cbv zeta in *. cbn [app] in Hperm.
  exists assigned, started. split; [done|]. split.
  { destruct Hstart as [->|[-> _]]; [done|]. by constructor. }
  unfold provide_scheduler_info, num_waiting_tasks, num_dispatch_tasks.
  cbn [task_queue_length info_available_workers].
  apply Permutation_length in Hperm. apply (f_equal length) in Havail.
  rewrite !length_app, ?length_reverse, !length_fmap in *.
  rewrite Hwaiting. repeat split; lia.
Qed.

(** X27.  In every reachable state the removal of an object changes nothing
    of what [provide_scheduler_info] reports: the tasks only move from one
    queue to the other. *)
Theorem provide_scheduler_info_after_object_removed
    (state state' : LocalSchedulerState) (a a' : SchedulingAlgorithmState)
    (id : ObjectID) :
  reachable a ->
  handle_object_removed state a id = Ok (state', a') ->
  provide_scheduler_info state' a' = provide_scheduler_info state a.
Proof.
  intros Hreach%reachable_consistent H. destruct Hreach as [_ Htables _ _ _ _].
  assert (Hlocal : is_Some (local_objects a !! id)).
  { unfold handle_object_removed in H. apply bind_Ok in H as (u & Hcheck & _).
    apply CHECK_Ok in Hcheck. by apply bool_decide_eq_true in Hcheck. }
  assert (Hremote : remote_objects a !! id = None).
  { destruct (Htables id) as [Hnone|Hnone]; [|done].
    destruct Hlocal as [found Hfound]. congruence. }
  rewrite (handle_object_removed_spec state a id Hlocal Hremote) in H.
  cbv zeta in H.
  pose proof (length_filter_split (depends_on id) (dispatch_task_queue a)) as Hsplit.
  assert (Hcount :
    Z.of_nat (length (waiting_task_queue a
                      ++ renumber (next_node a)
                           (filter (depends_on id) (dispatch_task_queue a))))
    + Z.of_nat (length (filter (fun node => ~ depends_on id node)
                          (dispatch_task_queue a)))
    = Z.of_nat (length (waiting_task_queue a))
      + Z.of_nat (length (dispatch_task_queue a))).
  { rewrite length_app, length_renumber. lia. }
  destruct (mentions id _); injection H as <- <-; unfold provide_scheduler_info;
    cbn [waiting_task_queue dispatch_task_queue available_workers
         set_dispatch set_waiting set_next_node set_local_objects set_remote_objects];
    rewrite Hcount; [done|].
  by destruct (plasma_connected state).
Qed.

End Algorithm.

(** The amended C1 at an actor whose head task is next and whose worker is
    available. *)
Lemma dispatch_actor_task_correct_witness :
  dispatch_actor_task_behaviour 2
    (with_actor_mapping example_state {[ 5%N := 9%N ]})
    (example_actor_state [example_actor_task 0; example_actor_task 1] true) 5%N.
Proof.
  apply (dispatch_actor_task_correct 2
           (with_actor_mapping example_state {[ 5%N := 9%N ]})
           (example_actor_state [example_actor_task 0; example_actor_task 1] true)
           5%N 9%N).
  - vm_compute. discriminate.
  - reflexivity.
  - reflexivity.
Defined.

(** C1 as stated fails: an actor that has a [LocalActorInfo] with an empty
    queue, but no entry in the actor mapping, makes [dispatch_actor_task] fail
    its check instead of returning false. *)
Lemma dispatch_actor_task_unmapped_actor :
  ~ dispatch_actor_task_behaviour 2 example_state (example_actor_state [] true) 5%N.
Proof.
  intros H.
  destruct (H (example_actor_info [] true) eq_refl) as [Hempty _].
  specialize (Hempty eq_refl). vm_compute in Hempty. discriminate.
Qed.

(** The increment of C1 at the last counter: the head task is next and the
    worker is available, and [task_counter] cannot be incremented. *)
Example dispatch_actor_task_counter_overflow :
  dispatch_actor_task 2 (with_actor_mapping example_state {[ 5%N := 9%N ]})
    example_last_counter_state 5%N
  = Undefined.
Proof. vm_compute. reflexivity. Qed.

(** C2 on the queue [big; small] with one CPU left: the big task stays at the
    head, the small one goes to worker 7. *)
Lemma dispatch_tasks_skips_unfit_witness :
  dispatch_tasks 2 example_state example_dispatch_state
  = (emit (emit (set_dynamic_resources example_state [0; 0])
             (AssignTask (spec example_small_node.2) 64 (Some 7%N)))
          (FreeSpec (spec example_small_node.2)),
     set_executing_workers
       (set_available_workers
          (set_dispatch example_dispatch_state [example_big_node]) [])
       [7%N]).
Proof.
  refine (eq_trans
    (proj2 (dispatch_tasks_skips_unfit 2 example_state example_dispatch_state
              [example_big_node] [] example_small_node [] 7%N eq_refl _ _) _ eq_refl)
    _).
  - exists 0%nat. split; [lia|reflexivity].
  - constructor; [|constructor]. exists 0%nat. split; [lia|reflexivity].
  - intros [|[|k]] Hk; cbn; lia.
  - reflexivity.
Defined.

(** C6 at the state reached when the first worker reports available. *)
Lemma workers_in_at_most_one_sequence_witness :
  (forall w, in_at_most_one_sequence example_pool_state w)
  /\ (forall e state state' a',
        handle 2 true e state example_pool_state = Ok (state', a') ->
        forall w, in_at_most_one_sequence a' w)
  /\ (forall state w,
        in_at_most_one_sequence (dispatch_tasks 2 state example_pool_state).2 w).
Proof.
  apply (workers_in_at_most_one_sequence 2 true example_pool_state eq_refl).
  apply (reachable_step 2 true (worker_available_event example_worker)
           example_state SchedulingAlgorithmState_init example_state).
  - apply reachable_init.
  - reflexivity.
Defined.

(** C10 at worker 7, idle, among the executing workers 3, 7 and 4. *)
Lemma handle_worker_available_precondition_witness :
  exists executing',
    handle_worker_available 2 true example_state example_busy_state example_worker
    = Ok (dispatch_tasks 2 example_state
            (set_available_workers
               (set_executing_workers example_busy_state executing') [7%N]))
    /\ (7%N ∉ executing')
    /\ (forall x, x <> 7%N -> (x ∈ executing') <-> (x ∈ [3%N; 7%N; 4%N]))
    /\ (7%N ∉ [3%N; 7%N; 4%N] -> executing' = [3%N; 7%N; 4%N]).
Proof.
  apply (proj2 (handle_worker_available_precondition 2 true example_state
                  example_busy_state example_worker)).
  - reflexivity.
  - apply not_elem_of_nil.
  - apply not_elem_of_nil.
  - refine (bool_decide_unpack (NoDup [3%N; 7%N; 4%N]) _). vm_compute. exact I.
Defined.

(** C10 as stated fails.  Worker 7 has no task in progress but is already in
    [available_workers]: with the debug assertions compiled in, the handler
    aborts on the first of them. *)
Lemma handle_worker_available_already_available :
  task_in_progress example_worker = None
  /\ client_ptr example_worker ∈ available_workers example_pool_state
  /\ handle_worker_available 2 true example_state example_pool_state example_worker
     = Fatal.
Proof. split; [reflexivity|]. split; [by left|]. vm_compute. reflexivity. Qed.

(** C4: the code aborts.  A task scheduled for actor 5 while the actor
    mapping has no entry for it is queued and logged, and then
    [dispatch_actor_task] fails its check on the mapping. *)
Theorem handle_actor_task_scheduled_unmapped_actor :
  actor_mapping example_state !! 5%N = None
  /\ handle_actor_task_scheduled 2 true example_state
       (SchedulingAlgorithmState_init) (spec (example_actor_task 0)) 64
     = Fatal.
Proof. split; reflexivity. Qed.

(** C5: the code keeps the cursors.  After [handle_object_available] for
    object 100, on which the waiting node 0 depends, the entry stored in
    [local_objects] still lists node 0 as a dependent task. *)
Theorem handle_object_available_keeps_dependent_tasks :
  exists state' a',
    handle_object_available 2 example_state example_fetching_state 100%N
    = Ok (state', a')
    /\ local_objects a' !! 100%N
       = Some {| object_id := 100%N; dependent_tasks := [0%nat] |}.
Proof. eexists _, _. split; reflexivity. Qed.

(** C7 with two cached tasks, one for the unknown actor 5 and one for actor
    6, which the mapping assigns to this local scheduler. *)
Lemma handle_actor_creation_notification_replays_witness :
  let state := with_actor_mapping example_state {[ 6%N := 9%N ]} in
  let unknown := example_spec 1%N 41%N 5%N 0 [] [0; 0] in
  let known := example_spec 1%N 42%N 6%N 0 [] [0; 0] in
  let a := set_cached SchedulingAlgorithmState_init [unknown; known] [64; 64] in
  handle_actor_creation_notification 2 true state a 6%N
  = ('(state', a') ← resubmit 2 true state a [(unknown, 64); (known, 64)];
     Ok (state',
         set_cached a' (drop 2 (cached_submitted_actor_tasks a'))
           (drop 2 (cached_submitted_actor_task_sizes a'))))
  /\ (forall state' a',
        handle_actor_creation_notification 2 true state a 6%N = Ok (state', a') ->
        cached_submitted_actor_tasks a'
        = (filter (actor_unknown state) [(unknown, 64); (known, 64)]).*1
        /\ cached_submitted_actor_task_sizes a'
           = (filter (actor_unknown state) [(unknown, 64); (known, 64)]).*2).
Proof.
  intros state unknown known a.
  apply (handle_actor_creation_notification_replays 2 true state a 6%N).
  reflexivity.
Defined.

(** C8 on a state where task 31 of driver 1 waits for object 100. *)
Lemma handle_driver_removed_idempotent_witness :
  exists a1,
    handle_driver_removed example_state example_fetching_state 1%N
    = Ok (example_state, a1)
    /\ handle_driver_removed example_state a1 1%N = Ok (example_state, a1).
Proof.
  destruct (handle_driver_removed_idempotent example_state example_fetching_state 1%N)
    as [Hagain Hfirst].
  destruct Hfirst as [a1 Ha1].
  - intros id entry it Hentry Hit.
    unfold example_fetching_state in Hentry. cbn [remote_objects] in Hentry.
    apply lookup_singleton_Some in Hentry as [<- <-].
    apply list_elem_of_singleton in Hit as ->. by eexists.
  - exists a1. split; [exact Ha1|]. by apply (Hagain example_state).
Defined.

(** C3 as stated fails.  With object 100 local and the dispatch queue
    [task 31 (reads 100); task 22], removing the object and making it available
    again leaves the dispatch queue in the order [task 22; task 31]. *)
Lemma object_round_trip_reorders_dispatch :
  is_Some (local_objects example_local_state !! 100%N)
  /\ exists state2 a2,
       round_trip 2 example_state example_local_state 100%N = Ok (state2, a2)
       /\ (dispatch_task_queue a2).*2 = [example_small_node.2; example_reader]
       /\ (dispatch_task_queue a2).*2 <> (dispatch_task_queue example_local_state).*2.
Proof.
  split; [by eexists|].
  eexists _, _. split; [vm_compute; reflexivity|]. split; [vm_compute; reflexivity|].
  intros Heq. vm_compute in Heq. discriminate Heq.
Qed.

Lemma example_local_state_ready : round_trip_ready example_local_state 100%N.
Proof.
  split.
  - reflexivity.
  - intros node Hnode. cbn in Hnode.
    repeat (apply elem_of_cons in Hnode as [->|Hnode]; [reflexivity|]).
    by apply elem_of_nil in Hnode.
  - intros node Hnode. by apply elem_of_nil in Hnode.
  - intros node Hnode. by apply elem_of_nil in Hnode.
  - intros node Hnode. cbn in Hnode.
    repeat (apply elem_of_cons in Hnode as [->|Hnode]; [vm_compute; lia|]).
    by apply elem_of_nil in Hnode.
Defined.

(** The amended C3 on the same state. *)
Lemma object_round_trip_witness :
  exists entry state2 a2,
    round_trip 2 example_state example_local_state 100%N = Ok (state2, a2)
    /\ (state2, a2)
       = (if decide (mentions 100%N
                       (waiting_task_queue example_local_state
                        ++ dispatch_task_queue example_local_state) = [])
          then (example_state, round_trip_requeued example_local_state 100%N entry)
          else dispatch_tasks 2
                 (if plasma_connected example_state
                  then emit example_state (PlasmaFetch [100%N])
                  else example_state)
                 (round_trip_requeued example_local_state 100%N entry))
    /\ (dispatch_task_queue (round_trip_requeued example_local_state 100%N entry)).*2
       = (filter (fun node => ~ depends_on 100%N node)
            (dispatch_task_queue example_local_state)
          ++ filter (depends_on 100%N) (dispatch_task_queue example_local_state)).*2
    /\ waiting_task_queue a2 = waiting_task_queue example_local_state
    /\ remote_objects a2 = remote_objects example_local_state
    /\ dom (local_objects a2) = dom (local_objects example_local_state)
    /\ (mentions 100%N
          (waiting_task_queue example_local_state
           ++ dispatch_task_queue example_local_state) = [] ->
        state2 = example_state
        /\ dispatch_task_queue a2 = dispatch_task_queue example_local_state).
Proof.
  apply (object_round_trip 2 example_state example_local_state 100%N).
  - by eexists.
  - exact example_local_state_ready.
Defined.

(** C9 on a node with four CPUs and a queued task that needs eight. *)
Lemma oversized_task_stays_queued_witness :
  (example_oversized_node
   ∈ dispatch_task_queue (dispatch_tasks 2 example_state example_oversized_state).2
   /\ forall size w,
        AssignTask (spec example_oversized_node.2) size w
        ∉ new_effects example_state
            (dispatch_tasks 2 example_state example_oversized_state).1)
  /\ (forall e state' a',
        queue_requires_nonnegative 2 (waiting_task_queue example_oversized_state) ->
        event_requires_nonnegative 2 e ->
        outlives e example_oversized_node ->
        handle 2 true e example_state example_oversized_state = Ok (state', a') ->
        example_oversized_node ∈ dispatch_task_queue a').
Proof.
  apply (oversized_task_stays_queued 2 true example_state example_oversized_state
           example_oversized_node).
  - intros [|[|k]] Hk; cbn; lia.
  - intros node Hnode. cbn in Hnode.
    repeat (apply elem_of_cons in Hnode as [->|Hnode];
            [intros [|[|k]] Hk; cbn; lia|]).
    by apply elem_of_nil in Hnode.
  - by left.
  - exists 0%nat. split; [lia|reflexivity].
Defined.

(** C9 as stated fails.  [dispatch_tasks] compares a requirement with what is
    available only.  With eight CPUs available on a node whose capacity is
    four, the task that needs eight is assigned to worker 7.  And from a state
    that respects the capacity, the assignment of a task that requires minus
    seven CPUs leaves eight available, and the task that needs eight is
    assigned next. *)
Lemma oversized_task_assigned :
  (exceeds_static 2 example_surplus_state (spec example_oversized_node.2)
   /\ example_oversized_node ∈ dispatch_task_queue example_oversized_state
   /\ new_effects example_surplus_state
        (dispatch_tasks 2 example_surplus_state example_oversized_state).1
      = [AssignTask (spec example_oversized_node.2) 64 (Some 7%N);
         FreeSpec (spec example_oversized_node.2)]
   /\ dispatch_task_queue
        (dispatch_tasks 2 example_surplus_state example_oversized_state).2
      = [example_small_node])
  /\ (capacity_respected 2 example_state
      /\ exceeds_static 2 example_state (spec example_oversized_node.2)
      /\ example_oversized_node ∈ dispatch_task_queue example_refund_state
      /\ new_effects example_state
           (dispatch_tasks 2 example_state example_refund_state).1
         = [AssignTask (spec example_refund_node.2) 64 (Some 8%N);
            FreeSpec (spec example_refund_node.2);
            AssignTask (spec example_oversized_node.2) 64 (Some 7%N);
            FreeSpec (spec example_oversized_node.2)]
      /\ dispatch_task_queue (dispatch_tasks 2 example_state example_refund_state).2
         = []).
Proof.
  split.
  - split; [exists 0%nat; split; [lia|reflexivity]|].
    split; [by left|]. split; vm_compute; reflexivity.
  - split; [intros [|[|k]] Hk; cbn; lia|].
    split; [exists 0%nat; split; [lia|reflexivity]|].
    split; [right; by left|]. split; vm_compute; reflexivity.
Qed.

(** ** Scenarios of the specification *)

(** S1.  A task that reads object 100 is scheduled here while the object is
    absent: it waits and a fetch is emitted; when the object arrives it moves
    to the dispatch queue; when worker 7 reports available it is assigned. *)
Example scenario_dependency_then_worker :
  exists state a,
    run 2 true
      [task_scheduled (spec example_reader) 64; object_available 100%N;
       worker_available_event example_worker]
      example_state SchedulingAlgorithmState_init
    = Ok (state, a)
    /\ waiting_task_queue a = [] /\ dispatch_task_queue a = []
    /\ remote_objects a = ∅
    /\ available_workers a = [] /\ executing_workers a = [7%N]
    /\ effects state
       = [TaskTableUpdate {| task_spec := spec example_reader; task_size := 64;
                             task_status := TASK_STATUS_QUEUED;
                             task_local_scheduler := 9%N |};
          PlasmaFetch [100%N];
          AssignTask (spec example_reader) 64 (Some 7%N);
          FreeSpec (spec example_reader)].
Proof. eexists _, _. split; [vm_compute; reflexivity|]. by vm_compute. Qed.

(** S3.  Actor 5 receives the task with counter 1 before the task with
    counter 0: nothing runs until counter 0 arrives, then 0 and 1 run in
    order, each when the actor's worker reports available. *)
Example scenario_actor_ordering :
  let state := with_actor_mapping example_state {[ 5%N := 9%N ]} in
  let actor_worker :=
    {| client_ptr := 70%N; task_in_progress := None; client_actor_id := 5%N |} in
  exists state' a info,
    run 2 true
      [actor_worker_connect 5%N 70%N; actor_worker_available actor_worker;
       actor_task_submitted (spec (example_actor_task 1)) 64;
       actor_task_submitted (spec (example_actor_task 0)) 64;
       actor_worker_available actor_worker]
      state SchedulingAlgorithmState_init
    = Ok (state', a)
    /\ local_actor_infos a !! 5%N = Some info
    /\ task_counter info = 2 /\ task_queue info = []
    /\ List.filter (fun e => match e with AssignTask _ _ _ => true | _ => false end)
         (effects state')
       = [AssignTask (spec (example_actor_task 0)) 64 (Some 70%N);
          AssignTask (spec (example_actor_task 1)) 64 (Some 70%N)].
Proof.
  intros state actor_worker. eexists _, _, _.
  split; [vm_compute; reflexivity|]. split; [vm_compute; reflexivity|].
  by vm_compute.
Qed.

(** ** Reachable states, at an example *)

Lemma example_mixed_state_reachable : reachable 2 true example_mixed_state.
Proof.
  eapply (run_reachable 2 true example_mixed_events example_state
            SchedulingAlgorithmState_init).
  - apply reachable_init.
  - vm_compute. reflexivity.
Defined.

Lemma object_tables_disjoint_witness :
  ~ (is_Some (local_objects example_mixed_state !! 100%N)
     /\ is_Some (remote_objects example_mixed_state !! 100%N))
  /\ ~ (is_Some (local_objects example_mixed_state !! 200%N)
        /\ is_Some (remote_objects example_mixed_state !! 200%N)).
Proof.
  split; apply (object_tables_disjoint 2 true example_mixed_state
                  example_mixed_state_reachable).
Defined.

Lemma remote_dependents_are_waiting_tasks_witness :
  let entry := {| object_id := 200%N; dependent_tasks := [1%nat] |} in
  object_id entry = 200%N
  /\ dependent_tasks entry <> []
  /\ forall it, it ∈ dependent_tasks entry ->
       exists node, deref (waiting_task_queue example_mixed_state) it = Ok node
                    /\ (it, node) ∈ waiting_task_queue example_mixed_state
                    /\ ArgByRef 200%N ∈ spec_args (spec node).
Proof.
  apply (remote_dependents_are_waiting_tasks 2 true example_mixed_state
           example_mixed_state_reachable 200%N).
  reflexivity.
Defined.

Lemma queues_sorted_by_readiness_witness :
  (forall node, node ∈ dispatch_task_queue example_mixed_state ->
     can_run example_mixed_state (spec node.2) = true
     /\ forall id, ArgByRef id ∈ spec_args (spec node.2) ->
                   is_Some (local_objects example_mixed_state !! id))
  /\ (forall node, node ∈ waiting_task_queue example_mixed_state ->
        can_run example_mixed_state (spec node.2) = false
        /\ exists id, ArgByRef id ∈ spec_args (spec node.2)
                      /\ local_objects example_mixed_state !! id = None).
Proof.
  exact (queues_sorted_by_readiness 2 true example_mixed_state
           example_mixed_state_reachable).
Defined.

Lemma waiting_tasks_are_registered_witness :
  exists entry, remote_objects example_mixed_state !! 200%N = Some entry
                /\ 1%nat ∈ dependent_tasks entry.
Proof.
  apply (waiting_tasks_are_registered 2 true example_mixed_state
           example_mixed_state_reachable 1%nat example_pair_reader 200%N).
  - by left.
  - right. by left.
  - reflexivity.
Defined.

Lemma handle_driver_removed_returns_witness :
  exists a',
    handle_driver_removed example_state example_mixed_state 1%N
    = Ok (example_state, a')
    /\ waiting_task_queue a'
       = remove_driver_tasks 1%N (waiting_task_queue example_mixed_state)
    /\ dispatch_task_queue a'
       = remove_driver_tasks 1%N (dispatch_task_queue example_mixed_state)
    /\ forall id entry it,
         remote_objects a' !! id = Some entry -> it ∈ dependent_tasks entry ->
         of_other_driver (waiting_task_queue example_mixed_state) 1%N it.
Proof.
  exact (handle_driver_removed_returns 2 true example_mixed_state example_state 1%N
           example_mixed_state_reachable).
Defined.

Lemma plain_task_handlers_return_witness :
  (exists state' a',
     handle_task_submitted 2 true example_state example_mixed_state
       (spec example_pair_reader) 64
     = Ok (state', a'))
  /\ (exists state' a',
        handle_task_scheduled 2 true example_state example_mixed_state
          (spec example_pair_reader) 64
        = Ok (state', a')).
Proof.
  destruct (plain_task_handlers_return 2 true example_mixed_state example_state
              (spec example_pair_reader) 64 example_mixed_state_reachable)
    as [Hsubmitted Hscheduled].
  split; [exact Hsubmitted|]. apply Hscheduled. intros _. split; [by eexists|reflexivity].
Defined.

(** ** Runs of [dispatch_tasks], at examples *)

Lemma dispatch_tasks_never_overdraws_witness :
  resources_nonnegative 2 example_state
  /\ resources_nonnegative 2 (dispatch_tasks 2 example_state example_dispatch_state).1.
Proof.
  assert (Hbefore : resources_nonnegative 2 example_state)
    by (intros [|[|k]] Hk; cbn; lia).
  split; [exact Hbefore|].
  exact (dispatch_tasks_never_overdraws 2 example_state example_dispatch_state Hbefore).
Defined.

Lemma dispatch_tasks_idempotent_witness :
  let r := dispatch_tasks 2 example_state example_dispatch_state in
  (dispatch_tasks 2 r.1 r.2).2 = r.2
  /\ dynamic_resources (dispatch_tasks 2 r.1 r.2).1 = dynamic_resources r.1.
Proof.
  apply (dispatch_tasks_idempotent 2 example_state example_dispatch_state).
  intros node Hnode. cbn in Hnode.
  repeat (apply elem_of_cons in Hnode as [->|Hnode];
          [intros [|[|k]] Hk; cbn; lia|]).
  by apply elem_of_nil in Hnode.
Defined.

Lemma plain_tasks_assigned_when_runnable_witness :
  exists state' a',
    handle 2 true (worker_available_event example_worker) example_state
      example_mixed_state
    = Ok (state', a')
    /\ AssignTask (spec example_reader) 64 (Some 7%N) ∈ new_effects example_state state'
    /\ can_run a' (spec example_reader) = true
    /\ forall id, ArgByRef id ∈ spec_args (spec example_reader) ->
                  is_Some (local_objects a' !! id).
Proof.
  eexists _, _. split; [vm_compute; reflexivity|].
  assert (Hassigned : AssignTask (spec example_reader) 64 (Some 7%N)
                      ∈ [AssignTask (spec example_reader) 64 (Some 7%N);
                         FreeSpec (spec example_reader)]) by (by left).
  split; [exact Hassigned|].
  eapply (plain_tasks_assigned_when_runnable 2 true
            (worker_available_event example_worker) example_state _
            example_mixed_state _ (spec example_reader) 64 (Some 7%N)
            example_mixed_state_reachable I).
  - vm_compute. reflexivity.
  - exact Hassigned.
Defined.

(** ** The worker vectors, at examples *)

Lemma example_busy_state_disjoint : workers_disjoint example_busy_state.
Proof.
  unfold workers_disjoint. apply (bool_decide_unpack _). vm_compute. exact I.
Defined.

Lemma handle_worker_removed_removes_witness :
  exists a',
    handle_worker_removed true example_state example_busy_state example_worker
    = Ok (example_state, a')
    /\ (client_ptr example_worker
        ∉ available_workers a' ++ executing_workers a' ++ blocked_workers a')
    /\ (forall x, x <> client_ptr example_worker ->
          (x ∈ available_workers a' <-> x ∈ available_workers example_busy_state)
          /\ (x ∈ executing_workers a' <-> x ∈ executing_workers example_busy_state)
          /\ (x ∈ blocked_workers a' <-> x ∈ blocked_workers example_busy_state))
    /\ waiting_task_queue a' = waiting_task_queue example_busy_state
    /\ dispatch_task_queue a' = dispatch_task_queue example_busy_state.
Proof.
  destruct (handle_worker_removed_removes true example_state example_busy_state
              example_worker) as [_ Hplain].
  apply Hplain; [reflexivity|exact example_busy_state_disjoint].
Defined.

Lemma worker_blocked_then_unblocked_witness :
  exists a1,
    handle_worker_blocked 2 true example_state example_busy_state example_worker
    = Ok (example_state, a1)
    /\ exists a2,
         handle_worker_unblocked true example_state a1 example_worker
         = Ok (example_state, a2)
         /\ blocked_workers a2 = blocked_workers example_busy_state
         /\ executing_workers a2 = executing_workers a1 ++ [client_ptr example_worker]
         /\ available_workers a2 = available_workers a1
         /\ waiting_task_queue a2 = waiting_task_queue a1
         /\ dispatch_task_queue a2 = dispatch_task_queue a1.
Proof.
  eexists. split; [vm_compute; reflexivity|].
  eapply (worker_blocked_then_unblocked 2 true example_state example_state
            example_state example_busy_state _ example_worker
            example_busy_state_disjoint).
  vm_compute. reflexivity.
Defined.

(** ** The actors, at an example *)

Lemma example_queued_actor_state_reachable : reachable 2 true example_queued_actor_state.
Proof.
  eapply (run_reachable 2 true example_queued_actor_events
            (with_actor_mapping example_state {[ 5%N := 9%N ]})
            SchedulingAlgorithmState_init).
  - apply reachable_init.
  - vm_compute. reflexivity.
Defined.

Lemma actor_queues_in_counter_order_witness :
  actor_id example_queued_actor_info = 5%N
  /\ counters_ascending (task_queue example_queued_actor_info).
Proof.
  apply (actor_queues_in_counter_order 2 true example_queued_actor_state
           example_queued_actor_state_reachable 5%N example_queued_actor_info).
  vm_compute. reflexivity.
Defined.

Lemma cached_actor_tasks_aligned_witness :
  length (cached_submitted_actor_tasks example_queued_actor_state)
  = length (cached_submitted_actor_task_sizes example_queued_actor_state)
  /\ (forall s, s ∈ cached_submitted_actor_tasks example_queued_actor_state ->
        CHECK (negb (ActorID_equal (TaskSpec_actor_id s) NIL_ACTOR_ID)) = Ok tt)
  /\ CHECK (bool_decide
              (length (cached_submitted_actor_tasks example_queued_actor_state)
               = length (cached_submitted_actor_task_sizes example_queued_actor_state)))
     = Ok tt.
Proof.
  exact (cached_actor_tasks_aligned 2 true example_queued_actor_state
           example_queued_actor_state_reachable).
Defined.

Lemma example_twice_state_reachable : reachable 2 true example_twice_state.
Proof.
  eapply (run_reachable 2 true example_twice_events example_state
            SchedulingAlgorithmState_init).
  - apply reachable_init.
  - vm_compute. reflexivity.
Defined.

Lemma handle_object_available_revisits_erased_node_witness :
  handle_object_available 2 example_state example_twice_state 100%N = Undefined.
Proof.
  apply (handle_object_available_revisits_erased_node 2 true example_state
           example_twice_state 100%N
           {| object_id := 100%N; dependent_tasks := [0%nat; 0%nat] |}
           0%nat example_twice_reader [] [] []).
  - exact example_twice_state_reachable.
  - vm_compute. reflexivity.
  - reflexivity.
  - left.
  - intros id' Hin. left. vm_compute in Hin.
    apply elem_of_cons in Hin as [Hin|Hin]; [congruence|].
    apply elem_of_cons in Hin as [Hin|Hin]; [congruence|].
    by apply elem_of_nil in Hin.
Defined.

Lemma handle_object_available_returns_witness :
  handle_object_available 2 example_state example_mixed_state 100%N = Fatal
  /\ exists state' a',
       handle_object_available 2 example_state example_mixed_state 200%N
       = Ok (state', a').
Proof.
  split.
  - apply (handle_object_available_returns 2 true example_state example_mixed_state
             100%N example_mixed_state_reachable).
    vm_compute. by eexists.
  - apply (handle_object_available_returns 2 true example_state example_mixed_state
             200%N example_mixed_state_reachable).
    + vm_compute. reflexivity.
    + refine (bool_decide_unpack _ _). vm_compute. exact I.
Defined.

Lemma object_notification_not_repeatable_witness :
  exists state' a',
    handle 2 true (object_removed 100%N) example_state example_mixed_state
    = Ok (state', a')
    /\ handle 2 true (object_removed 100%N) example_state a' = Fatal.
Proof.
  eexists _, _. split; [vm_compute; reflexivity|].
  eapply (object_notification_not_repeatable 2 true (object_removed 100%N)
            example_state _ example_state example_mixed_state _ 100%N).
  - exact example_mixed_state_reachable.
  - by right.
  - vm_compute. reflexivity.
Defined.

Lemma handle_object_removed_demotes_witness :
  let a := example_mixed_state in
  exists state' a',
    handle_object_removed example_state a 100%N = Ok (state', a')
    /\ local_objects a' = delete 100%N (local_objects a)
    /\ dispatch_task_queue a'
       = filter (fun node => ~ depends_on 100%N node) (dispatch_task_queue a)
    /\ waiting_task_queue a'
       = waiting_task_queue a
         ++ renumber (next_node a) (filter (depends_on 100%N) (dispatch_task_queue a))
    /\ remote_objects a'
       = (if decide (mentions 100%N (waiting_task_queue a') = [])
          then remote_objects a
          else <[100%N := {| object_id := 100%N;
                             dependent_tasks := mentions 100%N (waiting_task_queue a') |}]>
                 (remote_objects a))
    /\ new_effects example_state state'
       = (if decide (mentions 100%N (waiting_task_queue a') = []) then []
          else if plasma_connected example_state then [PlasmaFetch [100%N]] else []).
Proof.
  apply (handle_object_removed_demotes 2 true example_state example_mixed_state 100%N).
  - exact example_mixed_state_reachable.
  - vm_compute. by eexists.
Defined.

Lemma fetch_object_timeout_handler_requests_witness :
  exists ids,
    NoDup ids
    /\ (forall id, id ∈ ids <-> is_Some (remote_objects example_mixed_state !! id))
    /\ new_effects example_state
         (fetch_object_timeout_handler example_state example_mixed_state)
       = PlasmaFetch ids :: map ReconstructObject ids.
Proof.
  exact (fetch_object_timeout_handler_requests 2 true example_state
           example_mixed_state example_mixed_state_reachable).
Defined.

Lemma plain_task_is_placed_witness :
  let e := task_scheduled (spec example_pair_reader) 64 in
  exists state' a',
    handle 2 true e example_state SchedulingAlgorithmState_init = Ok (state', a')
    /\ ((0%nat, example_pair_reader) ∈ waiting_task_queue a'
        \/ (0%nat, example_pair_reader) ∈ dispatch_task_queue a'
        \/ (exists w, AssignTask (spec example_pair_reader) 64 (Some w)
                      ∈ new_effects example_state state')
        \/ (e = task_submitted (spec example_pair_reader) 64
            /\ is_Some (db example_state)
            /\ global_scheduler_exists example_state = true
            /\ TaskTableAdd {| task_spec := spec example_pair_reader; task_size := 64;
                               task_status := TASK_STATUS_WAITING;
                               task_local_scheduler := NIL_ID |}
               ∈ new_effects example_state state')).
Proof.
  eexists _, _. split; [vm_compute; reflexivity|].
  eapply (plain_task_is_placed 2 true
            (task_scheduled (spec example_pair_reader) 64) example_state _
            SchedulingAlgorithmState_init _ (spec example_pair_reader) 64).
  - apply reachable_init.
  - by right.
  - vm_compute. reflexivity.
Defined.

Lemma handle_actor_worker_disconnect_frees_queue_witness :
  exists state',
    let a' := set_local_actor_infos example_queued_actor_state
                (delete 5%N (local_actor_infos example_queued_actor_state)) in
    handle_actor_worker_disconnect example_state example_queued_actor_state 5%N
    = Ok (state', a')
    /\ new_effects example_state state'
       = (if decide (task_queue example_queued_actor_info = []) then []
          else [LogWarn "Removing actor with remaining tasks."])
         ++ map (fun task => FreeSpec (spec task)) (task_queue example_queued_actor_info)
    /\ (forall state2, handle_actor_worker_disconnect state2 a' 5%N = Fatal).
Proof.
  apply (handle_actor_worker_disconnect_frees_queue example_state
           example_queued_actor_state 5%N example_queued_actor_info).
  vm_compute. reflexivity.
Defined.

Lemma actor_worker_connect_then_disconnect_witness :
  let state := with_actor_mapping example_state {[ 6%N := 9%N ]} in
  exists a1,
    handle_actor_worker_connect 2 state SchedulingAlgorithmState_init 6%N 7%N
    = Ok (state, a1)
    /\ local_actor_infos a1 !! 6%N
       = Some {| actor_id := 6%N; task_counter := 0; task_queue := [];
                 worker := Some 7%N; worker_available := false |}
    /\ handle_actor_worker_disconnect state a1 6%N
       = Ok (state, SchedulingAlgorithmState_init).
Proof.
  eexists. split; [vm_compute; reflexivity|].
  refine (proj2 (actor_worker_connect_then_disconnect 2
                   (with_actor_mapping example_state {[ 6%N := 9%N ]}) _
                   SchedulingAlgorithmState_init _ 6%N 7%N _ _)).
  - vm_compute. reflexivity.
  - vm_compute. reflexivity.
Defined.

Lemma provide_scheduler_info_after_object_removed_witness :
  exists state' a',
    handle_object_removed example_state example_mixed_state 100%N = Ok (state', a')
    /\ provide_scheduler_info 2 state' a'
       = provide_scheduler_info 2 example_state example_mixed_state.
Proof.
  eexists _, _. split; [vm_compute; reflexivity|].
  eapply (provide_scheduler_info_after_object_removed 2 true example_state _
            example_mixed_state _ 100%N).
  - exact example_mixed_state_reachable.
  - vm_compute. reflexivity.
Defined.
